(** * The sam command engine of vis: transcript, lexer, executor, applier

    A shallow embedding of the structural command engine (sam.c and the
    command file included from it) together with the properties of its
    transcript, lexer, token-stream validation, address evaluation, guard
    commands, executor and apply phase.

    Conventions of the embedding:
    - [size_t] and [ptrdiff_t] values are integers of [Z]; where the C code
      performs arithmetic on them the wrap-around is written out
      ([size_wrap], [ptrdiff_wrap]).
    - A singly linked list of [Change] nodes is a Rocq list in link order;
      a pointer to a node of that list is its index.
    - [ASSERT] traps: a function that can reach a failing [ASSERT] reports
      the trap in its result ([None], [Trapped], [AssertFailed]). *)

From Stdlib Require Import ZArith List Bool Lia Ascii String.
From stdpp Require Import base tactics option list sorting gmap strings.

Local Open Scope Z_scope.

(** ** Machine integers *)

Definition SIZE_MOD : Z := 2 ^ 64.

(** [EPOS] is [(size_t)-1] (text.h). *)
Definition EPOS : Z := SIZE_MOD - 1.

Definition PTRDIFF_MAX : Z := 2 ^ 63 - 1.
Definition PTRDIFF_MIN : Z := - 2 ^ 63.

(** Reduction of an integer to an unsigned 64-bit [size_t]. *)
Definition size_wrap (z : Z) : Z := z mod SIZE_MOD.

(** Reduction of an integer to a signed 64-bit [ptrdiff_t]. *)
Definition ptrdiff_wrap (z : Z) : Z :=
  (z + 2 ^ 63) mod SIZE_MOD - 2 ^ 63.

(** ** File ranges (text.h) *)

Record Filerange := mkRange { r_start : Z; r_end : Z }.

(** [#define text_range_valid(r)
      ((r).start != EPOS && (r).end != EPOS && (r).start <= (r).end)] *)
Definition text_range_valid (r : Filerange) : bool :=
  negb (r_start r =? EPOS) && negb (r_end r =? EPOS) && (r_start r <=? r_end r).

(** [#define text_range_size(r) (text_range_valid(r) ? (r).end - (r).start : 0)] *)
Definition text_range_size (r : Filerange) : Z :=
  if text_range_valid r then size_wrap (r_end r - r_start r) else 0.

(** [#define text_range_empty() (Filerange){.start = EPOS, .end = EPOS}] *)
Definition text_range_empty : Filerange := mkRange EPOS EPOS.

(** text.h declares [text_range_new] as "create new range
    [min(a,b), max(a,b)]"; its body lives outside the files at hand. *)
Definition text_range_new (a b : Z) : Filerange :=
  mkRange (Z.min a b) (Z.max a b).

(** Two byte ranges overlap when each one starts strictly below the end of
    the other. *)
Definition ranges_overlap (a b : Filerange) : Prop :=
  r_start a < r_end b /\ r_start b < r_end a.

Definition ranges_overlapb (a b : Filerange) : bool :=
  (r_start a <? r_end b) && (r_start b <? r_end a).

(** ** Transcript data model *)

(** [enum ChangeType]: [TRANSCRIPT_INSERT = 1 << 0],
    [TRANSCRIPT_DELETE = 1 << 1], [TRANSCRIPT_CHANGE] is both bits. *)
Inductive ChangeType := TRANSCRIPT_INSERT | TRANSCRIPT_DELETE | TRANSCRIPT_CHANGE.

Definition ChangeType_bits (ty : ChangeType) : Z :=
  match ty with
  | TRANSCRIPT_INSERT => Z.shiftl 1 0
  | TRANSCRIPT_DELETE => Z.shiftl 1 1
  | TRANSCRIPT_CHANGE => Z.lor (Z.shiftl 1 0) (Z.shiftl 1 1)
  end.

(** [c->type & TRANSCRIPT_DELETE] and [c->type & TRANSCRIPT_INSERT]. *)
Definition type_has (ty flag : ChangeType) : bool :=
  negb (Z.land (ChangeType_bits ty) (ChangeType_bits flag) =? 0).

Definition ChangeType_eqb (a b : ChangeType) : bool :=
  ChangeType_bits a =? ChangeType_bits b.

(** [enum SamError], in the order of the message table of [sam_error]. *)
Inductive SamError :=
| SAM_ERR_OK | SAM_ERR_MEMORY | SAM_ERR_ADDRESS | SAM_ERR_NO_ADDRESS
| SAM_ERR_UNMATCHED_BRACE | SAM_ERR_REGEX | SAM_ERR_TEXT | SAM_ERR_SHELL
| SAM_ERR_COMMAND | SAM_ERR_EXECUTE | SAM_ERR_NEWLINE | SAM_ERR_MARK
| SAM_ERR_CONFLICT | SAM_ERR_WRITE_CONFLICT | SAM_ERR_LOOP_INVALID_CMD
| SAM_ERR_GROUP_INVALID_CMD | SAM_ERR_COUNT.

Definition SamError_is_ok (e : SamError) : bool :=
  match e with SAM_ERR_OK => true | _ => false end.

(** Windows and selections are referred to by identity only. *)
Definition Win := nat.
Definition Selection := nat.

(** [struct Change]; the [next] link is the position in the list. *)
Record Change := mkChange {
  c_type : ChangeType;
  c_win : Win;
  c_sel : option Selection;
  c_range : Filerange;
  c_data : list Z;
  c_len : Z;
  c_count : Z
}.

(** [struct Transcript]: head of the list, the most recently linked node (an
    index into [changes], [None] for the null pointer) and the error. *)
Record Transcript := mkTranscript {
  changes : list Change;
  latest : option nat;
  error : SamError
}.

(** [(Transcript){0}], the state every file starts a [sam_cmd] call with. *)
Definition transcript_zero : Transcript := mkTranscript [] None SAM_ERR_OK.

(** ** [change_new] *)

(** The walk [while (next && next->range.end <= range->start)]: the number of
    nodes stepped over, starting from [next]. *)
Fixpoint skip_before (next : list Change) (start : Z) : nat :=
  match next with
  | c :: rest =>
      if r_end (c_range c) <=? start then S (skip_before rest start) else O
  | [] => O
  end.

(** Where the walk begins: behind [t->latest] when that node ends at or before
    the new range, at the head otherwise. [latest] always points into the
    list ([transcript_wf] below); an index outside it is read as the null
    pointer. *)
Definition walk_origin (t : Transcript) (range : Filerange) : nat :=
  match latest t with
  | Some i =>
      match changes t !! i with
      | Some l => if r_end (c_range l) <=? r_start range then S i else O
      | None => O
      end
  | None => O
  end.

(** The link [*prev] the new node is stored into, as an index. *)
Definition insertion_index (t : Transcript) (range : Filerange) : nat :=
  let origin := walk_origin t range in
  (origin + skip_before (drop origin (changes t)) (r_start range))%nat.

(** [change_new]. [calloc_ok] tells whether the allocation of the node
    succeeds. The result is the index of the new node (the returned pointer)
    and the transcript afterwards. *)
Definition change_new (t : Transcript) (type : ChangeType) (range : Filerange)
    (win : Win) (sel : option Selection) (calloc_ok : bool)
    : option nat * Transcript :=
  if text_range_valid range then
    let j := insertion_index t range in
    let conflict :=
      match changes t !! j with
      | Some next => r_start (c_range next) <? r_end range
      | None => false
      end in
    if conflict then
      (None, mkTranscript (changes t) (latest t) SAM_ERR_CONFLICT)
    else if calloc_ok then
      let result := mkChange type win sel range [] 0 0 in
      (Some j,
       mkTranscript (take j (changes t) ++ result :: drop j (changes t))
                    (Some j) (error t))
    else (None, t)
  else (None, t).

(** [sam_transcript_error]. *)
Definition sam_transcript_error (t : Transcript) (err : SamError)
    : bool * Transcript :=
  let t' := match changes t with
            | [] => t
            | _ :: _ => mkTranscript (changes t) (latest t) err
            end in
  (negb (SamError_is_ok (error t')), t').

(** Assignment of [data], [len] and [count] through the pointer returned by
    [change_new]. *)
Definition change_fill (c : Change) (data : list Z) (len count : Z) : Change :=
  mkChange (c_type c) (c_win c) (c_sel c) (c_range c) data len count.

Definition transcript_fill (t : Transcript) (j : nat) (data : list Z)
    (len count : Z) : Transcript :=
  mkTranscript (alter (fun c => change_fill c data len count) j (changes t))
               (latest t) (error t).

(** [sam_insert], [sam_delete], [sam_change] on the transcript of the
    window's file. *)
Definition sam_insert (t : Transcript) (win : Win) (sel : option Selection)
    (pos : Z) (data : list Z) (len count : Z) (calloc_ok : bool)
    : bool * Transcript :=
  let range := text_range_new pos pos in
  match change_new t TRANSCRIPT_INSERT range win sel calloc_ok with
  | (Some j, t') => (true, transcript_fill t' j data len count)
  | (None, t') => (false, t')
  end.

Definition sam_delete (t : Transcript) (win : Win) (sel : option Selection)
    (range : Filerange) (calloc_ok : bool) : bool * Transcript :=
  match change_new t TRANSCRIPT_DELETE range win sel calloc_ok with
  | (Some _, t') => (true, t')
  | (None, t') => (false, t')
  end.

Definition sam_change (t : Transcript) (win : Win) (sel : option Selection)
    (range : Filerange) (data : list Z) (len count : Z) (calloc_ok : bool)
    : bool * Transcript :=
  match change_new t TRANSCRIPT_CHANGE range win sel calloc_ok with
  | (Some j, t') => (true, transcript_fill t' j data len count)
  | (None, t') => (false, t')
  end.

(** ** Bytes, slices and tokens *)

(** The code of a character constant, as the [u32] code point the lexer
    compares against. *)
Definition chr (c : ascii) : Z := Z.of_N (N_of_ascii c).

(** A command line as its bytes. *)
Definition bytes_of_string (s : string) : list Z :=
  map chr (list_ascii_of_string s).

(** util.h character classes. *)
Definition BETWEEN (x a b : Z) : bool := (a <=? x) && (x <=? b).
Definition ISALPHA (c : Z) : bool :=
  BETWEEN c (chr "a") (chr "z") || BETWEEN c (chr "A") (chr "Z").
Definition ISDIGIT (c : Z) : bool := BETWEEN c (chr "0") (chr "9").
Definition ISPUNCT (c : Z) : bool :=
  BETWEEN c (chr "!") (chr "~") && negb (ISALPHA c || ISDIGIT c).
Definition ISSPACE (c : Z) : bool :=
  (c =? chr " ") || (c =? 10) || (c =? 9) || (c =? 13).

(** [IS_SAM_DELIMITER]. *)
Definition IS_SAM_DELIMITER (cp : Z) : bool :=
  (cp =? chr "/") || (cp =? chr "!") || (cp =? chr ";") || (cp =? chr ":")
  || (cp =? chr "%") || (cp =? chr "#") || (cp =? chr "?") || (cp =? chr ",")
  || (cp =? chr ".") || (cp =? chr "+") || (cp =? chr "-") || (cp =? chr "=")
  || (cp =? chr "'").

(** [IS_SAM_ADDRESS_DELIMITER]. *)
Definition IS_SAM_ADDRESS_DELIMITER (cp : Z) : bool :=
  (cp =? chr ";") || (cp =? chr ",") || (cp =? chr "+") || (cp =? chr "-").

(** [s8]: [data] is kept as the offset of the first byte from the start of
    the command line, together with the [len] bytes it points at. *)
Record s8 := mkS8 { s8_data : Z; s8_bytes : list Z }.

Definition s8_len (raw : s8) : Z := Z.of_nat (length (s8_bytes raw)).

Inductive SamTokenType :=
| ST_INVALID | ST_DELIMITER | ST_GROUP_END | ST_GROUP_START | ST_NUMBER | ST_STRING.

Definition SamTokenType_eqb (a b : SamTokenType) : bool :=
  match a, b with
  | ST_INVALID, ST_INVALID | ST_DELIMITER, ST_DELIMITER
  | ST_GROUP_END, ST_GROUP_END | ST_GROUP_START, ST_GROUP_START
  | ST_NUMBER, ST_NUMBER | ST_STRING, ST_STRING => true
  | _, _ => false
  end.

(** [SamToken]: [start] is an offset into the command line. *)
Record SamToken := mkToken {
  tok_start : Z;
  tok_length : Z;
  tok_type : SamTokenType
}.

(** The outcome of code that may hit a failing [ASSERT]; [OutOfFuel] is
    an artefact of the loop bound and never the outcome of [sam_lex]. *)
Inductive Outcome (A : Type) :=
| Done (a : A)
| Trapped
| OutOfFuel.
Arguments Done {A} a.
Arguments Trapped {A}.
Arguments OutOfFuel {A}.

(** [consume]: [ASSERT(raw.len >= count)], then advance. *)
Definition consume (raw : s8) (count : nat) : option s8 :=
  if (count <=? length (s8_bytes raw))%nat
  then Some (mkS8 (s8_data raw + Z.of_nat count) (drop count (s8_bytes raw)))
  else None.

(** [peek]: the first byte, [(u32)-1] on an empty slice. *)
Definition peek (raw : s8) : Z :=
  match s8_bytes raw with
  | c :: _ => c
  | [] => 2 ^ 32 - 1
  end.

(** The number of leading digits counted by the loop of [consume_digits]. *)
Fixpoint count_digits (bytes : list Z) : nat :=
  match bytes with
  | c :: rest => if ISDIGIT c then S (count_digits rest) else O
  | [] => O
  end.

Definition consume_digits (raw : s8) : option s8 :=
  consume raw (count_digits (s8_bytes raw)).

(** [sam_token_push]: append unless the token is empty. *)
Definition sam_token_push (s : list SamToken) (tok : SamToken) : list SamToken :=
  if 0 <? tok_length tok then s ++ [tok] else s.

(** [sam_token_at]: a fresh token of length 1 at the head of [raw]; the
    caller may still change its length, so the token is handed back next to
    the stream it will be appended to. *)
Definition sam_token_at (type : SamTokenType) (raw : s8) : option SamToken :=
  if (0 <? s8_len raw) then Some (mkToken (s8_data raw) 1 type) else None.

Definition push_opt (s : list SamToken) (tok : option SamToken) : list SamToken :=
  match tok with Some t => s ++ [t] | None => s end.

Definition fresh_accum (raw : s8) : SamToken := mkToken (s8_data raw) 0 ST_STRING.

(** One more byte for the accumulator. *)
Definition accum_grow (accum : SamToken) : SamToken :=
  mkToken (tok_start accum) (tok_length accum + 1) (tok_type accum).

(** The body of [sam_lex]: [while (raw.len > 0) { ... }] followed by the
    final [sam_token_push]. Every round consumes at least one byte, so a
    bound of [length raw] rounds is never reached. *)
Fixpoint sam_lex_loop (fuel : nat) (s : list SamToken) (raw : s8)
    (accum : SamToken) : Outcome (list SamToken) :=
  match s8_bytes raw with
  | [] => Done (sam_token_push s accum)
  | _ :: _ =>
    match fuel with
    | O => OutOfFuel
    | S fuel' =>
      let cp := peek raw in
      if ISSPACE cp then
        let s := sam_token_push s accum in
        match consume raw 1 with
        | Some raw => sam_lex_loop fuel' s raw (fresh_accum raw)
        | None => Trapped
        end
      else if ISDIGIT cp then
        let s := sam_token_push s accum in
        let token := sam_token_at ST_NUMBER raw in
        match consume_digits raw with
        | Some raw' =>
            let token :=
              option_map (fun t => mkToken (tok_start t)
                                           (s8_data raw' - tok_start t)
                                           (tok_type t)) token in
            sam_lex_loop fuel' (push_opt s token) raw' (fresh_accum raw')
        | None => Trapped
        end
      else if cp =? chr "{" then
        let s := sam_token_push s accum in
        let s := push_opt s (sam_token_at ST_GROUP_START raw) in
        match consume raw 1 with
        | Some raw =>
            match consume raw 1 with
            | Some raw => sam_lex_loop fuel' s raw (fresh_accum raw)
            | None => Trapped
            end
        | None => Trapped
        end
      else if cp =? chr "}" then
        let s := sam_token_push s accum in
        let s := push_opt s (sam_token_at ST_GROUP_END raw) in
        match consume raw 1 with
        | Some raw =>
            match consume raw 1 with
            | Some raw => sam_lex_loop fuel' s raw (fresh_accum raw)
            | None => Trapped
            end
        | None => Trapped
        end
      else if ((cp =? chr ">") || (cp =? chr "<") || (cp =? chr "|"))
              && (tok_length accum =? 0) then
        let accum := accum_grow accum in
        match consume raw 1 with
        | Some raw =>
            sam_lex_loop fuel' (sam_token_push s accum) raw (fresh_accum raw)
        | None => Trapped
        end
      else if IS_SAM_DELIMITER cp then
        let s := sam_token_push s accum in
        let s := push_opt s (sam_token_at ST_DELIMITER raw) in
        match consume raw 1 with
        | Some raw => sam_lex_loop fuel' s raw (fresh_accum raw)
        | None => Trapped
        end
      else
        match consume raw 1 with
        | Some raw => sam_lex_loop fuel' s raw (accum_grow accum)
        | None => Trapped
        end
    end
  end.

(** [sam_lex] on a stream without tokens yet. *)
Definition sam_lex (line : list Z) : Outcome (list SamToken) :=
  let raw := mkS8 0 line in
  sam_lex_loop (length line) [] raw (fresh_accum raw).

(** The bytes of the command line a token denotes. *)
Definition token_slice (line : list Z) (t : SamToken) : list Z :=
  take (Z.to_nat (tok_length t)) (drop (Z.to_nat (tok_start t)) line).

Definition tokens_concat (line : list Z) (ts : list SamToken) : list Z :=
  concat (map (token_slice line) ts).

(** The command line with its ASCII white space dropped. *)
Definition drop_whitespace (line : list Z) : list Z :=
  filter (fun c => ISSPACE c = false) line.

(** The number of tokens whose slice contains the byte at offset [i]. *)
Definition cover_count (ts : list SamToken) (i : Z) : nat :=
  length (filter (fun t => tok_start t <= i < tok_start t + tok_length t) ts).

(** ** Token stream validation *)

(** [i32] wrap-around of the nesting counter. *)
Definition i32_wrap (z : Z) : Z := (z + 2 ^ 31) mod 2 ^ 32 - 2 ^ 31.

(** The [for] loop of [validate_token_stream]: it runs while [result] is
    set and hands back the final [result] and [nesting]. *)
Fixpoint validate_loop (tokens : list SamToken) (result : bool) (nesting : Z)
    : bool * Z :=
  match tokens with
  | [] => (result, nesting)
  | t :: rest =>
      if result then
        match tok_type t with
        | ST_INVALID => validate_loop rest false nesting
        | ST_GROUP_START => validate_loop rest result (i32_wrap (nesting + 1))
        | ST_GROUP_END => validate_loop rest result (i32_wrap (nesting - 1))
        | _ => validate_loop rest result nesting
        end
      else (result, nesting)
  end.

(** [validate_token_stream]: the result of the loop is overwritten by
    [result = nesting == 0]. *)
Definition validate_token_stream (tokens : list SamToken) : bool :=
  let result := (0 <? Z.of_nat (length tokens)) in
  let '(_, nesting) := validate_loop tokens result 0 in
  let result := (nesting =? 0) in
  result.

(** The number of tokens of a given type. *)
Definition count_type (ty : SamTokenType) (tokens : list SamToken) : nat :=
  length (filter (fun t => SamTokenType_eqb (tok_type t) ty = true) tokens).

(** What the specification asks of a stream: as many group starts as group ends
    and no invalid token. *)
Definition balanced_without_invalid (tokens : list SamToken) : Prop :=
  count_type ST_GROUP_START tokens = count_type ST_GROUP_END tokens
  /\ count_type ST_INVALID tokens = O.

(** ** Collaborators *)

(** Compiled regular expressions, marks and mark identifiers are handles. *)
Definition Regex := nat.
Definition Mark := Z.
Definition VisMark := nat.

(** The text buffer and its helpers are external to the command engine.
    Only their signatures matter here: the piece-table text, the motions
    and text objects, the regex search, and [text_range_union], whose body
    is not part of the files at hand. Functions returning a status that the
    callers below ignore are modelled by their effect on the text. *)
Class Collaborators := {
  Text : Type;
  text_size : Text -> Z;
  text_pos_by_lineno : Text -> Z -> Z;
  text_lineno_by_pos : Text -> Z -> Z;
  text_line_next : Text -> Z -> Z;
  (** [text_byte_get]: the byte at a position, if there is one. *)
  text_byte_get : Text -> Z -> option Z;
  text_mark_get : Text -> Mark -> Z;
  text_object_search_forward : Text -> Z -> option Regex -> Filerange;
  text_object_search_backward : Text -> Z -> option Regex -> Filerange;
  (** [text_search_range_forward] with one capture: [Some m] when it
      returns 0 and stores the match [m] in [captures[0]]. *)
  text_search_range_forward : Text -> Z -> Z -> Regex -> option Filerange;
  text_range_union : Filerange -> Filerange -> Filerange;
  text_delete_range : Text -> Filerange -> Text;
  text_insert : Text -> Z -> list Z -> Z -> Text;
  (** [vis_file_snapshot] as far as the text is concerned. *)
  text_snapshot : Text -> Text;
  (** [view_selections_number]: the ordinal of a selection. *)
  view_selections_number : Selection -> nat
}.

(** ** Addresses *)

(** [AddressSide]: the tag [type] together with the member of the union [u]
    that belongs to it. *)
Inductive AddressSide :=
| AT_INVALID
| AT_BYTE (number : Z)
| AT_CHARACTER (character : Z)
| AT_LINE (number : Z)
| AT_MARK (mark : VisMark)
| AT_REGEX_BACKWARD (regex : option Regex)
| AT_REGEX_FORWARD (regex : option Regex).

Definition is_AT_INVALID (side : AddressSide) : bool :=
  match side with AT_INVALID => true | _ => false end.

(** [Address]; [delimeter] is spelled as in the source. *)
Record Address := mkAddress {
  left : AddressSide;
  right : AddressSide;
  delimeter : Z
}.

(** The part of [File] the engine reads: the text, the per-mark arrays of
    selection regions (only the cursor mark of a region is read) and the
    transcript. *)
Record File `{Collaborators} := mkFile {
  f_internal : bool;
  f_text : Text;
  f_marks : VisMark -> nat -> option Mark;
  f_transcript : Transcript
}.
Arguments mkFile {_} _ _ _ _.

(** [evaluate_address_side]; [ASSERT(0)] on an omitted side. *)
Definition evaluate_address_side `{Collaborators} (side : AddressSide)
    (file : File) (sel : option Selection) (range : Filerange)
    : option Filerange :=
  match side with
  | AT_INVALID => None
  | AT_BYTE number => Some (mkRange number number)
  | AT_CHARACTER character =>
      if character =? chr "$" then
        let size := text_size (f_text file) in Some (mkRange size size)
      else if character =? chr "." then Some range
      else if character =? chr "%" then
        Some (text_range_new 0 (text_size (f_text file)))
      else Some text_range_empty
  | AT_LINE number =>
      if number =? 0 then Some (mkRange 0 0)
      else
        let line := text_pos_by_lineno (f_text file) number in
        Some (text_range_new line (text_line_next (f_text file) line))
  | AT_MARK mark =>
      let ordinal := match sel with
                     | Some s => view_selections_number s
                     | None => O
                     end in
      let pos := match f_marks file mark ordinal with
                 | Some cursor => text_mark_get (f_text file) cursor
                 | None => EPOS
                 end in
      Some (mkRange pos pos)
  | AT_REGEX_BACKWARD regex =>
      Some (text_object_search_backward (f_text file) (r_start range) regex)
  | AT_REGEX_FORWARD regex =>
      Some (text_object_search_forward (f_text file) (r_end range) regex)
  end.

(** [evaluate_address]. *)
Definition evaluate_address `{Collaborators} (addr : Address) (file : File)
    (sel : option Selection) (range : Filerange) : option Filerange :=
  if (delimeter addr =? chr "+") || (delimeter addr =? chr "-") then
    match (if is_AT_INVALID (right addr) then Some (mkRange 0 0)
           else evaluate_address_side (right addr) file sel range) with
    | None => None
    | Some right =>
        let line :=
          if delimeter addr =? chr "+" then
            let offset := if negb (r_end right =? EPOS) then r_end right else 1 in
            let start := r_start range in
            let end_ := r_end range in
            let end_ :=
              if (start <? end_)
                 && match text_byte_get (f_text file) (size_wrap (end_ - 1)) with
                    | Some c => c =? 10
                    | None => false
                    end
              then size_wrap (end_ - 1) else end_ in
            let line := text_lineno_by_pos (f_text file) end_ in
            text_pos_by_lineno (f_text file) (size_wrap (line + offset))
          else
            let offset := if negb (r_start right =? EPOS) then r_start right else 1 in
            let line := text_lineno_by_pos (f_text file) (r_start range) in
            if offset <? line
            then text_pos_by_lineno (f_text file) (size_wrap (line - offset))
            else 0 in
        Some (text_range_new line (text_line_next (f_text file) line))
    end
  else if (delimeter addr =? chr ",") || (delimeter addr =? chr ";") then
    match (if is_AT_INVALID (left addr) then Some (mkRange 0 0)
           else evaluate_address_side (left addr) file sel range) with
    | None => None
    | Some left =>
        let range := if delimeter addr =? chr ";" then left else range in
        match (if is_AT_INVALID (right addr)
               then let size := text_size (f_text file) in
                    Some (mkRange size size)
               else evaluate_address_side (right addr) file sel range) with
        | None => None
        | Some right => Some (text_range_union left right)
        end
    end
  else Some text_range_empty.

(** The range of a side, a default standing in for an omitted side. *)
Definition side_range_or `{Collaborators} (default_range : Filerange)
    (side : AddressSide) (file : File) (sel : option Selection)
    (range : Filerange) : option Filerange :=
  match side with
  | AT_INVALID => Some default_range
  | _ => evaluate_address_side side file sel range
  end.

(** The reading of the combiners [,] and [;] in the specification: the
    union of the left side, [0,0] when omitted, and the right side,
    [size,size] when omitted; for [;] the right side is evaluated with the
    range of the left side as the current range. *)
Definition address_union_spec `{Collaborators} (addr : Address) (file : File)
    (sel : option Selection) (range : Filerange) : option Filerange :=
  let size := text_size (f_text file) in
  match side_range_or (mkRange 0 0) (left addr) file sel range with
  | None => None
  | Some l =>
      let current := if delimeter addr =? chr ";" then l else range in
      match side_range_or (mkRange size size) (right addr) file sel current with
      | None => None
      | Some r => Some (text_range_union l r)
      end
  end.

(** ** Command definitions *)

(** The flag bits of [CommandDef]. *)
Definition CMD_NONE : Z := 0.
Definition CMD_CMD : Z := Z.shiftl 1 0.
Definition CMD_REGEX : Z := Z.shiftl 1 1.
Definition CMD_REGEX_DEFAULT : Z := Z.shiftl 1 2.
Definition CMD_COUNT : Z := Z.shiftl 1 3.
Definition CMD_TEXT : Z := Z.shiftl 1 4.
Definition CMD_ADDRESS_NONE : Z := Z.shiftl 1 5.
Definition CMD_ADDRESS_POS : Z := Z.shiftl 1 6.
Definition CMD_ADDRESS_LINE : Z := Z.shiftl 1 7.
Definition CMD_ADDRESS_AFTER : Z := Z.shiftl 1 8.
Definition CMD_ADDRESS_ALL : Z := Z.shiftl 1 9.
Definition CMD_ADDRESS_ALL_1CURSOR : Z := Z.shiftl 1 10.
Definition CMD_SHELL : Z := Z.shiftl 1 11.
Definition CMD_FORCE : Z := Z.shiftl 1 12.
Definition CMD_ARGV : Z := Z.shiftl 1 13.
Definition CMD_ONCE : Z := Z.shiftl 1 14.
Definition CMD_LOOP : Z := Z.shiftl 1 15.
Definition CMD_DESTRUCTIVE : Z := Z.shiftl 1 16.
Definition CMD_WIN : Z := Z.shiftl 1 17.

(** The handlers a definition can point at. *)
Inductive sam_command_fn :=
| command_insert | command_append | command_change | command_delete
| command_guard_fn | command_extract | command_print | command_files
| command_pipein | command_pipeout | command_filter | command_launch
| command_substitute | command_write | command_read | command_edit
| command_quit | command_cd | command_set | command_open | command_qall
| command_split | command_vsplit | command_new | command_vnew | command_wq
| command_earlier_later | command_help | command_map | command_unmap
| command_langmap | command_user.

(** [CommandDef] without the help text. *)
Record CommandDef := mkDef {
  name : string;
  fn : sam_command_fn;
  flags : Z
}.

(** [definition->flags & flag]. *)
Definition has_flag (def : CommandDef) (flag : Z) : bool :=
  negb (Z.land (flags def) flag =? 0).

Definition flag_set (l : list Z) : Z := fold_right Z.lor 0 l.

(** [command_definition_table], entry by entry. *)
Definition command_definition_table : list CommandDef := [
  mkDef "a" command_append (flag_set [CMD_TEXT; CMD_WIN]);
  mkDef "c" command_change (flag_set [CMD_TEXT; CMD_WIN]);
  mkDef "d" command_delete (flag_set [CMD_WIN]);
  mkDef "g" command_guard_fn (flag_set [CMD_COUNT; CMD_REGEX; CMD_CMD; CMD_WIN]);
  mkDef "i" command_insert (flag_set [CMD_TEXT; CMD_WIN]);
  mkDef "p" command_print (flag_set [CMD_WIN]);
  mkDef "s" command_substitute (flag_set [CMD_SHELL]);
  mkDef "v" command_guard_fn (flag_set [CMD_COUNT; CMD_REGEX; CMD_CMD]);
  mkDef "x" command_extract
    (flag_set [CMD_CMD; CMD_REGEX; CMD_REGEX_DEFAULT; CMD_ADDRESS_ALL_1CURSOR;
               CMD_LOOP; CMD_WIN]);
  mkDef "y" command_extract
    (flag_set [CMD_CMD; CMD_REGEX; CMD_ADDRESS_ALL_1CURSOR; CMD_LOOP; CMD_WIN]);
  mkDef "X" command_files
    (flag_set [CMD_CMD; CMD_REGEX; CMD_REGEX_DEFAULT; CMD_ADDRESS_NONE; CMD_ONCE]);
  mkDef "Y" command_files
    (flag_set [CMD_CMD; CMD_REGEX; CMD_ADDRESS_NONE; CMD_ONCE]);
  mkDef ">" command_pipeout (flag_set [CMD_SHELL; CMD_ADDRESS_LINE; CMD_WIN]);
  mkDef "<" command_pipein (flag_set [CMD_SHELL; CMD_ADDRESS_POS; CMD_WIN]);
  mkDef "|" command_filter (flag_set [CMD_SHELL; CMD_WIN]);
  mkDef "!" command_launch
    (flag_set [CMD_SHELL; CMD_ONCE; CMD_ADDRESS_NONE; CMD_WIN]);
  mkDef "w" command_write
    (flag_set [CMD_ARGV; CMD_FORCE; CMD_ONCE; CMD_ADDRESS_ALL; CMD_WIN]);
  mkDef "r" command_read (flag_set [CMD_ARGV; CMD_ADDRESS_AFTER]);
  mkDef "e" command_edit
    (flag_set [CMD_ARGV; CMD_FORCE; CMD_ONCE; CMD_ADDRESS_NONE; CMD_DESTRUCTIVE;
               CMD_WIN]);
  mkDef "q" command_quit
    (flag_set [CMD_ARGV; CMD_FORCE; CMD_ONCE; CMD_ADDRESS_NONE; CMD_DESTRUCTIVE]);
  mkDef "cd" command_cd (flag_set [CMD_ARGV; CMD_ONCE; CMD_ADDRESS_NONE]);
  mkDef "help" command_help (flag_set [CMD_ARGV; CMD_ONCE; CMD_ADDRESS_NONE]);
  mkDef "map" command_map
    (flag_set [CMD_ARGV; CMD_FORCE; CMD_ONCE; CMD_ADDRESS_NONE]);
  mkDef "map-window" command_map
    (flag_set [CMD_ARGV; CMD_FORCE; CMD_ONCE; CMD_ADDRESS_NONE]);
  mkDef "unmap" command_unmap (flag_set [CMD_ARGV; CMD_ONCE; CMD_ADDRESS_NONE]);
  mkDef "unmap-window" command_unmap
    (flag_set [CMD_ARGV; CMD_ONCE; CMD_ADDRESS_NONE; CMD_WIN]);
  mkDef "langmap" command_langmap
    (flag_set [CMD_ARGV; CMD_FORCE; CMD_ONCE; CMD_ADDRESS_NONE]);
  mkDef "new" command_new (flag_set [CMD_ARGV; CMD_ONCE; CMD_ADDRESS_NONE]);
  mkDef "open" command_open (flag_set [CMD_ARGV; CMD_ONCE; CMD_ADDRESS_NONE]);
  mkDef "qall" command_qall
    (flag_set [CMD_ARGV; CMD_FORCE; CMD_ONCE; CMD_ADDRESS_NONE; CMD_DESTRUCTIVE]);
  mkDef "set" command_set (flag_set [CMD_ARGV; CMD_ONCE; CMD_ADDRESS_NONE]);
  mkDef "split" command_split
    (flag_set [CMD_ARGV; CMD_ONCE; CMD_ADDRESS_NONE; CMD_WIN]);
  mkDef "vnew" command_vnew (flag_set [CMD_ARGV; CMD_ONCE; CMD_ADDRESS_NONE]);
  mkDef "vsplit" command_vsplit
    (flag_set [CMD_ARGV; CMD_ONCE; CMD_ADDRESS_NONE; CMD_WIN]);
  mkDef "wq" command_wq
    (flag_set [CMD_ARGV; CMD_FORCE; CMD_ONCE; CMD_ADDRESS_ALL; CMD_DESTRUCTIVE;
               CMD_WIN]);
  mkDef "earlier" command_earlier_later
    (flag_set [CMD_ARGV; CMD_ONCE; CMD_ADDRESS_NONE; CMD_WIN]);
  mkDef "later" command_earlier_later
    (flag_set [CMD_ARGV; CMD_ONCE; CMD_ADDRESS_NONE; CMD_WIN])
]%string.

(** The names of the table entries carrying a flag. *)
Definition names_with_flag (flag : Z) : list string :=
  map name (filter (fun def => has_flag def flag = true) command_definition_table).

(** ** Commands and counts *)

(** [Count]: the interval [start, end] and the "every n-th" marker. *)
Record Count := mkCount { count_start : Z; count_end : Z; count_mod : bool }.

(** [struct Command]. The [next]/[prev] links are kept by the executor as a
    stack; the string arguments play no part below and are left out. *)
#[warnings="-register-all"]
Inductive Command := mkCommand {
  address : Address;
  regex : option Regex;
  definition : option CommandDef;
  count : Count;
  iteration : Z;
  force : bool;
  cmd : option Command
}.

(** A [Command] fresh from the arena, all bytes zero. *)
Definition command_zero : Command :=
  mkCommand (mkAddress AT_INVALID AT_INVALID 0) None None
            (mkCount 0 0 false) 0 false None.

(** [INT_MIN], the least [int]. *)
Definition INT_MIN : Z := - 2 ^ 31.

(** [count_evaluate]. The fields are [int]s and [%] truncates towards
    zero; [None] is the one division that traps, [INT_MIN % -1]. *)
Definition count_evaluate (command : Command) : option bool :=
  let c := count command in
  if count_mod c then
    if negb (count_start c =? 0) then
      if (iteration command =? INT_MIN) && (count_start c =? -1) then None
      else Some (Z.rem (iteration command) (count_start c) =? 0)
    else Some true
  else Some ((count_start c <=? iteration command)
             && (iteration command <=? count_end c)).

(** ** The guard commands [g] and [v] *)

(** What [command_guard] does once it has decided: hand the nested command
    to [sam_execute] with the same selection and range, or dispose the
    selection and report success. *)
Inductive GuardAction :=
| GuardExecute (nested : option Command) (selection : option Selection)
               (range : Filerange)
| GuardDispose (selection : option Selection).

(** The first byte of the command name, [definition->name.data[0]]. *)
Definition name_first_byte (command : Command) : Z :=
  match definition command with
  | Some def =>
      match list_ascii_of_string (name def) with
      | c :: _ => chr c
      | [] => 0
      end
  | None => 0
  end.

(** The flag [match] computed by [command_guard]. *)
Definition guard_match `{Collaborators} (txt : Text) (command : Command)
    (range : Filerange) : bool :=
  let len := text_range_size range in
  match regex command with
  | None => true
  | Some re =>
      match text_search_range_forward txt (r_start range) len re with
      | Some capture => r_start capture <? r_end range
      | None => false
      end
  end.

(** [command_guard]; the window must be present ([ASSERT(win)]), and
    [None] is that assertion failing or the trap of [count_evaluate]. *)
Definition command_guard `{Collaborators} (txt : Text) (win : option Win)
    (command : Command) (selection : option Selection) (range : Filerange)
    : option GuardAction :=
  match win with
  | None => None
  | Some _ =>
      let match_ := guard_match txt command range in
      match count_evaluate command with
      | None => None
      | Some passes =>
          if xorb (passes && match_) (name_first_byte command =? chr "v")
          then Some (GuardExecute (cmd command) selection range)
          else Some (GuardDispose selection)
      end
  end.

Definition guard_executes (a : option GuardAction) : bool :=
  match a with Some (GuardExecute _ _ _) => true | _ => false end.

Definition guard_disposes (a : option GuardAction) : bool :=
  match a with Some (GuardDispose _) => true | _ => false end.

(** ** Command registry *)

(** [CmdUser]: the definition handed to the command map together with the
    user's callback and its data, both opaque handles. *)
Record CmdUser := mkCmdUser {
  user_definition : CommandDef;
  user_func : nat;
  user_data : nat
}.

(** The two maps of [Vis] the registry works on. [usercmds] is created on
    first use and is null before. *)
Record Registry := mkRegistry {
  cmds : gmap string CommandDef;
  usercmds : option (gmap string CmdUser)
}.

(** Modelled from the spec: [map_get] of the map library, which is not part
    of the files at hand (section 4.4: a map of commands by name, with
    entries created by registration and removed by unregistration). It
    finds the value stored under exactly this key. *)
Definition map_get {V} (m : gmap string V) (key : string) : option V := m !! key.

(** Modelled from the spec: [map_put] of the same library. It stores a
    value under a key that is absent and fails, changing nothing, on a key
    that is present or when memory runs out. *)
Definition map_put {V} (m : gmap string V) (key : string) (value : V)
    (alloc_ok : bool) : bool * gmap string V :=
  match m !! key with
  | Some _ => (false, m)
  | None => if alloc_ok then (true, <[key := value]> m) else (false, m)
  end.

(** Modelled from the spec: [map_delete] of the same library. It removes
    the entry of the key and returns its value, null when there is none. *)
Definition map_delete {V} (m : gmap string V) (key : string)
    : option V * gmap string V :=
  (m !! key, delete key m).

(** The outcome of the allocations [vis_cmd_register] depends on. *)
Record RegisterAllocs := mkAllocs {
  map_new_ok : bool;
  put_cmds_ok : bool;
  put_usercmds_ok : bool
}.

(** [vis_cmd_register]. *)
Definition vis_cmd_register (vis : Registry) (name_ : option string)
    (func data : nat) (allocs : RegisterAllocs) : bool * Registry :=
  match name_ with
  | None => (false, vis)
  | Some nm =>
      let users :=
        match usercmds vis with
        | Some m => Some m
        | None => if map_new_ok allocs then Some ∅ else None
        end in
      match users with
      | None => (false, vis)
      | Some um =>
          let def := mkDef nm command_user
                       (flag_set [CMD_ARGV; CMD_FORCE; CMD_ONCE; CMD_ADDRESS_ALL]) in
          let user := mkCmdUser def func data in
          let '(ok1, cmds1) := map_put (cmds vis) nm def (put_cmds_ok allocs) in
          if ok1 then
            let '(ok2, um2) := map_put um nm user (put_usercmds_ok allocs) in
            if ok2 then (true, mkRegistry cmds1 (Some um2))
            else (false, mkRegistry (snd (map_delete cmds1 nm)) (Some um2))
          else (false, mkRegistry cmds1 (Some um))
      end
  end.

(** [vis_cmd_unregister]. A null [usercmds] holds no entry. *)
Definition vis_cmd_unregister (vis : Registry) (name_ : option string)
    : bool * Registry :=
  match name_ with
  | None => (true, vis)
  | Some nm =>
      let um := default ∅ (usercmds vis) in
      match map_get um nm with
      | None => (false, vis)
      | Some _ =>
          let '(removed, cmds1) := map_delete (cmds vis) nm in
          match removed with
          | None => (false, mkRegistry cmds1 (usercmds vis))
          | Some _ =>
              let '(removed2, um2) := map_delete um nm in
              (match removed2 with Some _ => true | None => false end,
               mkRegistry cmds1 (Some um2))
          end
      end
  end.

(** ** Token stream cursor *)

(** [SamTokenStream]: [count] is the length of [sts_tokens]. *)
Record SamTokenStream := mkStream {
  sts_tokens : list SamToken;
  sts_raw : list Z;
  sts_read_index : nat
}.

Definition sts_count (s : SamTokenStream) : nat := length (sts_tokens s).

Definition token_invalid : SamToken := mkToken 0 0 ST_INVALID.

(** [sam_token_peek]. *)
Definition sam_token_peek (s : SamTokenStream) : SamToken :=
  default token_invalid (sts_tokens s !! sts_read_index s).

(** [sam_token_pop]: the cursor moves only while tokens are left. *)
Definition sam_token_pop (s : SamTokenStream) : SamToken * SamTokenStream :=
  match sts_tokens s !! sts_read_index s with
  | Some t => (t, mkStream (sts_tokens s) (sts_raw s) (S (sts_read_index s)))
  | None => (token_invalid, s)
  end.

(** [n] calls of [sam_token_pop], results dropped. *)
Definition sam_token_pops (n : nat) (s : SamTokenStream) : SamTokenStream :=
  Nat.iter n (fun s => snd (sam_token_pop s)) s.

(** The [for] loop of [sam_token_join_command_name]: the offset [end],
    relative to the start of the name, at which the name stops. [rest] are
    the bytes from [end] on and [len] is [command.len]. *)
Fixpoint command_name_end (rest : list Z) (end_ len : Z) : Z :=
  match rest with
  | [] => end_
  | cp :: rest' =>
      let valid := negb (ISSPACE cp) && negb (ISDIGIT cp)
                   && (negb (ISPUNCT cp) || (cp =? chr "_")) in
      let valid := if negb valid && (cp =? chr "-")
                   then end_ + 1 <? len else valid in
      if valid then command_name_end rest' (end_ + 1) len else end_
  end.

(** The closing [while (result.length != end)] loop; it spins for ever
    when the stream runs dry first, which is [None]. *)
Fixpoint join_until (fuel : nat) (s : SamTokenStream) (result : SamToken)
    (end_ : Z) : option (SamToken * SamTokenStream) :=
  if tok_length result =? end_ then Some (result, s)
  else
    match fuel with
    | O => None
    | S fuel' =>
        let '(t, s') := sam_token_pop s in
        join_until fuel' s'
          (mkToken (tok_start result) (tok_length result + tok_length t)
                   (tok_type result)) end_
    end.

(** [sam_token_join_command_name]. Once the stream is exhausted every
    further round leaves the state as it is, so [sts_count s] rounds and one
    more decide the loop. *)
Definition sam_token_join_command_name (s : SamTokenStream) (start : SamToken)
    : option (SamToken * SamTokenStream) :=
  let command := drop (Z.to_nat (tok_start start)) (sts_raw s) in
  let len := Z.of_nat (length command) in
  let end_ := command_name_end (drop (Z.to_nat (tok_length start)) command)
                               (tok_length start) len in
  join_until (S (sts_count s - sts_read_index s)) s start end_.

Definition string_of_bytes (bytes : list Z) : string :=
  string_of_list_ascii (map (fun c => ascii_of_N (Z.to_N c)) bytes).

(** ** Executor *)

(** The parts of the editor the executor hands over to: the closest-match
    lookup of the map library, the address parser and [execute_command],
    through which alone a handler [definition->fn] is reached. [World] is
    the state of the editor they work on; the token stream is advanced by
    popping, so they report the number of tokens popped. *)
Class Engine := {
  World : Type;
  map_closest : gmap string CommandDef -> string -> option CommandDef;
  parse_address : World -> SamTokenStream -> Address * nat * World;
  execute_command :
    World -> Command -> SamTokenStream -> Address -> bool * nat * World * Command
}.

(** What happened to a command name, in order. This history is not kept by
    the code; it records the calls of [execute_command] and the refusals. *)
Inductive ExecEvent :=
| EvExecute (def : CommandDef)
| EvRefuse (def : CommandDef)
| EvUnknown (token : SamToken)
| EvUnexpected (token : SamToken).

(** The variables of [execute_token_stream]. [commands] is the chain of
    [prev] links, the current command first; [log] holds the messages of
    [sam_error_at]. *)
Record ExecState `{Engine} := mkExec {
  ex_world : World;
  ex_cmds : gmap string CommandDef;
  ex_sts : SamTokenStream;
  did_looping_command : bool;
  nesting_level : Z;
  should_exit : bool;
  commands : list Command;
  ex_log : list (SamToken * string);
  ex_history : list ExecEvent
}.
Arguments mkExec {_} _ _ _ _ _ _ _ _ _.

Inductive ExecStatus := Finished | AssertFailed | Spins | FuelSpent.

(** [lookup_command_definition]. *)
Definition lookup_command_definition `{Engine} (cmds_ : gmap string CommandDef)
    (s : SamTokenStream) (command : SamToken) : option CommandDef :=
  map_closest cmds_ (string_of_bytes (token_slice (sts_raw s) command)).

Definition set_definition (c : Command) (def : option CommandDef) : Command :=
  mkCommand (address c) (regex c) def (count c) (iteration c) (force c) (cmd c).

(** One round of the [while] loop of [execute_token_stream], entered with
    tokens left and [should_exit] clear. *)
Definition execute_round `{Engine} (st : ExecState) : ExecState * ExecStatus :=
  let '(token, sts) := sam_token_pop (ex_sts st) in
  match tok_type token with
  | ST_GROUP_START =>
      (mkExec (ex_world st) (ex_cmds st) sts (did_looping_command st)
              (nesting_level st) (should_exit st)
              (command_zero :: commands st) (ex_log st) (ex_history st),
       Finished)
  | ST_GROUP_END =>
      let st' := mkExec (ex_world st) (ex_cmds st) sts (did_looping_command st)
                        (i32_wrap (nesting_level st - 1)) (should_exit st)
                        (tail (commands st)) (ex_log st) (ex_history st) in
      (st', match tail (commands st) with [] => AssertFailed | _ => Finished end)
  | ST_STRING =>
      match sam_token_join_command_name sts token with
      | None =>
          (mkExec (ex_world st) (ex_cmds st) sts (did_looping_command st)
                  (nesting_level st) (should_exit st) (commands st)
                  (ex_log st) (ex_history st), Spins)
      | Some (token, sts) =>
          match commands st with
          | [] => (st, AssertFailed)
          | command :: outer =>
              let def := lookup_command_definition (ex_cmds st) sts token in
              let command := set_definition command def in
              match def with
              | Some d =>
                  if did_looping_command st && has_flag d CMD_DESTRUCTIVE then
                    (mkExec (ex_world st) (ex_cmds st) sts
                            (did_looping_command st || has_flag d CMD_LOOP)
                            (nesting_level st) true (command :: outer)
                            (ex_log st) (ex_history st ++ [EvRefuse d]),
                     Finished)
                  else
                    let '(result, pops, world, command) :=
                      execute_command (ex_world st) command sts (address command) in
                    (mkExec world (ex_cmds st) (sam_token_pops pops sts)
                            (did_looping_command st || has_flag d CMD_LOOP)
                            (nesting_level st) (negb result) (command :: outer)
                            (ex_log st) (ex_history st ++ [EvExecute d]),
                     Finished)
              | None =>
                  (mkExec (ex_world st) (ex_cmds st) sts (did_looping_command st)
                          (nesting_level st) true (command :: outer)
                          (ex_log st ++ [(token, "invalid command"%string)])
                          (ex_history st ++ [EvUnknown token]),
                   Finished)
              end
          end
      end
  | _ =>
      (mkExec (ex_world st) (ex_cmds st) sts (did_looping_command st)
              (nesting_level st) true (commands st) (ex_log st)
              (ex_history st ++ [EvUnexpected token]),
       Finished)
  end.

(** [while (sts->count != sts->read_index && !vis->sam.should_exit)]. *)
Fixpoint execute_loop `{Engine} (fuel : nat) (st : ExecState)
    : ExecState * ExecStatus :=
  if negb (sts_count (ex_sts st) =? sts_read_index (ex_sts st))%nat
     && negb (should_exit st) then
    match fuel with
    | O => (st, FuelSpent)
    | S fuel' =>
        match execute_round st with
        | (st', Finished) => execute_loop fuel' st'
        | stop => stop
        end
    end
  else (st, Finished).

(** [execute_token_stream]: [ASSERT(sts->count)], the address, the loop,
    the "extra tokens" report and [ASSERT(nesting_level == 0)]. Every round
    pops a token, so the loop bound is the number of tokens. *)
Definition execute_token_stream `{Engine} (world : World)
    (cmds_ : gmap string CommandDef) (sts : SamTokenStream)
    : ExecState * ExecStatus :=
  if (sts_count sts =? 0)%nat then
    (mkExec world cmds_ sts false 0 false [] [] [], AssertFailed)
  else
    let '(addr, pops, world) := parse_address world sts in
    let command :=
      mkCommand addr None None (mkCount 0 0 false) 0 false None in
    let st := mkExec world cmds_ (sam_token_pops pops sts) false 0 false
                     [command] [] [] in
    match execute_loop (sts_count sts) st with
    | (st, Finished) =>
        let log :=
          if negb (sts_count (ex_sts st) =? sts_read_index (ex_sts st))%nat
          then ex_log st ++ [(sam_token_peek (ex_sts st),
                              "extra tokens at end of command"%string)]
          else ex_log st in
        (mkExec (ex_world st) (ex_cmds st) (ex_sts st) (did_looping_command st)
                (nesting_level st) (should_exit st) (commands st) log
                (ex_history st),
         if nesting_level st =? 0 then Finished else AssertFailed)
    | stop => stop
    end.

(** [sam_init], the command map: every table entry under its name. *)
Definition sam_init_cmds : gmap string CommandDef :=
  fold_left (fun m def => snd (map_put m (name def) def true))
            command_definition_table ∅.

(** ** Apply phase of [sam_cmd] *)

(** The calls into the view made while changes are applied. *)
Inductive ViewOp :=
| ViewDisposeForce (sel : Selection)
| ViewCursorsTo (sel : Selection) (pos : Z)
| ViewSetAnchored (sel : Selection) (r : Filerange)
| ViewNewAnchored (win : Win) (r : Filerange).

(** The variables of the loop over the changes of one file. *)
Record ApplyState `{Collaborators} := mkApply {
  ap_text : Text;
  ap_delta : Z;
  ap_views : list ViewOp
}.
Arguments mkApply {_} _ _ _.

(** [memchr(c->data, '\n', c->len)]. *)
Definition data_has_newline (data : list Z) (len : Z) : bool :=
  existsb (fun b => b =? 10) (take (Z.to_nat len) data).

(** The loop [for (int i = 0; i < c->count; i++)] with its two statements,
    on the pair of text and delta. *)
Definition insert_copies `{Collaborators} (pos : Z) (data : list Z) (len : Z)
    (n : nat) (td : Text * Z) : Text * Z :=
  Nat.iter n (fun td => (text_insert (fst td) pos data len,
                         ptrdiff_wrap (snd td + len))) td.

(** The body of [for (Change *c = t->changes; c; c = c->next)]. *)
Definition apply_change `{Collaborators} (visual : bool) (st : ApplyState)
    (c : Change) : ApplyState :=
  let range := mkRange (size_wrap (r_start (c_range c) + ap_delta st))
                       (size_wrap (r_end (c_range c) + ap_delta st)) in
  let st :=
    if type_has (c_type c) TRANSCRIPT_DELETE then
      let txt := text_delete_range (ap_text st) range in
      let delta := ptrdiff_wrap (ap_delta st - text_range_size range) in
      let views :=
        match c_sel c with
        | Some sel =>
            if ChangeType_eqb (c_type c) TRANSCRIPT_DELETE then
              if visual then [ViewDisposeForce sel]
              else [ViewCursorsTo sel (r_start range)]
            else []
        | None => []
        end in
      mkApply txt delta (ap_views st ++ views)
    else st in
  if type_has (c_type c) TRANSCRIPT_INSERT then
    let '(txt, delta) :=
      insert_copies (r_start range) (c_data c) (c_len c)
                    (Z.to_nat (c_count c)) (ap_text st, ap_delta st) in
    let r := text_range_new (r_start range)
               (size_wrap (r_start range + size_wrap (c_len c * c_count c))) in
    let views :=
      match c_sel c with
      | Some sel =>
          if visual then [ViewSetAnchored sel r]
          else if data_has_newline (c_data c) (c_len c)
               then [ViewCursorsTo sel (r_start r)]
               else [ViewCursorsTo sel (r_end r)]
      | None => if visual then [ViewNewAnchored (c_win c) r] else []
      end in
    mkApply txt delta (ap_views st ++ views)
  else st.

(** The whole loop, entered with [delta = 0]. *)
Definition apply_changes `{Collaborators} (visual : bool) (txt : Text)
    (l : list Change) : ApplyState :=
  fold_left (apply_change visual) l (mkApply txt 0 []).

(** The rule of the specification for one change, on unbounded integers:
    the range moves by the running delta, a deletion comes before an
    insertion, a deletion lowers delta by [end - start] and an insertion
    raises it by [len * count]. *)
Definition apply_change_spec `{Collaborators} (visual : bool) (st : ApplyState)
    (c : Change) : ApplyState :=
  let start := r_start (c_range c) + ap_delta st in
  let end_ := r_end (c_range c) + ap_delta st in
  let deletes := type_has (c_type c) TRANSCRIPT_DELETE in
  let inserts := type_has (c_type c) TRANSCRIPT_INSERT in
  let txt1 := if deletes then text_delete_range (ap_text st) (mkRange start end_)
              else ap_text st in
  let delta1 := if deletes
                then ap_delta st - (r_end (c_range c) - r_start (c_range c))
                else ap_delta st in
  let views1 :=
    match c_sel c with
    | Some sel =>
        match c_type c with
        | TRANSCRIPT_DELETE =>
            if visual then [ViewDisposeForce sel] else [ViewCursorsTo sel start]
        | _ => []
        end
    | None => []
    end in
  let txt2 := if inserts
              then Nat.iter (Z.to_nat (c_count c))
                     (fun t => text_insert t start (c_data c) (c_len c)) txt1
              else txt1 in
  let delta2 := if inserts then delta1 + c_len c * c_count c else delta1 in
  let inserted := mkRange start (start + c_len c * c_count c) in
  let views2 :=
    if inserts then
      match c_sel c with
      | Some sel =>
          if visual then [ViewSetAnchored sel inserted]
          else if data_has_newline (c_data c) (c_len c)
               then [ViewCursorsTo sel (r_start inserted)]
               else [ViewCursorsTo sel (r_end inserted)]
      | None => if visual then [ViewNewAnchored (c_win c) inserted] else []
      end
    else [] in
  mkApply txt2 delta2 (ap_views st ++ views1 ++ views2).

Definition apply_changes_spec `{Collaborators} (visual : bool) (txt : Text)
    (l : list Change) : ApplyState :=
  fold_left (apply_change_spec visual) l (mkApply txt 0 []).

(** The bytes all inserts of a transcript add. *)
Definition total_inserted (l : list Change) : Z :=
  fold_right (fun c acc => c_len c * c_count c + acc) 0 l.

(** ** The transcript during one [sam_cmd] call *)

(** The ways a handler touches the transcript of a file: the three enqueue
    functions and the check [sam_transcript_error(&file->transcript,
    SAM_ERR_WRITE_CONFLICT)] at the head of [command_write]. *)
Inductive TranscriptOp :=
| OpInsert (win : Win) (sel : option Selection) (pos : Z) (data : list Z)
           (len count : Z) (calloc_ok : bool)
| OpDelete (win : Win) (sel : option Selection) (range : Filerange)
           (calloc_ok : bool)
| OpChange (win : Win) (sel : option Selection) (range : Filerange)
           (data : list Z) (len count : Z) (calloc_ok : bool)
| OpWriteCheck.

Definition transcript_op (t : Transcript) (op : TranscriptOp) : Transcript :=
  match op with
  | OpInsert win sel pos data len count ok =>
      snd (sam_insert t win sel pos data len count ok)
  | OpDelete win sel range ok => snd (sam_delete t win sel range ok)
  | OpChange win sel range data len count ok =>
      snd (sam_change t win sel range data len count ok)
  | OpWriteCheck => snd (sam_transcript_error t SAM_ERR_WRITE_CONFLICT)
  end.

Definition transcript_ops (t : Transcript) (ops : list TranscriptOp) : Transcript :=
  fold_left transcript_op ops t.

(** The body of the second [for (File *file = vis->files; ...)] loop of
    [sam_cmd]: the file afterwards, the value of [err] and the calls into
    the view. The nodes of the transcript are released on both paths; the
    transcript is zeroed again by the next [sam_cmd]. *)
Definition sam_cmd_apply_file `{Collaborators} (visual : bool) (file : File)
    (err : SamError) : File * SamError * list ViewOp :=
  if f_internal file then (file, err, [])
  else
    let t := f_transcript file in
    if negb (SamError_is_ok (error t)) then (file, error t, [])
    else
      let st := apply_changes visual (text_snapshot (f_text file)) (changes t) in
      (mkFile (f_internal file) (text_snapshot (ap_text st)) (f_marks file) t,
       err, ap_views st).

(** ** Decimal numbers (util.c) *)

Definition I64_MAX : Z := 2 ^ 63 - 1.
Definition I32_MAX : Z := 2 ^ 31 - 1.

(** [i64] wrap-around. *)
Definition i64_wrap (z : Z) : Z := (z + 2 ^ 63) mod 2 ^ 64 - 2 ^ 63.

(** The [for] loop of [s8_to_i64] over the bytes from index [i] on: it
    leaves at the first byte that is no digit, and holds [result] at
    [I64_MAX] once another digit would not fit. *)
Fixpoint s8_to_i64_digits (bytes : list Z) (result : Z) : Z :=
  match bytes with
  | [] => result
  | c :: rest =>
      let digit := c - chr "0" in
      if BETWEEN digit 0 9 then
        if result >? Z.quot (I64_MAX - digit) 10
        then s8_to_i64_digits rest I64_MAX
        else s8_to_i64_digits rest (i64_wrap (10 * result + digit))
      else result
  end.

(** [s8_to_i64]: an optional sign, then the digits. *)
Definition s8_to_i64 (s : list Z) : Z :=
  match s with
  | c :: rest =>
      if c =? chr "-" then i64_wrap (-1 * s8_to_i64_digits rest 0)
      else if c =? chr "+" then i64_wrap (1 * s8_to_i64_digits rest 0)
      else i64_wrap (1 * s8_to_i64_digits s 0)
  | [] => i64_wrap (1 * s8_to_i64_digits s 0)
  end.

(** ** Numbers in the token stream *)

(** [u32] wrap-around, as in the [length] of a token. *)
Definition u32_wrap (z : Z) : Z := z mod 2 ^ 32.

(** [sam_token_join]: [ASSERT(a.start + a.length == b.start)]. *)
Definition sam_token_join (a b : SamToken) : option SamToken :=
  if tok_start a + tok_length a =? tok_start b
  then Some (mkToken (tok_start a) (u32_wrap (tok_length a + tok_length b))
                     (tok_type a))
  else None.

(** [*token.start], the first byte of a token. *)
Definition token_first_byte (s : SamTokenStream) (t : SamToken) : Z :=
  default 0 (sts_raw s !! Z.to_nat (tok_start t)).

(** [sam_token_try_pop_number]: a sign delimiter and a number token are
    joined into one number token; [None] is the failing [ASSERT] of
    [sam_token_join]. *)
Definition sam_token_try_pop_number (s : SamTokenStream)
    : option (SamToken * SamTokenStream) :=
  let result := mkToken (tok_start (sam_token_peek s)) 0 ST_INVALID in
  let signed :=
    if SamTokenType_eqb (tok_type (sam_token_peek s)) ST_DELIMITER then
      let cp := token_first_byte s (sam_token_peek s) in
      if (cp =? chr "+") || (cp =? chr "-") then
        let '(t, s') := sam_token_pop s in
        match sam_token_join result t with
        | Some r => Some (r, s')
        | None => None
        end
      else Some (result, s)
    else Some (result, s) in
  match signed with
  | Some (result, s) =>
      if SamTokenType_eqb (tok_type (sam_token_peek s)) ST_NUMBER then
        let '(t, s') := sam_token_pop s in
        match sam_token_join result t with
        | Some r => Some (mkToken (tok_start r) (tok_length r) ST_NUMBER, s')
        | None => None
        end
      else Some (result, s)
  | None => None
  end.

(** [sam_token_check_pop_force_flag]. *)
Definition sam_token_check_pop_force_flag (s : SamTokenStream)
    : bool * SamTokenStream :=
  let result := SamTokenType_eqb (tok_type (sam_token_peek s)) ST_DELIMITER
                && (token_first_byte s (sam_token_peek s) =? chr "!") in
  if result then (result, snd (sam_token_pop s)) else (result, s).

(** [check_count]: the count, the stream and the log afterwards. *)
Definition check_count (s : SamTokenStream) (log : list (SamToken * string))
    : option (Z * SamTokenStream * list (SamToken * string)) :=
  match sam_token_try_pop_number s with
  | Some (token, s') =>
      if negb (SamTokenType_eqb (tok_type token) ST_INVALID) then
        let number := s8_to_i64 (token_slice (sts_raw s') token) in
        if (0 <? number) && (number <=? I32_MAX)
        then Some (i32_wrap number, s', log)
        else Some (1, s', log ++ [(token, "invalid count"%string)])
      else Some (1, s', log)
  | None => None
  end.

(** ** Byte strings (util.c) *)

(** The first loop of [s8_trim_space]: [s.len--; s.data++] while the first
    byte is white space. *)
Fixpoint skip_leading_space (data : Z) (bytes : list Z) : s8 :=
  match bytes with
  | c :: rest =>
      if ISSPACE c then skip_leading_space (data + 1) rest else mkS8 data bytes
  | [] => mkS8 data []
  end.

(** The second loop: [s.len--] while the last byte is white space; the
    length bounds the number of rounds. *)
Fixpoint drop_trailing_space (fuel : nat) (bytes : list Z) : list Z :=
  match fuel with
  | O => bytes
  | S fuel' =>
      match last bytes with
      | Some c =>
          if ISSPACE c
          then drop_trailing_space fuel' (take (length bytes - 1) bytes)
          else bytes
      | None => bytes
      end
  end.

(** [s8_trim_space]. *)
Definition s8_trim_space (s : s8) : s8 :=
  let s1 := skip_leading_space (s8_data s) (s8_bytes s) in
  mkS8 (s8_data s1)
       (drop_trailing_space (length (s8_bytes s1)) (s8_bytes s1)).

(** The loop [for (i = 0; i < s.len && s.data[i] != c; i++);]. *)
Fixpoint scan_byte (bytes : list Z) (c : Z) : nat :=
  match bytes with
  | x :: rest => if x =? c then O else S (scan_byte rest c)
  | [] => O
  end.

(** [s8_split] with both [lhs] and [rhs] given: the two slices stored
    through them. *)
Definition s8_split (inp : s8) (c : Z) : s8 * s8 :=
  let i := scan_byte (s8_bytes inp) c in
  let lhs := mkS8 (s8_data inp) (take i (s8_bytes inp)) in
  let inc := if Z.of_nat i =? s8_len inp then 0 else 1 in
  let rhs_len := s8_len inp - Z.of_nat i - inc in
  let rhs_off := Z.of_nat i + inc in
  (lhs, mkS8 (s8_data inp + rhs_off)
             (take (Z.to_nat rhs_len) (drop (Z.to_nat rhs_off) (s8_bytes inp)))).

(** [c & ~0x20u] on a byte promoted to 32 bits. *)
Definition clear_case_bit (c : Z) : Z := Z.land c (2 ^ 32 - 1 - 32).

(** The loop of [s8_case_ignore_equal], entered with equal lengths. *)
Fixpoint case_ignore_loop (a b : list Z) : bool :=
  match a, b with
  | x :: a', y :: b' =>
      (clear_case_bit x =? clear_case_bit y) && case_ignore_loop a' b'
  | _, _ => true
  end.

(** [s8_case_ignore_equal]. *)
Definition s8_case_ignore_equal (a b : list Z) : bool :=
  (Z.of_nat (length a) =? Z.of_nat (length b)) && case_ignore_loop a b.

(** ** Boolean option values (sam-cmd.c) *)

Definition true_strs : list (list Z) :=
  [bytes_of_string "1"; bytes_of_string "true"; bytes_of_string "yes";
   bytes_of_string "on"].

Definition false_strs : list (list Z) :=
  [bytes_of_string "0"; bytes_of_string "false"; bytes_of_string "no";
   bytes_of_string "off"].

(** [parse_bool]: [Some] of the value stored through [outval] when the
    result is true, [None] when it is false. *)
Definition parse_bool (s : list Z) : option bool :=
  if existsb (fun w => s8_case_ignore_equal w s) true_strs then Some true
  else if existsb (fun w => s8_case_ignore_equal w s) false_strs then Some false
  else None.

(** ** UTF-8 (util.c) *)

(** The store into a [uint8_t]. *)
Definition u8_wrap (z : Z) : Z := z mod 2 ^ 8.

(** [utf8_encode]: the bytes written to [out], in order, and the result. *)
Definition utf8_encode (cp : Z) : list Z * Z :=
  if cp <=? 127 then
    ([u8_wrap (Z.land cp 127)], 1)
  else if cp <=? 2047 then
    ([u8_wrap (Z.lor (Z.land (Z.shiftr cp 6) 31) 192);
      u8_wrap (Z.lor (Z.land (Z.shiftr cp 0) 63) 128)], 2)
  else if cp <=? 65535 then
    ([u8_wrap (Z.lor (Z.land (Z.shiftr cp 12) 15) 224);
      u8_wrap (Z.lor (Z.land (Z.shiftr cp 6) 63) 128);
      u8_wrap (Z.lor (Z.land (Z.shiftr cp 0) 63) 128)], 3)
  else if cp <=? 1114111 then
    ([u8_wrap (Z.lor (Z.land (Z.shiftr cp 18) 7) 240);
      u8_wrap (Z.lor (Z.land (Z.shiftr cp 12) 63) 128);
      u8_wrap (Z.lor (Z.land (Z.shiftr cp 6) 63) 128);
      u8_wrap (Z.lor (Z.land (Z.shiftr cp 0) 63) 128)], 4)
  else ([], 0).

(** ** Hexadecimal numbers (util.c) *)

Definition ISHEX (c : Z) : bool :=
  ISDIGIT c || BETWEEN c (chr "a") (chr "f") || BETWEEN c (chr "A") (chr "F").

(** The loop of [s8_hex_to_u32] over the bytes left. *)
Fixpoint s8_hex_to_u32_loop (bytes : list Z) (res : Z) : Z :=
  match bytes with
  | [] => res
  | c :: rest =>
      let res := u32_wrap (Z.shiftl res 4) in
      let res :=
        if ISDIGIT c then Z.lor res (c - chr "0")
        else if ISHEX c then
          let byte := u8_wrap (Z.lor c 32) in
          Z.lor res (byte - 87)
        else res in
      s8_hex_to_u32_loop rest res
  end.

(** [s8_hex_to_u32]: the length is clamped to eight bytes first. *)
Definition s8_hex_to_u32 (s : list Z) : Z :=
  let len := Z.min (Z.of_nat (length s)) 8 in
  s8_hex_to_u32_loop (take (Z.to_nat len) s) 0.

(** ** The address parser *)

(** What the address parser asks of the editor: the mark a byte names,
    the value that stands for no mark, and the compiled form of a pattern,
    null when there is none. *)
Class Lookups := {
  vis_mark_from : Z -> VisMark;
  VIS_MARK_INVALID : VisMark;
  vis_regex : list Z -> option Regex
}.

Module AddressParser.

(** The statements [sts->tokens[sts->read_index].start++] and
    [.length--] of the mark case. *)
Definition shift_token (sts : SamTokenStream) : SamTokenStream :=
  mkStream (alter (fun t => mkToken (tok_start t + 1)
                                    (u32_wrap (tok_length t - 1)) (tok_type t))
                  (sts_read_index sts) (sts_tokens sts))
           (sts_raw sts) (sts_read_index sts).

(** [parse_address_side]: the side, the stream and the log afterwards;
    [None] is the failing [ASSERT] on the type of [token]. *)
Definition parse_address_side `{Lookups} (sts : SamTokenStream)
    (log : list (SamToken * string)) (token : SamToken)
    : option (AddressSide * SamTokenStream * list (SamToken * string)) :=
  match tok_type token with
  | ST_NUMBER =>
      Some (AT_LINE (s8_to_i64 (token_slice (sts_raw sts) token)), sts, log)
  | ST_DELIMITER =>
      let cp := token_first_byte sts token in
      if cp =? chr "#" then
        if SamTokenType_eqb (tok_type (sam_token_peek sts)) ST_NUMBER then
          let '(value, sts') := sam_token_pop sts in
          Some (AT_BYTE (s8_to_i64 (token_slice (sts_raw sts) value)), sts', log)
        else
          Some (AT_INVALID, sts,
                log ++ [(sam_token_peek sts, "expected byte position"%string)])
      else if cp =? chr "'" then
        if SamTokenType_eqb (tok_type (sam_token_peek sts)) ST_STRING then
          let mark := token_first_byte sts (sam_token_peek sts) in
          let sts' := shift_token sts in
          let m := vis_mark_from mark in
          Some (AT_MARK m, sts',
                if (m =? VIS_MARK_INVALID)%nat
                then log ++ [(sam_token_peek sts', "invalid mark"%string)]
                else log)
        else
          Some (AT_INVALID, sts,
                log ++ [(sam_token_peek sts, "expected mark"%string)])
      else if (cp =? chr "/") || (cp =? chr "?") then
        if negb (SamTokenType_eqb (tok_type (sam_token_peek sts)) ST_INVALID) then
          let '(value, sts') := sam_token_pop sts in
          let re := vis_regex (token_slice (sts_raw sts) value) in
          Some (if cp =? chr "/" then AT_REGEX_FORWARD re else AT_REGEX_BACKWARD re,
                sts',
                match re with
                | Some _ => log
                | None => log ++ [(sam_token_peek sts',
                                   "expected regular expression"%string)]
                end)
        else
          Some (AT_INVALID, sts,
                log ++ [(sam_token_peek sts,
                         "expected regular expression"%string)])
      else if (cp =? chr "$") || (cp =? chr ".") || (cp =? chr "%") then
        Some (AT_CHARACTER cp, sts, log)
      else Some (AT_INVALID, sts, log)
  | _ => None
  end.

(** [parse_address]. *)
Definition parse_address `{Lookups} (sts : SamTokenStream)
    (log : list (SamToken * string))
    : option (Address * SamTokenStream * list (SamToken * string)) :=
  let test := sam_token_peek sts in
  let cp := if SamTokenType_eqb (tok_type test) ST_DELIMITER
            then token_first_byte sts test else 0 in
  let valid_left :=
    SamTokenType_eqb (tok_type test) ST_NUMBER
    || (SamTokenType_eqb (tok_type test) ST_DELIMITER
        && (negb (cp =? 0) && negb (cp =? chr "?") && negb (cp =? chr "/")
            && negb (cp =? chr "$"))) in
  match (if valid_left
         then let '(token, sts1) := sam_token_pop sts in
              parse_address_side sts1 log token
         else Some (AT_INVALID, sts, log)) with
  | None => None
  | Some (left_, sts1, log1) =>
      let test := sam_token_peek sts1 in
      let '(delimeter_, sts2) :=
        if SamTokenType_eqb (tok_type test) ST_DELIMITER
           && IS_SAM_ADDRESS_DELIMITER (token_first_byte sts1 test)
        then (token_first_byte sts1 (fst (sam_token_pop sts1)),
              snd (sam_token_pop sts1))
        else (chr ";", sts1) in
      let test := sam_token_peek sts2 in
      match (if SamTokenType_eqb (tok_type test) ST_NUMBER
                || SamTokenType_eqb (tok_type test) ST_DELIMITER
             then let '(token, sts3) := sam_token_pop sts2 in
                  parse_address_side sts3 log1 token
             else Some (AT_INVALID, sts2, log1)) with
      | None => None
      | Some (right_, sts3, log3) =>
          Some (mkAddress left_ right_ delimeter_, sts3, log3)
      end
  end.

End AddressParser.

(** ** Replacement text *)

(** The registers [text] reads: the last match and the nine numbered
    sub-matches, [VIS_REG_1 + n] for [n] from 0 to 8. *)
Inductive VisRegister :=
| VIS_REG_AMPERSAND
| VIS_REG_NUMBERED (n : Z).

(** [register_get]: the bytes a register holds. *)
Class Registers := {
  register_get : VisRegister -> list Z
}.

(** The two bytes [text] looks for: the backslash and the ampersand. *)
Definition BACKSLASH : Z := 92.
Definition AMPERSAND : Z := chr "&".

(** [strcspn]: the number of leading bytes that are not in [reject]. The
    terminating zero of a C string is the end of the list. *)
Fixpoint strcspn (text reject : list Z) : nat :=
  match text with
  | c :: rest =>
      if existsb (Z.eqb c) reject then O else S (strcspn rest reject)
  | [] => O
  end.

(** The [for] loop of [text]: [text] is the unread part of the argument
    and [buf] what has been appended. Every round reads at least one byte,
    so a bound of [length text] rounds is never reached. *)
Fixpoint text_loop `{Registers} (fuel : nat) (text buf : list Z)
    : option (list Z) :=
  match text with
  | [] => Some buf
  | _ :: _ =>
      match fuel with
      | O => None
      | S fuel' =>
          let len := strcspn text [BACKSLASH; AMPERSAND] in
          let buf := buf ++ take len text in
          let text := drop len text in
          match text with
          | [] => Some buf
          | c :: after =>
              let '(regid, text) :=
                if c =? AMPERSAND then (Some VIS_REG_AMPERSAND, text)
                else if c =? BACKSLASH then
                  match after with
                  | d :: _ =>
                      if (chr "1" <=? d) && (d <=? chr "9")
                      then (Some (VIS_REG_NUMBERED (d - chr "1")), after)
                      else if (d =? BACKSLASH) || (d =? AMPERSAND)
                           then (None, after)
                           else (None, text)
                  | [] => (None, text)
                  end
                else (None, text) in
              let data := match regid with
                          | Some r => register_get r
                          | None => take 1 text
                          end in
              text_loop fuel' (drop 1 text) (buf ++ data)
          end
      end
  end.

(** [text]: the replacement text with the registers substituted. *)
Definition text `{Registers} (arg : list Z) : option (list Z) :=
  text_loop (length arg) arg [].

(** ** Arguments from the token stream *)

(** The [while] loop of [sam_tokens_join_until_space]. Every round pops a
    token, so the tokens left bound the number of rounds; [Trapped] is the
    [ASSERT] of [sam_token_join]. *)
Fixpoint join_until_space_loop (fuel : nat) (s : SamTokenStream)
    (result : SamToken) : Outcome (SamToken * SamTokenStream) :=
  if SamTokenType_eqb (tok_type (sam_token_peek s)) ST_INVALID
  then Done (result, s)
  else
    match fuel with
    | O => OutOfFuel
    | S fuel' =>
        if negb (tok_start result + tok_length result
                 =? tok_start (sam_token_peek s))
        then Done (result, s)
        else
          let '(t, s') := sam_token_pop s in
          match sam_token_join result t with
          | Some r => join_until_space_loop fuel' s' r
          | None => Trapped
          end
    end.

(** [sam_tokens_join_until_space]. *)
Definition sam_tokens_join_until_space (s : SamTokenStream)
    : Outcome (SamToken * SamTokenStream) :=
  let result := mkToken (tok_start (sam_token_peek s)) 0 ST_INVALID in
  match join_until_space_loop (sts_count s - sts_read_index s) s result with
  | Done (result, s') =>
      Done (if negb (tok_length result =? 0)
            then mkToken (tok_start result) (tok_length result) ST_STRING
            else result, s')
  | Trapped => Trapped
  | OutOfFuel => OutOfFuel
  end.

(** The loop of [sam_tokens_to_argv]: the arguments stored so far, as byte
    strings, and the stream. *)
Fixpoint sam_tokens_to_argv_loop (fuel : nat) (s : SamTokenStream)
    (argv : list (list Z)) : Outcome (list (list Z) * SamTokenStream) :=
  if SamTokenType_eqb (tok_type (sam_token_peek s)) ST_INVALID
  then Done (argv, s)
  else
    match fuel with
    | O => OutOfFuel
    | S fuel' =>
        match sam_tokens_join_until_space s with
        | Done (arg, s') =>
            sam_tokens_to_argv_loop fuel' s'
              (argv ++ [token_slice (sts_raw s) arg])
        | Trapped => Trapped
        | OutOfFuel => OutOfFuel
        end
    end.

(** [sam_tokens_to_argv]. *)
Definition sam_tokens_to_argv (s : SamTokenStream)
    : Outcome (list (list Z) * SamTokenStream) :=
  sam_tokens_to_argv_loop (sts_count s - sts_read_index s) s [].

(** ** Integers with a radix prefix (util.c) *)

(** [str8]: [data] as the address of the first byte, next to the [length]
    bytes it points at. *)
Record str8 := mkStr8 { str8_data : Z; str8_bytes : list Z }.

Definition str8_length (s : str8) : Z := Z.of_nat (length (str8_bytes s)).

(** [s.data[k]], read only where [k] is below the length. *)
Definition str8_at (s : str8) (k : Z) : Z := nth (Z.to_nat k) (str8_bytes s) 0.

Definition U64_MAX : Z := 2 ^ 64 - 1.

(** [uint64_t] wrap-around. *)
Definition u64_wrap (z : Z) : Z := z mod 2 ^ 64.

(** The two results [integer_conversion] sets. *)
Inductive IntegerConversionResult :=
| IntegerConversionResult_OutOfRange
| IntegerConversionResult_Success.

(** [IntegerConversion]: the result, the member [as.U64] and the bytes left
    unparsed. *)
Record IntegerConversion := mkIntegerConversion {
  ic_result : IntegerConversionResult;
  ic_U64 : Z;
  ic_unparsed : str8
}.

(** The table [lut] of [integer_conversion]. *)
Definition integer_conversion_lut : list Z :=
  [ 0;  1;  2;  3;  4;  5;  6;  7;  8;  9; -1; -1; -1; -1; -1; -1;
   -1; 10; 11; 12; 13; 14; 15; -1; -1; -1; -1; -1; -1; -1; -1; -1;
   -1; -1; -1; -1; -1; -1; -1; -1; -1; -1; -1; -1; -1; -1; -1; -1;
   -1; 10; 11; 12; 13; 14; 15; -1; -1; -1; -1; -1; -1; -1; -1; -1].

(** [lut[MIN((uint8_t)(c - (uint8_t)'0'), clamp)]]. *)
Definition lut_value (c clamp : Z) : Z :=
  nth (Z.to_nat (Z.min (u8_wrap (c - chr "0")) clamp)) integer_conversion_lut 0.

(** The macro [integer_conversion_body] over the bytes from index [i] on,
    [acc] being [result.as.U64]: [None] is the [return] of the value out
    of range, otherwise the value and the index the loop is left with. *)
Fixpoint integer_conversion_body (radix clamp : Z) (bytes : list Z) (i acc : Z)
    : option (Z * Z) :=
  match bytes with
  | [] => Some (acc, i)
  | c :: rest =>
      let value := lut_value c clamp in
      if 0 <=? value then
        if acc >? (U64_MAX - value) / radix then None
        else integer_conversion_body radix clamp rest (i + 1)
               (u64_wrap (radix * acc + value))
      else Some (acc, i)
  end.

(** [integer_conversion]. *)
Definition integer_conversion (raw : str8) : IntegerConversion :=
  let '(scale, i) :=
    if (0 <? str8_length raw) && (str8_at raw 0 =? chr "-")
    then (-1, 1) else (1, 0) in
  let '(hex, i) :=
    if (2 <? str8_length raw - i) && (str8_at raw i =? chr "0")
       && ((str8_at raw 1 =? chr "x") || (str8_at raw 1 =? chr "X"))
    then (true, i + 2)
    else if (1 <? str8_length raw - i) && (str8_at raw i =? chr "#")
         then (true, i + 1)
         else (false, i) in
  match
    (if hex : bool
     then integer_conversion_body 16 63 (drop (Z.to_nat i) (str8_bytes raw)) i 0
     else integer_conversion_body 10 15 (drop (Z.to_nat i) (str8_bytes raw)) i 0)
  with
  | None =>
      mkIntegerConversion IntegerConversionResult_OutOfRange U64_MAX raw
  | Some (acc, i) =>
      mkIntegerConversion IntegerConversionResult_Success
        (if scale <? 0 then u64_wrap (0 - acc) else acc)
        (mkStr8 (str8_data raw + i) (drop (Z.to_nat i) (str8_bytes raw)))
  end.

(** ** Scanning and splitting strings (util.c) *)

(** The null pointer, and the string [(str8){0}]. *)
Definition NULL : Z := 0.
Definition str8_zero : str8 := mkStr8 NULL [].

(** [memory_scan_reverse] over the first [n] bytes: the index of the byte
    found, the pointer being [memory + index], or [None] for the null
    pointer. *)
Fixpoint memory_scan_reverse (memory : list Z) (byte : Z) (n : nat)
    : option nat :=
  match n with
  | O => None
  | S n' =>
      if nth n' memory 0 =? byte then Some n'
      else memory_scan_reverse memory byte n'
  end.

(** [memory_scan_forward], likewise; [at_] is the index [s - memory]. *)
Fixpoint memory_scan_forward (memory : list Z) (byte : Z) (at_ : nat)
    : option nat :=
  match memory with
  | [] => None
  | c :: rest =>
      if negb (c =? byte) then memory_scan_forward rest byte (S at_)
      else Some at_
  end.

(** The pointer a scan hands back, as an address. *)
Definition scan_pointer (data : Z) (found : option nat) : Z :=
  match found with
  | Some index => data + Z.of_nat index
  | None => NULL
  end.

(** [str8_split_at] with both [left] and [right] given. *)
Definition str8_split_at (s : str8) (n : Z) : str8 * str8 :=
  if (0 <=? n) && (n <=? str8_length s) then
    (mkStr8 (str8_data s) (take (Z.to_nat n) (str8_bytes s)),
     mkStr8 (str8_data s + n + 1)
            (take (Z.to_nat (Z.max 0 (str8_length s - n - 1)))
                  (drop (Z.to_nat (n + 1)) (str8_bytes s))))
  else (s, str8_zero).

(** [str8_split] with both [left] and [right] given. *)
Definition str8_split (s : str8) (byte : Z) : str8 * str8 :=
  str8_split_at s
    (scan_pointer (str8_data s)
                  (memory_scan_forward (str8_bytes s) byte O)
     - str8_data s).

(** [path_split] with both [directory] and [basename] given, as
    [absolute_path] calls it; [dot] is the string literal [str8(".")]. *)
Definition path_split (dot : str8) (path : str8) : str8 * str8 :=
  let at_ :=
    scan_pointer (str8_data path)
                 (memory_scan_reverse (str8_bytes path) (chr "/")
                                      (Z.to_nat (str8_length path)))
    - str8_data path in
  let '(left, basename) := str8_split_at path at_ in
  let '(left, basename) :=
    if (str8_length basename =? 0) && (at_ <=? 0)
    then (str8_zero, left) else (left, basename) in
  ((if str8_length left =? 0 then dot else left), basename).

(** ** Delimited strings *)

(** The [while] loop of [sam_delimited_string]: every round pops a token,
    so the tokens left bound the number of rounds. *)
Fixpoint delimited_string_loop (fuel : nat) (s : SamTokenStream)
    (delimiter result : SamToken) : Outcome (SamToken * SamTokenStream) :=
  if SamTokenType_eqb (tok_type (sam_token_peek s)) ST_INVALID
  then Done (result, s)
  else
    match fuel with
    | O => OutOfFuel
    | S fuel' =>
        let '(token, s') := sam_token_pop s in
        if SamTokenType_eqb (tok_type token) ST_DELIMITER
           && (token_first_byte s token =? token_first_byte s delimiter)
        then Done (mkToken (tok_start result)
                           (u32_wrap (tok_start token - tok_start result))
                           (tok_type result), s')
        else delimited_string_loop fuel' s' delimiter result
    end.

(** [sam_delimited_string]. The pointer [result.start] is null exactly
    when the peek behind the delimiter finds no token. *)
Definition sam_delimited_string (s : SamTokenStream)
    : Outcome (SamToken * SamTokenStream) :=
  if SamTokenType_eqb (tok_type (sam_token_peek s)) ST_DELIMITER then
    let '(delimiter, s1) := sam_token_pop s in
    let start_set :=
      match sts_tokens s1 !! sts_read_index s1 with
      | Some _ => true
      | None => false
      end in
    let result := mkToken (tok_start (sam_token_peek s1)) 0 ST_INVALID in
    match delimited_string_loop (sts_count s1 - sts_read_index s1) s1
                                delimiter result with
    | Done (result, s2) =>
        let result :=
          if start_set && (tok_length result =? 0)
          then mkToken (tok_start result)
                       (u32_wrap (Z.of_nat (length (sts_raw s2))
                                  - tok_start result))
                       (tok_type result)
          else result in
        let result :=
          if negb (tok_length result =? 0)
          then mkToken (tok_start result) (tok_length result) ST_STRING
          else result in
        Done (result, s2)
    | Trapped => Trapped
    | OutOfFuel => OutOfFuel
    end
  else Done (token_invalid, s).

(** ** Parsing the arguments of a command *)

(** The register [VIS_REG_SHELL] in the editor state: [register_put] and
    [register_get] on it. *)
Class ShellRegister := {
  Editor : Type;
  shell_register_put : Editor -> list Z -> Editor;
  shell_register_get : Editor -> list Z
}.

(** The string fields of [struct Command], which the record [Command]
    leaves out: [args[0]] and [u.s8]. *)
Record CommandStrings := mkStrings {
  args0 : option (list Z);
  u_s8 : list Z
}.

Definition set_force (c : Command) (f : bool) : Command :=
  mkCommand (address c) (regex c) (definition c) (count c) (iteration c) f
            (cmd c).

(** [command->count.start = n]. *)
Definition set_count_start (c : Command) (n : Z) : Command :=
  mkCommand (address c) (regex c) (definition c)
            (mkCount n (count_end (count c)) (count_mod (count c)))
            (iteration c) (force c) (cmd c).

(** What [command_parse] returns and leaves behind. *)
Record Parse `{ShellRegister} := mkParse {
  parse_result : bool;
  parse_command : Command;
  parse_strings : CommandStrings;
  parse_sts : SamTokenStream;
  parse_log : list (SamToken * string);
  parse_editor : Editor
}.
Arguments mkParse {_} _ _ _ _ _ _.

(** [command_parse]: the force flag, then for [CMD_TEXT] a count and a
    delimited string, then for [CMD_SHELL] the rest of the line or the
    shell register. It writes into the command it is given; a field it
    does not assign keeps what an earlier command of the line left in it.
    [Trapped] is a command without definition or a failing [ASSERT] in
    the number parser. *)
Definition command_parse `{ShellRegister} (vis : Editor) (command : Command)
    (strings : CommandStrings) (sts : SamTokenStream)
    (log : list (SamToken * string)) : Outcome Parse :=
  match definition command with
  | None => Trapped
  | Some def =>
      let '(command, sts) :=
        if has_flag def CMD_FORCE then
          let '(f, sts') := sam_token_check_pop_force_flag sts in
          (set_force command f, sts')
        else (command, sts) in
      let shell_part (command : Command) (strings : CommandStrings)
                     (sts : SamTokenStream) (log : list (SamToken * string)) :=
        if has_flag def CMD_SHELL then
          let '(token, sts, shell, vis) :=
            if SamTokenType_eqb (tok_type (sam_token_peek sts)) ST_STRING then
              let '(token, sts') := sam_token_pop sts in
              let string := drop (Z.to_nat (tok_start token)) (sts_raw sts') in
              (token, sts', string, shell_register_put vis string)
            else (token_invalid, sts, shell_register_get vis, vis) in
          let strings := mkStrings (args0 strings) shell in
          if Z.of_nat (length shell) <=? 0 then
            mkParse false command strings sts
                    (log ++ [(token, "expected shell command"%string)]) vis
          else mkParse true command strings sts log vis
        else mkParse true command strings sts log vis in
      if has_flag def CMD_TEXT then
        match check_count sts log with
        | None => Trapped
        | Some (n, sts, log) =>
            let command := set_count_start command n in
            match sam_delimited_string sts with
            | Done (string, sts) =>
                if negb (SamTokenType_eqb (tok_type string) ST_INVALID) then
                  let strings :=
                    mkStrings (Some (token_slice (sts_raw sts) string))
                              (u_s8 strings) in
                  Done (shell_part command strings sts log)
                else
                  Done (mkParse false command strings sts
                          (log ++ [(sam_token_peek sts,
                                    "expected delimited string"%string)])
                          vis)
            | Trapped => Trapped
            | OutOfFuel => OutOfFuel
            end
        end
      else Done (shell_part command strings sts log)
  end.

(** * Vocabulary of the properties *)

(** The predicates the statements below are written with, and the concrete
    inputs the definitions are run on. *)

(** ** Order and invariant of a transcript *)

(** The ranges of the linked changes, in link order. *)
Definition transcript_ranges (t : Transcript) : list Filerange :=
  c_range <$> changes t.

(** One range lies wholly before another. *)
Definition range_before (a b : Filerange) : Prop := r_end a <= r_start b.

(** The invariant [change_new] maintains: every linked range is valid, each
    range ends where or before every later one starts, and [latest] points
    into the list. *)
Record transcript_wf (t : Transcript) : Prop := mkWf {
  wf_valid : Forall (fun r => text_range_valid r = true) (transcript_ranges t);
  wf_sorted : StronglySorted range_before (transcript_ranges t);
  wf_latest : forall i, latest t = Some i -> (i < length (changes t))%nat
}.

(** The order the list is kept in: of two linked changes the earlier one
    ends at or before the start of the later one, so starts never
    decrease. *)
Definition transcript_ordered (t : Transcript) : Prop :=
  forall (i j : nat) (a b : Filerange),
    (i < j)%nat ->
    transcript_ranges t !! i = Some a -> transcript_ranges t !! j = Some b ->
    r_end a <= r_start b /\ r_start a <= r_start b.

(** The order in the wording of the specification: starts strictly increase
    along the list. *)
Definition transcript_strictly_ordered (t : Transcript) : Prop :=
  forall (i j : nat) (a b : Filerange),
    (i < j)%nat ->
    transcript_ranges t !! i = Some a -> transcript_ranges t !! j = Some b ->
    r_start a < r_start b.

(** No two linked changes overlap. *)
Definition transcript_disjoint (t : Transcript) : Prop :=
  forall (i j : nat) (a b : Filerange),
    i <> j ->
    transcript_ranges t !! i = Some a -> transcript_ranges t !! j = Some b ->
    ~ ranges_overlap a b.

(** ** A text to run examples on *)

(** Offsets at which the lines of a byte list start. *)
Fixpoint line_starts (pos : Z) (bytes : list Z) : list Z :=
  match bytes with
  | [] => []
  | b :: rest =>
      if b =? 10 then (pos + 1) :: line_starts (pos + 1) rest
      else line_starts (pos + 1) rest
  end.

(** Modelled from the spec: the text collaborator of section 6 (size, byte
    access, line positions, insert, delete) and [text_range_union] ("merge
    two ranges into a new one which contains both of them", text.h), as a
    plain list of bytes. No pattern ever matches. It stands in for the
    piece table where the definitions are run on concrete input. *)
Definition ByteListText : Collaborators := {|
  Text := list Z;
  text_size := fun t => Z.of_nat (length t);
  text_pos_by_lineno := fun t n =>
    if n <=? 1 then 0
    else default (Z.of_nat (length t)) (line_starts 0 t !! Z.to_nat (n - 2));
  text_lineno_by_pos := fun t pos =>
    1 + Z.of_nat (length (filter (fun b => b = 10) (take (Z.to_nat pos) t)));
  text_line_next := fun t pos =>
    default (Z.of_nat (length t))
            (head (filter (fun p => pos < p) (line_starts 0 t)));
  text_byte_get := fun t pos => if pos <? 0 then None else t !! Z.to_nat pos;
  text_mark_get := fun _ m => m;
  text_object_search_forward := fun _ _ _ => text_range_empty;
  text_object_search_backward := fun _ _ _ => text_range_empty;
  text_search_range_forward := fun _ _ _ _ => None;
  text_range_union := fun a b =>
    if negb (text_range_valid a) then b
    else if negb (text_range_valid b) then a
    else mkRange (Z.min (r_start a) (r_start b)) (Z.max (r_end a) (r_end b));
  text_delete_range := fun t r =>
    take (Z.to_nat (r_start r)) t ++ drop (Z.to_nat (r_end r)) t;
  text_insert := fun t pos data len =>
    take (Z.to_nat pos) t ++ take (Z.to_nat len) data ++ drop (Z.to_nat pos) t;
  text_snapshot := fun t => t;
  view_selections_number := fun s => s
|}.

(** The file of the scenarios: three lines, no marks, a fresh transcript. *)
Definition scenario_text : list Z :=
  bytes_of_string "alpha" ++ [10] ++ bytes_of_string "beta" ++ [10]
  ++ bytes_of_string "gamma" ++ [10].

(** ** Token streams and lines *)

(** The tokens the loop of [validate_token_stream] looks at before it
    stops: those in front of the first invalid one. *)
Fixpoint before_invalid (tokens : list SamToken) : list SamToken :=
  match tokens with
  | [] => []
  | t :: rest =>
      match tok_type t with
      | ST_INVALID => []
      | _ => t :: before_invalid rest
      end
  end.

(** Group starts minus group ends. *)
Definition nesting_of (tokens : list SamToken) : Z :=
  Z.of_nat (count_type ST_GROUP_START tokens)
  - Z.of_nat (count_type ST_GROUP_END tokens).

(** The accumulator ends where the unread bytes begin. *)
Definition accum_at (pre : list Z) (accum : SamToken) : Prop :=
  0 <= tok_start accum /\ 0 <= tok_length accum
  /\ tok_start accum + tok_length accum = Z.of_nat (length pre).

(** A byte other than the two braces. *)
Definition no_brace (c : Z) : Prop := c <> chr "{" /\ c <> chr "}".

(** ** Commands and executor histories *)

(** Modelled from the spec: [map_closest] of the map library (section 4.4,
    "the registry returns the command whose name is closest to the input
    (commonly a unique prefix ...)"): the entry stored under the name
    itself, else the only entry whose name the input is a prefix of. *)
Definition closest_match (m : gmap string CommandDef) (key : string)
    : option CommandDef :=
  match m !! key with
  | Some def => Some def
  | None =>
      match filter (fun kv => String.prefix key (fst kv) = true) (map_to_list m) with
      | [kv] => Some (snd kv)
      | _ => None
      end
  end.

(** An editor in which the address parser finds no address and every
    handler succeeds at once, for running the executor on concrete lines. *)
Definition obliging_engine : Engine := {|
  World := unit;
  map_closest := closest_match;
  parse_address := fun w _ => (mkAddress AT_INVALID AT_INVALID (chr ";"), O, w);
  execute_command := fun w command _ _ => (true, O, w, command)
|}.

(** The shell register as the bytes it holds. *)
Definition plain_shell_register : ShellRegister := {|
  Editor := list Z;
  shell_register_put := fun _ s => s;
  shell_register_get := fun s => s
|}.

(** An editor in which the address parser finds no address,
    [execute_command] parses the arguments with [command_parse] and every
    handler succeeds at once, as [obliging_engine] has it. The command
    that comes back is the one the handler was given. *)
Definition parsing_engine : Engine := {|
  World := unit;
  map_closest := closest_match;
  parse_address := fun w _ => (mkAddress AT_INVALID AT_INVALID (chr ";"), O, w);
  execute_command := fun w command sts _ =>
    match @command_parse plain_shell_register [] command (mkStrings None [])
                         sts [] with
    | Done p =>
        (parse_result p,
         (sts_read_index (parse_sts p) - sts_read_index sts)%nat, w,
         parse_command p)
    | _ => (false, O, w, command)
    end
|}.

(** The token stream [sam_cmd] hands to the executor for a line. *)
Definition stream_of_line (line : list Z) : option SamTokenStream :=
  match sam_lex line with
  | Done tokens => Some (mkStream tokens line O)
  | _ => None
  end.

(** The definitions executed successively obey the rule: none is
    destructive once [looped] is set, which a definition with [CMD_LOOP]
    does. *)
Fixpoint obeys_loop_rule (looped : bool) (defs : list CommandDef) : bool :=
  match defs with
  | [] => true
  | d :: rest =>
      negb (looped && has_flag d CMD_DESTRUCTIVE)
      && obeys_loop_rule (looped || has_flag d CMD_LOOP) rest
  end.

Definition any_loop (defs : list CommandDef) : bool :=
  existsb (fun d => has_flag d CMD_LOOP) defs.

(** The shape of the history at any point of the loop: calls of
    [execute_command] obeying the rule, then at most one closing event,
    present only with [should_exit] set; a refusal closes the history only
    for a destructive definition met after a loop was executed. *)
Inductive history_ok `{Engine} (st : ExecState) : Prop :=
| mkHistoryOk (defs : list CommandDef) (last : list ExecEvent) :
    ex_history st = (EvExecute <$> defs) ++ last ->
    did_looping_command st = any_loop defs ->
    obeys_loop_rule false defs = true ->
    (last = []
     \/ (should_exit st = true
         /\ exists e, last = [e]
            /\ (forall d, e <> EvExecute d)
            /\ (forall d, e = EvRefuse d ->
                  has_flag d CMD_DESTRUCTIVE = true /\ any_loop defs = true))) ->
    history_ok st.

(** The loop class in the wording of the specification: [x], [y], [g], [v],
    [X], [Y]. *)
Definition stated_loop_class (d : CommandDef) : bool :=
  bool_decide (name d ∈ ["x"; "y"; "g"; "v"; "X"; "Y"]%string).

(** The rule in that wording, on a history: no destructive definition is
    executed once a definition of the stated loop class was. *)
Definition stated_loop_rule (history : list ExecEvent) : Prop :=
  forall pre d post,
    history = pre ++ EvExecute d :: post ->
    has_flag d CMD_DESTRUCTIVE = true ->
    forall d', EvExecute d' ∈ pre -> stated_loop_class d' = false.

(** The table entries of [v], [x] and [q]. *)
Definition def_v : CommandDef :=
  mkDef "v" command_guard_fn (flag_set [CMD_COUNT; CMD_REGEX; CMD_CMD]).
Definition def_x : CommandDef :=
  mkDef "x" command_extract
    (flag_set [CMD_CMD; CMD_REGEX; CMD_REGEX_DEFAULT; CMD_ADDRESS_ALL_1CURSOR;
               CMD_LOOP; CMD_WIN]).
Definition def_q : CommandDef :=
  mkDef "q" command_quit
    (flag_set [CMD_ARGV; CMD_FORCE; CMD_ONCE; CMD_ADDRESS_NONE; CMD_DESTRUCTIVE]).

(** The tokens still to be read. *)
Definition sts_remaining (s : SamTokenStream) : nat :=
  (sts_count s - sts_read_index s)%nat.

(** ** Changes within machine range *)

(** What the apply loop needs of one change met with running delta [d] so
    that no machine integer wraps: a valid range at offsets a [ptrdiff_t]
    can hold, which the shift keeps at or above zero, a length and a count
    that are not negative, and room for the inserted bytes. *)
Record change_in_range (d : Z) (c : Change) : Prop := mkInRange {
  in_valid : text_range_valid (c_range c) = true;
  in_start : 0 <= r_start (c_range c);
  in_shift : 0 <= r_start (c_range c) + d;
  in_len : 0 <= c_len c;
  in_count : 0 <= c_count c;
  in_end : r_end (c_range c) <= PTRDIFF_MAX;
  in_room : r_end (c_range c) + d + c_len c * c_count c <= PTRDIFF_MAX
}.

(** The change of delta one change brings about under the rule. *)
Definition delta_step (d : Z) (c : Change) : Z :=
  d - (if type_has (c_type c) TRANSCRIPT_DELETE
       then r_end (c_range c) - r_start (c_range c) else 0)
    + (if type_has (c_type c) TRANSCRIPT_INSERT
       then c_len c * c_count c else 0).

(** Every change of the list is in range for the delta it is met with. *)
Fixpoint changes_in_range (d : Z) (l : list Change) : Prop :=
  match l with
  | [] => True
  | c :: rest => change_in_range d c /\ changes_in_range (delta_step d c) rest
  end.

(** A transcript the apply phase handles without a machine integer
    wrapping: valid ranges at offsets from zero on, in list order, lengths
    and counts that are not negative, and the last offset plus all inserted
    bytes within a [ptrdiff_t]. *)
Record transcript_applicable (l : list Change) : Prop := mkApplicable {
  app_valid : Forall (fun c => text_range_valid (c_range c) = true
                               /\ 0 <= r_start (c_range c)
                               /\ 0 <= c_len c /\ 0 <= c_count c) l;
  app_sorted : StronglySorted range_before (c_range <$> l);
  app_room : Forall (fun c => r_end (c_range c) + total_inserted l <= PTRDIFF_MAX) l
}.

(** The three changes of the example: [c/A/] on the first byte, two copies
    of "X" inserted at offset 5, and bytes 10..11 changed to three copies
    of "AB". *)
Definition example_changes : list Change := [
  mkChange TRANSCRIPT_CHANGE O None (mkRange 0 1) [65] 1 1;
  mkChange TRANSCRIPT_INSERT O None (mkRange 5 5) [88] 1 2;
  mkChange TRANSCRIPT_CHANGE O None (mkRange 10 11) [65; 66] 2 3
].

(** ** Enqueueing a set of edits *)

(** The call a handler makes to enqueue the edit a node describes:
    [sam_insert] for an insertion, [sam_delete] for a deletion and
    [sam_change] for a replacement, the allocation succeeding. *)
Definition enqueue_op (c : Change) : TranscriptOp :=
  match c_type c with
  | TRANSCRIPT_INSERT =>
      OpInsert (c_win c) (c_sel c) (r_start (c_range c))
               (c_data c) (c_len c) (c_count c) true
  | TRANSCRIPT_DELETE => OpDelete (c_win c) (c_sel c) (c_range c) true
  | TRANSCRIPT_CHANGE =>
      OpChange (c_win c) (c_sel c) (c_range c)
               (c_data c) (c_len c) (c_count c) true
  end.

(** The nodes the three enqueue functions can leave behind: a valid range,
    an empty one for [sam_insert], and the zeroes of [calloc] in the fields
    [sam_delete] does not assign. *)
Definition enqueueable (c : Change) : Prop :=
  text_range_valid (c_range c) = true /\
  match c_type c with
  | TRANSCRIPT_INSERT => r_end (c_range c) = r_start (c_range c)
  | TRANSCRIPT_DELETE => c_data c = [] /\ c_len c = 0 /\ c_count c = 0
  | TRANSCRIPT_CHANGE => True
  end.

(** Two ranges that leave each other alone: one ends where or before the
    other starts, and they are not one and the same empty range. *)
Definition ranges_apart (a b : Filerange) : Prop :=
  (r_end a <= r_start b /\ r_start a < r_end b) \/
  (r_end b <= r_start a /\ r_start b < r_end a).

(** Every two edits of a list are apart. *)
Fixpoint pairwise_apart (l : list Change) : Prop :=
  match l with
  | [] => True
  | c :: rest =>
      Forall (fun x => ranges_apart (c_range c) (c_range x)) rest
      /\ pairwise_apart rest
  end.

(** Edits to enqueue in some order: an insertion at 9, a deletion of
    [2, 5) and a replacement of [5, 9). *)
Definition example_edits : list Change :=
  [ mkChange TRANSCRIPT_INSERT O None (mkRange 9 9) [33] 1 1;
    mkChange TRANSCRIPT_DELETE O None (mkRange 2 5) [] 0 0;
    mkChange TRANSCRIPT_CHANGE O None (mkRange 5 9) [65; 66] 2 1 ].

(** ** Tokens and the bytes they cover *)

(** The bytes the lexer gathers into a string token: neither white space
    nor a digit, brace or delimiter. *)
Definition string_byte (c : Z) : Prop :=
  ISSPACE c = false /\ ISDIGIT c = false /\ no_brace c
  /\ IS_SAM_DELIMITER c = false.

(** What the type of a token says about its slice of the line. *)
Definition slice_of_type (line : list Z) (t : SamToken) : Prop :=
  match tok_type t with
  | ST_INVALID => False
  | ST_DELIMITER =>
      exists c, token_slice line t = [c] /\ IS_SAM_DELIMITER c = true
  | ST_GROUP_END => token_slice line t = [chr "}"]
  | ST_GROUP_START => token_slice line t = [chr "{"]
  | ST_NUMBER =>
      Forall (fun c => ISDIGIT c = true) (token_slice line t)
      /\ forall c, line !! Z.to_nat (tok_start t + tok_length t) = Some c ->
                   ISDIGIT c = false
  | ST_STRING => Forall string_byte (token_slice line t)
  end.

(** A token lies within the line, is not empty, and its slice is of the
    kind its type names. *)
Definition token_fits (line : list Z) (t : SamToken) : Prop :=
  0 <= tok_start t /\ 0 < tok_length t
  /\ tok_start t + tok_length t <= Z.of_nat (length line)
  /\ slice_of_type line t.

(** Each token ends where or before the next one starts. *)
Definition tokens_in_order (ts : list SamToken) : Prop :=
  StronglySorted (fun a b => tok_start a + tok_length a <= tok_start b) ts.

(** The tokens pushed so far: they fit, are in order and end at or before
    [bound]. *)
Definition lexed_upto (line : list Z) (bound : Z) (s : list SamToken) : Prop :=
  Forall (token_fits line) s /\ tokens_in_order s
  /\ Forall (fun t => tok_start t + tok_length t <= bound) s.

(** The accumulator while the loop runs: a string token that ends where the
    unread bytes begin. *)
Definition accum_ok (line pre : list Z) (accum : SamToken) : Prop :=
  tok_type accum = ST_STRING /\ accum_at pre accum
  /\ Forall string_byte (token_slice line accum).

(** ** Decimal numerals *)

(** The number a list of decimal digits denotes, most significant first,
    continuing from [acc]. *)
Definition decimal_from (acc : Z) (ds : list Z) : Z :=
  fold_left (fun acc d => 10 * acc + d) ds acc.

Definition decimal (ds : list Z) : Z := decimal_from 0 ds.

(** The bytes of the numeral. *)
Definition digit_chars (ds : list Z) : list Z :=
  map (fun d => d + chr "0") ds.

Definition is_digit (d : Z) : Prop := 0 <= d <= 9.

(** The bytes behind a numeral do not go on with a digit. *)
Definition no_digit_ahead (tail : list Z) : Prop :=
  match tail with
  | [] => True
  | c :: _ => ISDIGIT c = false
  end.

(** ** Letter case *)

(** An upper-case ASCII letter as its lower-case one, other bytes as they
    are. *)
Definition ascii_lower (c : Z) : Z :=
  if BETWEEN c (chr "A") (chr "Z") then c + 32 else c.

(** A letter or a digit. *)
Definition alnum (c : Z) : Prop := ISALPHA c = true \/ ISDIGIT c = true.

(** A lower-case letter or a digit. *)
Definition lower_or_digit (c : Z) : bool :=
  BETWEEN c (chr "a") (chr "z") || ISDIGIT c.

(** For a letter or digit [x] and a lower-case letter or digit [y], the
    comparison of [s8_case_ignore_equal] agrees with comparing [x] in
    lower case; checked over the 7-bit bytes. *)
Definition case_pair_ok (x y : nat) : bool :=
  let x := Z.of_nat x in
  let y := Z.of_nat y in
  implb ((ISALPHA x || ISDIGIT x) && lower_or_digit y)
        (Bool.eqb (clear_case_bit y =? clear_case_bit x) (ascii_lower x =? y)).

(** ** Group ends met by the executor *)

(** The state [execute_token_stream] enters its loop with. *)
Definition executor_entry `{Engine} (world : World)
    (cmds_ : gmap string CommandDef) (sts : SamTokenStream) : ExecState :=
  let '(addr, pops, world) := parse_address world sts in
  mkExec world cmds_ (sam_token_pops pops sts) false 0 false
         [mkCommand addr None None (mkCount 0 0 false) 0 false None] [] [].

(** The number of rounds of the loop that pop a group end. This count is
    not kept by the code; it follows [execute_loop] round by round. *)
Fixpoint group_ends_popped `{Engine} (fuel : nat) (st : ExecState) : nat :=
  if negb (sts_count (ex_sts st) =? sts_read_index (ex_sts st))%nat
     && negb (should_exit st) then
    match fuel with
    | O => O
    | S fuel' =>
        let here :=
          if SamTokenType_eqb (tok_type (fst (sam_token_pop (ex_sts st))))
                              ST_GROUP_END
          then 1%nat else O in
        match execute_round st with
        | (st', Finished) => (here + group_ends_popped fuel' st')%nat
        | _ => here
        end
    end
  else O.

(** ** Cursors within the stream *)

(** The second stream is the first one read further by at most [n] tokens:
    as many tokens, the same line, and the cursor inside the stream. *)
Definition read_on (n : nat) (s s' : SamTokenStream) : Prop :=
  sts_count s' = sts_count s /\ sts_raw s' = sts_raw s
  /\ (sts_read_index s <= sts_read_index s' <= sts_read_index s + n)%nat
  /\ (sts_read_index s' <= sts_count s')%nat.

(** A side the parser leaves on the left: no pattern and not the end of the
    file. *)
Definition left_side_ok (side : AddressSide) : Prop :=
  match side with
  | AT_REGEX_BACKWARD _ | AT_REGEX_FORWARD _ => False
  | AT_CHARACTER c => c <> chr "$"
  | _ => True
  end.

(** ** The text a list of changes denotes *)

(** The bytes an insertion adds: [count] copies of the first [len] bytes of
    [data]. *)
Definition inserted_bytes (c : Change) : list Z :=
  concat (replicate (Z.to_nat (c_count c))
                    (take (Z.to_nat (c_len c)) (c_data c))).

(** The bytes of [txt] from offset [a] up to offset [b]. *)
Definition text_between (txt : list Z) (a b : Z) : list Z :=
  take (Z.to_nat (b - a)) (drop (Z.to_nat a) txt).

(** The edit a list of changes describes when every range is read as
    offsets into the text as it was before any change: the text from [pos]
    on, with what each change deletes left out and what it inserts put
    in at the start of its range. *)
Fixpoint edit_from (pos : Z) (txt : list Z) (l : list Change) : list Z :=
  match l with
  | [] => drop (Z.to_nat pos) txt
  | c :: rest =>
      text_between txt pos (r_start (c_range c))
      ++ (if type_has (c_type c) TRANSCRIPT_INSERT then inserted_bytes c else [])
      ++ edit_from (if type_has (c_type c) TRANSCRIPT_DELETE
                    then r_end (c_range c) else r_start (c_range c)) txt rest
  end.

Definition simultaneous_edit (txt : list Z) (l : list Change) : list Z :=
  edit_from 0 txt l.

(** The changes lie within the text and their data hold [len] bytes. *)
Definition changes_within (txt : list Z) (l : list Change) : Prop :=
  Forall (fun c => r_end (c_range c) <= Z.of_nat (length txt)
                   /\ c_len c <= Z.of_nat (length (c_data c))) l.

(** ** Command names across tokens *)

(** The tokens from the cursor on. *)
Definition tokens_left (s : SamTokenStream) : list SamToken :=
  drop (sts_read_index s) (sts_tokens s).

(** The bytes a list of tokens covers. *)
Definition total_length (ts : list SamToken) : Z :=
  fold_right (fun t n => tok_length t + n) 0 ts.

(** The offset [end] that [sam_token_join_command_name] computes for the
    name that begins with the token [start]. *)
Definition name_end (s : SamTokenStream) (start : SamToken) : Z :=
  let command := drop (Z.to_nat (tok_start start)) (sts_raw s) in
  command_name_end (drop (Z.to_nat (tok_length start)) command)
                   (tok_length start) (Z.of_nat (length command)).

(** The name ends behind the first [k] tokens left: [start] and these
    tokens have [end] bytes together. *)
Definition name_ends_behind (s : SamTokenStream) (start : SamToken) (k : nat)
    : Prop :=
  tok_length start + total_length (take k (tokens_left s)) = name_end s start.

(** The lengths at hand are those of a line of less than [2^32] bytes, so
    that the [u32] length of the result holds every sum of them. *)
Definition lengths_in_reach (s : SamTokenStream) (start : SamToken) : Prop :=
  0 <= tok_length start
  /\ Forall (fun t => 0 <= tok_length t) (tokens_left s)
  /\ tok_length start + total_length (tokens_left s) < 2 ^ 32.

(** ** Reading UTF-8 *)

(** A continuation byte, [10xxxxxx]. *)
Definition utf8_continuation (b : Z) : bool := (128 <=? b) && (b <? 192).

(** The code point a sequence of one to four bytes stands for: the lead
    byte tells the length, every other byte is a continuation byte. *)
Definition utf8_decode (bytes : list Z) : option Z :=
  match bytes with
  | [b0] => if (0 <=? b0) && (b0 <? 128) then Some b0 else None
  | [b0; b1] =>
      if (192 <=? b0) && (b0 <? 224) && utf8_continuation b1
      then Some ((b0 - 192) * 64 + (b1 - 128)) else None
  | [b0; b1; b2] =>
      if (224 <=? b0) && (b0 <? 240) && utf8_continuation b1
         && utf8_continuation b2
      then Some ((b0 - 224) * 4096 + (b1 - 128) * 64 + (b2 - 128)) else None
  | [b0; b1; b2; b3] =>
      if (240 <=? b0) && (b0 <? 248) && utf8_continuation b1
         && utf8_continuation b2 && utf8_continuation b3
      then Some ((b0 - 240) * 262144 + (b1 - 128) * 4096 + (b2 - 128) * 64
                 + (b3 - 128))
      else None
  | _ => None
  end.

(** The number of bytes UTF-8 spends on a code point. *)
Definition utf8_length (cp : Z) : Z :=
  if cp <? 128 then 1 else if cp <? 2048 then 2
  else if cp <? 65536 then 3 else 4.

(** The UTF-8 bit distribution of a code point up to [0x10FFFF]. *)
Definition utf8_bytes (cp : Z) : list Z :=
  if cp <? 128 then [cp]
  else if cp <? 2048 then [cp / 64 + 192; cp mod 64 + 128]
  else if cp <? 65536 then
    [cp / 4096 + 224; (cp / 64) mod 64 + 128; cp mod 64 + 128]
  else [cp / 262144 + 240; (cp / 4096) mod 64 + 128; (cp / 64) mod 64 + 128;
        cp mod 64 + 128].

(** A surrogate code point, [U+D800] to [U+DFFF]. *)
Definition surrogate (cp : Z) : bool := (55296 <=? cp) && (cp <=? 57343).

(** Well-formed UTF-8 byte sequences, as the Unicode standard tabulates
    them (table 3-7): the ranges of the bytes of one sequence. *)
Definition utf8_well_formed (bytes : list Z) : bool :=
  match bytes with
  | [b0] => BETWEEN b0 0 127
  | [b0; b1] => BETWEEN b0 194 223 && BETWEEN b1 128 191
  | [b0; b1; b2] =>
      ((b0 =? 224) && BETWEEN b1 160 191
       || BETWEEN b0 225 236 && BETWEEN b1 128 191
       || (b0 =? 237) && BETWEEN b1 128 159
       || BETWEEN b0 238 239 && BETWEEN b1 128 191)
      && BETWEEN b2 128 191
  | [b0; b1; b2; b3] =>
      ((b0 =? 240) && BETWEEN b1 144 191
       || BETWEEN b0 241 243 && BETWEEN b1 128 191
       || (b0 =? 244) && BETWEEN b1 128 143)
      && BETWEEN b2 128 191 && BETWEEN b3 128 191
  | _ => false
  end.

(** ** Hexadecimal numerals *)

(** The value of a hexadecimal digit, 0 for any other byte. *)
Definition hex_digit_value (c : Z) : Z :=
  if ISDIGIT c then c - chr "0"
  else if BETWEEN c (chr "a") (chr "f") then c - chr "a" + 10
  else if BETWEEN c (chr "A") (chr "F") then c - chr "A" + 10
  else 0.

(** The number the bytes denote in base 16, most significant first. *)
Definition hex_value (bytes : list Z) : Z :=
  fold_left (fun acc c => 16 * acc + hex_digit_value c) bytes 0.

(** ** An editor without marks and patterns *)

(** Lookups that know no mark and compile no pattern, for running the
    address parser on concrete lines. *)
Definition plain_lookups : Lookups := {|
  vis_mark_from := fun _ => O;
  VIS_MARK_INVALID := O;
  vis_regex := fun _ => None
|}.

(** ** Escaped text *)

(** A byte [text] copies as it is. *)
Definition plain_byte (c : Z) : Prop := c <> BACKSLASH /\ c <> AMPERSAND.

(** The bytes that make [text] yield one given byte: a backslash in front
    of a backslash or an ampersand. *)
Definition escape_byte (c : Z) : list Z :=
  if (c =? BACKSLASH) || (c =? AMPERSAND) then [BACKSLASH; c] else [c].

Definition escape (s : list Z) : list Z := concat (map escape_byte s).

(** The bytes of a C string: none of them is the terminating zero. *)
Definition c_string (s : list Z) : Prop := Forall (fun c => c <> 0) s.

(** Registers that hold nothing. *)
Definition empty_registers : Registers := {|
  register_get := fun _ => []
|}.

(** ** Runs of tokens and words of a line *)

(** A stretch of the line: the offset of its first byte and its length. *)
Definition Span : Type := Z * Z.

(** Stretches found so far, and the one still open. *)
Definition Spans : Type := list Span * option Span.

Definition close_spans (st : Spans) : list Span :=
  fst st ++ match snd st with Some r => [r] | None => [] end.

(** Runs of tokens that touch: a token that starts where the open run
    ends joins it, any other token closes the run and opens the next. *)
Definition run_step (st : Spans) (t : SamToken) : Spans :=
  match snd st with
  | Some (a, n) =>
      if a + n =? tok_start t
      then (fst st, Some (a, n + tok_length t))
      else (fst st ++ [(a, n)], Some (tok_start t, tok_length t))
  | None => (fst st, Some (tok_start t, tok_length t))
  end.

Definition token_runs (ts : list SamToken) : list Span :=
  close_spans (fold_left run_step ts ([], None)).

(** Words of a line: a byte that is no white space joins the open word or
    opens one at its offset, white space closes the word. *)
Definition word_step (st : Spans * Z) (c : Z) : Spans * Z :=
  let '(spans, pos) := st in
  if ISSPACE c then ((close_spans spans, None), pos + 1)
  else ((fst spans,
         Some (match snd spans with
               | Some (a, n) => (a, n + 1)
               | None => (pos, 1)
               end)), pos + 1).

Definition word_spans (line : list Z) : list Span :=
  close_spans (fst (fold_left word_step line (([], None), 0))).

(** The bytes of a stretch. *)
Definition span_slice (line : list Z) (sp : Span) : list Z :=
  take (Z.to_nat (snd sp)) (drop (Z.to_nat (fst sp)) line).

(** The words of a line, separated by white space. *)
Definition words (line : list Z) : list (list Z) :=
  span_slice line <$> word_spans line.

(** The runs of the tokens agree with the words of the bytes read: the
    same stretches, the open word being the open run and ending where the
    unread bytes begin, and without an open word every run ending
    earlier. *)
Definition runs_match (T : Spans) (W : Spans) (pos : Z) : Prop :=
  close_spans T = close_spans W
  /\ match snd W with
     | Some w => snd T = Some w /\ fst w + snd w = pos
     | None => match snd T with
               | Some (a, n) => a + n < pos
               | None => True
               end
     end.

(** The open word after [n] more bytes that are no white space, the first
    of them at offset [pos]. *)
Definition extend_spans (W : Spans) (pos n : Z) : Spans :=
  (fst W, Some (match snd W with
                | Some (a, m) => (a, m + n)
                | None => (pos, n)
                end)).

(** A token of a valid type whose bytes lie below the offset [2^32], so
    that the [u32] length of a token holds the length of any run. *)
Definition token_in_reach (t : SamToken) : Prop :=
  tok_type t <> ST_INVALID
  /\ 0 <= tok_start t /\ 0 <= tok_length t
  /\ tok_start t + tok_length t < 2 ^ 32.

Definition all_in_reach (ts : list SamToken) : Prop := Forall token_in_reach ts.

(** ** Numerals with a radix prefix *)

(** What a conversion that reads the number [v] from the first [read] bytes
    amounts to: the number, negated modulo [2^64] behind a minus sign, and
    the bytes behind it; a number above [U64_MAX] is out of range, and
    nothing counts as parsed. *)
Definition conversion_of (raw : str8) (negative : bool) (v : Z) (read : nat)
    : IntegerConversion :=
  if v <=? U64_MAX then
    mkIntegerConversion IntegerConversionResult_Success
      (if negative then (2 ^ 64 - v) mod 2 ^ 64 else v)
      (mkStr8 (str8_data raw + Z.of_nat read) (drop read (str8_bytes raw)))
  else mkIntegerConversion IntegerConversionResult_OutOfRange U64_MAX raw.

(** The bytes behind a numeral begin with a byte that is no digit of the
    kind [digit]. *)
Definition stops_at (digit : Z -> bool) (tail : list Z) : Prop :=
  match tail with
  | [] => True
  | c :: _ => 0 <= c < 256 /\ digit c = false
  end.

(** The bytes behind a numeral do not begin with the letter of the
    hexadecimal prefix. *)
Definition no_radix_letter (tail : list Z) : Prop :=
  match tail with
  | [] => True
  | c :: _ => c <> chr "x" /\ c <> chr "X"
  end.

(** The table maps a byte to its value as a decimal digit under the clamp
    15 and as a hexadecimal digit under the clamp 63, and any other byte to
    a negative entry. *)
Definition lut_entry_ok (n : nat) : bool :=
  let c := Z.of_nat n in
  (lut_value c 15 =? (if ISDIGIT c then c - chr "0" else -1))
  && (lut_value c 63 =? (if ISHEX c then hex_digit_value c else -1)).

(** ** Paths *)

(** The directory part of a path that holds a slash, [d] being the bytes
    in front of the last slash: with nothing in front of it, the
    directory is the string ".". *)
Definition directory_of (dot : str8) (data : Z) (d : list Z) : str8 :=
  match d with
  | [] => dot
  | _ :: _ => mkStr8 data d
  end.

(** ** Closing delimiters *)

(** A delimiter token whose byte is that of the delimiter [d]. *)
Definition closes (raw : list Z) (d t : SamToken) : bool :=
  SamTokenType_eqb (tok_type t) ST_DELIMITER
  && (default 0 (raw !! Z.to_nat (tok_start t))
      =? default 0 (raw !! Z.to_nat (tok_start d))).

(** A token that is valid and does not close the string opened by [d]. *)
Definition inside (raw : list Z) (d t : SamToken) : Prop :=
  tok_type t <> ST_INVALID /\ closes raw d t = false.

(** The string token from [start] up to [stop]. *)
Definition string_between (start stop : Z) : SamToken :=
  mkToken start (stop - start) ST_STRING.

(** * Properties *)

(** ** Ranges *)

Lemma text_range_valid_spec (r : Filerange) :
  text_range_valid r = true <->
  r_start r <> EPOS /\ r_end r <> EPOS /\ r_start r <= r_end r.
Proof.
  unfold text_range_valid.
  rewrite !andb_true_iff, !negb_true_iff, !Z.eqb_neq, Z.leb_le. tauto.
Qed.

Lemma text_range_valid_le (r : Filerange) :
  text_range_valid r = true -> r_start r <= r_end r.
Proof. rewrite text_range_valid_spec. tauto. Qed.

Lemma ranges_overlapb_spec (a b : Filerange) :
  ranges_overlapb a b = true <-> ranges_overlap a b.
Proof.
  unfold ranges_overlapb, ranges_overlap.
  rewrite andb_true_iff, !Z.ltb_lt. tauto.
Qed.

(** ** The transcript invariant *)

Lemma sorted_lookup_before (rs : list Filerange) (i j : nat) (a b : Filerange) :
  StronglySorted range_before rs ->
  (i < j)%nat -> rs !! i = Some a -> rs !! j = Some b -> range_before a b.
Proof.
  intros Hs Hij Ha Hb.
  rewrite <- (take_drop j rs) in Hs.
  eapply StronglySorted_app_1_elem_of; [exact Hs | |].
  - apply elem_of_take. eauto.
  - apply (list_elem_of_lookup_2 _ O). rewrite lookup_drop.
    by replace (j + 0)%nat with j by lia.
Qed.

Lemma transcript_wf_ordered (t : Transcript) :
  transcript_wf t -> transcript_ordered t.
Proof.
  intros [Hv Hs _] i j a b Hij Ha Hb.
  pose proof (sorted_lookup_before _ _ _ _ _ Hs Hij Ha Hb) as Hab.
  rewrite Forall_lookup in Hv.
  pose proof (text_range_valid_le _ (Hv _ _ Ha)).
  unfold range_before in Hab. lia.
Qed.

Lemma transcript_wf_disjoint (t : Transcript) :
  transcript_wf t -> transcript_disjoint t.
Proof.
  intros Hwf i j a b Hne Ha Hb [H1 H2].
  pose proof (transcript_wf_ordered _ Hwf) as Ho.
  destruct (Nat.lt_ge_cases i j) as [Hlt | Hge].
  - destruct (Ho _ _ _ _ Hlt Ha Hb). lia.
  - assert (j < i)%nat as Hlt by lia.
    destruct (Ho _ _ _ _ Hlt Hb Ha). lia.
Qed.

Lemma transcript_zero_wf : transcript_wf transcript_zero.
Proof.
  split; cbn.
  - constructor.
  - constructor.
  - discriminate.
Qed.

(** ** The walk of [change_new] *)

Lemma skip_before_le (l : list Change) (s : Z) :
  (skip_before l s <= length l)%nat.
Proof.
  induction l as [| c l IH]; cbn; [lia |].
  destruct (r_end (c_range c) <=? s); cbn; lia.
Qed.

Lemma skip_before_take (l : list Change) (s : Z) :
  Forall (fun c => r_end (c_range c) <= s) (take (skip_before l s) l).
Proof.
  induction l as [| c l IH]; cbn; [constructor |].
  destruct (r_end (c_range c) <=? s) eqn:E; cbn; [| constructor].
  constructor; [by apply Z.leb_le | exact IH].
Qed.

Lemma skip_before_stop (l : list Change) (s : Z) (c : Change) :
  l !! skip_before l s = Some c -> s < r_end (c_range c).
Proof.
  induction l as [| x l IH]; cbn; [discriminate |].
  destruct (r_end (c_range x) <=? s) eqn:E; cbn.
  - exact IH.
  - intros [= <-]. by apply Z.leb_gt.
Qed.

Lemma walk_origin_le (t : Transcript) (r : Filerange) :
  (walk_origin t r <= length (changes t))%nat.
Proof.
  unfold walk_origin.
  destruct (latest t) as [i |]; [| lia].
  destruct (changes t !! i) as [l |] eqn:E; [| lia].
  apply lookup_lt_Some in E.
  destruct (r_end (c_range l) <=? r_start r); lia.
Qed.

Lemma insertion_index_le (t : Transcript) (r : Filerange) :
  (insertion_index t r <= length (changes t))%nat.
Proof.
  unfold insertion_index.
  pose proof (walk_origin_le t r).
  pose proof (skip_before_le (drop (walk_origin t r) (changes t)) (r_start r)) as Hs.
  rewrite length_drop in Hs. lia.
Qed.

Lemma walk_origin_take (t : Transcript) (r : Filerange) :
  transcript_wf t ->
  Forall (fun c => r_end (c_range c) <= r_start r)
         (take (walk_origin t r) (changes t)).
Proof.
  intros [Hv Hs _]. unfold walk_origin.
  destruct (latest t) as [i |]; [| constructor].
  destruct (changes t !! i) as [l |] eqn:El; [| constructor].
  destruct (r_end (c_range l) <=? r_start r) eqn:E; [| constructor].
  apply Z.leb_le in E.
  apply Forall_lookup. intros k x Hk.
  apply lookup_take_Some in Hk as [Hk Hlt].
  destruct (decide (k = i)) as [-> | Hne].
  - by simplify_eq.
  - assert (k < i)%nat as Hki by lia.
    assert (transcript_ranges t !! k = Some (c_range x)) as Hx
      by (unfold transcript_ranges; by rewrite list_lookup_fmap, Hk).
    assert (transcript_ranges t !! i = Some (c_range l)) as Hl
      by (unfold transcript_ranges; by rewrite list_lookup_fmap, El).
    pose proof (sorted_lookup_before _ _ _ _ _ Hs Hki Hx Hl) as Hb.
    rewrite Forall_lookup in Hv.
    pose proof (text_range_valid_le _ (Hv _ _ Hl)).
    unfold range_before in Hb. lia.
Qed.

Lemma insertion_index_take (t : Transcript) (r : Filerange) :
  transcript_wf t ->
  Forall (fun c => r_end (c_range c) <= r_start r)
         (take (insertion_index t r) (changes t)).
Proof.
  intros Hwf. unfold insertion_index.
  rewrite <- take_take_drop. apply Forall_app. split.
  - by apply walk_origin_take.
  - apply skip_before_take.
Qed.

Lemma insertion_index_stop (t : Transcript) (r : Filerange) (c : Change) :
  changes t !! insertion_index t r = Some c -> r_start r < r_end (c_range c).
Proof.
  unfold insertion_index. rewrite <- lookup_drop. apply skip_before_stop.
Qed.

(** ** [change_new] keeps the invariant *)

(** The three ways [change_new] can leave. *)
Lemma change_new_cases (t : Transcript) ty r win sel ok :
  let j := insertion_index t r in
  (change_new t ty r win sel ok = (None, t))
  \/ (change_new t ty r win sel ok =
        (None, mkTranscript (changes t) (latest t) SAM_ERR_CONFLICT)
      /\ text_range_valid r = true
      /\ exists next, changes t !! j = Some next
                      /\ r_start (c_range next) < r_end r)
  \/ (change_new t ty r win sel ok =
        (Some j, mkTranscript
                   (take j (changes t)
                    ++ mkChange ty win sel r [] 0 0 :: drop j (changes t))
                   (Some j) (error t))
      /\ text_range_valid r = true
      /\ forall next, changes t !! j = Some next ->
                      r_end r <= r_start (c_range next)).
Proof.
  intros j. unfold change_new. fold j.
  destruct (text_range_valid r) eqn:Hv; [| by left].
  destruct (changes t !! j) as [next |] eqn:Hn.
  - destruct (r_start (c_range next) <? r_end r) eqn:Hc.
    + right. left. apply Z.ltb_lt in Hc. eauto.
    + destruct ok; [| by left].
      right. right. apply Z.ltb_ge in Hc.
      split; [done | split; [done |]]. by intros ? [= <-].
  - destruct ok; [| by left].
    right. right. split; [done | split; [done |]]. discriminate.
Qed.

Lemma change_new_wf (t : Transcript) ty r win sel ok :
  transcript_wf t -> transcript_wf (snd (change_new t ty r win sel ok)).
Proof.
  intros Hwf.
  destruct (change_new_cases t ty r win sel ok) as [-> | [[-> _] | [-> [Hv Hnext]]]];
    cbn [snd]; [done | by destruct Hwf |].
  pose proof (insertion_index_take t r Hwf) as Hbefore.
  pose proof (insertion_index_le t r) as Hle.
  set (j := insertion_index t r) in *.
  destruct Hwf as [Hvalid Hsorted _].
  unfold transcript_ranges in *.
  assert (Hafter : Forall (range_before r) (c_range <$> drop j (changes t))).
  { apply Forall_lookup. intros k y Hy.
    rewrite fmap_drop, lookup_drop in Hy.
    destruct (changes t !! j) as [next |] eqn:Hn.
    - specialize (Hnext _ eq_refl).
      destruct k as [| k].
      + replace (j + 0)%nat with j in Hy by lia.
        rewrite list_lookup_fmap, Hn in Hy. cbn in Hy. simplify_eq. exact Hnext.
      + assert ((c_range <$> changes t) !! j = Some (c_range next)) as Hj
          by (by rewrite list_lookup_fmap, Hn).
        assert (j < j + S k)%nat as Hlt by lia.
        pose proof (sorted_lookup_before _ _ _ _ _ Hsorted Hlt Hj Hy) as Hb.
        rewrite Forall_lookup in Hvalid.
        pose proof (text_range_valid_le _ (Hvalid _ _ Hj)).
        unfold range_before in *. lia.
    - apply lookup_ge_None_1 in Hn.
      apply lookup_lt_Some in Hy. rewrite length_fmap in Hy. lia. }
  split; unfold transcript_ranges; cbn [changes latest].
  - rewrite fmap_app, fmap_cons. apply Forall_app. split.
    + rewrite fmap_take. by apply Forall_take.
    + constructor; [done |]. rewrite fmap_drop. by apply Forall_drop.
  - rewrite <- (take_drop j (c_range <$> changes t)) in Hsorted.
    apply StronglySorted_app in Hsorted as (Hcross & Hs1 & Hs2).
    rewrite fmap_app, fmap_cons, fmap_take, fmap_drop.
    apply StronglySorted_app. split; [| split]; [| done |].
    + intros x1 x2 Hx1 Hx2. apply elem_of_cons in Hx2 as [-> | Hx2].
      * rewrite <- fmap_take in Hx1.
        apply list_elem_of_fmap in Hx1 as (c & -> & Hc).
        rewrite Forall_forall in Hbefore. by apply Hbefore.
      * by apply Hcross.
    + apply StronglySorted_cons. split; [| done].
      by rewrite <- fmap_drop.
  - intros i [= <-].
    rewrite length_app, length_take_le by done. cbn. lia.
Qed.

(** A range overlapping a linked change is refused with the conflict
    error. *)
Lemma change_new_overlap (t : Transcript) ty r win sel ok (c : Change) :
  transcript_wf t -> text_range_valid r = true ->
  c ∈ changes t -> ranges_overlap (c_range c) r ->
  change_new t ty r win sel ok =
    (None, mkTranscript (changes t) (latest t) SAM_ERR_CONFLICT).
Proof.
  intros Hwf Hv Hin [Ho1 Ho2].
  pose proof (insertion_index_take t r Hwf) as Hbefore.
  set (j := insertion_index t r) in *.
  apply list_elem_of_lookup_1 in Hin as [k Hk].
  assert (j <= k)%nat as Hjk.
  { destruct (Nat.le_gt_cases j k) as [| Hlt]; [done |].
    rewrite Forall_lookup in Hbefore.
    assert (take j (changes t) !! k = Some c) as Hc
      by (rewrite lookup_take_lt; done).
    specialize (Hbefore _ _ Hc). cbn in Hbefore. lia. }
  destruct (changes t !! j) as [next |] eqn:Hn.
  2: { apply lookup_ge_None_1 in Hn. apply lookup_lt_Some in Hk. lia. }
  assert (r_start (c_range next) <= r_start (c_range c)) as Hnc.
  { destruct (decide (j = k)) as [-> | Hne]; [by simplify_eq |].
    destruct Hwf as [Hvalid Hsorted _]. unfold transcript_ranges in *.
    assert ((c_range <$> changes t) !! j = Some (c_range next)) as Hj
      by (by rewrite list_lookup_fmap, Hn).
    assert ((c_range <$> changes t) !! k = Some (c_range c)) as Hk'
      by (by rewrite list_lookup_fmap, Hk).
    assert (j < k)%nat as Hlt by lia.
    pose proof (sorted_lookup_before _ _ _ _ _ Hsorted Hlt Hj Hk') as Hb.
    rewrite Forall_lookup in Hvalid.
    pose proof (text_range_valid_le _ (Hvalid _ _ Hj)).
    unfold range_before in Hb. lia. }
  unfold change_new. rewrite Hv. fold j. rewrite Hn.
  assert ((r_start (c_range next) <? r_end r) = true) as ->
    by (apply Z.ltb_lt; lia).
  done.
Qed.

(** Conversely the conflict error is raised only against a linked change
    the new range overlaps. *)
Lemma change_new_conflict_overlaps (t : Transcript) ty r win sel ok :
  change_new t ty r win sel ok =
    (None, mkTranscript (changes t) (latest t) SAM_ERR_CONFLICT) ->
  error t <> SAM_ERR_CONFLICT ->
  exists c, c ∈ changes t /\ ranges_overlap (c_range c) r.
Proof.
  intros Heq Herr.
  destruct (change_new_cases t ty r win sel ok)
    as [H | [(_ & _ & next & Hn & Hlt) | [H _]]].
  - rewrite H in Heq. destruct t. cbn in *. congruence.
  - exists next. split; [by eapply list_elem_of_lookup_2 |].
    split; [done |]. by eapply insertion_index_stop.
  - rewrite H in Heq. discriminate.
Qed.

(** ** The enqueue functions and the invariant *)

Lemma transcript_fill_ranges (t : Transcript) j data len count_ :
  transcript_ranges (transcript_fill t j data len count_) = transcript_ranges t.
Proof.
  unfold transcript_ranges, transcript_fill. cbn [changes].
  apply list_eq. intros i.
  rewrite !list_lookup_fmap.
  destruct (decide (j = i)) as [-> | Hne].
  - rewrite list_lookup_alter_eq. by destruct (changes t !! i).
  - by rewrite list_lookup_alter_ne.
Qed.

Lemma transcript_fill_wf (t : Transcript) j data len count_ :
  transcript_wf t -> transcript_wf (transcript_fill t j data len count_).
Proof.
  intros [Hv Hs Hl]. split.
  - by rewrite transcript_fill_ranges.
  - by rewrite transcript_fill_ranges.
  - unfold transcript_fill. cbn [changes latest]. intros i Hi.
    rewrite length_alter. by apply Hl.
Qed.

Lemma sam_transcript_error_wf (t : Transcript) err :
  transcript_wf t -> transcript_wf (snd (sam_transcript_error t err)).
Proof.
  intros Hwf. unfold sam_transcript_error. cbn [snd].
  destruct (changes t) eqn:E; [done |].
  destruct Hwf as [Hv Hs Hl]. unfold transcript_ranges in *.
  split; unfold transcript_ranges; cbn [changes latest]; by rewrite ?E in *.
Qed.

Lemma transcript_op_wf (t : Transcript) (op : TranscriptOp) :
  transcript_wf t -> transcript_wf (transcript_op t op).
Proof.
  intros Hwf. destruct op as [w s pos d l n ok | w s r ok | w s r d l n ok |]; cbn.
  - unfold sam_insert.
    pose proof (change_new_wf t TRANSCRIPT_INSERT (text_range_new pos pos) w s ok Hwf).
    destruct (change_new _ _ _ _ _ _) as [[j |] t']; cbn in *;
      [by apply transcript_fill_wf | done].
  - unfold sam_delete.
    pose proof (change_new_wf t TRANSCRIPT_DELETE r w s ok Hwf).
    by destruct (change_new _ _ _ _ _ _) as [[j |] t'].
  - unfold sam_change.
    pose proof (change_new_wf t TRANSCRIPT_CHANGE r w s ok Hwf).
    destruct (change_new _ _ _ _ _ _) as [[j |] t']; cbn in *;
      [by apply transcript_fill_wf | done].
  - by apply sam_transcript_error_wf.
Qed.

Lemma transcript_ops_wf (ops : list TranscriptOp) (t : Transcript) :
  transcript_wf t -> transcript_wf (transcript_ops t ops).
Proof.
  revert t. induction ops as [| op ops IH]; intros t Hwf; cbn; [done |].
  apply IH. by apply transcript_op_wf.
Qed.

(** ** Invalid ranges *)

Lemma text_range_invalid_spec (r : Filerange) :
  text_range_valid r = false <->
  r_start r = EPOS \/ r_end r = EPOS \/ r_end r < r_start r.
Proof.
  destruct (text_range_valid r) eqn:E.
  - apply text_range_valid_spec in E. split; [discriminate | lia].
  - split; [intros _ | done].
    unfold text_range_valid in E.
    rewrite !andb_false_iff, !negb_false_iff, !Z.eqb_eq, Z.leb_gt in E. lia.
Qed.

(** C10. For every transcript and every invalid range (start or end equal
    to [EPOS], or start above end) [change_new] returns null and leaves the
    transcript exactly as it was: no node linked, no error set. Hence
    [sam_delete] and [sam_change] return false on such a range, and so does
    [sam_insert] at the position [EPOS], the transcript staying as it
    was. *)
Theorem change_new_invalid_range_unchanged
    (t : Transcript) (range : Filerange) (ty : ChangeType) (win : Win)
    (sel : option Selection) (data : list Z) (len count_ : Z) (ok : bool) :
  r_start range = EPOS \/ r_end range = EPOS \/ r_end range < r_start range ->
  change_new t ty range win sel ok = (None, t)
  /\ sam_delete t win sel range ok = (false, t)
  /\ sam_change t win sel range data len count_ ok = (false, t)
  /\ sam_insert t win sel EPOS data len count_ ok = (false, t).
Proof.
  intros Hinv. apply text_range_invalid_spec in Hinv.
  assert (forall ty', change_new t ty' range win sel ok = (None, t)) as Hnew
    by (intros ty'; unfold change_new; by rewrite Hinv).
  split; [apply Hnew |].
  unfold sam_delete, sam_change, sam_insert. rewrite !Hnew.
  split; [done | split; [done |]].
  assert (text_range_valid (text_range_new EPOS EPOS) = false) as Hpos
    by (by vm_compute).
  unfold change_new. by rewrite Hpos.
Qed.

Lemma change_new_invalid_range_unchanged_witness :
  let t := snd (change_new transcript_zero TRANSCRIPT_DELETE (mkRange 2 9)
                           O None true) in
  change_new t TRANSCRIPT_CHANGE (mkRange 7 3) O (Some 1%nat) true = (None, t)
  /\ sam_delete t O (Some 1%nat) (mkRange 7 3) true = (false, t)
  /\ sam_change t O (Some 1%nat) (mkRange 7 3) [120] 1 1 true = (false, t)
  /\ sam_insert t O (Some 1%nat) EPOS [120] 1 1 true = (false, t).
Proof.
  apply change_new_invalid_range_unchanged.
  right. right. cbn. lia.
Defined.

(** ** Order of the linked changes *)

(** C2, as the code has it. After every call of [change_new] on a
    transcript built up during a [sam_cmd] call, whether the call links a
    node, refuses it or flags an error, the linked changes are ordered by
    range (an earlier change ends at or before the start of every later
    one, so starts never decrease; two changes may start at the same
    offset) and no two of them overlap; and a valid range overlapping a
    linked change is not linked and sets the error to
    [SAM_ERR_CONFLICT]. *)
Theorem change_new_keeps_changes_ordered
    (ops : list TranscriptOp) (ty : ChangeType) (r : Filerange) (win : Win)
    (sel : option Selection) (ok : bool) :
  let t := transcript_ops transcript_zero ops in
  let result := change_new t ty r win sel ok in
  transcript_ordered (snd result)
  /\ transcript_disjoint (snd result)
  /\ (forall c, c ∈ changes t -> text_range_valid r = true ->
                ranges_overlap (c_range c) r ->
                fst result = None
                /\ changes (snd result) = changes t
                /\ error (snd result) = SAM_ERR_CONFLICT).
Proof.
  intros t result.
  assert (transcript_wf t) as Hwf
    by (apply transcript_ops_wf, transcript_zero_wf).
  pose proof (change_new_wf t ty r win sel ok Hwf) as Hwf'.
  split; [by apply transcript_wf_ordered |].
  split; [by apply transcript_wf_disjoint |].
  intros c Hin Hv Ho. unfold result.
  by rewrite (change_new_overlap t ty r win sel ok c Hwf Hv Hin Ho).
Qed.

Lemma change_new_keeps_changes_ordered_witness :
  let t := transcript_ops transcript_zero
             [OpDelete O None (mkRange 2 9) true] in
  let result := change_new t TRANSCRIPT_INSERT (mkRange 4 4) O None true in
  fst result = None
  /\ changes (snd result) = changes t
  /\ error (snd result) = SAM_ERR_CONFLICT.
Proof.
  refine (proj2 (proj2 (change_new_keeps_changes_ordered
            [OpDelete O None (mkRange 2 9) true]
            TRANSCRIPT_INSERT (mkRange 4 4) O None true))
          (mkChange TRANSCRIPT_DELETE O None (mkRange 2 9) [] 0 0) _ _ _).
  - cbn. apply list_elem_of_here.
  - reflexivity.
  - unfold ranges_overlap. cbn. lia.
Defined.

(** C2, as worded, fails: two inserts at the same offset are both linked,
    so the starts along the list do not strictly increase. *)
Lemma change_new_links_equal_starts :
  let t1 := snd (change_new transcript_zero TRANSCRIPT_INSERT (mkRange 5 5)
                            O None true) in
  let t2 := snd (change_new t1 TRANSCRIPT_INSERT (mkRange 5 5) O None true) in
  transcript_ranges t2 = [mkRange 5 5; mkRange 5 5]
  /\ error t2 = SAM_ERR_OK
  /\ ~ transcript_strictly_ordered t2.
Proof.
  cbn zeta. split; [reflexivity | split; [reflexivity |]].
  intros H.
  specialize (H 0%nat 1%nat (mkRange 5 5) (mkRange 5 5)).
  cbn in H. specialize (H ltac:(lia) eq_refl eq_refl). lia.
Qed.

(** ** Conflicts skip the apply phase *)

Lemma change_new_error_kept (t : Transcript) ty r win sel ok :
  error t <> SAM_ERR_OK -> error (snd (change_new t ty r win sel ok)) <> SAM_ERR_OK.
Proof.
  intros He.
  destruct (change_new_cases t ty r win sel ok) as [-> | [[-> _] | [-> _]]];
    cbn; done.
Qed.

Lemma transcript_op_error_kept (t : Transcript) (op : TranscriptOp) :
  error t <> SAM_ERR_OK -> error (transcript_op t op) <> SAM_ERR_OK.
Proof.
  intros He. destruct op as [w s pos d l n ok | w s r ok | w s r d l n ok |]; cbn.
  - unfold sam_insert.
    pose proof (change_new_error_kept t TRANSCRIPT_INSERT (text_range_new pos pos)
                  w s ok He).
    by destruct (change_new _ _ _ _ _ _) as [[j |] t'].
  - unfold sam_delete.
    pose proof (change_new_error_kept t TRANSCRIPT_DELETE r w s ok He).
    by destruct (change_new _ _ _ _ _ _) as [[j |] t'].
  - unfold sam_change.
    pose proof (change_new_error_kept t TRANSCRIPT_CHANGE r w s ok He).
    by destruct (change_new _ _ _ _ _ _) as [[j |] t'].
  - unfold sam_transcript_error. cbn. by destruct (changes t).
Qed.

Lemma transcript_ops_error_kept (ops : list TranscriptOp) (t : Transcript) :
  error t <> SAM_ERR_OK -> error (transcript_ops t ops) <> SAM_ERR_OK.
Proof.
  revert t. induction ops as [| op ops IH]; intros t He; cbn; [done |].
  by apply IH, transcript_op_error_kept.
Qed.

Lemma sam_cmd_apply_file_error `{Collaborators} (visual : bool) (file : File)
    (err : SamError) :
  f_internal file = false -> error (f_transcript file) <> SAM_ERR_OK ->
  sam_cmd_apply_file visual file err = (file, error (f_transcript file), []).
Proof.
  intros Hi He. unfold sam_cmd_apply_file. rewrite Hi.
  by destruct (error (f_transcript file)).
Qed.

(** C1. Take any file and any point of a [sam_cmd] call, the transcript of
    the file having been built by the commands run so far ([before]). When
    a command now enqueues a change whose (valid) byte range overlaps the
    range of a change already on the transcript, [change_new] sets the
    error to [SAM_ERR_CONFLICT] and links nothing; whatever the commands
    still to run ([after]) do to the transcript, its error stays set, so
    the apply phase skips the file: its text is the text it had, no view is
    touched, and [sam_cmd] reports the error of the transcript. *)
Theorem overlapping_changes_conflict `{Collaborators}
    (before after : list TranscriptOp) (c : Change) (ty : ChangeType)
    (r : Filerange) (win : Win) (sel : option Selection) (ok visual : bool)
    (txt : Text) (marks : VisMark -> nat -> option Mark) (err : SamError) :
  let t := transcript_ops transcript_zero before in
  let result := change_new t ty r win sel ok in
  let final := transcript_ops (snd result) after in
  let file := mkFile false txt marks final in
  c ∈ changes t -> text_range_valid r = true -> ranges_overlap (c_range c) r ->
  fst result = None
  /\ error (snd result) = SAM_ERR_CONFLICT
  /\ changes (snd result) = changes t
  /\ error final <> SAM_ERR_OK
  /\ sam_cmd_apply_file visual file err = (file, error final, [])
  /\ f_text (fst (fst (sam_cmd_apply_file visual file err))) = txt.
Proof.
  intros t result final file Hin Hv Ho.
  assert (transcript_wf t) as Hwf
    by (apply transcript_ops_wf, transcript_zero_wf).
  assert (result = (None, mkTranscript (changes t) (latest t) SAM_ERR_CONFLICT))
    as Hres by (by eapply change_new_overlap).
  assert (error final <> SAM_ERR_OK) as Hfinal.
  { apply transcript_ops_error_kept. by rewrite Hres. }
  assert (sam_cmd_apply_file visual file err = (file, error final, [])) as Happly
    by (by apply sam_cmd_apply_file_error).
  rewrite Happly, Hres. by repeat split.
Qed.

Lemma overlapping_changes_conflict_witness :
  let t := transcript_ops transcript_zero [OpDelete O None (mkRange 0 5) true] in
  let result := change_new t TRANSCRIPT_INSERT (mkRange 3 3) O None true in
  let final := transcript_ops (snd result)
                 [OpInsert O None 12 [120] 1 1 true; OpWriteCheck] in
  let file := @mkFile ByteListText false scenario_text (fun _ _ => None) final in
  fst result = None
  /\ error (snd result) = SAM_ERR_CONFLICT
  /\ changes (snd result) = changes t
  /\ error final <> SAM_ERR_OK
  /\ @sam_cmd_apply_file ByteListText false file SAM_ERR_OK
     = (file, error final, [])
  /\ @f_text ByteListText
       (fst (fst (@sam_cmd_apply_file ByteListText false file SAM_ERR_OK)))
     = scenario_text.
Proof.
  refine (@overlapping_changes_conflict ByteListText
            [OpDelete O None (mkRange 0 5) true]
            [OpInsert O None 12 [120] 1 1 true; OpWriteCheck]
            (mkChange TRANSCRIPT_DELETE O None (mkRange 0 5) [] 0 0)
            TRANSCRIPT_INSERT (mkRange 3 3) O None true false
            scenario_text (fun _ _ => None) SAM_ERR_OK _ _ _).
  - cbn. apply list_elem_of_here.
  - reflexivity.
  - unfold ranges_overlap. cbn. lia.
Defined.

(** ** Token stream validation *)

Lemma i32_wrap_small (z : Z) : - 2 ^ 31 <= z < 2 ^ 31 -> i32_wrap z = z.
Proof. intros Hz. unfold i32_wrap. rewrite Z.mod_small; lia. Qed.

Lemma count_type_cons (ty : SamTokenType) (t : SamToken) (rest : list SamToken) :
  count_type ty (t :: rest) =
  ((if SamTokenType_eqb (tok_type t) ty then 1 else 0) + count_type ty rest)%nat.
Proof.
  unfold count_type. rewrite filter_cons.
  destruct (SamTokenType_eqb (tok_type t) ty); case_decide; done.
Qed.

Lemma nesting_of_cons (t : SamToken) (rest : list SamToken) :
  nesting_of (t :: rest) =
  nesting_of rest + match tok_type t with
                    | ST_GROUP_START => 1
                    | ST_GROUP_END => -1
                    | _ => 0
                    end.
Proof.
  unfold nesting_of. rewrite !count_type_cons.
  destruct (tok_type t); cbn [SamTokenType_eqb]; lia.
Qed.

Lemma validate_loop_nesting (tokens : list SamToken) (n : Z) :
  Z.abs n + Z.of_nat (length tokens) < 2 ^ 31 ->
  snd (validate_loop tokens true n) = n + nesting_of (before_invalid tokens).
Proof.
  revert n. induction tokens as [| t rest IH]; intros n Hn.
  - cbn. unfold nesting_of. cbn. lia.
  - cbn [validate_loop before_invalid]. cbn [length] in Hn.
    destruct (tok_type t) eqn:Et.
    + destruct rest; cbn; unfold nesting_of; cbn; lia.
    + rewrite IH by lia. rewrite nesting_of_cons, Et. lia.
    + rewrite i32_wrap_small by lia. rewrite IH by lia.
      rewrite nesting_of_cons, Et. lia.
    + rewrite i32_wrap_small by lia. rewrite IH by lia.
      rewrite nesting_of_cons, Et. lia.
    + rewrite IH by lia. rewrite nesting_of_cons, Et. lia.
    + rewrite IH by lia. rewrite nesting_of_cons, Et. lia.
Qed.

(** What [validate_token_stream] computes: whether the group starts and
    ends in front of the first invalid token cancel. The [count > 0] test
    and the [result = 0] of an invalid token are both overwritten. *)
Lemma validate_token_stream_spec (tokens : list SamToken) :
  Z.of_nat (length tokens) < 2 ^ 31 ->
  validate_token_stream tokens = true <->
  nesting_of (before_invalid tokens) = 0.
Proof.
  intros Hlen. unfold validate_token_stream.
  destruct tokens as [| t rest].
  - cbn. unfold nesting_of. cbn. lia.
  - assert ((0 <? Z.of_nat (length (t :: rest))) = true) as ->
      by (apply Z.ltb_lt; cbn [length]; lia).
    pose proof (validate_loop_nesting (t :: rest) 0 ltac:(lia)) as Hn.
    destruct (validate_loop (t :: rest) true 0) as [res n]. cbn [snd] in Hn.
    rewrite Z.eqb_eq. lia.
Qed.

Lemma before_invalid_id (tokens : list SamToken) :
  count_type ST_INVALID tokens = O -> before_invalid tokens = tokens.
Proof.
  induction tokens as [| t rest IH]; [done |].
  rewrite count_type_cons. cbn [before_invalid].
  destruct (tok_type t); cbn [SamTokenType_eqb]; try discriminate;
    intros; f_equal; apply IH; lia.
Qed.

(** On streams without an invalid token the function decides balance. *)
Lemma validate_token_stream_balanced (tokens : list SamToken) :
  Z.of_nat (length tokens) < 2 ^ 31 ->
  count_type ST_INVALID tokens = O ->
  validate_token_stream tokens = true <-> balanced_without_invalid tokens.
Proof.
  intros Hlen Hinv. rewrite validate_token_stream_spec by done.
  rewrite before_invalid_id by done.
  unfold balanced_without_invalid, nesting_of. split; [intros; split |]; lia.
Qed.

(** ** The lexer away from braces *)

Lemma ISDIGIT_not_space (c : Z) : ISDIGIT c = true -> ISSPACE c = false.
Proof.
  unfold ISDIGIT, BETWEEN, ISSPACE.
  change (chr "0") with 48. change (chr "9") with 57. change (chr " ") with 32.
  rewrite andb_true_iff, !orb_false_iff, !Z.leb_le, !Z.eqb_neq. lia.
Qed.

Lemma drop_whitespace_nil : drop_whitespace [] = [].
Proof. reflexivity. Qed.

Lemma drop_whitespace_cons (c : Z) (rest : list Z) :
  drop_whitespace (c :: rest)
  = if ISSPACE c then drop_whitespace rest else c :: drop_whitespace rest.
Proof.
  unfold drop_whitespace. rewrite filter_cons.
  destruct (ISSPACE c); by case_decide.
Qed.

Lemma drop_whitespace_digits (rest : list Z) :
  drop_whitespace rest
  = take (count_digits rest) rest
    ++ drop_whitespace (drop (count_digits rest) rest).
Proof.
  induction rest as [| c rest IH]; [done |].
  cbn [count_digits]. destruct (ISDIGIT c) eqn:E; [| done].
  cbn [take drop]. rewrite drop_whitespace_cons, (ISDIGIT_not_space _ E).
  cbn. by rewrite <- IH.
Qed.

Lemma count_digits_le (rest : list Z) : (count_digits rest <= length rest)%nat.
Proof.
  induction rest as [| c rest IH]; cbn; [lia |].
  destruct (ISDIGIT c); cbn; lia.
Qed.

Lemma token_slice_at (pre rest : list Z) (n : nat) (ty : SamTokenType) :
  token_slice (pre ++ rest) (mkToken (Z.of_nat (length pre)) (Z.of_nat n) ty)
  = take n rest.
Proof.
  unfold token_slice. cbn. rewrite !Nat2Z.id. by rewrite drop_app_length.
Qed.

Lemma token_slice_empty (line : list Z) (t : SamToken) :
  tok_length t <= 0 -> token_slice line t = [].
Proof.
  intros Hl. unfold token_slice.
  by replace (Z.to_nat (tok_length t)) with O by lia.
Qed.

Lemma token_slice_fresh (line : list Z) (raw : s8) :
  token_slice line (fresh_accum raw) = [].
Proof. reflexivity. Qed.

Lemma token_slice_grow (pre rest : list Z) (c : Z) (accum : SamToken) :
  0 <= tok_start accum -> 0 <= tok_length accum ->
  tok_start accum + tok_length accum = Z.of_nat (length pre) ->
  token_slice (pre ++ c :: rest) (accum_grow accum)
  = token_slice (pre ++ c :: rest) accum ++ [c].
Proof.
  intros Hs Hl Hsum. unfold token_slice, accum_grow. cbn.
  set (st := Z.to_nat (tok_start accum)).
  set (len := Z.to_nat (tok_length accum)).
  assert (length pre = (st + len)%nat) as Hpre by (subst st len; lia).
  replace (Z.to_nat (tok_length accum + 1)) with (S len) by (subst len; lia).
  rewrite drop_app_le by lia.
  assert (length (drop st pre) = len) as Hd by (rewrite length_drop; lia).
  rewrite (take_app_le (drop st pre) _ len) by lia.
  rewrite (take_ge (drop st pre) len) by lia.
  replace (S len) with (length (drop st pre) + 1)%nat by lia.
  by rewrite take_app_add.
Qed.

Lemma tokens_concat_snoc (line : list Z) (s : list SamToken) (t : SamToken) :
  tokens_concat line (s ++ [t]) = tokens_concat line s ++ token_slice line t.
Proof.
  unfold tokens_concat. rewrite map_app, concat_app. cbn. by rewrite app_nil_r.
Qed.

Lemma tokens_concat_push (line : list Z) (s : list SamToken) (accum : SamToken) :
  tokens_concat line (sam_token_push s accum)
  = tokens_concat line s ++ token_slice line accum.
Proof.
  unfold sam_token_push. destruct (0 <? tok_length accum) eqn:E.
  - apply tokens_concat_snoc.
  - apply Z.ltb_ge in E. rewrite token_slice_empty by done. by rewrite app_nil_r.
Qed.

Lemma fresh_accum_at (pre : list Z) (rest : list Z) :
  accum_at pre (fresh_accum (mkS8 (Z.of_nat (length pre)) rest)).
Proof. unfold accum_at, fresh_accum. cbn. lia. Qed.

Lemma consume_one (off : Z) (c : Z) (rest : list Z) :
  consume (mkS8 off (c :: rest)) 1 = Some (mkS8 (off + Z.of_nat 1) rest).
Proof. reflexivity. Qed.

Lemma sam_token_at_head (ty : SamTokenType) (off : Z) (c : Z) (rest : list Z) :
  sam_token_at ty (mkS8 off (c :: rest)) = Some (mkToken off 1 ty).
Proof.
  unfold sam_token_at, s8_len. cbn [s8_bytes s8_data].
  assert ((0 <? Z.of_nat (length (c :: rest))) = true) as ->
    by (apply Z.ltb_lt; cbn [length]; lia).
  done.
Qed.

Lemma consume_digits_head (off : Z) (bytes : list Z) :
  consume_digits (mkS8 off bytes)
  = Some (mkS8 (off + Z.of_nat (count_digits bytes))
               (drop (count_digits bytes) bytes)).
Proof.
  unfold consume_digits, consume. cbn [s8_bytes s8_data].
  assert ((count_digits bytes <=? length bytes)%nat = true) as ->
    by (apply Nat.leb_le, count_digits_le).
  done.
Qed.

Lemma sam_lex_loop_roundtrip (fuel : nat) :
  forall (pre rest : list Z) (s : list SamToken) (accum : SamToken),
    (length rest <= fuel)%nat -> Forall no_brace rest -> accum_at pre accum ->
    exists ts,
      sam_lex_loop fuel s (mkS8 (Z.of_nat (length pre)) rest) accum = Done ts
      /\ tokens_concat (pre ++ rest) ts
         = tokens_concat (pre ++ rest) s ++ token_slice (pre ++ rest) accum
           ++ drop_whitespace rest.
Proof.
  induction fuel as [| fuel IH]; intros pre rest s accum Hfuel Hnb Hacc.
  - destruct rest; [| cbn in Hfuel; lia].
    cbn [sam_lex_loop s8_bytes]. eexists. split; [done |].
    rewrite tokens_concat_push, drop_whitespace_nil. by rewrite !app_nil_r.
  - destruct rest as [| c rest].
    { cbn [sam_lex_loop s8_bytes]. eexists. split; [done |].
      rewrite tokens_concat_push, drop_whitespace_nil. by rewrite !app_nil_r. }
    pose proof Hnb as Hnb0.
    apply Forall_cons in Hnb as [[Hb1 Hb2] Hnb].
    cbn [length] in Hfuel.
    assert (Hline : pre ++ c :: rest = (pre ++ [c]) ++ rest)
      by (by rewrite <- app_assoc).
    assert (Hoff : Z.of_nat (length pre) + Z.of_nat 1
                   = Z.of_nat (length (pre ++ [c])))
      by (rewrite length_app; cbn; lia).
    cbn [sam_lex_loop s8_bytes peek].
    destruct (ISSPACE c) eqn:Esp.
    { (* white space *)
      rewrite consume_one, Hoff.
      destruct (IH (pre ++ [c]) rest (sam_token_push s accum)
                  (fresh_accum (mkS8 (Z.of_nat (length (pre ++ [c]))) rest))
                  ltac:(lia) Hnb (fresh_accum_at _ _)) as (ts & Hts & Hcat).
      exists ts. split; [exact Hts |].
      rewrite Hline. rewrite Hcat. rewrite tokens_concat_push.
      rewrite token_slice_fresh.
      rewrite drop_whitespace_cons, Esp. by rewrite <- app_assoc. }
    destruct (ISDIGIT c) eqn:Edig.
    { (* a run of digits *)
      rewrite sam_token_at_head, consume_digits_head.
      set (n := count_digits (c :: rest)).
      cbn [option_map push_opt tok_start tok_type s8_data].
      replace (Z.of_nat (length pre) + Z.of_nat n - Z.of_nat (length pre))
        with (Z.of_nat n) by lia.
      assert (Hn : (1 <= n <= length (c :: rest))%nat).
      { split; [| apply count_digits_le].
        subst n. cbn [count_digits]. rewrite Edig. lia. }
      assert (Hline' : pre ++ c :: rest
                       = (pre ++ take n (c :: rest)) ++ drop n (c :: rest))
        by (by rewrite <- app_assoc, take_drop).
      assert (Hoff' : Z.of_nat (length pre) + Z.of_nat n
                      = Z.of_nat (length (pre ++ take n (c :: rest))))
        by (rewrite length_app, length_take; lia).
      rewrite Hoff'.
      destruct (IH (pre ++ take n (c :: rest)) (drop n (c :: rest))
                  (sam_token_push s accum
                   ++ [mkToken (Z.of_nat (length pre)) (Z.of_nat n) ST_NUMBER])
                  (fresh_accum (mkS8 (Z.of_nat (length (pre ++ take n (c :: rest))))
                                     (drop n (c :: rest))))
                  ltac:(rewrite length_drop; cbn [length] in *; lia)
                  (Forall_drop _ _ _ Hnb0) (fresh_accum_at _ _))
        as (ts & Hts & Hcat).
      exists ts. split; [exact Hts |].
      rewrite <- Hline' in Hcat. rewrite Hcat.
      rewrite tokens_concat_snoc, tokens_concat_push, token_slice_fresh.
      rewrite token_slice_at.
      rewrite (drop_whitespace_digits (c :: rest)). fold n.
      by rewrite <- !app_assoc. }
    assert ((c =? chr "{") = false) as -> by (by apply Z.eqb_neq).
    assert ((c =? chr "}") = false) as -> by (by apply Z.eqb_neq).
    rewrite consume_one, Hoff.
    destruct (((c =? chr ">") || (c =? chr "<") || (c =? chr "|"))
              && (tok_length accum =? 0)) eqn:Epipe.
    { (* a pipe character with an empty accumulator *)
      apply andb_true_iff in Epipe as [_ Hlen]. apply Z.eqb_eq in Hlen.
      destruct Hacc as (Hs0 & Hl0 & Hsum).
      destruct (IH (pre ++ [c]) rest (sam_token_push s (accum_grow accum))
                  (fresh_accum (mkS8 (Z.of_nat (length (pre ++ [c]))) rest))
                  ltac:(lia) Hnb (fresh_accum_at _ _)) as (ts & Hts & Hcat).
      exists ts. split; [exact Hts |].
      rewrite Hline. rewrite Hcat. rewrite tokens_concat_push, token_slice_fresh.
      rewrite <- Hline.
      rewrite token_slice_grow by done.
      rewrite drop_whitespace_cons, Esp. by rewrite <- !app_assoc. }
    destruct (IS_SAM_DELIMITER c) eqn:Edel.
    { (* a delimiter *)
      rewrite sam_token_at_head. cbn [push_opt].
      destruct (IH (pre ++ [c]) rest
                  (sam_token_push s accum
                   ++ [mkToken (Z.of_nat (length pre)) 1 ST_DELIMITER])
                  (fresh_accum (mkS8 (Z.of_nat (length (pre ++ [c]))) rest))
                  ltac:(lia) Hnb (fresh_accum_at _ _)) as (ts & Hts & Hcat).
      exists ts. split; [exact Hts |].
      rewrite Hline. rewrite Hcat. rewrite <- Hline.
      rewrite tokens_concat_snoc, tokens_concat_push, token_slice_fresh.
      pose proof (token_slice_at pre (c :: rest) 1 ST_DELIMITER) as Hsl.
      change (Z.of_nat 1) with 1 in Hsl. rewrite Hsl.
      rewrite drop_whitespace_cons, Esp. cbn [take].
      by rewrite <- !app_assoc. }
    (* any other byte joins the accumulator *)
    destruct Hacc as (Hs0 & Hl0 & Hsum).
    destruct (IH (pre ++ [c]) rest s (accum_grow accum) ltac:(lia) Hnb)
      as (ts & Hts & Hcat).
    { unfold accum_at, accum_grow. cbn. rewrite length_app. cbn. lia. }
    exists ts. split; [exact Hts |].
    rewrite Hline. rewrite Hcat. rewrite <- Hline.
    rewrite token_slice_grow by done.
    rewrite drop_whitespace_cons, Esp. by rewrite <- !app_assoc.
Qed.





(** ** The lexer on group tokens *)

(** C3, the failing input. On the line "{a b" the lexer ends normally
    with two tokens, the group start and the string "b": the byte "a" next
    to the brace is consumed by the second [consume] of the brace branch and
    belongs to no token, so the slices give "{b" where the line without
    white space is "{ab". A line that ends in a brace runs into the
    [ASSERT] of [consume]. *)
Theorem sam_lex_skips_byte_after_brace :
  let line := bytes_of_string "{a b" in
  sam_lex line = Done [mkToken 0 1 ST_GROUP_START; mkToken 3 1 ST_STRING]
  /\ tokens_concat line [mkToken 0 1 ST_GROUP_START; mkToken 3 1 ST_STRING]
     = bytes_of_string "{b"
  /\ drop_whitespace line = bytes_of_string "{ab"
  /\ cover_count [mkToken 0 1 ST_GROUP_START; mkToken 3 1 ST_STRING] 1 = O
  /\ sam_lex (bytes_of_string "x }") = Trapped.
Proof. cbn zeta. repeat split; vm_compute; reflexivity. Qed.

(** ** Guard commands *)

Lemma count_evaluate_set_definition (command : Command)
    (def : option CommandDef) :
  count_evaluate (set_definition command def) = count_evaluate command.
Proof. reflexivity. Qed.

Lemma guard_match_set_definition `{Collaborators} (txt : Text)
    (command : Command) (def : option CommandDef) (range : Filerange) :
  guard_match txt (set_definition command def) range
  = guard_match txt command range.
Proof. reflexivity. Qed.

(** [g] hands its nested command on exactly when the pattern matches in
    the range and the count check passes; otherwise it disposes the
    selection. *)
Lemma command_guard_g `{Collaborators} (txt : Text) (win : Win) (flags_ : Z)
    (command : Command) (sel : option Selection) (range : Filerange)
    (passes : bool) :
  count_evaluate command = Some passes ->
  command_guard txt (Some win)
    (set_definition command (Some (mkDef "g" command_guard_fn flags_)))
    sel range
  = Some (if passes && guard_match txt command range
          then GuardExecute (cmd command) sel range else GuardDispose sel).
Proof.
  intros Hcount. unfold command_guard.
  rewrite count_evaluate_set_definition, guard_match_set_definition, Hcount.
  assert ((name_first_byte
             (set_definition command (Some (mkDef "g" command_guard_fn flags_)))
           =? chr "v") = false) as -> by reflexivity.
  rewrite xorb_false_r.
  by destruct (passes && guard_match _ _ _).
Qed.

(** [v] is written as the complement of [g]: it hands its nested command
    on exactly when it is not the case that the pattern matches and the
    count check passes. *)
Lemma command_guard_v `{Collaborators} (txt : Text) (win : Win) (flags_ : Z)
    (command : Command) (sel : option Selection) (range : Filerange)
    (passes : bool) :
  count_evaluate command = Some passes ->
  command_guard txt (Some win)
    (set_definition command (Some (mkDef "v" command_guard_fn flags_)))
    sel range
  = Some (if passes && guard_match txt command range
          then GuardDispose sel else GuardExecute (cmd command) sel range).
Proof.
  intros Hcount. unfold command_guard.
  rewrite count_evaluate_set_definition, guard_match_set_definition, Hcount.
  assert ((name_first_byte
             (set_definition command (Some (mkDef "v" command_guard_fn flags_)))
           =? chr "v") = true) as -> by reflexivity.
  rewrite xorb_true_r.
  by destruct (passes && guard_match _ _ _).
Qed.

(** C6. Take a guard command whose count check does not trap. [g] hands
    its nested command to [sam_execute], with the selection and the range
    given, if and only if the pattern matches inside the range and the
    iteration passes the count check. [v] does so if and only if [g] would
    not, that is if and only if the pattern does not match inside the
    range or the iteration does not pass the count check. Whenever the
    nested command is not handed on, the selection is disposed. *)
Theorem command_guard_v_complements_g `{Collaborators} (txt : Text)
    (win : Win) (command : Command) (flags_g flags_v : Z)
    (sel : option Selection) (range : Filerange) (passes : bool) :
  count_evaluate command = Some passes ->
  let g := set_definition command (Some (mkDef "g" command_guard_fn flags_g)) in
  let v := set_definition command (Some (mkDef "v" command_guard_fn flags_v)) in
  let runs guard :=
    command_guard txt (Some win) guard sel range
    = Some (GuardExecute (cmd command) sel range) in
  let disposes guard :=
    command_guard txt (Some win) guard sel range = Some (GuardDispose sel) in
  (runs g <-> guard_match txt g range = true /\ count_evaluate g = Some true)
  /\ (runs v <-> ~ runs g)
  /\ (runs v <->
      guard_match txt v range = false \/ count_evaluate v = Some false)
  /\ (~ runs g -> disposes g)
  /\ (~ runs v -> disposes v).
Proof.
  intros Hcount. cbv beta zeta.
  rewrite (command_guard_g txt win flags_g command sel range passes Hcount).
  rewrite (command_guard_v txt win flags_v command sel range passes Hcount).
  rewrite !count_evaluate_set_definition, !guard_match_set_definition, Hcount.
  destruct passes, (guard_match txt command range); cbn [andb];
    repeat split; try done; try (by intros [? ?]); try (by intros []);
    try (by intros [? | ?]); try (by left); try (by right); by intros ?.
Qed.

(** The command of the line [i/x/ v] when the handler of [v] runs. *)
Lemma command_guard_v_complements_g_witness :
  let v := mkCommand (mkAddress AT_INVALID AT_INVALID (chr ";")) None
             (Some (mkDef "v" command_guard_fn
                      (flag_set [CMD_COUNT; CMD_REGEX; CMD_CMD])))
             (mkCount 1 0 false) 0 false None in
  @command_guard ByteListText [97] (Some O) v (Some O) (mkRange 0 1)
  = Some (GuardExecute None (Some O) (mkRange 0 1))
  <-> @guard_match ByteListText [97] v (mkRange 0 1) = false
      \/ count_evaluate v = Some false.
Proof.
  cbn zeta.
  exact (proj1 (proj2 (proj2
    (@command_guard_v_complements_g ByteListText [97] O
       (mkCommand (mkAddress AT_INVALID AT_INVALID (chr ";")) None None
                  (mkCount 1 0 false) 0 false None)
       (flag_set [CMD_COUNT; CMD_REGEX; CMD_CMD; CMD_WIN])
       (flag_set [CMD_COUNT; CMD_REGEX; CMD_CMD])
       (Some O) (mkRange 0 1) false eq_refl)))).
Defined.

(** On the line [i/x/ v] the executor parses [i], whose count
    [check_count] sets to 1, and then [v] in the same command; the handler
    of [v] finds the count [1, 0] and the iteration 0, so the count check
    fails. The pattern is absent, which counts as a match. [v] hands its
    nested command on all the same. *)
Lemma command_guard_v_runs_on_failed_count :
  let v := mkCommand (mkAddress AT_INVALID AT_INVALID (chr ";")) None
             (Some (mkDef "v" command_guard_fn
                      (flag_set [CMD_COUNT; CMD_REGEX; CMD_CMD])))
             (mkCount 1 0 false) 0 false None in
  let runs :=
    @command_guard ByteListText [97] (Some O) v (Some O) (mkRange 0 1)
    = Some (GuardExecute None (Some O) (mkRange 0 1)) in
  (exists sts,
     stream_of_line (bytes_of_string "i/x/ v") = Some sts
     /\ snd (@execute_token_stream parsing_engine tt sam_init_cmds sts)
        = Finished
     /\ commands (fst (@execute_token_stream parsing_engine tt sam_init_cmds
                         sts)) = [v]
     /\ map (fun e => match e with
                      | EvExecute def => name def
                      | _ => ""%string
                      end)
            (ex_history (fst (@execute_token_stream parsing_engine tt
                                sam_init_cmds sts)))
        = ["i"; "v"]%string)
  /\ @guard_match ByteListText [97] v (mkRange 0 1) = true
  /\ count_evaluate v = Some false
  /\ runs
  /\ ~ (runs <-> @guard_match ByteListText [97] v (mkRange 0 1) = false
                 /\ count_evaluate v = Some true).
Proof.
  cbn zeta. split; [| split; [reflexivity | split; [reflexivity |]]].
  - eexists. split; [vm_compute; reflexivity |].
    split; [vm_compute; reflexivity |].
    split; vm_compute; reflexivity.
  - split; [reflexivity |]. intros [Hrun _].
    by destruct (Hrun eq_refl) as [_ ?].
Qed.

(** ** Address combiners *)

Lemma evaluate_address_side_some `{Collaborators} (side : AddressSide)
    (file : File) (sel : option Selection) (range : Filerange) :
  is_AT_INVALID side = false ->
  is_Some (evaluate_address_side side file sel range).
Proof.
  destruct side; cbn; try discriminate; intros _; eauto.
  - repeat case_match; eauto.
  - case_match; eauto.
Qed.

Lemma side_range_or_unfold `{Collaborators} (side : AddressSide) (d : Filerange)
    (file : File) (sel : option Selection) (range : Filerange) :
  side_range_or d side file sel range
  = if is_AT_INVALID side then Some d
    else evaluate_address_side side file sel range.
Proof. by destruct side. Qed.

(** C7. For an address with delimiter [,] evaluation never traps and
    yields the union of the range of the left side, [0,0] when the side is
    omitted, and the range of the right side, [size,size] when omitted;
    with delimiter [;] it yields the same union, the right side being
    evaluated with the range of the left side as the current range. *)
Theorem evaluate_address_is_union `{Collaborators} (addr : Address)
    (file : File) (sel : option Selection) (range : Filerange) :
  delimeter addr = chr "," \/ delimeter addr = chr ";" ->
  let size := text_size (f_text file) in
  let left_range :=
    if is_AT_INVALID (left addr) then Some (mkRange 0 0)
    else evaluate_address_side (left addr) file sel range in
  exists l r,
    left_range = Some l
    /\ (if is_AT_INVALID (right addr) then Some (mkRange size size)
        else evaluate_address_side (right addr) file sel
               (if delimeter addr =? chr ";" then l else range)) = Some r
    /\ evaluate_address addr file sel range = Some (text_range_union l r)
    /\ address_union_spec addr file sel range = Some (text_range_union l r).
Proof.
  intros Hd. cbn zeta.
  assert (exists l,
    (if is_AT_INVALID (left addr) then Some (mkRange 0 0)
     else evaluate_address_side (left addr) file sel range) = Some l)
    as [l Hl].
  { destruct (is_AT_INVALID (left addr)) eqn:E; [eauto |].
    by apply evaluate_address_side_some. }
  set (current := if delimeter addr =? chr ";" then l else range).
  assert (exists r,
    (if is_AT_INVALID (right addr)
     then Some (mkRange (text_size (f_text file)) (text_size (f_text file)))
     else evaluate_address_side (right addr) file sel current) = Some r)
    as [r Hr].
  { destruct (is_AT_INVALID (right addr)) eqn:E; [eauto |].
    by apply evaluate_address_side_some. }
  exists l, r. split; [done | split; [done |]]. split.
  - unfold evaluate_address.
    assert (((delimeter addr =? chr "+") || (delimeter addr =? chr "-")) = false)
      as -> by (destruct Hd as [-> | ->]; reflexivity).
    assert (((delimeter addr =? chr ",") || (delimeter addr =? chr ";")) = true)
      as -> by (destruct Hd as [-> | ->]; reflexivity).
    rewrite Hl. fold current. by rewrite Hr.
  - unfold address_union_spec. cbn zeta.
    rewrite side_range_or_unfold, Hl. fold current.
    by rewrite side_range_or_unfold, Hr.
Qed.

Lemma evaluate_address_is_union_witness :
  let file := @mkFile ByteListText false scenario_text (fun _ _ => None)
                      transcript_zero in
  @evaluate_address ByteListText (mkAddress (AT_LINE 1) (AT_LINE 2) (chr ","))
                    file None (mkRange 0 0)
  = Some (mkRange 0 11)
  /\ @evaluate_address ByteListText
       (mkAddress (AT_BYTE 3) (AT_CHARACTER (chr ".")) (chr ";"))
       file None (mkRange 8 9)
     = Some (mkRange 3 3)
  /\ @evaluate_address ByteListText (mkAddress AT_INVALID AT_INVALID (chr ","))
       file None (mkRange 8 9)
     = Some (mkRange 0 17).
Proof.
  pose (file := @mkFile ByteListText false scenario_text (fun _ _ => None)
                        transcript_zero).
  split; [| split].
  - destruct (@evaluate_address_is_union ByteListText
                (mkAddress (AT_LINE 1) (AT_LINE 2) (chr ","))
                file None (mkRange 0 0) (or_introl eq_refl))
      as (l & r & Hl & Hr & He & _).
    vm_compute in Hl. injection Hl as Hl0. subst l.
    vm_compute in Hr. injection Hr as Hr0. subst r. exact He.
  - destruct (@evaluate_address_is_union ByteListText
                (mkAddress (AT_BYTE 3) (AT_CHARACTER (chr ".")) (chr ";"))
                file None (mkRange 8 9) (or_intror eq_refl))
      as (l & r & Hl & Hr & He & _).
    vm_compute in Hl. injection Hl as Hl0. subst l.
    vm_compute in Hr. injection Hr as Hr0. subst r. exact He.
  - destruct (@evaluate_address_is_union ByteListText
                (mkAddress AT_INVALID AT_INVALID (chr ","))
                file None (mkRange 8 9) (or_introl eq_refl))
      as (l & r & Hl & Hr & He & _).
    vm_compute in Hl. injection Hl as Hl0. subst l.
    vm_compute in Hr. injection Hr as Hr0. subst r. exact He.
Defined.

(** ** Unregistering a user command *)

(** C9. For a name registered as a user command, [vis_cmd_unregister]
    either removes the entry of the name from the command map and from the
    user-command map and returns true, or changes neither map and returns
    false; the first happens exactly when the command map holds the name. *)
Theorem vis_cmd_unregister_both_or_neither (vis : Registry)
    (users : gmap string CmdUser) (nm : string) (user : CmdUser) :
  usercmds vis = Some users -> users !! nm = Some user ->
  let result := vis_cmd_unregister vis (Some nm) in
  (is_Some (cmds vis !! nm)
   /\ fst result = true
   /\ cmds (snd result) = delete nm (cmds vis)
   /\ usercmds (snd result) = Some (delete nm users)
   /\ cmds (snd result) !! nm = None
   /\ delete nm users !! nm = None)
  \/ (cmds vis !! nm = None /\ fst result = false /\ snd result = vis).
Proof.
  intros Hu Hn. cbn zeta. unfold vis_cmd_unregister, map_get, map_delete.
  rewrite Hu. change (default ∅ (Some users)) with users. rewrite Hn.
  destruct (cmds vis !! nm) as [def |] eqn:Hc.
  - left. cbn. rewrite !lookup_delete_eq. eauto 10.
  - right. cbn. rewrite delete_id by done.
    destruct vis. cbn in *. by subst.
Qed.

(** X20. A registration that succeeded is undone by unregistering the
    name: [vis_cmd_unregister] succeeds and both maps hold what they held
    before the registration. *)
Lemma vis_cmd_register_unregister (vis vis' : Registry) (nm : string)
    (func data : nat) (allocs : RegisterAllocs) :
  vis_cmd_register vis (Some nm) func data allocs = (true, vis') ->
  vis_cmd_unregister vis' (Some nm)
  = (true, mkRegistry (cmds vis) (Some (default ∅ (usercmds vis)))).
Proof.
  unfold vis_cmd_register, map_put.
  intros Hreg.
  assert (exists um, (match usercmds vis with
                      | Some m => Some m
                      | None => if map_new_ok allocs then Some ∅ else None
                      end) = Some um /\ um = default ∅ (usercmds vis))
    as (um & Hum & Hdef).
  { destruct (usercmds vis) as [m |]; [eauto |].
    destruct (map_new_ok allocs); [eauto | discriminate]. }
  rewrite Hum in Hreg.
  destruct (cmds vis !! nm) eqn:Hc; [discriminate |].
  destruct (put_cmds_ok allocs); [| discriminate].
  destruct (um !! nm) eqn:Hu; [discriminate |].
  destruct (put_usercmds_ok allocs); [| discriminate].
  injection Hreg as <-.
  unfold vis_cmd_unregister, map_get, map_delete. cbn.
  rewrite !lookup_insert_eq. cbn.
  rewrite !delete_insert_id by done. by subst.
Qed.

Lemma vis_cmd_unregister_both_or_neither_witness :
  let def := mkDef "hello" command_user 0 in
  let vis := mkRegistry {["hello"%string := def]}
                        (Some {["hello"%string := mkCmdUser def 1 2]}) in
  fst (vis_cmd_unregister vis (Some "hello"%string)) = true
  /\ cmds (snd (vis_cmd_unregister vis (Some "hello"%string)))
     = delete "hello"%string (cmds vis).
Proof.
  intros def vis.
  destruct (vis_cmd_unregister_both_or_neither vis
              {["hello"%string := mkCmdUser def 1 2]} "hello"%string
              (mkCmdUser def 1 2) eq_refl (lookup_singleton_eq _ _))
    as [(_ & Ht & Hc & _) | (Hnone & _)].
  - split; [exact Ht | exact Hc].
  - exfalso. unfold vis in Hnone. cbn [cmds] in Hnone.
    rewrite lookup_singleton_eq in Hnone. discriminate Hnone.
Defined.

(** ** Destructive commands after a loop *)

Lemma obeys_loop_rule_snoc (looped : bool) (defs : list CommandDef)
    (d : CommandDef) :
  obeys_loop_rule looped (defs ++ [d])
  = obeys_loop_rule looped defs
    && negb ((looped || any_loop defs) && has_flag d CMD_DESTRUCTIVE).
Proof.
  revert looped. induction defs as [| x defs IH]; intros looped; cbn.
  - by rewrite orb_false_r, andb_true_r.
  - rewrite IH. rewrite <- orb_assoc, andb_assoc. done.
Qed.

Lemma obeys_loop_rule_split (looped : bool) (defs pre post : list CommandDef)
    (d : CommandDef) :
  obeys_loop_rule looped defs = true -> defs = pre ++ d :: post ->
  has_flag d CMD_DESTRUCTIVE = true ->
  looped = false /\ any_loop pre = false.
Proof.
  revert looped defs. induction pre as [| x pre IH]; intros looped defs Ho -> Hd.
  - cbn in Ho. rewrite Hd, andb_true_r in Ho.
    apply andb_true_iff in Ho as [Ho _]. by destruct looped.
  - cbn in Ho. apply andb_true_iff in Ho as [_ Ho].
    destruct (IH _ _ Ho eq_refl Hd) as [Hl Ha].
    apply orb_false_iff in Hl as [-> Hx]. split; [done |].
    unfold any_loop in *. cbn [existsb]. by rewrite Hx, Ha.
Qed.

Lemma any_loop_snoc (defs : list CommandDef) (d : CommandDef) :
  any_loop (defs ++ [d]) = any_loop defs || has_flag d CMD_LOOP.
Proof. unfold any_loop. rewrite existsb_app. cbn. by rewrite orb_false_r. Qed.

Lemma execute_round_history `{Engine} (st : ExecState) :
  should_exit st = false -> history_ok st -> history_ok (fst (execute_round st)).
Proof.
  intros Hexit [defs last Hsplit Hdid Hrule Htail].
  assert (last = []) as ->.
  { destruct Htail as [-> | [Hse _]]; [done | congruence]. }
  rewrite app_nil_r in Hsplit.
  unfold execute_round.
  destruct (sam_token_pop (ex_sts st)) as [token sts].
  destruct (tok_type token) eqn:Et; cbn [fst].
  - (* ST_INVALID *)
    eapply (mkHistoryOk _ defs [EvUnexpected token]); cbn;
      [by rewrite Hsplit | done | done |].
    right. split; [done |]. eexists. split; [done |]. split; intros; discriminate.
  - eapply (mkHistoryOk _ defs [EvUnexpected token]); cbn;
      [by rewrite Hsplit | done | done |].
    right. split; [done |]. eexists. split; [done |]. split; intros; discriminate.
  - (* ST_GROUP_END *)
    eapply (mkHistoryOk _ defs []); cbn;
      [by rewrite Hsplit, app_nil_r | done | done | by left].
  - (* ST_GROUP_START *)
    eapply (mkHistoryOk _ defs []); cbn;
      [by rewrite Hsplit, app_nil_r | done | done | by left].
  - eapply (mkHistoryOk _ defs [EvUnexpected token]); cbn;
      [by rewrite Hsplit | done | done |].
    right. split; [done |]. eexists. split; [done |]. split; intros; discriminate.
  - (* ST_STRING *)
    destruct (sam_token_join_command_name sts token) as [[token' sts'] |]; cbn [fst].
    2: { eapply (mkHistoryOk _ defs []); cbn;
           [by rewrite Hsplit, app_nil_r | done | done | by left]. }
    destruct (commands st) as [| command outer]; cbn [fst].
    { eapply (mkHistoryOk _ defs []);
        [by rewrite Hsplit, app_nil_r | done | done | by left]. }
    destruct (lookup_command_definition (ex_cmds st) sts' token') as [d |]; cbn [fst].
    + destruct (did_looping_command st && has_flag d CMD_DESTRUCTIVE) eqn:Eg; cbn [fst].
      * apply andb_true_iff in Eg as [Hl Hd].
        eapply (mkHistoryOk _ defs [EvRefuse d]); cbn.
        -- by rewrite Hsplit.
        -- rewrite Hl. cbn. by rewrite <- Hdid.
        -- done.
        -- right. split; [done |]. eexists. split; [done |].
           split; [intros; discriminate |].
           intros d' [= <-]. split; [done |]. by rewrite <- Hdid.
      * destruct (execute_command (ex_world st) (set_definition command (Some d))
                    sts' (address (set_definition command (Some d))))
          as [[[result pops] world] command'].
        cbn [fst].
        eapply (mkHistoryOk _ (defs ++ [d]) []); cbn.
        -- by rewrite Hsplit, fmap_app, app_nil_r.
        -- by rewrite any_loop_snoc, Hdid.
        -- rewrite obeys_loop_rule_snoc, Hrule. cbn.
           by rewrite <- Hdid, Eg.
        -- by left.
    + eapply (mkHistoryOk _ defs [EvUnknown token']); cbn;
        [by rewrite Hsplit | done | done |].
      right. split; [done |]. eexists. split; [done |]. split; intros; discriminate.
Qed.

Lemma execute_loop_history `{Engine} (fuel : nat) (st : ExecState) :
  history_ok st -> history_ok (fst (execute_loop fuel st)).
Proof.
  revert st. induction fuel as [| fuel IH]; intros st Hok; cbn.
  - by destruct (_ && _).
  - destruct (negb (sts_count (ex_sts st) =? sts_read_index (ex_sts st))%nat
              && negb (should_exit st)) eqn:Eg; [| done].
    apply andb_true_iff in Eg as [_ Hse]. apply negb_true_iff in Hse.
    pose proof (execute_round_history st Hse Hok) as Hr.
    destruct (execute_round st) as [st' []]; cbn [fst] in *; auto.
Qed.

Lemma execute_token_stream_history `{Engine} (world : World)
    (cmds_ : gmap string CommandDef) (sts : SamTokenStream) :
  history_ok (fst (execute_token_stream world cmds_ sts)).
Proof.
  unfold execute_token_stream.
  destruct (sts_count sts =? 0)%nat.
  - by eapply (mkHistoryOk _ [] []); [| | | left].
  - destruct (parse_address world sts) as [[addr pops] world'].
    set (st0 := mkExec _ _ _ _ _ _ _ _ _).
    assert (history_ok st0) as H0
      by (by eapply (mkHistoryOk _ [] []); [| | | left]).
    pose proof (execute_loop_history (sts_count sts) st0 H0) as Hl.
    destruct (execute_loop (sts_count sts) st0) as [st status].
    cbn [fst] in Hl. destruct status; cbn [fst]; try done.
    destruct Hl as [defs last Hs Hd Hr Ht].
    by eapply (mkHistoryOk _ defs last).
Qed.

(** The table: [CMD_LOOP] is carried by [x] and [y] only, and
    [CMD_DESTRUCTIVE] by [e], [q], [qall] and [wq]. *)
Lemma command_table_flags :
  names_with_flag CMD_LOOP = ["x"; "y"]%string
  /\ names_with_flag CMD_DESTRUCTIVE = ["e"; "q"; "qall"; "wq"]%string.
Proof. split; vm_compute; reflexivity. Qed.

(** One round of the loop on a destructive command after a loop command:
    [execute_command] is not called (the editor state is the one before),
    the refusal is recorded, [should_exit] is set, and the loop stops
    there. *)
Lemma execute_round_refuses `{Engine} (st : ExecState) (token name_ : SamToken)
    (sts sts' : SamTokenStream) (command : Command) (outer : list Command)
    (d : CommandDef) (fuel : nat) :
  sam_token_pop (ex_sts st) = (token, sts) ->
  tok_type token = ST_STRING ->
  sam_token_join_command_name sts token = Some (name_, sts') ->
  commands st = command :: outer ->
  lookup_command_definition (ex_cmds st) sts' name_ = Some d ->
  did_looping_command st = true -> has_flag d CMD_DESTRUCTIVE = true ->
  let st' := fst (execute_round st) in
  snd (execute_round st) = Finished
  /\ ex_world st' = ex_world st
  /\ ex_history st' = ex_history st ++ [EvRefuse d]
  /\ should_exit st' = true
  /\ execute_loop fuel st' = (st', Finished).
Proof.
  intros Hpop Hty Hjoin Hcmd Hlook Hdid Hdes. cbn zeta.
  unfold execute_round. rewrite Hpop, Hty, Hjoin, Hcmd, Hlook, Hdid, Hdes.
  cbn. repeat split.
  destruct fuel; cbn; by rewrite andb_false_r.
Qed.

Lemma history_split_execute (defs : list CommandDef)
    (last pre post : list ExecEvent) (d : CommandDef) :
  (forall d', EvExecute d' ∉ last) ->
  (EvExecute <$> defs) ++ last = pre ++ EvExecute d :: post ->
  exists pre' post', defs = pre' ++ d :: post' /\ pre = EvExecute <$> pre'.
Proof.
  intros Hlast. revert pre. induction defs as [| x defs IH]; intros pre Heq.
  - cbn in Heq. exfalso. apply (Hlast d). rewrite Heq.
    apply elem_of_app. right. apply list_elem_of_here.
  - destruct pre as [| p pre]; cbn in Heq.
    + injection Heq as Hx _. subst x. by exists [], defs.
    + injection Heq as Hp Heq. subst p.
      destruct (IH pre Heq) as (pre' & post' & -> & ->).
      by exists (x :: pre'), post'.
Qed.

Lemma history_split_refuse (defs : list CommandDef) (e : ExecEvent)
    (pre post : list ExecEvent) (d : CommandDef) :
  (EvExecute <$> defs) ++ [e] = pre ++ EvRefuse d :: post ->
  post = [] /\ e = EvRefuse d /\ pre = EvExecute <$> defs.
Proof.
  revert pre. induction defs as [| x defs IH]; intros pre Heq.
  - destruct pre as [| p pre]; cbn in Heq.
    + injection Heq as He Hp. by subst.
    + injection Heq as _ Heq. by destruct pre.
  - destruct pre as [| p pre]; cbn in Heq; [discriminate |].
    injection Heq as Hp Heq. subst p.
    destruct (IH pre Heq) as (-> & -> & ->). done.
Qed.

(** C5, as the code has it. In every run of [execute_token_stream]: a
    command whose definition carries [CMD_DESTRUCTIVE] (in the table: [e],
    [q], [qall], [wq]) reaches [execute_command], and with it its handler,
    only if no command carrying [CMD_LOOP] (in the table: [x] and [y]) was
    executed before it on the line; when such a command is refused, its
    definition is destructive, a [CMD_LOOP] command was executed before,
    nothing comes after it in the run and [should_exit] is set. *)
Theorem destructive_after_loop_refused `{Engine} (world : World)
    (cmds_ : gmap string CommandDef) (sts : SamTokenStream) :
  let st := fst (execute_token_stream world cmds_ sts) in
  (forall pre d post,
     ex_history st = pre ++ EvExecute d :: post ->
     has_flag d CMD_DESTRUCTIVE = true ->
     forall d', EvExecute d' ∈ pre -> has_flag d' CMD_LOOP = false)
  /\ (forall pre d post,
        ex_history st = pre ++ EvRefuse d :: post ->
        post = [] /\ should_exit st = true
        /\ has_flag d CMD_DESTRUCTIVE = true
        /\ exists d', EvExecute d' ∈ pre /\ has_flag d' CMD_LOOP = true)
  /\ names_with_flag CMD_LOOP = ["x"; "y"]%string
  /\ names_with_flag CMD_DESTRUCTIVE = ["e"; "q"; "qall"; "wq"]%string.
Proof.
  cbn zeta.
  destruct (execute_token_stream_history world cmds_ sts)
    as [defs last Hsplit Hdid Hrule Htail].
  set (st := fst (execute_token_stream world cmds_ sts)) in *.
  assert (Hlast : forall d, EvExecute d ∉ last).
  { intros d Hin. destruct Htail as [-> | (_ & e & -> & Hne & _)].
    - by apply not_elem_of_nil in Hin.
    - apply list_elem_of_singleton in Hin. by eapply Hne. }
  split; [| split; [| apply command_table_flags]].
  - intros pre d post Heq Hdes d' Hin.
    rewrite Hsplit in Heq.
    destruct (history_split_execute _ _ _ _ _ Hlast Heq)
      as (pre' & post' & -> & ->).
    destruct (obeys_loop_rule_split _ _ _ _ _ Hrule eq_refl Hdes) as [_ Hany].
    apply list_elem_of_fmap in Hin as (x & [= ->] & Hx).
    unfold any_loop in Hany.
    destruct (has_flag x CMD_LOOP) eqn:Ex; [| done].
    assert (existsb (fun d => has_flag d CMD_LOOP) pre' = true) as Hc
      by (apply existsb_exists; exists x; split;
          [by apply list_elem_of_In | done]).
    congruence.
  - intros pre d post Heq. rewrite Hsplit in Heq.
    destruct Htail as [-> | (Hse & e & -> & Hne & Href)].
    + exfalso. rewrite app_nil_r in Heq.
      assert (EvRefuse d ∈ EvExecute <$> defs) as Hin
        by (rewrite Heq; apply elem_of_app; right; apply list_elem_of_here).
      apply list_elem_of_fmap in Hin as (x & Hx & _). discriminate.
    + destruct (history_split_refuse _ _ _ _ _ Heq) as (-> & -> & ->).
      destruct (Href d eq_refl) as [Hdes Hany].
      split; [done | split; [done | split; [done |]]].
      unfold any_loop in Hany. apply existsb_exists in Hany as (x & Hx & Hl).
      exists x. split; [| done].
      apply list_elem_of_fmap. exists x. split; [done |].
      by apply list_elem_of_In.
Qed.

(** C5, as worded, fails: on the line "v q" the guard [v] is executed and
    then [q], which is destructive, reaches [execute_command] all the same,
    because [v] does not carry [CMD_LOOP]. *)
Lemma destructive_after_guard_executed :
  let line := bytes_of_string "v q" in
  let sts := mkStream [mkToken 0 1 ST_STRING; mkToken 2 1 ST_STRING] line O in
  let run := @execute_token_stream obliging_engine tt sam_init_cmds sts in
  stream_of_line line = Some sts
  /\ snd run = Finished
  /\ @ex_history obliging_engine (fst run) = [EvExecute def_v; EvExecute def_q]
  /\ ~ stated_loop_rule (@ex_history obliging_engine (fst run)).
Proof.
  cbn zeta.
  assert (@ex_history obliging_engine
            (fst (@execute_token_stream obliging_engine tt sam_init_cmds
                    (mkStream [mkToken 0 1 ST_STRING; mkToken 2 1 ST_STRING]
                              (bytes_of_string "v q") O)))
          = [EvExecute def_v; EvExecute def_q]) as Hh
    by (vm_compute; reflexivity).
  split; [vm_compute; reflexivity |].
  split; [vm_compute; reflexivity |].
  split; [exact Hh |].
  rewrite Hh. intros Hrule.
  specialize (Hrule [EvExecute def_v] def_q [] eq_refl eq_refl def_v
                    (list_elem_of_here _ _)).
  discriminate Hrule.
Qed.

Lemma destructive_after_loop_refused_witness :
  let sts := mkStream [mkToken 0 1 ST_STRING; mkToken 2 1 ST_STRING]
                      (bytes_of_string "x q") O in
  let st := fst (@execute_token_stream obliging_engine tt sam_init_cmds sts) in
  @should_exit obliging_engine st = true
  /\ has_flag def_q CMD_DESTRUCTIVE = true
  /\ exists d', EvExecute d' ∈ [EvExecute def_x] /\ has_flag d' CMD_LOOP = true.
Proof.
  cbn zeta.
  refine (proj2 (proj1 (proj2 (@destructive_after_loop_refused obliging_engine tt
            sam_init_cmds
            (mkStream [mkToken 0 1 ST_STRING; mkToken 2 1 ST_STRING]
                      (bytes_of_string "x q") O)))
          [EvExecute def_x] def_q [] _)).
  vm_compute. reflexivity.
Defined.

(** ** The executor loop ends *)

Lemma sam_token_pop_remaining (s : SamTokenStream) :
  sts_count (snd (sam_token_pop s)) = sts_count s
  /\ (sts_read_index (snd (sam_token_pop s)) <= Nat.max (sts_read_index s) (sts_count s))%nat
  /\ (sts_remaining (snd (sam_token_pop s)) <= sts_remaining s)%nat
  /\ ((sts_read_index s < sts_count s)%nat ->
      (sts_remaining (snd (sam_token_pop s)) < sts_remaining s)%nat).
Proof.
  unfold sam_token_pop, sts_remaining, sts_count.
  destruct (sts_tokens s !! sts_read_index s) eqn:E; cbn.
  - apply lookup_lt_Some in E. lia.
  - apply lookup_ge_None_1 in E. lia.
Qed.

Lemma sam_token_pops_remaining (n : nat) (s : SamTokenStream) :
  (sts_read_index s <= sts_count s)%nat ->
  sts_count (sam_token_pops n s) = sts_count s
  /\ (sts_read_index (sam_token_pops n s) <= sts_count s)%nat
  /\ (sts_remaining (sam_token_pops n s) <= sts_remaining s)%nat.
Proof.
  intros Hb. induction n as [| n (IHc & IHb & IHr)]; [done |].
  change (sam_token_pops (S n) s) with (snd (sam_token_pop (sam_token_pops n s))).
  destruct (sam_token_pop_remaining (sam_token_pops n s)) as (Hc & Hm & Hr & _).
  split; [congruence | split; lia].
Qed.

Lemma join_until_remaining (fuel : nat) (s s' : SamTokenStream)
    (result result' : SamToken) (end_ : Z) :
  (sts_read_index s <= sts_count s)%nat ->
  join_until fuel s result end_ = Some (result', s') ->
  sts_count s' = sts_count s
  /\ (sts_read_index s' <= sts_count s)%nat
  /\ (sts_remaining s' <= sts_remaining s)%nat.
Proof.
  revert s result. induction fuel as [| fuel IH]; intros s result Hb; cbn.
  - destruct (tok_length result =? end_); [| discriminate].
    by intros [= _ <-].
  - destruct (tok_length result =? end_); [by intros [= _ <-] |].
    destruct (sam_token_pop_remaining s) as (Hc & Hm & Hr & _).
    destruct (sam_token_pop s) as [t s1]. cbn [snd] in *.
    intros Hj. destruct (IH s1 _ ltac:(lia) Hj) as (Hc' & Hb' & Hr').
    split; [congruence | split; lia].
Qed.

Lemma execute_round_remaining `{Engine} (st st' : ExecState) :
  (sts_read_index (ex_sts st) < sts_count (ex_sts st))%nat ->
  execute_round st = (st', Finished) ->
  (sts_read_index (ex_sts st') <= sts_count (ex_sts st'))%nat
  /\ (sts_remaining (ex_sts st') < sts_remaining (ex_sts st))%nat.
Proof.
  intros Hlt. unfold execute_round.
  destruct (sam_token_pop_remaining (ex_sts st)) as (Hc & Hm & _ & Hr).
  specialize (Hr Hlt).
  destruct (sam_token_pop (ex_sts st)) as [token sts]. cbn [snd] in *.
  assert (sts_read_index sts <= sts_count sts)%nat as Hb by lia.
  destruct (tok_type token).
  - by intros [= <- ].
  - by intros [= <- ].
  - intros [= <- _]. done.
  - by intros [= <- ].
  - by intros [= <- ].
  - destruct (sam_token_join_command_name sts token) as [[token' sts'] |] eqn:Ej;
      [| discriminate].
    unfold sam_token_join_command_name in Ej.
    apply join_until_remaining in Ej as (Hc' & Hb' & Hr'); [| done].
    destruct (commands st) as [| command outer]; [discriminate |].
    destruct (lookup_command_definition (ex_cmds st) sts' token') as [d |].
    + destruct (did_looping_command st && has_flag d CMD_DESTRUCTIVE).
      * intros [= <-]. cbn. lia.
      * destruct (execute_command _ _ _ _) as [[[result pops] world] command'].
        intros [= <-]. cbn.
        destruct (sam_token_pops_remaining pops sts') as (? & ? & ?); lia.
    + intros [= <-]. cbn. lia.
Qed.

Lemma execute_round_status `{Engine} (st : ExecState) :
  snd (execute_round st) <> FuelSpent.
Proof.
  unfold execute_round.
  destruct (sam_token_pop (ex_sts st)) as [token sts].
  destruct (tok_type token); cbn [snd]; try done.
  - by destruct (tail (commands st)).
  - destruct (sam_token_join_command_name sts token) as [[token' sts'] |];
      cbn [snd]; [| done].
    destruct (commands st) as [| command outer]; cbn [snd]; [done |].
    destruct (lookup_command_definition (ex_cmds st) sts' token') as [d |];
      cbn [snd]; [| done].
    destruct (did_looping_command st && has_flag d CMD_DESTRUCTIVE);
      cbn [snd]; [done |].
    by destruct (execute_command _ _ _ _) as [[[result pops] world] command'].
Qed.

Lemma execute_loop_fuel `{Engine} (fuel : nat) (st : ExecState) :
  (sts_read_index (ex_sts st) <= sts_count (ex_sts st))%nat ->
  (sts_remaining (ex_sts st) <= fuel)%nat ->
  snd (execute_loop fuel st) <> FuelSpent.
Proof.
  revert st. induction fuel as [| fuel IH]; intros st Hle Hrem; cbn.
  - assert ((sts_count (ex_sts st) =? sts_read_index (ex_sts st))%nat = true)
      as -> by (apply Nat.eqb_eq; unfold sts_remaining in Hrem; lia).
    done.
  - destruct (sts_count (ex_sts st) =? sts_read_index (ex_sts st))%nat eqn:E;
      [done |].
    apply Nat.eqb_neq in E. cbn.
    destruct (should_exit st); [done |]. cbn.
    pose proof (execute_round_status st) as Hst.
    destruct (execute_round st) as [st' status] eqn:Er.
    destruct status; try done.
    assert (sts_read_index (ex_sts st) < sts_count (ex_sts st))%nat as Hlt by lia.
    destruct (execute_round_remaining st st' Hlt Er) as [Hb Hdec].
    apply IH; [done | lia].
Qed.

(** Started at the head of the stream, as [sam_cmd] does, the outer loop
    of the executor stays within its bound: every round reads at least one
    token and none is put back. A round may still not come back, when the
    name loop of [sam_token_join_command_name] spins. *)
Lemma execute_token_stream_ends `{Engine} (world : World)
    (cmds_ : gmap string CommandDef) (sts : SamTokenStream) :
  sts_read_index sts = O ->
  snd (execute_token_stream world cmds_ sts) <> FuelSpent.
Proof.
  intros H0. unfold execute_token_stream.
  destruct (sts_count sts =? 0)%nat; [done |].
  destruct (parse_address world sts) as [[addr pops] world'].
  set (st0 := mkExec _ _ _ _ _ _ _ _ _).
  assert (snd (execute_loop (sts_count sts) st0) <> FuelSpent) as Hf.
  { destruct (sam_token_pops_remaining pops sts ltac:(lia)) as (Hc & Hb & Hr).
    apply execute_loop_fuel; subst st0; cbn [ex_sts].
    - lia.
    - unfold sts_remaining in *. lia. }
  destruct (execute_loop (sts_count sts) st0) as [st status].
  destruct status; cbn in *; try done.
  by destruct (nesting_level st =? 0).
Qed.

(** ** The apply phase follows the delta rule *)

Lemma size_wrap_small (z : Z) : 0 <= z < SIZE_MOD -> size_wrap z = z.
Proof. intros Hz. unfold size_wrap. by apply Z.mod_small. Qed.

Lemma ptrdiff_wrap_small (z : Z) :
  PTRDIFF_MIN <= z <= PTRDIFF_MAX -> ptrdiff_wrap z = z.
Proof.
  unfold PTRDIFF_MIN, PTRDIFF_MAX, ptrdiff_wrap, SIZE_MOD. intros Hz.
  rewrite Z.mod_small; lia.
Qed.

Lemma insert_copies_spec `{Collaborators} (pos : Z) (data : list Z) (len : Z)
    (n : nat) (txt : Text) (d : Z) :
  0 <= len -> PTRDIFF_MIN <= d -> d + len * Z.of_nat n <= PTRDIFF_MAX ->
  insert_copies pos data len n (txt, d)
  = (Nat.iter n (fun t => text_insert t pos data len) txt, d + len * Z.of_nat n).
Proof.
  intros Hlen Hmin. unfold insert_copies.
  induction n as [| n IH]; intros Hmax.
  - cbn. f_equal. lia.
  - rewrite !Nat.iter_succ. rewrite IH by lia. cbn [fst snd].
    rewrite ptrdiff_wrap_small by (unfold PTRDIFF_MIN, PTRDIFF_MAX in *; lia).
    f_equal. lia.
Qed.

Lemma type_has_cases (ty : ChangeType) :
  type_has ty TRANSCRIPT_DELETE
  = match ty with TRANSCRIPT_INSERT => false | _ => true end
  /\ type_has ty TRANSCRIPT_INSERT
     = match ty with TRANSCRIPT_DELETE => false | _ => true end
  /\ ChangeType_eqb ty TRANSCRIPT_DELETE
     = match ty with TRANSCRIPT_DELETE => true | _ => false end.
Proof. by destruct ty. Qed.

(** One change: the code on machine integers does what the rule says. *)
Lemma apply_change_follows_rule `{Collaborators} (visual : bool)
    (txt : Text) (d : Z) (views : list ViewOp) (c : Change) :
  change_in_range d c ->
  apply_change visual (mkApply txt d views) c
  = apply_change_spec visual (mkApply txt d views) c.
Proof.
  intros [Hv Hs Hsh Hl Hc He Hr].
  apply text_range_valid_spec in Hv as (Hne1 & Hne2 & Hle).
  assert (0 <= c_len c * c_count c) as Hprod by (apply Z.mul_nonneg_nonneg; lia).
  unfold PTRDIFF_MAX in *.
  assert (SIZE_MOD = 2 ^ 64) as HM by reflexivity.
  assert (2 ^ 63 < 2 ^ 64) as Hpow by (vm_compute; reflexivity).
  unfold apply_change, apply_change_spec. cbn [ap_text ap_delta ap_views].
  rewrite !size_wrap_small by lia.
  set (start := r_start (c_range c) + d).
  set (end_ := r_end (c_range c) + d).
  assert (text_range_valid (mkRange start end_) = true) as Hvalid.
  { apply text_range_valid_spec. cbn. unfold EPOS. subst start end_. lia. }
  assert (text_range_size (mkRange start end_)
          = r_end (c_range c) - r_start (c_range c)) as Hsize.
  { unfold text_range_size. rewrite Hvalid. cbn.
    rewrite size_wrap_small by (subst start end_; lia). subst start end_. lia. }
  rewrite Hsize.
  destruct (type_has_cases (c_type c)) as (-> & -> & ->).
  assert (forall t0 d0, PTRDIFF_MIN <= d0 ->
            d0 + c_len c * c_count c <= 2 ^ 63 - 1 ->
            insert_copies start (c_data c) (c_len c) (Z.to_nat (c_count c)) (t0, d0)
            = (Nat.iter (Z.to_nat (c_count c))
                 (fun t => text_insert t start (c_data c) (c_len c)) t0,
               d0 + c_len c * c_count c)) as Hins.
  { intros t0 d0 H1 H2.
    rewrite insert_copies_spec by (rewrite ?Z2Nat.id; unfold PTRDIFF_MAX; lia).
    by rewrite Z2Nat.id by lia. }
  assert (text_range_new start
            (size_wrap (start + size_wrap (c_len c * c_count c)))
          = mkRange start (start + c_len c * c_count c)) as Hnew.
  { rewrite (size_wrap_small (c_len c * c_count c)) by (subst start; lia).
    rewrite size_wrap_small by (subst start; lia).
    unfold text_range_new. f_equal; lia. }
  unfold PTRDIFF_MIN in *.
  destruct (c_type c); cbn [ap_text ap_delta ap_views r_start r_end].
  - (* insert *)
    rewrite Hins by (subst start; lia). rewrite Hnew.
    destruct (c_sel c), visual; cbn; by rewrite ?app_nil_r.
  - (* delete *)
    rewrite ptrdiff_wrap_small by (unfold PTRDIFF_MIN, PTRDIFF_MAX; subst start; lia).
    destruct (c_sel c), visual; cbn; by rewrite ?app_nil_r.
  - (* change *)
    rewrite ptrdiff_wrap_small by (unfold PTRDIFF_MIN, PTRDIFF_MAX; subst start; lia).
    rewrite Hins by (subst start; lia). rewrite Hnew.
    destruct (c_sel c), visual; cbn; by rewrite ?app_nil_r.
Qed.

(** The delta after one change, by the rule. *)
Lemma apply_change_spec_delta `{Collaborators} (visual : bool)
    (st : ApplyState) (c : Change) :
  ap_delta (apply_change_spec visual st c)
  = ap_delta st
    - (if type_has (c_type c) TRANSCRIPT_DELETE
       then r_end (c_range c) - r_start (c_range c) else 0)
    + (if type_has (c_type c) TRANSCRIPT_INSERT
       then c_len c * c_count c else 0).
Proof.
  unfold apply_change_spec. cbn [ap_delta].
  destruct (type_has (c_type c) TRANSCRIPT_DELETE),
           (type_has (c_type c) TRANSCRIPT_INSERT); lia.
Qed.

Lemma apply_fold_follows_rule `{Collaborators} (visual : bool)
    (l : list Change) (txt : Text) (d : Z) (views : list ViewOp) :
  changes_in_range d l ->
  fold_left (apply_change visual) l (mkApply txt d views)
  = fold_left (apply_change_spec visual) l (mkApply txt d views)
  /\ ap_delta (fold_left (apply_change_spec visual) l (mkApply txt d views))
     = fold_left delta_step l d.
Proof.
  revert txt d views. induction l as [| c rest IH]; intros txt d views Hin.
  - done.
  - destruct Hin as [Hc Hrest]. cbn [fold_left].
    rewrite apply_change_follows_rule by done.
    pose proof (apply_change_spec_delta visual (mkApply txt d views) c) as Hd.
    destruct (apply_change_spec visual (mkApply txt d views) c) as [t' d' v'].
    cbn [ap_delta] in Hd. fold (delta_step d c) in Hd. subst d'.
    by apply IH.
Qed.

Lemma total_inserted_cons (c : Change) (l : list Change) :
  total_inserted (c :: l) = c_len c * c_count c + total_inserted l.
Proof. reflexivity. Qed.

Lemma total_inserted_nonneg (l : list Change) :
  Forall (fun c => 0 <= c_len c /\ 0 <= c_count c) l -> 0 <= total_inserted l.
Proof.
  induction 1 as [| c l [Hl Hc] _ IH]; [done |].
  rewrite total_inserted_cons.
  assert (0 <= c_len c * c_count c) by (apply Z.mul_nonneg_nonneg; lia). lia.
Qed.

Lemma changes_in_range_intro (l : list Change) (d : Z) :
  Forall (fun c => text_range_valid (c_range c) = true
                   /\ 0 <= r_start (c_range c)
                   /\ 0 <= c_len c /\ 0 <= c_count c) l ->
  StronglySorted range_before (c_range <$> l) ->
  Forall (fun c => 0 <= r_start (c_range c) + d) l ->
  Forall (fun c => r_end (c_range c) <= PTRDIFF_MAX) l ->
  Forall (fun c => r_end (c_range c) + d + total_inserted l <= PTRDIFF_MAX) l ->
  changes_in_range d l.
Proof.
  revert d. induction l as [| c rest IH]; intros d Hbasic Hsorted Hshift Hend Hroom;
    [done |].
  apply Forall_cons in Hbasic as [(Hv & Hs & Hl & Hc) Hbasic].
  rewrite fmap_cons in Hsorted.
  apply StronglySorted_cons in Hsorted as [Hbefore Hsorted].
  apply Forall_cons in Hshift as [Hsh Hshift].
  apply Forall_cons in Hend as [He Hend].
  apply Forall_cons in Hroom as [Hr Hroom].
  rewrite total_inserted_cons in Hr.
  setoid_rewrite total_inserted_cons in Hroom.
  assert (0 <= total_inserted rest) as Htot.
  { apply total_inserted_nonneg. eapply Forall_impl; [exact Hbasic |].
    cbn. tauto. }
  assert (0 <= c_len c * c_count c) as Hprod by (apply Z.mul_nonneg_nonneg; lia).
  pose proof (text_range_valid_le _ Hv) as Hle.
  split; [split; try done; lia |].
  assert (delta_step d c <= d + c_len c * c_count c) as Hup.
  { unfold delta_step. destruct (type_has _ _), (type_has _ _); lia. }
  assert (d - (r_end (c_range c) - r_start (c_range c)) <= delta_step d c) as Hlow.
  { unfold delta_step. destruct (type_has _ _), (type_has _ _); lia. }
  apply IH; try done.
  - rewrite Forall_fmap in Hbefore.
    rewrite Forall_forall in Hbefore |- *. intros x Hx.
    specialize (Hbefore x Hx). cbn in Hbefore. unfold range_before in Hbefore. lia.
  - rewrite Forall_forall in Hroom |- *. intros x Hx.
    specialize (Hroom x Hx). cbn in Hroom. lia.
Qed.

(** C8. For a transcript in range the apply loop visits the changes in
    list order with a running delta that starts at 0; each change is
    applied at its recorded range moved by the current delta, the deletion
    of a change before its insertion, and delta goes down by
    [range.end - range.start] for each delete and up by [len * count] for
    each insert: on its machine integers the loop computes what the rule,
    written on unbounded integers, says. *)
Theorem apply_changes_follow_delta_rule `{Collaborators} (visual : bool)
    (txt : Text) (l : list Change) :
  transcript_applicable l ->
  apply_changes visual txt l = apply_changes_spec visual txt l
  /\ ap_delta (apply_changes visual txt l) = fold_left delta_step l 0.
Proof.
  intros [Hbasic Hsorted Hroom].
  assert (0 <= total_inserted l) as Htot.
  { apply total_inserted_nonneg. eapply Forall_impl; [exact Hbasic |].
    cbn. tauto. }
  assert (changes_in_range 0 l) as Hin.
  { apply changes_in_range_intro; try done.
    - eapply Forall_impl; [exact Hbasic |]. cbn. intros c ?. lia.
    - eapply Forall_impl; [exact Hroom |]. cbn. intros c ?. lia.
    - eapply Forall_impl; [exact Hroom |]. cbn. intros c ?. lia. }
  unfold apply_changes, apply_changes_spec.
  destruct (apply_fold_follows_rule visual l txt 0 [] Hin) as [Heq Hdelta].
  split; [exact Heq | by rewrite Heq].
Qed.

Lemma apply_changes_follow_delta_rule_witness :
  @apply_changes ByteListText false scenario_text example_changes
  = @apply_changes_spec ByteListText false scenario_text example_changes
  /\ @ap_delta ByteListText
       (@apply_changes ByteListText false scenario_text example_changes)
     = fold_left delta_step example_changes 0.
Proof.
  apply (@apply_changes_follow_delta_rule ByteListText).
  split.
  - repeat constructor; cbn; lia.
  - repeat constructor; unfold range_before; cbn; lia.
  - repeat constructor; vm_compute; discriminate.
Defined.

(** * Further properties of the code *)

(** ** Edits that leave each other alone *)

Lemma ranges_apart_sym (a b : Filerange) : ranges_apart a b -> ranges_apart b a.
Proof. unfold ranges_apart. tauto. Qed.

Lemma ranges_apart_no_overlap (a b : Filerange) :
  ranges_apart a b -> ~ ranges_overlap a b.
Proof. unfold ranges_apart, ranges_overlap. lia. Qed.

(** A valid range that overlaps no linked change is linked. *)
Lemma change_new_links (t : Transcript) ty r win sel :
  text_range_valid r = true ->
  (forall c, c ∈ changes t -> ~ ranges_overlap (c_range c) r) ->
  let j := insertion_index t r in
  change_new t ty r win sel true =
    (Some j, mkTranscript
               (take j (changes t)
                ++ mkChange ty win sel r [] 0 0 :: drop j (changes t))
               (Some j) (error t)).
Proof.
  intros Hv Hfree j. unfold change_new. rewrite Hv. fold j.
  destruct (changes t !! j) as [next |] eqn:Hn; [| done].
  destruct (r_start (c_range next) <? r_end r) eqn:Hc; [| done].
  apply Z.ltb_lt in Hc. exfalso.
  apply (Hfree next); [by eapply list_elem_of_lookup_2 |].
  split; [done |]. by apply (insertion_index_stop t).
Qed.

Lemma fill_linked (l : list Change) (j : nat) (c : Change) data len n :
  (j <= length l)%nat ->
  alter (fun x => change_fill x data len n) j (take j l ++ c :: drop j l) =
  take j l ++ change_fill c data len n :: drop j l.
Proof.
  intros Hj.
  rewrite alter_app_r_alt by (rewrite length_take; lia).
  rewrite length_take. by replace (j - j `min` length l)%nat with O by lia.
Qed.

Lemma linked_permutation (l : list Change) (j : nat) (c : Change) :
  take j l ++ c :: drop j l ≡ₚ c :: l.
Proof. rewrite <- Permutation_middle. by rewrite take_drop. Qed.

(** One enqueue call for an edit apart from everything linked: the edit
    joins the list, the error stays clear. *)
Lemma enqueue_op_links (t : Transcript) (c : Change) :
  enqueueable c ->
  Forall (fun x => ranges_apart (c_range c) (c_range x)) (changes t) ->
  changes (transcript_op t (enqueue_op c)) ≡ₚ c :: changes t
  /\ error (transcript_op t (enqueue_op c)) = error t.
Proof.
  intros [Hv Hshape] Hfree.
  assert (Hno : forall r, r = c_range c ->
            forall x, x ∈ changes t -> ~ ranges_overlap (c_range x) r).
  { intros r -> x Hx. rewrite Forall_forall in Hfree.
    apply ranges_apart_no_overlap, ranges_apart_sym. by apply Hfree. }
  pose proof (insertion_index_le t (c_range c)) as Hle.
  destruct c as [ty w s r d l n]. cbn in *.
  unfold enqueue_op. cbn [c_type c_win c_sel c_range c_data c_len c_count].
  destruct ty; cbn [transcript_op].
  - assert (text_range_new (r_start r) (r_start r) = r) as Hr.
    { unfold text_range_new. destruct r as [a b]. cbn in *. subst b.
      by rewrite Z.min_id, Z.max_id. }
    unfold sam_insert. rewrite Hr.
    rewrite change_new_links by eauto. cbn [snd].
    unfold transcript_fill. cbn [changes latest error].
    rewrite fill_linked by done. unfold change_fill. cbn. split; [| done].
    apply linked_permutation.
  - destruct Hshape as (-> & -> & ->).
    unfold sam_delete. rewrite change_new_links by eauto. cbn [snd changes error].
    split; [| done]. apply linked_permutation.
  - unfold sam_change. rewrite change_new_links by eauto. cbn [snd].
    unfold transcript_fill. cbn [changes latest error].
    rewrite fill_linked by done. unfold change_fill. cbn. split; [| done].
    apply linked_permutation.
Qed.

Lemma pairwise_apart_elem (l : list Change) (a b : Change) :
  pairwise_apart l -> a ∈ l -> b ∈ l ->
  a = b \/ ranges_apart (c_range a) (c_range b).
Proof.
  induction l as [| c l IH]; intros Hp Ha Hb; [by apply elem_of_nil in Ha |].
  destruct Hp as [Hc Hp]. rewrite Forall_forall in Hc.
  apply elem_of_cons in Ha as [-> | Ha]; apply elem_of_cons in Hb as [-> | Hb].
  - by left.
  - right. by apply Hc.
  - right. apply ranges_apart_sym. by apply Hc.
  - by apply IH.
Qed.

(** Enqueueing a list of edits that are pairwise apart, and apart from
    what is linked already. *)
Lemma enqueue_all_links (l : list Change) (t : Transcript) :
  Forall enqueueable l -> pairwise_apart l ->
  Forall (fun c => Forall (fun x => ranges_apart (c_range c) (c_range x))
                          (changes t)) l ->
  changes (transcript_ops t (enqueue_op <$> l)) ≡ₚ l ++ changes t
  /\ error (transcript_ops t (enqueue_op <$> l)) = error t.
Proof.
  revert t. induction l as [| c l IH]; intros t Hq Hp Hfree; [done |].
  apply Forall_cons in Hq as [Hc Hq]. destruct Hp as [Hcl Hp].
  apply Forall_cons in Hfree as [Hct Hfree].
  destruct (enqueue_op_links t c Hc Hct) as [Hperm Herr].
  cbn [fmap list_fmap]. unfold transcript_ops. cbn [fold_left].
  fold (transcript_ops (transcript_op t (enqueue_op c)) (enqueue_op <$> l)).
  destruct (IH (transcript_op t (enqueue_op c))) as [Hperm' Herr']; [done .. | |].
  - rewrite Forall_forall. intros x Hx. rewrite Hperm.
    constructor.
    + apply ranges_apart_sym. rewrite Forall_forall in Hcl. by apply Hcl.
    + rewrite Forall_forall in Hfree. by apply Hfree.
  - split; [| congruence].
    rewrite Hperm', Hperm. by rewrite <- Permutation_middle.
Qed.

Lemma sorted_changes (l : list Change) :
  StronglySorted range_before (c_range <$> l) ->
  StronglySorted (fun a b => range_before (c_range a) (c_range b)) l.
Proof.
  induction l as [| c l IH]; intros Hs; [constructor |].
  rewrite fmap_cons in Hs. apply StronglySorted_inv in Hs as [Hs Hc].
  constructor; [by apply IH |]. by rewrite Forall_fmap in Hc.
Qed.

Lemma pairwise_apart_permutation (l1 l2 : list Change) :
  l1 ≡ₚ l2 -> pairwise_apart l1 -> pairwise_apart l2.
Proof.
  induction 1 as [| x l l' Hl IH | x y l | l l' l'' _ IH1 _ IH2]; cbn.
  - done.
  - intros [Hx Hp]. split; [| by apply IH].
    by rewrite <- Hl.
  - intros [Hy [Hx Hp]]. apply Forall_cons in Hy as [Hyx Hy].
    split; [| done]. constructor; [| done]. by apply ranges_apart_sym.
  - auto.
Qed.

(** X1. Edits whose ranges are valid and, two by two, apart from each
    other can be enqueued with [sam_insert], [sam_delete] and [sam_change]
    in any order: every order leaves the same list of changes on the
    transcript, holding exactly these edits, and sets no error. *)
Theorem enqueue_order_irrelevant (l1 l2 : list Change) :
  Forall enqueueable l1 -> pairwise_apart l1 -> l1 ≡ₚ l2 ->
  let t1 := transcript_ops transcript_zero (enqueue_op <$> l1) in
  let t2 := transcript_ops transcript_zero (enqueue_op <$> l2) in
  changes t1 = changes t2
  /\ changes t1 ≡ₚ l1
  /\ error t1 = SAM_ERR_OK /\ error t2 = SAM_ERR_OK.
Proof.
  intros Hq Hp Hperm t1 t2.
  assert (Hq2 : Forall enqueueable l2) by (by rewrite <- Hperm).
  assert (Hp2 : pairwise_apart l2) by (by eapply pairwise_apart_permutation).
  destruct (enqueue_all_links l1 transcript_zero) as [Hc1 He1]; [done .. | |].
  { apply Forall_forall. intros. constructor. }
  destruct (enqueue_all_links l2 transcript_zero) as [Hc2 He2]; [done .. | |].
  { apply Forall_forall. intros. constructor. }
  fold t1 in Hc1, He1. fold t2 in Hc2, He2.
  cbn [changes transcript_zero] in Hc1, Hc2. rewrite app_nil_r in Hc1, Hc2.
  split; [| by split].
  pose proof (transcript_ops_wf (enqueue_op <$> l1) _ transcript_zero_wf) as Hw1.
  pose proof (transcript_ops_wf (enqueue_op <$> l2) _ transcript_zero_wf) as Hw2.
  fold t1 in Hw1. fold t2 in Hw2.
  apply (StronglySorted_unique_strong
           (fun a b => range_before (c_range a) (c_range b))).
  - intros x1 x2 Hx1 Hx2 H12 H21.
    rewrite Hc1 in Hx1. rewrite Hc2, <- Hperm in Hx2.
    destruct (pairwise_apart_elem l1 x1 x2 Hp Hx1 Hx2) as [| Hap]; [done |].
    rewrite Forall_forall in Hq.
    destruct (Hq _ Hx1) as [Hv1 _]. destruct (Hq _ Hx2) as [Hv2 _].
    apply text_range_valid_le in Hv1, Hv2.
    exfalso. cbn beta in H12, H21. unfold range_before, ranges_apart in *. lia.
  - apply sorted_changes. by destruct Hw1.
  - apply sorted_changes. by destruct Hw2.
  - by rewrite Hc1, Hc2.
Qed.

Lemma enqueue_order_irrelevant_witness :
  changes (transcript_ops transcript_zero (enqueue_op <$> example_edits)) =
  changes (transcript_ops transcript_zero (enqueue_op <$> reverse example_edits)).
Proof.
  refine (proj1 (enqueue_order_irrelevant example_edits (reverse example_edits) _ _ _)).
  - unfold example_edits, enqueueable. repeat constructor.
  - unfold example_edits, ranges_apart. cbn. repeat constructor; cbn; lia.
  - symmetry. apply reverse_Permutation.
Defined.

(** X2. On a well-formed transcript [change_new] links a node for a valid
    range exactly when the range overlaps no change already linked; the
    node then carries the type, window, selection and range passed in, is
    the latest change, joins the changes without displacing any, and the
    error stays as it was. *)
Theorem change_new_links_free_ranges (t : Transcript) ty r win sel :
  transcript_wf t -> text_range_valid r = true ->
  ((forall c, c ∈ changes t -> ~ ranges_overlap (c_range c) r) <->
   exists j t',
     change_new t ty r win sel true = (Some j, t')
     /\ changes t' !! j = Some (mkChange ty win sel r [] 0 0)
     /\ changes t' ≡ₚ mkChange ty win sel r [] 0 0 :: changes t
     /\ latest t' = Some j /\ error t' = error t).
Proof.
  intros Hwf Hv. split.
  - intros Hfree. eexists _, _. split; [by apply change_new_links |].
    cbn [changes latest error].
    pose proof (insertion_index_le t r) as Hle.
    split; [| split; [apply linked_permutation | done]].
    rewrite lookup_app_r by (rewrite length_take; lia).
    rewrite length_take.
    by replace (insertion_index t r - insertion_index t r `min` length (changes t))%nat
      with O by lia.
  - intros (j & t' & Heq & _) c Hc Ho.
    rewrite (change_new_overlap t ty r win sel true c Hwf Hv Hc Ho) in Heq.
    discriminate.
Qed.

Lemma change_new_links_free_ranges_witness :
  exists j t',
    change_new (transcript_ops transcript_zero (enqueue_op <$> example_edits))
               TRANSCRIPT_INSERT (mkRange 5 5) O None true = (Some j, t')
    /\ changes t' !! j = Some (mkChange TRANSCRIPT_INSERT O None (mkRange 5 5) [] 0 0)
    /\ changes t'
       ≡ₚ mkChange TRANSCRIPT_INSERT O None (mkRange 5 5) [] 0 0
          :: changes (transcript_ops transcript_zero (enqueue_op <$> example_edits))
    /\ latest t' = Some j
    /\ error t' = error (transcript_ops transcript_zero (enqueue_op <$> example_edits)).
Proof.
  apply (proj1 (change_new_links_free_ranges
                  (transcript_ops transcript_zero (enqueue_op <$> example_edits))
                  TRANSCRIPT_INSERT (mkRange 5 5) O None
                  (transcript_ops_wf _ _ transcript_zero_wf) eq_refl)).
  intros c Hc. vm_compute in Hc.
  unfold ranges_overlap.
  repeat (apply elem_of_cons in Hc as [-> | Hc]; [cbn; lia |]).
  by apply elem_of_nil in Hc.
Defined.

(** ** The tokens of the lexer *)

Lemma lexed_upto_weaken (line : list Z) (b b' : Z) (s : list SamToken) :
  b <= b' -> lexed_upto line b s -> lexed_upto line b' s.
Proof.
  intros Hb (Hf & Ho & He). split; [done | split; [done |]].
  eapply Forall_impl; [exact He |]. cbn. intros. lia.
Qed.

Lemma lexed_upto_snoc (line : list Z) (b : Z) (s : list SamToken) (t : SamToken) :
  lexed_upto line b s -> token_fits line t -> b <= tok_start t ->
  lexed_upto line (tok_start t + tok_length t) (s ++ [t]).
Proof.
  intros (Hf & Ho & He) Ht Hb.
  pose proof Ht as (_ & Hlen & _).
  split; [| split].
  - apply Forall_app. split; [done |]. by constructor.
  - apply StronglySorted_app. split; [| split; [done |]].
    + intros x1 x2 Hx1 Hx2. apply list_elem_of_singleton in Hx2 as ->.
      rewrite Forall_forall in He. specialize (He _ Hx1). cbn in He. lia.
    + repeat constructor.
  - apply Forall_app. split.
    + eapply Forall_impl; [exact He |]. cbn. intros. lia.
    + constructor; [lia | constructor].
Qed.

Lemma lexed_upto_push (line pre : list Z) (s : list SamToken) (accum : SamToken) :
  (length pre <= length line)%nat ->
  lexed_upto line (tok_start accum) s -> accum_ok line pre accum ->
  lexed_upto line (Z.of_nat (length pre)) (sam_token_push s accum).
Proof.
  intros Hpre Hs (Hty & (Hs0 & Hl0 & Hsum) & Hbytes).
  unfold sam_token_push. destruct (0 <? tok_length accum) eqn:E.
  - apply Z.ltb_lt in E. rewrite <- Hsum.
    apply (lexed_upto_snoc line (tok_start accum)); [done | | lia].
    split; [done | split; [done | split; [lia |]]].
    unfold slice_of_type. by rewrite Hty.
  - eapply lexed_upto_weaken; [| exact Hs]. lia.
Qed.

Lemma fresh_accum_ok (line pre rest : list Z) :
  accum_ok line pre (fresh_accum (mkS8 (Z.of_nat (length pre)) rest)).
Proof.
  split; [done | split; [apply fresh_accum_at |]].
  rewrite token_slice_fresh. constructor.
Qed.

Lemma count_digits_take (bytes : list Z) :
  Forall (fun c => ISDIGIT c = true) (take (count_digits bytes) bytes).
Proof.
  induction bytes as [| c rest IH]; cbn; [constructor |].
  destruct (ISDIGIT c) eqn:E; cbn; by constructor.
Qed.

Lemma count_digits_stop (bytes : list Z) (c : Z) :
  bytes !! count_digits bytes = Some c -> ISDIGIT c = false.
Proof.
  induction bytes as [| d rest IH]; cbn; [done |].
  destruct (ISDIGIT d) eqn:E; cbn; [done |]. by intros [= <-].
Qed.

(** The token [sam_token_at] makes at the head of the unread bytes. *)
Lemma head_token_fits (pre rest : list Z) (c : Z) (ty : SamTokenType) :
  slice_of_type (pre ++ c :: rest) (mkToken (Z.of_nat (length pre)) 1 ty) ->
  token_fits (pre ++ c :: rest) (mkToken (Z.of_nat (length pre)) 1 ty).
Proof.
  intros Hsl. split; [cbn; lia | split; [done | split; [| done]]].
  cbn. rewrite length_app. cbn. lia.
Qed.

Lemma head_token_slice (pre rest : list Z) (c : Z) (ty : SamTokenType) :
  token_slice (pre ++ c :: rest) (mkToken (Z.of_nat (length pre)) 1 ty) = [c].
Proof.
  pose proof (token_slice_at pre (c :: rest) 1 ty) as Hsl.
  by change (Z.of_nat 1) with 1 in Hsl.
Qed.

Lemma pipe_string_byte (c : Z) :
  ((c =? chr ">") || (c =? chr "<") || (c =? chr "|")) = true -> string_byte c.
Proof.
  rewrite !orb_true_iff, !Z.eqb_eq.
  intros [[-> | ->] | ->]; repeat split; done.
Qed.

Lemma sam_lex_loop_fits (fuel : nat) :
  forall (line pre rest : list Z) (s ts : list SamToken) (accum : SamToken),
    line = pre ++ rest ->
    lexed_upto line (tok_start accum) s -> accum_ok line pre accum ->
    sam_lex_loop fuel s (mkS8 (Z.of_nat (length pre)) rest) accum = Done ts ->
    lexed_upto line (Z.of_nat (length line)) ts.
Proof.
  induction fuel as [| fuel IH]; intros line pre rest s ts accum Hline Hs Hacc.
  - destruct rest; [| discriminate].
    cbn [sam_lex_loop s8_bytes]. intros [= <-].
    rewrite app_nil_r in Hline. subst line. by apply lexed_upto_push.
  - destruct rest as [| c rest].
    { cbn [sam_lex_loop s8_bytes]. intros [= <-].
      rewrite app_nil_r in Hline. subst line. by apply lexed_upto_push. }
    assert (Hlen : (length pre <= length line)%nat)
      by (rewrite Hline, length_app; lia).
    assert (Hline1 : line = (pre ++ [c]) ++ rest)
      by (by rewrite <- app_assoc).
    assert (Hoff : Z.of_nat (length pre) + Z.of_nat 1
                   = Z.of_nat (length (pre ++ [c])))
      by (rewrite length_app; cbn; lia).
    pose proof (lexed_upto_push line pre s accum Hlen Hs Hacc) as Hpush.
    cbn [sam_lex_loop s8_bytes peek].
    (* one token of length 1 at the head, then the rest of the line *)
    assert (Hhead : forall ty pre' rest',
              line = pre' ++ rest' ->
              (length pre < length pre')%nat ->
              slice_of_type line (mkToken (Z.of_nat (length pre)) 1 ty) ->
              sam_lex_loop fuel
                (sam_token_push s accum ++ [mkToken (Z.of_nat (length pre)) 1 ty])
                (mkS8 (Z.of_nat (length pre')) rest')
                (fresh_accum (mkS8 (Z.of_nat (length pre')) rest')) = Done ts ->
              lexed_upto line (Z.of_nat (length line)) ts).
    { intros ty pre' rest' Hl' Hlt Hsl. apply (IH line pre' rest'); [done | |].
      - eapply lexed_upto_weaken;
          [| apply (lexed_upto_snoc line (Z.of_nat (length pre)));
             [exact Hpush | | cbn; lia]].
        + cbn. lia.
        + rewrite Hline. apply head_token_fits. by rewrite <- Hline.
      - apply fresh_accum_ok. }
    destruct (ISSPACE c) eqn:Esp.
    { rewrite consume_one, Hoff. apply (IH line (pre ++ [c]) rest); [done | |].
      - eapply lexed_upto_weaken; [| exact Hpush]. cbn. rewrite length_app. lia.
      - apply fresh_accum_ok. }
    destruct (ISDIGIT c) eqn:Edig.
    { rewrite sam_token_at_head, consume_digits_head.
      set (n := count_digits (c :: rest)).
      cbn [option_map push_opt tok_start tok_type s8_data].
      replace (Z.of_nat (length pre) + Z.of_nat n - Z.of_nat (length pre))
        with (Z.of_nat n) by lia.
      assert (Hn : (1 <= n <= length (c :: rest))%nat).
      { split; [| apply count_digits_le].
        subst n. cbn [count_digits]. rewrite Edig. lia. }
      assert (Hline' : line = (pre ++ take n (c :: rest)) ++ drop n (c :: rest))
        by (by rewrite <- app_assoc, take_drop).
      assert (Hoff' : Z.of_nat (length pre) + Z.of_nat n
                      = Z.of_nat (length (pre ++ take n (c :: rest))))
        by (rewrite length_app, length_take; lia).
      rewrite Hoff'.
      apply (IH line _ _ _ _ _ Hline'); [| apply fresh_accum_ok].
      eapply lexed_upto_weaken;
        [| apply (lexed_upto_snoc line (Z.of_nat (length pre)));
             [exact Hpush | | cbn; lia]].
      { unfold fresh_accum. cbn [tok_start tok_length s8_data]. lia. }
      split; [cbn [tok_start]; lia | split; [cbn [tok_length]; lia | split]].
      - cbn [tok_start tok_length]. rewrite Hline, length_app. lia.
      - unfold slice_of_type. cbn [tok_type tok_start tok_length].
        rewrite Hline, token_slice_at. split; [apply count_digits_take |].
        intros d Hd. apply (count_digits_stop (c :: rest)). fold n.
        rewrite <- Hd.
        replace (Z.to_nat (Z.of_nat (length pre) + Z.of_nat n))
          with (length pre + n)%nat by lia.
        by rewrite lookup_app_r, Nat.add_comm, Nat.add_sub by lia. }
    assert (Htwo : forall ty,
              slice_of_type line (mkToken (Z.of_nat (length pre)) 1 ty) ->
              match consume (mkS8 (Z.of_nat (length pre)) (c :: rest)) 1 with
              | Some raw =>
                  match consume raw 1 with
                  | Some raw =>
                      sam_lex_loop fuel
                        (sam_token_push s accum
                         ++ [mkToken (Z.of_nat (length pre)) 1 ty])
                        raw (fresh_accum raw)
                  | None => Trapped
                  end
              | None => Trapped
              end = Done ts ->
              lexed_upto line (Z.of_nat (length line)) ts).
    { intros ty Hsl. rewrite consume_one.
      destruct rest as [| c2 rest2]; [discriminate |].
      rewrite consume_one, Hoff.
      replace (Z.of_nat (length (pre ++ [c])) + Z.of_nat 1)
        with (Z.of_nat (length ((pre ++ [c]) ++ [c2])))
        by (rewrite !length_app; cbn; lia).
      apply Hhead; [| rewrite !length_app; cbn; lia | done].
      by rewrite <- !app_assoc. }
    destruct (c =? chr "{") eqn:Eopen.
    { rewrite sam_token_at_head. cbn [push_opt]. apply Htwo.
      apply Z.eqb_eq in Eopen. subst c. unfold slice_of_type. cbn [tok_type].
      rewrite Hline. apply head_token_slice. }
    destruct (c =? chr "}") eqn:Eclose.
    { rewrite sam_token_at_head. cbn [push_opt]. apply Htwo.
      apply Z.eqb_eq in Eclose. subst c. unfold slice_of_type. cbn [tok_type].
      rewrite Hline. apply head_token_slice. }
    apply Z.eqb_neq in Eopen, Eclose.
    rewrite consume_one, Hoff.
    destruct Hacc as (Hty & (Hs0 & Hl0 & Hsum) & Hbytes).
    assert (Hgrow : string_byte c ->
              accum_ok line (pre ++ [c]) (accum_grow accum)).
    { intros Hc. split; [done | split].
      - unfold accum_at, accum_grow. cbn. rewrite length_app. cbn. lia.
      - rewrite Hline, token_slice_grow by done. apply Forall_app. split.
        + by rewrite <- Hline.
        + constructor; [done | constructor]. }
    destruct (((c =? chr ">") || (c =? chr "<") || (c =? chr "|"))
              && (tok_length accum =? 0)) eqn:Epipe.
    { apply andb_true_iff in Epipe as [Hc Hzero]. apply Z.eqb_eq in Hzero.
      apply (IH line (pre ++ [c]) rest); [done | | apply fresh_accum_ok].
      change (tok_start (fresh_accum _)) with (Z.of_nat (length (pre ++ [c]))).
      apply (lexed_upto_push line (pre ++ [c])).
      - rewrite Hline1, !length_app. lia.
      - done.
      - apply Hgrow. by apply pipe_string_byte. }
    destruct (IS_SAM_DELIMITER c) eqn:Edel.
    { rewrite sam_token_at_head. cbn [push_opt].
      apply Hhead; [done | rewrite length_app; cbn; lia |].
      unfold slice_of_type. cbn [tok_type]. exists c.
      split; [| done]. rewrite Hline. apply head_token_slice. }
    apply (IH line (pre ++ [c]) rest); [done | done |].
    apply Hgrow. by repeat split.
Qed.

Lemma lexed_upto_length (line : list Z) (s : list SamToken) (lo b : Z) :
  lo <= b -> lexed_upto line b s ->
  Forall (fun t => lo <= tok_start t) s ->
  Z.of_nat (length s) <= b - lo.
Proof.
  revert lo. induction s as [| t s IH]; intros lo Hlo (Hf & Ho & He) Hs;
    [cbn; lia |].
  apply Forall_cons in Hf as [(_ & Hlen & _) Hf].
  apply StronglySorted_inv in Ho as [Ho Ht].
  apply Forall_cons in He as [Hte He].
  apply Forall_cons in Hs as [Hts Hs].
  specialize (IH (tok_start t + tok_length t) Hte (conj Hf (conj Ho He)) Ht).
  cbn [length]. lia.
Qed.

Lemma fitting_tokens_valid (line : list Z) (ts : list SamToken) :
  Forall (token_fits line) ts -> count_type ST_INVALID ts = O.
Proof.
  induction 1 as [| t ts (_ & _ & _ & Hsl) _ IH]; [done |].
  rewrite count_type_cons, IH. unfold slice_of_type in Hsl.
  by destruct (tok_type t).
Qed.

Lemma sam_lex_lexed (line : list Z) (ts : list SamToken) :
  sam_lex line = Done ts -> lexed_upto line (Z.of_nat (length line)) ts.
Proof.
  unfold sam_lex. intros Hts.
  apply (sam_lex_loop_fits (length line) line [] line [] ts
           (fresh_accum (mkS8 0 line))); [done | | | done].
  - split; [constructor | split; constructor].
  - apply (fresh_accum_ok line [] line).
Qed.



(** X4. On the tokens [sam_lex] makes of a line shorter than [2^31] bytes
    [validate_token_stream] accepts exactly when the line has as many
    group starts as group ends: the lexer makes no invalid token, and the
    order of the braces plays no part. *)
Theorem sam_lex_validate_counts_braces (line : list Z) (ts : list SamToken) :
  sam_lex line = Done ts -> Z.of_nat (length line) < 2 ^ 31 ->
  (validate_token_stream ts = true <->
   count_type ST_GROUP_START ts = count_type ST_GROUP_END ts).
Proof.
  intros Hts Hlen. pose proof (sam_lex_lexed line ts Hts) as Hl.
  pose proof Hl as (Hf & _ & _).
  pose proof (lexed_upto_length line ts 0 (Z.of_nat (length line))
                ltac:(lia) Hl) as Hn.
  assert (Forall (fun t => 0 <= tok_start t) ts) as H0.
  { eapply Forall_impl; [exact Hf |]. by intros t (? & _). }
  specialize (Hn H0).
  pose proof (fitting_tokens_valid line ts Hf) as Hinv.
  rewrite validate_token_stream_balanced by (done || lia).
  unfold balanced_without_invalid. tauto.
Qed.

Lemma sam_lex_validate_counts_braces_witness :
  validate_token_stream
    [mkToken 0 1 ST_GROUP_END; mkToken 2 1 ST_STRING;
     mkToken 4 1 ST_GROUP_START; mkToken 6 1 ST_STRING] = true.
Proof.
  apply (sam_lex_validate_counts_braces (bytes_of_string "} x { y")).
  - vm_compute. reflexivity.
  - vm_compute. reflexivity.
  - vm_compute. reflexivity.
Defined.



(** ** Decimal numbers *)

Lemma i64_wrap_small (z : Z) : - 2 ^ 63 <= z < 2 ^ 63 -> i64_wrap z = z.
Proof. intros Hz. unfold i64_wrap. rewrite Z.mod_small; lia. Qed.

Lemma BETWEEN_digit (c : Z) : BETWEEN (c - chr "0") 0 9 = ISDIGIT c.
Proof.
  unfold ISDIGIT, BETWEEN. change (chr "0") with 48. change (chr "9") with 57.
  apply eq_true_iff_eq. rewrite !andb_true_iff, !Z.leb_le. lia.
Qed.

Lemma decimal_from_ge (ds : list Z) (acc : Z) :
  Forall is_digit ds -> 0 <= acc -> acc <= decimal_from acc ds.
Proof.
  intros Hd. revert acc. induction Hd as [| d ds Hd _ IH]; intros acc Ha;
    cbn; [lia |].
  unfold is_digit in Hd. etransitivity; [| apply IH]; lia.
Qed.

(** The test [result > (I64_MAX - digit) / 10] asks whether one more digit
    would pass the maximum. *)
Lemma fits_spec (m d acc : Z) :
  0 <= d <= 9 -> 9 <= m ->
  (acc >? Z.quot (m - d) 10) = true <-> m < 10 * acc + d.
Proof.
  intros Hd Hm. rewrite Z.quot_div_nonneg by lia. rewrite Z.gtb_lt.
  pose proof (Z.div_mod (m - d) 10 ltac:(lia)).
  pose proof (Z.mod_pos_bound (m - d) 10 ltac:(lia)). lia.
Qed.

Lemma s8_to_i64_digits_value (ds tail : list Z) (acc : Z) :
  Forall is_digit ds -> no_digit_ahead tail -> 0 <= acc <= I64_MAX ->
  s8_to_i64_digits (digit_chars ds ++ tail) acc
  = Z.min (decimal_from acc ds) I64_MAX.
Proof.
  intros Hd Htail. revert acc.
  induction Hd as [| d ds Hd Hds IH]; intros acc Ha.
  - cbn [digit_chars map app decimal_from fold_left].
    destruct tail as [| c tail]; cbn [s8_to_i64_digits]; [lia |].
    cbn in Htail. rewrite BETWEEN_digit, Htail. lia.
  - cbn [digit_chars map app s8_to_i64_digits decimal_from fold_left].
    fold (digit_chars ds). fold (decimal_from (10 * acc + d) ds).
    unfold is_digit in Hd.
    replace (d + chr "0" - chr "0") with d by lia.
    assert (BETWEEN d 0 9 = true) as ->
      by (unfold BETWEEN; apply andb_true_iff; rewrite !Z.leb_le; lia).
    destruct (acc >? Z.quot (I64_MAX - d) 10) eqn:E.
    + apply fits_spec in E; [| lia | unfold I64_MAX; lia].
      rewrite IH by (unfold I64_MAX; lia).
      pose proof (decimal_from_ge ds I64_MAX Hds ltac:(unfold I64_MAX; lia)).
      pose proof (decimal_from_ge ds (10 * acc + d) Hds ltac:(lia)).
      lia.
    + assert (10 * acc + d <= I64_MAX) as Hfit.
      { destruct (Z.lt_ge_cases I64_MAX (10 * acc + d)) as [Hlt | Hle]; [| lia].
        apply fits_spec in Hlt; [congruence | lia | unfold I64_MAX; lia]. }
      rewrite i64_wrap_small by (unfold I64_MAX in *; lia).
      apply IH. lia.
Qed.

(** X5. [s8_to_i64] reads an optional sign and the decimal digits up to
    the first byte that is no digit; the result is the number the digits
    denote, cut off at [I64_MAX], negated behind a minus sign. A sign
    without digits gives 0. *)
Theorem s8_to_i64_saturates (ds tail : list Z) :
  Forall is_digit ds -> no_digit_ahead tail ->
  s8_to_i64 (chr "-" :: digit_chars ds ++ tail) = - Z.min (decimal ds) I64_MAX
  /\ s8_to_i64 (chr "+" :: digit_chars ds ++ tail) = Z.min (decimal ds) I64_MAX
  /\ (ds <> [] ->
      s8_to_i64 (digit_chars ds ++ tail) = Z.min (decimal ds) I64_MAX).
Proof.
  intros Hd Htail.
  pose proof (s8_to_i64_digits_value ds tail 0 Hd Htail
                ltac:(unfold I64_MAX; lia)) as Hv.
  fold (decimal ds) in Hv.
  pose proof (decimal_from_ge ds 0 Hd ltac:(lia)) as Hge. fold (decimal ds) in Hge.
  assert (Hw : forall z, 0 <= z <= I64_MAX ->
            i64_wrap (-1 * z) = - z /\ i64_wrap (1 * z) = z).
  { intros z Hz. unfold I64_MAX in Hz.
    split; rewrite i64_wrap_small; lia. }
  destruct (Hw (Z.min (decimal ds) I64_MAX) ltac:(unfold I64_MAX in *; lia))
    as [Hneg Hpos].
  split; [| split].
  - unfold s8_to_i64. rewrite Z.eqb_refl. by rewrite Hv.
  - unfold s8_to_i64. change (chr "+" =? chr "-") with false. cbn match.
    rewrite Z.eqb_refl. by rewrite Hv.
  - intros Hne. destruct ds as [| d ds]; [done |].
    apply Forall_cons in Hd as [Hd0 _]. unfold is_digit in Hd0.
    cbn [digit_chars map app] in *. unfold s8_to_i64.
    change (chr "0") with 48 in *. change (chr "-") with 45.
    change (chr "+") with 43.
    assert ((d + 48 =? 45) = false) as -> by (apply Z.eqb_neq; lia).
    assert ((d + 48 =? 43) = false) as -> by (apply Z.eqb_neq; lia).
    by rewrite Hv.
Qed.

Lemma s8_to_i64_saturates_witness :
  s8_to_i64 (bytes_of_string "-9223372036854775808x") = - I64_MAX
  /\ s8_to_i64 (bytes_of_string "+42") = 42
  /\ s8_to_i64 (bytes_of_string "42 7") = 42.
Proof.
  destruct (s8_to_i64_saturates
              [9; 2; 2; 3; 3; 7; 2; 0; 3; 6; 8; 5; 4; 7; 7; 5; 8; 0; 8]
              (bytes_of_string "x")) as (H1 & _ & _).
  { repeat constructor; unfold is_digit; lia. }
  { reflexivity. }
  destruct (s8_to_i64_saturates [4; 2] []) as (_ & H2 & _).
  { repeat constructor; unfold is_digit; lia. }
  { exact I. }
  destruct (s8_to_i64_saturates [4; 2] (bytes_of_string " 7")) as (_ & _ & H3).
  { repeat constructor; unfold is_digit; lia. }
  { reflexivity. }
  split; [exact H1 | split; [exact H2 | exact (H3 ltac:(discriminate))]].
Defined.

(** ** Counts in the token stream *)

Lemma sam_token_try_pop_number_cursor (s s' : SamTokenStream) (t : SamToken) :
  sam_token_try_pop_number s = Some (t, s') ->
  sts_tokens s' = sts_tokens s /\ sts_raw s' = sts_raw s
  /\ (sts_read_index s <= sts_read_index s' <= sts_read_index s + 2)%nat.
Proof.
  unfold sam_token_try_pop_number.
  assert (Hpop : forall u, sts_tokens (snd (sam_token_pop u)) = sts_tokens u
                 /\ sts_raw (snd (sam_token_pop u)) = sts_raw u
                 /\ (sts_read_index u <= sts_read_index (snd (sam_token_pop u))
                     <= sts_read_index u + 1)%nat).
  { intros u. unfold sam_token_pop.
    destruct (sts_tokens u !! sts_read_index u); cbn;
      (split; [done | split; [done | lia]]). }
  set (result := mkToken _ 0 ST_INVALID).
  assert (Hsecond : forall r u,
    (sts_tokens u = sts_tokens s /\ sts_raw u = sts_raw s
     /\ (sts_read_index s <= sts_read_index u <= sts_read_index s + 1)%nat) ->
    (if SamTokenType_eqb (tok_type (sam_token_peek u)) ST_NUMBER then
       let '(t0, s'0) := sam_token_pop u in
       match sam_token_join r t0 with
       | Some r0 => Some (mkToken (tok_start r0) (tok_length r0) ST_NUMBER, s'0)
       | None => None
       end
     else Some (r, u)) = Some (t, s') ->
    sts_tokens s' = sts_tokens s /\ sts_raw s' = sts_raw s
    /\ (sts_read_index s <= sts_read_index s' <= sts_read_index s + 2)%nat).
  { intros r u (Ht & Hr & Hi).
    destruct (SamTokenType_eqb _ ST_NUMBER).
    - pose proof (Hpop u) as (Ht' & Hr' & Hi').
      destruct (sam_token_pop u) as [t0 u']. cbn [snd] in *.
      destruct (sam_token_join r t0); [| discriminate].
      intros [= _ <-]. split; [congruence | split; [congruence | lia]].
    - intros [= _ <-]. split; [done | split; [done | lia]]. }
  destruct (SamTokenType_eqb _ ST_DELIMITER).
  - destruct ((_ =? chr "+") || (_ =? chr "-")).
    + pose proof (Hpop s) as Hs.
      destruct (sam_token_pop s) as [t0 u]. cbn [snd] in Hs.
      destruct (sam_token_join result t0); [| discriminate].
      by apply Hsecond.
    + apply Hsecond. split; [done | split; [done | lia]].
  - apply Hsecond. split; [done | split; [done | lia]].
Qed.

(** X6. Where [check_count] returns, the count lies in [1, I32_MAX]; the
    log is as it was or has gained one "invalid count" message, the count
    then being 1; the tokens are unchanged and the cursor has moved on by
    at most two tokens. *)
Theorem check_count_in_range (s s' : SamTokenStream)
    (log log' : list (SamToken * string)) (n : Z) :
  check_count s log = Some (n, s', log') ->
  1 <= n <= I32_MAX
  /\ (log' = log \/ (n = 1 /\ exists t, log' = log ++ [(t, "invalid count"%string)]))
  /\ sts_tokens s' = sts_tokens s
  /\ (sts_read_index s <= sts_read_index s' <= sts_read_index s + 2)%nat.
Proof.
  unfold check_count.
  destruct (sam_token_try_pop_number s) as [[token u] |] eqn:Epop; [| discriminate].
  apply sam_token_try_pop_number_cursor in Epop as (Ht & _ & Hi).
  destruct (negb _).
  - destruct ((0 <? _) && (_ <=? I32_MAX)) eqn:E.
    + apply andb_true_iff in E as [E1 E2].
      apply Z.ltb_lt in E1. apply Z.leb_le in E2.
      intros [= <- <- <-]. unfold I32_MAX in *.
      rewrite i32_wrap_small by lia. split; [lia | split; [by left | done]].
    + intros [= <- <- <-]. unfold I32_MAX.
      split; [lia | split; [right; eauto | done]].
  - intros [= <- <- <-]. unfold I32_MAX. split; [lia | split; [by left | done]].
Qed.

Lemma check_count_in_range_witness :
  1 <= 12 <= I32_MAX.
Proof.
  refine (proj1 (check_count_in_range
            (mkStream [mkToken 0 1 ST_STRING; mkToken 1 2 ST_NUMBER;
                       mkToken 3 1 ST_DELIMITER]
                      (bytes_of_string "c12/x/") 1)
            (mkStream [mkToken 0 1 ST_STRING; mkToken 1 2 ST_NUMBER;
                       mkToken 3 1 ST_DELIMITER]
                      (bytes_of_string "c12/x/") 2)
            [] [] 12 _)).
  vm_compute. reflexivity.
Defined.

(** ** Trimming and splitting byte strings *)

Lemma skip_leading_space_spec (bytes : list Z) (data : Z) :
  exists lead,
    bytes = lead ++ s8_bytes (skip_leading_space data bytes)
    /\ Forall (fun c => ISSPACE c = true) lead
    /\ s8_data (skip_leading_space data bytes) = data + Z.of_nat (length lead)
    /\ (forall c, head (s8_bytes (skip_leading_space data bytes)) = Some c ->
                  ISSPACE c = false).
Proof.
  revert data. induction bytes as [| c rest IH]; intros data.
  - exists []. cbn. repeat split; [constructor | lia | done].
  - cbn [skip_leading_space]. destruct (ISSPACE c) eqn:E.
    + destruct (IH (data + 1)) as (lead & Hb & Hl & Hd & Hh).
      exists (c :: lead). split; [| split; [| split]].
      * cbn. by rewrite <- Hb.
      * by constructor.
      * rewrite Hd. cbn [length]. lia.
      * done.
    + exists []. cbn. repeat split; [constructor | lia |]. by intros ? [= <-].
Qed.

Lemma drop_trailing_space_spec (fuel : nat) (bytes : list Z) :
  (length bytes <= fuel)%nat ->
  exists trail,
    bytes = drop_trailing_space fuel bytes ++ trail
    /\ Forall (fun c => ISSPACE c = true) trail
    /\ (forall c, last (drop_trailing_space fuel bytes) = Some c ->
                  ISSPACE c = false).
Proof.
  revert bytes. induction fuel as [| fuel IH]; intros bytes Hlen.
  - destruct bytes; [| cbn in Hlen; lia].
    exists []. cbn. repeat split; [constructor | done].
  - cbn [drop_trailing_space].
    destruct bytes as [| c l _] using rev_ind.
    { exists []. cbn. repeat split; [constructor | done]. }
    rewrite last_snoc. rewrite length_app in *. cbn [length] in *.
    replace (length l + 1 - 1)%nat with (length l) by lia.
    rewrite take_app_length.
    destruct (ISSPACE c) eqn:E.
    + destruct (IH l ltac:(lia)) as (trail & Hb & Ht & Hl).
      exists (trail ++ [c]). split; [| split].
      * rewrite app_assoc. by rewrite <- Hb.
      * apply Forall_app. split; [done |]. by repeat constructor.
      * done.
    + exists []. rewrite app_nil_r. repeat split; [constructor |].
      rewrite last_snoc. by intros ? [= <-].
Qed.

(** X7. [s8_trim_space] drops white space at both ends and nothing else:
    the input is white space, the result, white space; the result starts
    behind the leading white space and neither begins nor ends with a
    white space byte. *)
Theorem s8_trim_space_strips_both_ends (s : s8) :
  exists lead trail,
    s8_bytes s = lead ++ s8_bytes (s8_trim_space s) ++ trail
    /\ Forall (fun c => ISSPACE c = true) lead
    /\ Forall (fun c => ISSPACE c = true) trail
    /\ s8_data (s8_trim_space s) = s8_data s + Z.of_nat (length lead)
    /\ (forall c, head (s8_bytes (s8_trim_space s)) = Some c -> ISSPACE c = false)
    /\ (forall c, last (s8_bytes (s8_trim_space s)) = Some c -> ISSPACE c = false).
Proof.
  destruct (skip_leading_space_spec (s8_bytes s) (s8_data s))
    as (lead & Hb & Hl & Hd & Hh).
  set (s1 := skip_leading_space (s8_data s) (s8_bytes s)) in *.
  destruct (drop_trailing_space_spec (length (s8_bytes s1)) (s8_bytes s1)
              ltac:(lia)) as (trail & Hb' & Ht & Hlast).
  exists lead, trail. unfold s8_trim_space. fold s1. cbn [s8_bytes s8_data].
  split; [by rewrite <- Hb' | split; [done | split; [done | split; [done |]]]].
  split; [| done].
  intros c Hc. apply Hh.
  rewrite Hb'. destruct (drop_trailing_space _ _); [done |]. exact Hc.
Qed.

Lemma scan_byte_spec (bytes : list Z) (c : Z) :
  (scan_byte bytes c <= length bytes)%nat
  /\ (c ∉ take (scan_byte bytes c) bytes)
  /\ (c ∈ bytes -> bytes !! scan_byte bytes c = Some c)
  /\ (c ∉ bytes -> scan_byte bytes c = length bytes).
Proof.
  induction bytes as [| x rest (IHle & IHnot & IHin & IHout)]; cbn.
  - split; [lia | split; [apply not_elem_of_nil | split; [| done]]].
    by intros ?%elem_of_nil.
  - destruct (x =? c) eqn:E.
    + apply Z.eqb_eq in E. subst x. cbn.
      split; [lia | split; [apply not_elem_of_nil | split; [done |]]].
      intros Hn. exfalso. apply Hn. by left.
    + apply Z.eqb_neq in E. cbn.
      split; [lia | split; [| split]].
      * intros [? | ?]%elem_of_cons; [congruence | done].
      * intros [? | ?]%elem_of_cons; [congruence | by apply IHin].
      * intros Hn. f_equal. apply IHout. intros ?. apply Hn. by right.
Qed.

(** X8. [s8_split] cuts at the first occurrence of the separator: the
    left part starts where the input starts and holds no separator; when
    the input holds one, the input is the left part, the separator and the
    right part; when it holds none, the left part is the whole input and
    the right part is empty, at the end of the input. *)
Theorem s8_split_at_first_separator (inp : s8) (c : Z) :
  let lhs := fst (s8_split inp c) in
  let rhs := snd (s8_split inp c) in
  (c ∉ s8_bytes lhs) /\ s8_data lhs = s8_data inp
  /\ (c ∈ s8_bytes inp ->
      s8_bytes inp = s8_bytes lhs ++ c :: s8_bytes rhs
      /\ s8_data rhs = s8_data inp + s8_len lhs + 1)
  /\ (c ∉ s8_bytes inp ->
      s8_bytes lhs = s8_bytes inp /\ s8_bytes rhs = []
      /\ s8_data rhs = s8_data inp + s8_len inp).
Proof.
  cbn zeta. unfold s8_split, s8_len. cbn [fst snd s8_bytes s8_data].
  destruct (scan_byte_spec (s8_bytes inp) c) as (Hle & Hnot & Hin & Hout).
  set (i := scan_byte (s8_bytes inp) c) in *.
  split; [done | split; [done | split]].
  - intros Hc. specialize (Hin Hc).
    pose proof (lookup_lt_Some _ _ _ Hin) as Hlt.
    assert ((Z.of_nat i =? Z.of_nat (length (s8_bytes inp))) = false) as ->
      by (apply Z.eqb_neq; lia).
    rewrite length_take.
    replace (Z.to_nat (Z.of_nat i + 1)) with (S i) by lia.
    rewrite (take_ge (drop (S i) (s8_bytes inp)))
      by (rewrite length_drop; lia).
    split; [| lia].
    rewrite <- (take_drop_middle _ _ _ Hin) at 1. done.
  - intros Hc. specialize (Hout Hc). rewrite Hout.
    rewrite Z.eqb_refl, firstn_all.
    replace (Z.to_nat (Z.of_nat (length (s8_bytes inp)) + 0))
      with (length (s8_bytes inp)) by lia.
    rewrite drop_all, take_nil. split; [done | split; [done | lia]].
Qed.

(** ** Comparing without case *)

Lemma case_pairs_ok :
  forallb (fun x => forallb (case_pair_ok x) (seq 0 128)) (seq 0 128) = true.
Proof. vm_compute. reflexivity. Qed.

Lemma alnum_below_128 (c : Z) :
  (ISALPHA c || ISDIGIT c = true) \/ lower_or_digit c = true -> 0 <= c < 128.
Proof.
  unfold lower_or_digit, ISALPHA, ISDIGIT, BETWEEN.
  change (chr "a") with 97. change (chr "z") with 122.
  change (chr "A") with 65. change (chr "Z") with 90.
  change (chr "0") with 48. change (chr "9") with 57.
  rewrite !orb_true_iff, !andb_true_iff, !Z.leb_le. lia.
Qed.

(** A letter or digit equals a lower-case letter or digit up to the case
    bit exactly when its lower-case form is that byte. *)
Lemma clear_case_bit_lower (x y : Z) :
  alnum x -> lower_or_digit y = true ->
  (clear_case_bit y =? clear_case_bit x) = (ascii_lower x =? y).
Proof.
  intros Hx Hy.
  assert (ISALPHA x || ISDIGIT x = true) as Hx'
    by (apply orb_true_iff; exact Hx).
  pose proof (alnum_below_128 x (or_introl Hx')) as Hxr.
  pose proof (alnum_below_128 y (or_intror Hy)) as Hyr.
  pose proof case_pairs_ok as Hall.
  rewrite forallb_forall in Hall.
  specialize (Hall (Z.to_nat x)).
  rewrite forallb_forall in Hall.
  assert (case_pair_ok (Z.to_nat x) (Z.to_nat y) = true) as Hok.
  { apply Hall; apply in_seq; lia. }
  unfold case_pair_ok in Hok. rewrite !Z2Nat.id in Hok by lia.
  rewrite Hx', Hy in Hok. cbn [andb implb] in Hok.
  by apply Bool.eqb_prop in Hok.
Qed.

Lemma case_ignore_loop_lower (w s : list Z) :
  length w = length s ->
  Forall (fun y => lower_or_digit y = true) w -> Forall alnum s ->
  case_ignore_loop w s = true <-> map ascii_lower s = w.
Proof.
  revert s. induction w as [| y w IH]; intros [| x s] Hlen Hw Hs;
    try discriminate; [done |].
  apply Forall_cons in Hw as [Hy Hw]. apply Forall_cons in Hs as [Hx Hs].
  cbn [case_ignore_loop map]. rewrite andb_true_iff.
  rewrite (clear_case_bit_lower x y Hx Hy), Z.eqb_eq.
  rewrite IH by (done || (cbn in Hlen; lia)).
  split; [intros [-> ->]; done | intros [= -> ->]; done].
Qed.

Lemma s8_case_ignore_equal_lower (w s : list Z) :
  Forall (fun y => lower_or_digit y = true) w -> Forall alnum s ->
  s8_case_ignore_equal w s = true <-> map ascii_lower s = w.
Proof.
  intros Hw Hs. unfold s8_case_ignore_equal.
  rewrite andb_true_iff, Z.eqb_eq. split.
  - intros [Hlen Hloop]. apply case_ignore_loop_lower; [lia | done ..].
  - intros Heq.
    assert (length w = length s) as Hlen
      by (rewrite <- Heq; apply length_map).
    split; [lia |]. by apply case_ignore_loop_lower.
Qed.

Lemma existsb_words (words : list (list Z)) (s : list Z) :
  Forall (Forall (fun y => lower_or_digit y = true)) words -> Forall alnum s ->
  existsb (fun w => s8_case_ignore_equal w s) words = true
  <-> map ascii_lower s ∈ words.
Proof.
  intros Hw Hs. rewrite existsb_exists. split.
  - intros (w & Hin & Heq). apply list_elem_of_In in Hin.
    rewrite Forall_forall in Hw.
    apply s8_case_ignore_equal_lower in Heq; [by subst | by apply Hw | done].
  - intros Hin. exists (map ascii_lower s).
    split; [by apply list_elem_of_In |].
    rewrite Forall_forall in Hw. apply s8_case_ignore_equal_lower; auto.
Qed.

(** X9. On a word of letters and digits [parse_bool] answers true for
    "1", "true", "yes" and "on", false for "0", "false", "no" and "off",
    in any letter case, and rejects every other word. *)
Theorem parse_bool_words (s : list Z) :
  Forall alnum s ->
  (parse_bool s = Some true <-> map ascii_lower s ∈ true_strs)
  /\ (parse_bool s = Some false <-> map ascii_lower s ∈ false_strs)
  /\ (parse_bool s = None <->
      (map ascii_lower s ∉ true_strs) /\ (map ascii_lower s ∉ false_strs)).
Proof.
  intros Hs.
  assert (Ht : Forall (Forall (fun y => lower_or_digit y = true)) true_strs)
    by (repeat constructor).
  assert (Hf : Forall (Forall (fun y => lower_or_digit y = true)) false_strs)
    by (repeat constructor).
  pose proof (existsb_words true_strs s Ht Hs) as Htrue.
  pose proof (existsb_words false_strs s Hf Hs) as Hfalse.
  assert (Hdisj : map ascii_lower s ∈ true_strs ->
                  map ascii_lower s ∈ false_strs -> False).
  { generalize (map ascii_lower s). intros m H1 H2.
    unfold true_strs, false_strs in *.
    repeat (apply elem_of_cons in H1 as [-> | H1]);
      try (by apply elem_of_nil in H1);
      repeat (apply elem_of_cons in H2 as [H | H2]; [discriminate H |]);
      by apply elem_of_nil in H2. }
  unfold parse_bool.
  destruct (existsb _ true_strs) eqn:E1.
  - assert (map ascii_lower s ∈ true_strs) as Hin by (by apply Htrue).
    split; [done | split]; (split; [discriminate |]).
    + intros H2. exfalso. by apply Hdisj.
    + intros [Hn _]. by destruct Hn.
  - assert (map ascii_lower s ∉ true_strs) as Hout
      by (intros Hin; apply Htrue in Hin; congruence).
    destruct (existsb _ false_strs) eqn:E2.
    + assert (map ascii_lower s ∈ false_strs) as Hin by (by apply Hfalse).
      split; [split; [discriminate | done] |].
      split; [done |]. split; [discriminate |]. intros [_ Hn]. by destruct Hn.
    + assert (map ascii_lower s ∉ false_strs) as Hout2
        by (intros Hin; apply Hfalse in Hin; congruence).
      split; [split; [discriminate | done] |].
      split; [split; [discriminate | done] | done].
Qed.

Lemma parse_bool_words_witness :
  parse_bool (bytes_of_string "Yes") = Some true
  /\ parse_bool (bytes_of_string "OFF") = Some false
  /\ parse_bool (bytes_of_string "maybe") = None.
Proof.
  assert (Ha : forall s, Forall (fun c => ISALPHA c || ISDIGIT c = true) s ->
                         Forall alnum s).
  { intros s Hs. eapply Forall_impl; [exact Hs |].
    intros c Hc. by apply orb_true_iff. }
  assert (H1 : Forall alnum (bytes_of_string "Yes"))
    by (apply Ha; repeat constructor).
  assert (H2 : Forall alnum (bytes_of_string "OFF"))
    by (apply Ha; repeat constructor).
  assert (H3 : Forall alnum (bytes_of_string "maybe"))
    by (apply Ha; repeat constructor).
  split; [| split].
  - apply (proj1 (parse_bool_words _ H1)). vm_compute. repeat constructor.
  - apply (proj1 (proj2 (parse_bool_words _ H2))). vm_compute. repeat constructor.
  - apply (proj2 (proj2 (parse_bool_words _ H3))). vm_compute.
    split; intros H;
      repeat (apply elem_of_cons in H as [H | H]; [discriminate H |]);
      by apply elem_of_nil in H.
Defined.

(** ** Addresses never reach the assertion *)

(** X10. [evaluate_address] never reaches the [ASSERT(0)] of
    [evaluate_address_side]: a side of type [AT_INVALID] is not evaluated,
    whatever the address, file, selection and range. *)
Theorem evaluate_address_never_asserts `{Collaborators} (addr : Address)
    (file : File) (sel : option Selection) (range : Filerange) :
  is_Some (evaluate_address addr file sel range).
Proof.
  assert (Hside : forall side f s r d,
            is_Some (if is_AT_INVALID side then Some d
                     else evaluate_address_side side f s r)).
  { intros side f s r d. destruct side; cbn [is_AT_INVALID]; try done;
      by apply evaluate_address_side_some. }
  unfold evaluate_address.
  destruct ((delimeter addr =? chr "+") || (delimeter addr =? chr "-")).
  - destruct (Hside (right addr) file sel range (mkRange 0 0)) as [r ->]. done.
  - destruct ((delimeter addr =? chr ",") || (delimeter addr =? chr ";"));
      [| done].
    destruct (Hside (left addr) file sel range (mkRange 0 0)) as [l ->].
    set (current := if delimeter addr =? chr ";" then l else range).
    destruct (Hside (right addr) file sel current
                (mkRange (text_size (f_text file)) (text_size (f_text file))))
      as [r Hr].
    cbn zeta. rewrite Hr. done.
Qed.

(** ** Registering a user command *)

(** X11. [vis_cmd_register] either succeeds, the name having been in
    neither map and now naming the new definition in the command map and
    the user command in the user map, or fails and leaves the entries of
    both maps as they were. *)
Theorem vis_cmd_register_both_or_neither (vis : Registry) (nm : string)
    (func data : nat) (allocs : RegisterAllocs) :
  let result := vis_cmd_register vis (Some nm) func data allocs in
  let def := mkDef nm command_user
               (flag_set [CMD_ARGV; CMD_FORCE; CMD_ONCE; CMD_ADDRESS_ALL]) in
  (fst result = true
   /\ cmds vis !! nm = None
   /\ default ∅ (usercmds vis) !! nm = None
   /\ cmds (snd result) = <[nm := def]> (cmds vis)
   /\ usercmds (snd result)
      = Some (<[nm := mkCmdUser def func data]> (default ∅ (usercmds vis))))
  \/ (fst result = false
      /\ cmds (snd result) = cmds vis
      /\ default ∅ (usercmds (snd result)) = default ∅ (usercmds vis)).
Proof.
  cbn zeta. unfold vis_cmd_register, map_put, map_delete.
  destruct (usercmds vis) as [um |] eqn:Hu; cbn [default].
  - destruct (cmds vis !! nm) eqn:Hc; [right; cbn; by rewrite ?Hu |].
    destruct (put_cmds_ok allocs); [| right; cbn; by rewrite ?Hu].
    destruct (um !! nm) eqn:Hn.
    + right. cbn. by rewrite delete_insert_id.
    + destruct (put_usercmds_ok allocs).
      * left. cbn. done.
      * right. cbn. by rewrite delete_insert_id.
  - destruct (map_new_ok allocs); [| right; cbn; by rewrite ?Hu].
    destruct (cmds vis !! nm) eqn:Hc; [right; cbn; by rewrite ?Hu |].
    destruct (put_cmds_ok allocs); [| right; cbn; by rewrite ?Hu].
    rewrite lookup_empty.
    destruct (put_usercmds_ok allocs).
    + left. cbn. done.
    + right. cbn. by rewrite delete_insert_id.
Qed.

(** ** Group ends and the closing assertion *)

Lemma execute_round_nesting `{Engine} (st st' : ExecState) (status : ExecStatus) :
  execute_round st = (st', status) ->
  nesting_level st' =
    if SamTokenType_eqb (tok_type (fst (sam_token_pop (ex_sts st)))) ST_GROUP_END
    then i32_wrap (nesting_level st - 1) else nesting_level st.
Proof.
  unfold execute_round.
  destruct (sam_token_pop (ex_sts st)) as [token sts]. cbn [fst].
  destruct (tok_type token); cbn [SamTokenType_eqb]; try (by intros [= <- _]).
  destruct (sam_token_join_command_name sts token) as [[token' sts'] |];
    [| by intros [= <- _]].
  destruct (commands st) as [| command outer]; [by intros [= <- _] |].
  destruct (lookup_command_definition (ex_cmds st) sts' token') as [d |];
    [| by intros [= <- _]].
  destruct (did_looping_command st && has_flag d CMD_DESTRUCTIVE);
    [by intros [= <- _] |].
  destruct (execute_command _ _ _ _) as [[[result pops] world] command'].
  by intros [= <- _].
Qed.

(** The counter after the loop: lowered once for every group end, raised
    never. *)
Lemma execute_loop_nesting `{Engine} (fuel : nat) (st : ExecState) :
  - 2 ^ 31 < nesting_level st - Z.of_nat fuel -> nesting_level st < 2 ^ 31 ->
  nesting_level (fst (execute_loop fuel st))
  = nesting_level st - Z.of_nat (group_ends_popped fuel st).
Proof.
  revert st. induction fuel as [| fuel IH]; intros st Hlo Hhi;
    cbn [execute_loop group_ends_popped].
  - destruct (_ && _); cbn; lia.
  - destruct (_ && _); [| cbn; lia].
    pose proof (execute_round_nesting st) as Hn.
    destruct (execute_round st) as [st' status].
    specialize (Hn st' status eq_refl).
    destruct (SamTokenType_eqb _ ST_GROUP_END).
    + rewrite i32_wrap_small in Hn by lia.
      destruct status; cbn [fst]; try lia.
      rewrite IH by lia. lia.
    + destruct status; cbn [fst]; try lia.
      rewrite IH by lia. lia.
Qed.

(** X12. A run of [execute_token_stream] over fewer than [2^31] tokens
    that pops a group end does not end normally: the nesting level is
    decremented at a group end and incremented nowhere, so a run that gets
    as far as the closing [ASSERT(nesting_level == 0)] fails it, also when
    the braces are balanced. *)
Theorem group_end_fails_closing_assertion `{Engine} (world : World)
    (cmds_ : gmap string CommandDef) (sts : SamTokenStream) :
  Z.of_nat (sts_count sts) < 2 ^ 31 ->
  (0 < group_ends_popped (sts_count sts) (executor_entry world cmds_ sts))%nat ->
  snd (execute_token_stream world cmds_ sts) <> Finished.
Proof.
  intros Hcount. unfold execute_token_stream, executor_entry.
  destruct (sts_count sts =? 0)%nat eqn:E0; [discriminate |].
  destruct (parse_address world sts) as [[addr pops] world'].
  set (st0 := mkExec _ _ _ _ _ _ _ _ _).
  pose proof (execute_loop_nesting (sts_count sts) st0) as Hn.
  cbn [nesting_level st0] in Hn. specialize (Hn ltac:(lia) ltac:(lia)).
  destruct (execute_loop (sts_count sts) st0) as [st status].
  cbn [fst] in Hn. intros Hpop.
  destruct status; try discriminate. cbn [snd].
  destruct (nesting_level st =? 0) eqn:Ez; [| discriminate].
  apply Z.eqb_eq in Ez. lia.
Qed.

(** ** The address parser *)

Lemma read_on_refl (s : SamTokenStream) :
  (sts_read_index s <= sts_count s)%nat -> read_on 0 s s.
Proof. intros. unfold read_on. split; [done | split; [done | lia]]. Qed.

Lemma read_on_trans (n m : nat) (a b c : SamTokenStream) :
  read_on n a b -> read_on m b c -> read_on (n + m) a c.
Proof. unfold read_on. intros (? & ? & ? & ?) (? & ? & ? & ?).
  split; [congruence | split; [congruence | lia]]. Qed.

Lemma read_on_pop (s : SamTokenStream) :
  (sts_read_index s <= sts_count s)%nat -> read_on 1 s (snd (sam_token_pop s)).
Proof.
  intros Hle. unfold read_on, sam_token_pop, sts_count in *.
  destruct (sts_tokens s !! sts_read_index s) eqn:E; cbn;
    (split; [done | split; [done |]]); [| lia].
  apply lookup_lt_Some in E. lia.
Qed.

Lemma read_on_shift (s : SamTokenStream) :
  (sts_read_index s <= sts_count s)%nat ->
  read_on 0 s (AddressParser.shift_token s).
Proof.
  intros Hle. unfold read_on, AddressParser.shift_token, sts_count in *. cbn.
  rewrite length_alter. split; [done | split; [done | lia]].
Qed.

Lemma read_on_weaken (n m : nat) (a b : SamTokenStream) :
  (n <= m)%nat -> read_on n a b -> read_on m a b.
Proof.
  unfold read_on. intros ? (? & ? & ? & ?).
  split; [done | split; [done | lia]].
Qed.

(** A popped token has the type the guard saw. *)
Lemma sam_token_pop_peek (s : SamTokenStream) :
  fst (sam_token_pop s) = sam_token_peek s.
Proof.
  unfold sam_token_pop, sam_token_peek.
  by destruct (sts_tokens s !! sts_read_index s).
Qed.

(** On a number or a delimiter [parse_address_side] passes its assertion
    and reads at most one token more. *)
Lemma parse_address_side_ok `{Lookups} (sts : SamTokenStream)
    (log : list (SamToken * string)) (token : SamToken) :
  (sts_read_index sts <= sts_count sts)%nat ->
  tok_type token = ST_NUMBER \/ tok_type token = ST_DELIMITER ->
  exists side sts' log',
    AddressParser.parse_address_side sts log token = Some (side, sts', log')
    /\ read_on 1 sts sts'
    /\ (forall cp, tok_type token = ST_DELIMITER ->
                   token_first_byte sts token = cp ->
                   cp <> chr "?" -> cp <> chr "/" -> cp <> chr "$" ->
                   left_side_ok side)
    /\ (tok_type token = ST_NUMBER -> left_side_ok side).
Proof.
  intros Hle Hty. unfold AddressParser.parse_address_side.
  pose proof (read_on_weaken 0 1 sts sts ltac:(lia) (read_on_refl sts Hle)) as Hsame.
  destruct Hty as [-> | ->].
  { eexists _, _, _. split; [done |]. split; [done |]. split; done. }
  destruct (token_first_byte sts token =? chr "#") eqn:E1.
  { destruct (SamTokenType_eqb _ ST_NUMBER).
    - pose proof (read_on_pop sts Hle) as Hpop.
      destruct (sam_token_pop sts) as [value sts']. cbn [snd] in Hpop.
      eexists _, _, _. split; [done |]. split; [done |]. split; done.
    - eexists _, _, _. split; [done |]. split; [done |]. split; done. }
  destruct (token_first_byte sts token =? chr "'") eqn:E2.
  { destruct (SamTokenType_eqb _ ST_STRING).
    - eexists _, _, _. split; [done |].
      split; [apply (read_on_weaken 0 1); [lia | by apply read_on_shift] |].
      split; done.
    - eexists _, _, _. split; [done |]. split; [done |]. split; done. }
  destruct ((token_first_byte sts token =? chr "/")
            || (token_first_byte sts token =? chr "?")) eqn:E3.
  { apply orb_true_iff in E3. rewrite !Z.eqb_eq in E3.
    destruct (negb _).
    - pose proof (read_on_pop sts Hle) as Hpop.
      destruct (sam_token_pop sts) as [value sts']. cbn [snd] in Hpop.
      eexists _, _, _. split; [done |]. split; [done |].
      split; [| done]. intros cp _ <- ? ? _. exfalso. tauto.
    - eexists _, _, _. split; [done |]. split; [done |]. split; done. }
  destruct ((token_first_byte sts token =? chr "$")
            || (token_first_byte sts token =? chr ".")
            || (token_first_byte sts token =? chr "%")) eqn:E4.
  { eexists _, _, _. split; [done |]. split; [done |].
    split; [| done]. intros cp _ <- _ _ Hd. exact Hd. }
  eexists _, _, _. split; [done |]. split; [done |]. split; done.
Qed.

(** X13. With the cursor inside the stream [parse_address] passes the
    assertion of [parse_address_side]; the address it returns has one of
    the four combiners [;], [,], [+] and [-] as its delimiter, its left
    side is neither a pattern nor the end of the file, and the cursor has
    moved on by at most five tokens and is still inside the stream. *)
Theorem parse_address_well_formed `{Lookups} (sts : SamTokenStream)
    (log : list (SamToken * string)) :
  (sts_read_index sts <= sts_count sts)%nat ->
  exists addr sts' log',
    AddressParser.parse_address sts log = Some (addr, sts', log')
    /\ IS_SAM_ADDRESS_DELIMITER (delimeter addr) = true
    /\ left_side_ok (left addr)
    /\ read_on 5 sts sts'.
Proof.
  intros Hle. unfold AddressParser.parse_address.
  set (test := sam_token_peek sts).
  set (cp := if SamTokenType_eqb (tok_type test) ST_DELIMITER
             then token_first_byte sts test else 0).
  (* the left side *)
  assert (Hleft : exists left_ sts1 log1,
    (if SamTokenType_eqb (tok_type test) ST_NUMBER
        || (SamTokenType_eqb (tok_type test) ST_DELIMITER
            && (negb (cp =? 0) && negb (cp =? chr "?") && negb (cp =? chr "/")
                && negb (cp =? chr "$")))
     then let '(token, s1) := sam_token_pop sts in
          AddressParser.parse_address_side s1 log token
     else Some (AT_INVALID, sts, log)) = Some (left_, sts1, log1)
    /\ read_on 2 sts sts1 /\ left_side_ok left_).
  { destruct (_ || _) eqn:Ev.
    - pose proof (read_on_pop sts Hle) as Hpop.
      pose proof (sam_token_pop_peek sts) as Hpeek. fold test in Hpeek.
      assert (sts_raw (snd (sam_token_pop sts)) = sts_raw sts) as Hraw
        by (by destruct Hpop as (_ & ? & _)).
      destruct (sam_token_pop sts) as [token s1]. cbn [fst snd] in *. subst token.
      destruct Hpop as (Hc & Hr & Hi & Hb).
      apply orb_true_iff in Ev.
      destruct (parse_address_side_ok s1 log test Hb) as
        (side & s2 & log2 & Heq & Hon & Hdel & Hnum).
      { destruct Ev as [Ev | Ev].
        - left. by destruct (tok_type test).
        - right. apply andb_true_iff in Ev as [Ev _]. by destruct (tok_type test). }
      exists side, s2, log2. split; [done |]. split.
      + apply (read_on_trans 1 1 sts s1 s2); [| done].
        unfold read_on. split; [done | split; [done | lia]].
      + destruct Ev as [Ev | Ev].
        * apply Hnum. by destruct (tok_type test).
        * apply andb_true_iff in Ev as [Ety Ecp].
          rewrite !andb_true_iff, !negb_true_iff, !Z.eqb_neq in Ecp.
          subst cp. rewrite Ety in Ecp.
          assert (token_first_byte s1 test = token_first_byte sts test) as Hfb
            by (unfold token_first_byte; by rewrite Hraw).
          apply (Hdel (token_first_byte s1 test));
            [by destruct (tok_type test) | done | rewrite Hfb; tauto ..].
    - exists AT_INVALID, sts, log. split; [done |].
      split; [| done]. apply (read_on_weaken 0 2); [lia | by apply read_on_refl]. }
  destruct Hleft as (left_ & sts1 & log1 & -> & Hon1 & Hl).
  pose proof Hon1 as (_ & _ & _ & Hb1).
  (* the combiner *)
  assert (Hdelim : exists d sts2,
    (if SamTokenType_eqb (tok_type (sam_token_peek sts1)) ST_DELIMITER
        && IS_SAM_ADDRESS_DELIMITER (token_first_byte sts1 (sam_token_peek sts1))
     then (token_first_byte sts1 (fst (sam_token_pop sts1)),
           snd (sam_token_pop sts1))
     else (chr ";", sts1)) = (d, sts2)
    /\ IS_SAM_ADDRESS_DELIMITER d = true /\ read_on 1 sts1 sts2).
  { destruct (_ && _) eqn:Ed.
    - eexists _, _. split; [done |].
      apply andb_true_iff in Ed as [_ Ed]. rewrite sam_token_pop_peek.
      split; [done | by apply read_on_pop].
    - eexists _, _. split; [done |]. split; [done |].
      apply (read_on_weaken 0 1); [lia | by apply read_on_refl]. }
  destruct Hdelim as (d & sts2 & -> & Hd & Hon2).
  pose proof Hon2 as (_ & _ & _ & Hb2).
  (* the right side *)
  assert (Hright : exists right_ sts3 log3,
    (if SamTokenType_eqb (tok_type (sam_token_peek sts2)) ST_NUMBER
        || SamTokenType_eqb (tok_type (sam_token_peek sts2)) ST_DELIMITER
     then let '(token, s3) := sam_token_pop sts2 in
          AddressParser.parse_address_side s3 log1 token
     else Some (AT_INVALID, sts2, log1)) = Some (right_, sts3, log3)
    /\ read_on 2 sts2 sts3).
  { destruct (_ || _) eqn:Ev.
    - pose proof (read_on_pop sts2 Hb2) as Hpop.
      pose proof (sam_token_pop_peek sts2) as Hpeek.
      destruct (sam_token_pop sts2) as [token s3]. cbn [fst snd] in *. subst token.
      pose proof Hpop as (_ & _ & _ & Hb3).
      destruct (parse_address_side_ok s3 log1 (sam_token_peek sts2) Hb3) as
        (side & s4 & log4 & Heq & Hon & _).
      { apply orb_true_iff in Ev.
        destruct Ev as [Ev | Ev]; [left | right];
          by destruct (tok_type (sam_token_peek sts2)). }
      exists side, s4, log4. split; [done |].
      by apply (read_on_trans 1 1 sts2 s3 s4).
    - exists AT_INVALID, sts2, log1. split; [done |].
      apply (read_on_weaken 0 2); [lia | by apply read_on_refl]. }
  destruct Hright as (right_ & sts3 & log3 & -> & Hon3).
  exists (mkAddress left_ right_ d), sts3, log3.
  split; [done |]. split; [done |]. split; [done |].
  apply (read_on_trans 3 2 sts sts2 sts3); [| done].
  by apply (read_on_trans 2 1 sts sts1 sts2).
Qed.

(** ** The apply phase carries out the simultaneous edit *)

Section ByteText.
#[local] Existing Instance ByteListText.

Lemma transcript_applicable_in_range (l : list Change) :
  transcript_applicable l -> changes_in_range 0 l.
Proof.
  intros [Hbasic Hsorted Hroom].
  assert (0 <= total_inserted l) as Htot.
  { apply total_inserted_nonneg. eapply Forall_impl; [exact Hbasic |].
    cbn. tauto. }
  apply changes_in_range_intro; try done.
  - eapply Forall_impl; [exact Hbasic |]. cbn. intros c ?. lia.
  - eapply Forall_impl; [exact Hroom |]. cbn. intros c ?. lia.
  - eapply Forall_impl; [exact Hroom |]. cbn. intros c ?. lia.
Qed.

(** [n] insertions of the same bytes at the same offset. *)
Lemma insert_iter (pre post data : list Z) (len : Z) (n : nat) :
  Nat.iter n (fun t : list Z =>
                text_insert t (Z.of_nat (length pre)) data len) (pre ++ post)
  = pre ++ concat (replicate n (take (Z.to_nat len) data)) ++ post.
Proof.
  induction n as [| n IH]; [done |].
  rewrite Nat.iter_succ, IH. cbn [text_insert ByteListText].
  rewrite Nat2Z.id, take_app_length, drop_app_length.
  cbn [replicate concat]. by rewrite <- !app_assoc.
Qed.

Lemma text_between_drop (txt : list Z) (a b : Z) :
  0 <= a <= b -> b <= Z.of_nat (length txt) ->
  drop (Z.to_nat a) txt = text_between txt a b ++ drop (Z.to_nat b) txt.
Proof.
  intros Hab Hb. unfold text_between.
  rewrite <- (take_drop (Z.to_nat (b - a)) (drop (Z.to_nat a) txt)) at 1.
  f_equal. rewrite drop_drop. f_equal. lia.
Qed.

Lemma text_between_length (txt : list Z) (a b : Z) :
  0 <= a <= b -> b <= Z.of_nat (length txt) ->
  Z.of_nat (length (text_between txt a b)) = b - a.
Proof.
  intros Hab Hb. unfold text_between. rewrite length_take, length_drop. lia.
Qed.

Lemma inserted_bytes_length (c : Change) :
  0 <= c_len c <= Z.of_nat (length (c_data c)) -> 0 <= c_count c ->
  Z.of_nat (length (inserted_bytes c)) = c_len c * c_count c.
Proof.
  intros Hl Hc. unfold inserted_bytes.
  assert (forall (n : nat) (x : list Z),
            length (concat (replicate n x)) = (n * length x)%nat) as Hsum.
  { intros n x. induction n as [| n IH]; cbn; [done |].
    rewrite length_app, IH. lia. }
  rewrite Hsum, length_take. nia.
Qed.

(** The invariant of the loop on a list of bytes: what has been written is
    [pre], the unread part of the original text starts at [pos], and delta
    is the difference of the two lengths. *)
Lemma apply_fold_edit (visual : bool) (txt : list Z) (l : list Change) :
  forall (pre : list Z) (pos : Z) (views : list ViewOp),
    0 <= pos <= Z.of_nat (length txt) ->
    Forall (fun c => text_range_valid (c_range c) = true
                     /\ pos <= r_start (c_range c)
                     /\ 0 <= c_len c /\ 0 <= c_count c) l ->
    StronglySorted range_before (c_range <$> l) ->
    changes_within txt l ->
    ap_text (fold_left (apply_change_spec visual) l
               (mkApply (pre ++ drop (Z.to_nat pos) txt)
                        (Z.of_nat (length pre) - pos) views))
    = pre ++ edit_from pos txt l.
Proof.
  induction l as [| c rest IH]; intros pre pos views Hpos Hbasic Hsorted Hin;
    [done |].
  apply Forall_cons in Hbasic as [(Hv & Hs & Hl & Hc) Hbasic].
  rewrite fmap_cons in Hsorted.
  apply StronglySorted_cons in Hsorted as [Hbefore Hsorted].
  apply Forall_cons in Hin as [[He Hd] Hin].
  pose proof (text_range_valid_le _ Hv) as Hle.
  set (s := r_start (c_range c)) in *. set (e := r_end (c_range c)) in *.
  set (mid := text_between txt pos s).
  assert (Hmid : Z.of_nat (length mid) = s - pos)
    by (apply text_between_length; lia).
  assert (Hcur : drop (Z.to_nat pos) txt = mid ++ drop (Z.to_nat s) txt)
    by (apply text_between_drop; lia).
  assert (Hse : drop (Z.to_nat s) txt
                = text_between txt s e ++ drop (Z.to_nat e) txt)
    by (apply text_between_drop; lia).
  assert (Hgap : Z.of_nat (length (text_between txt s e)) = e - s)
    by (apply text_between_length; lia).
  assert (Hshift : s + (Z.of_nat (length pre) - pos)
                   = Z.of_nat (length (pre ++ mid)))
    by (rewrite length_app; lia).
  assert (Hrest : forall p', s <= p' <= e ->
            Forall (fun x => text_range_valid (c_range x) = true
                             /\ p' <= r_start (c_range x)
                             /\ 0 <= c_len x /\ 0 <= c_count x) rest).
  { intros p' Hp'. rewrite Forall_fmap in Hbefore.
    rewrite Forall_forall in Hbefore, Hbasic |- *. intros x Hx.
    specialize (Hbefore x Hx). specialize (Hbasic x Hx).
    cbn in Hbefore. unfold range_before in Hbefore. fold e in Hbefore.
    split; [tauto | split; [lia | tauto]]. }
  cbn [fold_left edit_from]. fold s e mid.
  unfold apply_change_spec at 2. cbn [ap_text ap_delta ap_views]. fold s e.
  rewrite Hshift.
  set (views' := views ++ _ ++ _). clearbody views'.
  destruct (type_has_cases (c_type c)) as (Hdel & Hins & _).
  assert (Hbytes : Z.of_nat (length (inserted_bytes c)) = c_len c * c_count c)
    by (apply inserted_bytes_length; lia).
  destruct (c_type c); rewrite Hdel, Hins.
  - (* insert *)
    rewrite Hcur, app_assoc, insert_iter. fold (inserted_bytes c).
    replace (pre ++ mid ++ inserted_bytes c ++ edit_from s txt rest)
      with ((pre ++ mid ++ inserted_bytes c) ++ edit_from s txt rest)
      by (by rewrite <- !app_assoc).
    rewrite <- (IH (pre ++ mid ++ inserted_bytes c) s views');
      [| lia | apply Hrest; lia | done | done].
    replace (Z.of_nat (length (pre ++ mid ++ inserted_bytes c)) - s)
      with (Z.of_nat (length pre) - pos + c_len c * c_count c)
      by (rewrite !length_app; lia).
    by rewrite <- !app_assoc.
  - (* delete *)
    cbn [text_delete_range ByteListText r_start r_end].
    replace (e + (Z.of_nat (length pre) - pos))
      with (Z.of_nat (length (pre ++ mid ++ text_between txt s e)))
      by (rewrite !length_app; lia).
    rewrite Hcur, Hse. rewrite !Nat2Z.id.
    rewrite (app_assoc pre mid), take_app_length.
    replace ((pre ++ mid) ++ text_between txt s e ++ drop (Z.to_nat e) txt)
      with ((pre ++ mid ++ text_between txt s e) ++ drop (Z.to_nat e) txt)
      by (by rewrite <- !app_assoc).
    rewrite drop_app_length.
    rewrite app_nil_l.
    replace (pre ++ mid ++ edit_from e txt rest)
      with ((pre ++ mid) ++ edit_from e txt rest) by (by rewrite <- !app_assoc).
    rewrite <- (IH (pre ++ mid) e views');
      [| lia | apply Hrest; lia | done | done].
    replace (Z.of_nat (length (pre ++ mid)) - e)
      with (Z.of_nat (length pre) - pos - (e - s))
      by (rewrite !length_app; lia).
    by rewrite <- !app_assoc.
  - (* change *)
    cbn [text_delete_range ByteListText r_start r_end].
    replace (e + (Z.of_nat (length pre) - pos))
      with (Z.of_nat (length (pre ++ mid ++ text_between txt s e)))
      by (rewrite !length_app; lia).
    rewrite Hcur, Hse. rewrite !Nat2Z.id.
    rewrite (app_assoc pre mid), take_app_length.
    replace ((pre ++ mid) ++ text_between txt s e ++ drop (Z.to_nat e) txt)
      with ((pre ++ mid ++ text_between txt s e) ++ drop (Z.to_nat e) txt)
      by (by rewrite <- !app_assoc).
    rewrite drop_app_length.
    rewrite insert_iter. fold (inserted_bytes c).
    replace (pre ++ mid ++ inserted_bytes c ++ edit_from e txt rest)
      with ((pre ++ mid ++ inserted_bytes c) ++ edit_from e txt rest)
      by (by rewrite <- !app_assoc).
    rewrite <- (IH (pre ++ mid ++ inserted_bytes c) e views');
      [| lia | apply Hrest; lia | done | done].
    replace (Z.of_nat (length (pre ++ mid ++ inserted_bytes c)) - e)
      with (Z.of_nat (length pre) - pos - (e - s) + c_len c * c_count c)
      by (rewrite !length_app; lia).
    by rewrite <- !app_assoc.
Qed.

(** X14. On a text of bytes the apply loop of [sam_cmd] carries out the
    changes of an applicable transcript as one simultaneous edit of the
    text as it was before: the bytes between the ranges stay, every range
    gives way to the data of its change repeated [count] times, whatever
    the lengths of the replacements before it. *)
Theorem apply_changes_simultaneous_edit (visual : bool) (txt : list Z)
    (l : list Change) :
  transcript_applicable l -> changes_within txt l ->
  ap_text (apply_changes visual txt l) = simultaneous_edit txt l.
Proof.
  intros Happ Hin. pose proof Happ as [Hbasic Hsorted _].
  unfold apply_changes.
  destruct (@apply_fold_follows_rule ByteListText visual l txt 0 []
              (transcript_applicable_in_range l Happ)) as [-> _].
  pose proof (apply_fold_edit visual txt l [] 0 [] ltac:(lia)) as Hedit.
  cbn [app length drop Z.to_nat] in Hedit. change (Z.of_nat 0 - 0) with 0 in Hedit.
  apply Hedit; [| done | done].
  eapply Forall_impl; [exact Hbasic |]. cbn. tauto.
Qed.

Lemma apply_changes_simultaneous_edit_witness :
  ap_text (apply_changes false scenario_text example_changes)
  = bytes_of_string "Alpha" ++ [88; 88; 10] ++ bytes_of_string "beta"
    ++ bytes_of_string "ABABAB" ++ bytes_of_string "gamma" ++ [10].
Proof.
  rewrite (apply_changes_simultaneous_edit false scenario_text example_changes).
  - vm_compute. reflexivity.
  - split.
    + repeat constructor; cbn; lia.
    + repeat constructor; unfold range_before; cbn; lia.
    + repeat constructor; vm_compute; discriminate.
  - repeat constructor; vm_compute; discriminate.
Defined.

End ByteText.

(** ** UTF-8 *)

(** Bits set above a number do not meet its own. *)
Lemma lor_above (a k n : Z) :
  0 <= n -> 0 <= a < 2 ^ n -> Z.lor a (k * 2 ^ n) = a + k * 2 ^ n.
Proof.
  intros Hn Ha.
  assert (Z.land a (k * 2 ^ n) = 0) as Hland.
  { apply Z.bits_inj'. intros i Hi. rewrite Z.land_spec, Z.bits_0.
    destruct (Z.lt_ge_cases i n) as [Hlt | Hge].
    - rewrite Z.mul_pow2_bits_low by lia. apply andb_false_r.
    - assert (Z.testbit a i = false) as ->; [| done].
      destruct (Z.eq_dec a 0) as [-> | Hne]; [apply Z.bits_0 |].
      apply Z.bits_above_log2; [lia |].
      assert (Z.log2 a < n) by (apply Z.log2_lt_pow2; lia). lia. }
  pose proof (Z.add_lor_land a (k * 2 ^ n)) as Hadd.
  by rewrite Hland, Z.add_0_r in Hadd.
Qed.

(** The six low bits of [cp >> s] under the mark of a continuation byte. *)
Lemma continuation_bits (x : Z) :
  Z.lor (Z.land x 63) 128 = x mod 64 + 128.
Proof.
  change 63 with (Z.ones 6). rewrite Z.land_ones by lia.
  change 128 with (2 * 2 ^ 6) at 1.
  rewrite lor_above; [reflexivity | lia | apply Z.mod_pos_bound; lia].
Qed.

Lemma lead_bits (x bits mark : Z) :
  0 <= bits -> 0 <= mark ->
  Z.lor (Z.land x (Z.ones bits)) (mark * 2 ^ bits)
  = x mod 2 ^ bits + mark * 2 ^ bits.
Proof.
  intros Hb Hm. rewrite Z.land_ones by lia.
  rewrite lor_above; [reflexivity | lia | apply Z.mod_pos_bound; lia].
Qed.

(** The bytes [utf8_encode] writes. *)
Lemma utf8_encode_bytes (cp : Z) :
  0 <= cp <= 1114111 -> utf8_encode cp = (utf8_bytes cp, utf8_length cp).
Proof.
  intros Hcp. unfold utf8_encode, utf8_bytes, utf8_length, u8_wrap.
  rewrite !Z.shiftr_div_pow2 by lia. rewrite !continuation_bits.
  change (2 ^ 0) with 1. change (2 ^ 6) with 64. change (2 ^ 12) with 4096.
  change (2 ^ 18) with 262144. change (2 ^ 8) with 256.
  rewrite Z.div_1_r.
  assert (Hcont : forall x, (x mod 64 + 128) mod 256 = x mod 64 + 128).
  { intros x. pose proof (Z.mod_pos_bound x 64 ltac:(lia)).
    apply Z.mod_small; lia. }
  rewrite !Hcont.
  destruct (cp <=? 127) eqn:E1.
  { apply Z.leb_le in E1.
    assert ((cp <? 128) = true) as -> by (apply Z.ltb_lt; lia).
    change 127 with (Z.ones 7). rewrite Z.land_ones by lia.
    change (2 ^ 7) with 128.
    by rewrite (Z.mod_small cp 128), (Z.mod_small cp 256) by lia. }
  apply Z.leb_gt in E1.
  assert ((cp <? 128) = false) as -> by (apply Z.ltb_ge; lia).
  destruct (cp <=? 2047) eqn:E2.
  { apply Z.leb_le in E2.
    assert ((cp <? 2048) = true) as -> by (apply Z.ltb_lt; lia).
    change 31 with (Z.ones 5). change 192 with (6 * 2 ^ 5) at 1.
    rewrite lead_bits by lia. change (2 ^ 5) with 32.
    assert (Hq : 2 <= cp / 64 < 32)
      by (split; [apply Z.div_le_lower_bound | apply Z.div_lt_upper_bound];
          lia).
    rewrite (Z.mod_small (cp / 64) 32) by lia.
    rewrite (Z.mod_small (cp / 64 + 6 * 32) 256) by lia.
    done. }
  apply Z.leb_gt in E2.
  assert ((cp <? 2048) = false) as -> by (apply Z.ltb_ge; lia).
  destruct (cp <=? 65535) eqn:E3.
  { apply Z.leb_le in E3.
    assert ((cp <? 65536) = true) as -> by (apply Z.ltb_lt; lia).
    change 15 with (Z.ones 4). change 224 with (14 * 2 ^ 4) at 1.
    rewrite lead_bits by lia. change (2 ^ 4) with 16.
    assert (Hq : 0 <= cp / 4096 < 16)
      by (split; [apply Z.div_le_lower_bound | apply Z.div_lt_upper_bound];
          lia).
    rewrite (Z.mod_small (cp / 4096) 16) by lia.
    rewrite (Z.mod_small (cp / 4096 + 14 * 16) 256) by lia.
    done. }
  apply Z.leb_gt in E3.
  assert ((cp <? 65536) = false) as -> by (apply Z.ltb_ge; lia).
  assert ((cp <=? 1114111) = true) as -> by (apply Z.leb_le; lia).
  change 7 with (Z.ones 3). change 240 with (30 * 2 ^ 3) at 1.
  rewrite lead_bits by lia. change (2 ^ 3) with 8.
  assert (Hq : 0 <= cp / 262144 < 8)
    by (split; [apply Z.div_le_lower_bound | apply Z.div_lt_upper_bound];
        lia).
  rewrite (Z.mod_small (cp / 262144) 8) by lia.
  rewrite (Z.mod_small (cp / 262144 + 30 * 8) 256) by lia.
  done.
Qed.

(** The quotients and remainders the bytes are made of. *)
Lemma utf8_digits (cp : Z) :
  0 <= cp ->
  cp = 64 * (cp / 64) + cp mod 64 /\ 0 <= cp mod 64 < 64
  /\ cp / 64 = 64 * (cp / 4096) + (cp / 64) mod 64
  /\ 0 <= (cp / 64) mod 64 < 64
  /\ cp / 4096 = 64 * (cp / 262144) + (cp / 4096) mod 64
  /\ 0 <= (cp / 4096) mod 64 < 64
  /\ 0 <= cp / 262144.
Proof.
  intros Hcp.
  pose proof (Z.div_mod cp 64 ltac:(lia)).
  pose proof (Z.div_mod (cp / 64) 64 ltac:(lia)).
  pose proof (Z.div_mod (cp / 4096) 64 ltac:(lia)).
  pose proof (Z.mod_pos_bound cp 64 ltac:(lia)).
  pose proof (Z.mod_pos_bound (cp / 64) 64 ltac:(lia)).
  pose proof (Z.mod_pos_bound (cp / 4096) 64 ltac:(lia)).
  assert (cp / 64 / 64 = cp / 4096) as Hdd by (rewrite Z.div_div by lia; done).
  assert (cp / 4096 / 64 = cp / 262144) as Hdd'
    by (rewrite Z.div_div by lia; done).
  assert (0 <= cp / 262144) by (apply Z.div_pos; lia).
  rewrite Hdd in *. rewrite Hdd' in *. lia.
Qed.

Ltac settle_bytes :=
  unfold BETWEEN, utf8_continuation;
  repeat match goal with
    | |- context [?a <=? ?b] =>
        first [ replace (a <=? b) with true by (symmetry; apply Z.leb_le; lia)
              | replace (a <=? b) with false
                  by (symmetry; apply Z.leb_gt; lia) ]
    | |- context [?a <? ?b] =>
        first [ replace (a <? b) with true by (symmetry; apply Z.ltb_lt; lia)
              | replace (a <? b) with false
                  by (symmetry; apply Z.ltb_ge; lia) ]
    | |- context [?a =? ?b] =>
        first [ replace (a =? b) with true by (symmetry; apply Z.eqb_eq; lia)
              | replace (a =? b) with false
                  by (symmetry; apply Z.eqb_neq; lia) ]
    end;
  cbn [andb orb negb].

(** X15. For a code point up to [0x10FFFF] [utf8_encode] writes the
    UTF-8 bit distribution of the code point and returns the number of
    its bytes, one to four by the size of the code point; the bytes decode
    to the code point. It has no test for surrogates: the bytes are a
    well-formed UTF-8 sequence exactly when the code point is none, and
    [U+D800] to [U+DFFF] come out as [ED A0 80] to [ED BF BF], which UTF-8
    excludes. *)
Theorem utf8_encode_well_formed (cp : Z) :
  0 <= cp <= 1114111 ->
  fst (utf8_encode cp) = utf8_bytes cp
  /\ snd (utf8_encode cp) = utf8_length cp
  /\ Z.of_nat (length (utf8_bytes cp)) = utf8_length cp
  /\ utf8_decode (utf8_bytes cp) = Some cp
  /\ utf8_well_formed (utf8_bytes cp) = negb (surrogate cp).
Proof.
  intros Hcp. rewrite utf8_encode_bytes by done. cbn [fst snd].
  split; [done | split; [done |]].
  destruct (utf8_digits cp ltac:(lia)) as (H0 & Hm0 & H1 & Hm1 & H2 & Hm2 & H3).
  unfold utf8_bytes, utf8_length, surrogate.
  destruct (cp <? 128) eqn:E1.
  { apply Z.ltb_lt in E1. cbn [length utf8_decode utf8_well_formed].
    split; [done |]. settle_bytes. done. }
  apply Z.ltb_ge in E1.
  destruct (cp <? 2048) eqn:E2.
  { apply Z.ltb_lt in E2. cbn [length utf8_decode utf8_well_formed].
    split; [done |]. settle_bytes. split; [f_equal; lia | done]. }
  apply Z.ltb_ge in E2.
  destruct (cp <? 65536) eqn:E3.
  { apply Z.ltb_lt in E3. cbn [length utf8_decode utf8_well_formed].
    split; [done |].
    split; [settle_bytes; f_equal; lia |].
    destruct (Z.lt_ge_cases cp 55296) as [Hlo | Hhi];
      [| destruct (Z.le_gt_cases cp 57343) as [Hs | Hhi2]].
    - destruct (Z.lt_ge_cases cp 4096);
        [| destruct (Z.lt_ge_cases cp 53248)]; settle_bytes; done.
    - settle_bytes. done.
    - settle_bytes. done. }
  apply Z.ltb_ge in E3. cbn [length utf8_decode utf8_well_formed].
  split; [done |].
  split; [settle_bytes; f_equal; lia |].
  destruct (Z.lt_ge_cases cp 262144);
    [| destruct (Z.lt_ge_cases cp 1048576)]; settle_bytes; done.
Qed.

Lemma utf8_encode_well_formed_witness :
  (fst (utf8_encode 8364) = [226; 130; 172]
   /\ snd (utf8_encode 8364) = 3
   /\ Z.of_nat (length [226; 130; 172]) = 3
   /\ utf8_decode [226; 130; 172] = Some 8364
   /\ utf8_well_formed [226; 130; 172] = true)
  /\ (fst (utf8_encode 55296) = [237; 160; 128]
      /\ snd (utf8_encode 55296) = 3
      /\ Z.of_nat (length [237; 160; 128]) = 3
      /\ utf8_decode [237; 160; 128] = Some 55296
      /\ utf8_well_formed [237; 160; 128] = false).
Proof.
  split.
  - apply (utf8_encode_well_formed 8364). lia.
  - apply (utf8_encode_well_formed 55296). lia.
Defined.

(** ** Command names across tokens *)

Lemma tokens_left_pop (s : SamTokenStream) :
  match tokens_left s with
  | [] => sam_token_pop s = (token_invalid, s)
  | t :: rest =>
      fst (sam_token_pop s) = t /\ tokens_left (snd (sam_token_pop s)) = rest
  end.
Proof.
  unfold tokens_left, sam_token_pop.
  destruct (sts_tokens s !! sts_read_index s) as [t |] eqn:E.
  - rewrite (drop_S _ _ _ E). by cbn.
  - apply lookup_ge_None_1 in E. by rewrite drop_ge by lia.
Qed.

(** Without a boundary at [end] the closing loop never ends, however
    many rounds it is given. *)
Lemma join_until_spins (fuel : nat) :
  forall (s : SamTokenStream) (result : SamToken) (end_ : Z),
    (forall k, tok_length result + total_length (take k (tokens_left s))
               <> end_) ->
    join_until fuel s result end_ = None.
Proof.
  induction fuel as [| fuel IH]; intros s result end_ Hno;
    cbn [join_until];
    (assert ((tok_length result =? end_) = false) as ->;
     [apply Z.eqb_neq; specialize (Hno O); rewrite take_0 in Hno;
      cbn in Hno; lia |]); [done |].
  pose proof (tokens_left_pop s) as Hpop.
  destruct (tokens_left s) as [| t rest] eqn:El.
  - rewrite Hpop. apply IH. cbn [tok_length token_invalid].
    intros k. rewrite El, take_nil. specialize (Hno O).
    rewrite take_0 in Hno. cbn in *. lia.
  - destruct (sam_token_pop s) as [t' s']. cbn [fst snd] in Hpop.
    destruct Hpop as [-> Hrest]. apply IH. cbn [tok_length].
    intros k. rewrite Hrest. specialize (Hno (S k)).
    cbn [take total_length fold_right] in Hno. fold (total_length (take k rest)) in Hno.
    lia.
Qed.

(** With a boundary at [end] the loop ends within as many rounds as
    tokens are left. *)
Lemma join_until_ends (fuel : nat) :
  forall (s : SamTokenStream) (result : SamToken) (end_ : Z) (k : nat),
    tok_length result + total_length (take k (tokens_left s)) = end_ ->
    (length (tokens_left s) <= fuel)%nat ->
    is_Some (join_until fuel s result end_).
Proof.
  induction fuel as [| fuel IH]; intros s result end_ k Hk Hfuel;
    cbn [join_until].
  - destruct (tokens_left s); [| cbn in Hfuel; lia].
    rewrite take_nil in Hk. cbn in Hk.
    assert ((tok_length result =? end_) = true) as ->
      by (apply Z.eqb_eq; lia).
    eauto.
  - destruct (tok_length result =? end_) eqn:E; [eauto |].
    apply Z.eqb_neq in E.
    pose proof (tokens_left_pop s) as Hpop.
    destruct (tokens_left s) as [| t rest] eqn:El.
    + rewrite take_nil in Hk. cbn in Hk. lia.
    + destruct (sam_token_pop s) as [t' s']. cbn [fst snd] in Hpop.
      destruct Hpop as [-> Hrest].
      destruct k as [| k]; [rewrite take_0 in Hk; cbn in Hk; lia |].
      apply (IH s' _ end_ k).
      * cbn [tok_length]. rewrite Hrest.
        cbn [take total_length fold_right] in Hk.
        fold (total_length (take k rest)) in Hk. lia.
      * rewrite Hrest. cbn [length] in Hfuel. lia.
Qed.

(** What the loop hands back has the start of [result] and ends at
    [end]. *)
Lemma join_until_result (fuel : nat) :
  forall (s s' : SamTokenStream) (result r : SamToken) (end_ : Z),
    join_until fuel s result end_ = Some (r, s') ->
    tok_start r = tok_start result /\ tok_length r = end_.
Proof.
  induction fuel as [| fuel IH]; intros s s' result r end_;
    cbn [join_until]; destruct (tok_length result =? end_) eqn:E;
    try discriminate; try (intros [= <- <-]; by apply Z.eqb_eq in E).
  destruct (sam_token_pop s) as [t s1]. intros Hj.
  by destruct (IH _ _ _ _ _ Hj) as [-> ->].
Qed.

(** X19. Take [sam_token_join_command_name] on lengths of a line of less
    than [2^32] bytes. Its closing loop ends exactly when the name ends
    behind one of the tokens left, that is when [start] and some first
    tokens of the rest have [end] bytes together; the token it then
    returns begins where [start] begins and has [end] bytes. When the
    name ends inside a token, as in [a-b$c], no number of rounds ends the
    loop: it reads past the end of the stream and spins there for ever. *)
Theorem sam_token_join_command_name_boundary (s : SamTokenStream)
    (start : SamToken) :
  lengths_in_reach s start ->
  (sam_token_join_command_name s start = None
   <-> forall k, ~ name_ends_behind s start k)
  /\ (sam_token_join_command_name s start = None ->
      forall fuel, join_until fuel s start (name_end s start) = None)
  /\ (forall r s',
        sam_token_join_command_name s start = Some (r, s') ->
        tok_start r = tok_start start /\ tok_length r = name_end s start).
Proof.
  intros _. unfold sam_token_join_command_name. fold (name_end s start).
  assert (Hiff : join_until (S (sts_count s - sts_read_index s)) s start
                            (name_end s start) = None
                 <-> forall k, ~ name_ends_behind s start k).
  { split.
    - intros Hnone k Hk.
      destruct (join_until_ends (S (sts_count s - sts_read_index s)) s start
                  (name_end s start) k Hk) as [x Hx].
      + unfold tokens_left, sts_count. rewrite length_drop. lia.
      + congruence.
    - intros Hno. by apply join_until_spins. }
  split; [exact Hiff | split].
  - intros Hnone fuel. apply join_until_spins. by apply Hiff.
  - intros r s'. apply join_until_result.
Qed.

Lemma sam_token_join_command_name_boundary_witness :
  let tokens := [mkToken 0 1 ST_STRING; mkToken 1 1 ST_DELIMITER;
                 mkToken 2 3 ST_STRING] in
  let s := mkStream tokens (bytes_of_string "a-b$c") 1 in
  sam_lex (bytes_of_string "a-b$c") = Done tokens
  /\ snd (@execute_token_stream obliging_engine tt sam_init_cmds
            (mkStream tokens (bytes_of_string "a-b$c") O)) = Spins
  /\ name_end s (mkToken 0 1 ST_STRING) = 3
  /\ forall fuel, join_until fuel s (mkToken 0 1 ST_STRING) 3 = None.
Proof.
  cbn zeta. split; [vm_compute; reflexivity |].
  split; [vm_compute; reflexivity | split; [vm_compute; reflexivity |]].
  apply (proj1 (proj2 (sam_token_join_command_name_boundary
                         (mkStream [mkToken 0 1 ST_STRING;
                                    mkToken 1 1 ST_DELIMITER;
                                    mkToken 2 3 ST_STRING]
                                   (bytes_of_string "a-b$c") 1)
                         (mkToken 0 1 ST_STRING)
                         ltac:(split; [cbn; lia |
                                       split; [repeat constructor; cbn; lia
                                              | vm_compute; reflexivity]])))).
  vm_compute. reflexivity.
Defined.

(** ** Replacement text *)

Lemma strcspn_plain (p rest : list Z) :
  Forall plain_byte p ->
  (forall c, head rest = Some c -> ~ plain_byte c) ->
  strcspn (p ++ rest) [BACKSLASH; AMPERSAND] = length p.
Proof.
  intros Hp Hrest. induction Hp as [| c p [Hc1 Hc2] _ IH]; cbn.
  - destruct rest as [| c rest]; [done |]. cbn.
    destruct (c =? BACKSLASH) eqn:E1; [done |].
    destruct (c =? AMPERSAND) eqn:E2; [done |].
    apply Z.eqb_neq in E1, E2. destruct (Hrest c eq_refl). by split.
  - apply Z.eqb_neq in Hc1, Hc2. rewrite Hc1, Hc2. cbn. by rewrite IH.
Qed.

(** A list is a plain prefix followed by nothing or by a byte [text]
    looks for. *)
Lemma plain_prefix (s : list Z) :
  exists p rest,
    s = p ++ rest /\ Forall plain_byte p
    /\ (rest = [] \/ exists c s', rest = c :: s' /\ ~ plain_byte c).
Proof.
  induction s as [| c s (p & rest & -> & Hp & Hrest)].
  - exists [], []. split; [done | split; [constructor | by left]].
  - destruct (decide (c = BACKSLASH \/ c = AMPERSAND)) as [Hc | Hc].
    + exists [], (c :: p ++ rest). split; [done | split; [constructor |]].
      right. exists c, (p ++ rest). split; [done |]. unfold plain_byte. tauto.
    + exists (c :: p), rest. split; [done | split; [| done]].
      constructor; [| done]. unfold plain_byte. tauto.
Qed.

Lemma escape_plain (p rest : list Z) :
  Forall plain_byte p -> escape (p ++ rest) = p ++ escape rest.
Proof.
  intros Hp. unfold escape. rewrite map_app, concat_app. f_equal.
  induction Hp as [| c p [Hc1 Hc2] _ IH]; [done |].
  cbn. unfold escape_byte at 1.
  apply Z.eqb_neq in Hc1, Hc2. rewrite Hc1, Hc2. cbn. by rewrite IH.
Qed.

Lemma escape_special (c : Z) (s : list Z) :
  ~ plain_byte c -> escape (c :: s) = BACKSLASH :: c :: escape s.
Proof.
  intros Hc. unfold escape. cbn. unfold escape_byte at 1.
  assert ((c =? BACKSLASH) || (c =? AMPERSAND) = true) as ->; [| done].
  apply orb_true_iff. rewrite !Z.eqb_eq.
  unfold plain_byte in Hc. lia.
Qed.

(** One round of the loop on a text that is not at its end. *)
Lemma text_loop_round `{Registers} (fuel : nat) (p rest buf : list Z) :
  Forall plain_byte p ->
  (forall c, head rest = Some c -> ~ plain_byte c) ->
  p ++ rest <> [] ->
  text_loop (S fuel) (p ++ rest) buf =
  match rest with
  | [] => Some (buf ++ p)
  | c :: after =>
      let '(regid, text) :=
        if c =? AMPERSAND then (Some VIS_REG_AMPERSAND, rest)
        else if c =? BACKSLASH then
          match after with
          | d :: _ =>
              if (chr "1" <=? d) && (d <=? chr "9")
              then (Some (VIS_REG_NUMBERED (d - chr "1")), after)
              else if (d =? BACKSLASH) || (d =? AMPERSAND)
                   then (None, after)
                   else (None, rest)
          | [] => (None, rest)
          end
        else (None, rest) in
      let data := match regid with
                  | Some r => register_get r
                  | None => take 1 text
                  end in
      text_loop fuel (drop 1 text) ((buf ++ p) ++ data)
  end.
Proof.
  intros Hp Hrest Hne.
  pose proof (strcspn_plain p rest Hp Hrest) as Hlen.
  destruct (p ++ rest) as [| x l] eqn:E; [done |].
  cbn [text_loop]. rewrite Hlen, <- E.
  rewrite take_app_length, drop_app_length. by destruct rest.
Qed.

Lemma text_loop_escape `{Registers} (fuel : nat) :
  forall (s buf : list Z),
    (length (escape s) <= fuel)%nat ->
    text_loop fuel (escape s) buf = Some (buf ++ s).
Proof.
  induction fuel as [| fuel IH]; intros s buf Hfuel.
  - destruct (escape s) eqn:E; [| cbn in Hfuel; lia].
    cbn. destruct s as [| c s]; [by rewrite app_nil_r |].
    unfold escape in E. cbn in E. unfold escape_byte in E.
    by destruct ((c =? BACKSLASH) || (c =? AMPERSAND)).
  - destruct (plain_prefix s) as (p & rest & -> & Hp & Hrest).
    rewrite escape_plain in * by done.
    destruct Hrest as [-> | (c & s' & -> & Hc)].
    + (* the text is plain to its end *)
      change (escape []) with (@nil Z) in *.
      destruct p as [| x p]; [cbn; by rewrite app_nil_r |].
      rewrite text_loop_round; [by rewrite app_nil_r | done | done | done].
    + (* an escaped byte behind the plain prefix *)
      rewrite escape_special in * by done.
      rewrite text_loop_round;
        [| done | intros ? [= <-] [? _]; done | by destruct p].
      change (BACKSLASH =? AMPERSAND) with false.
      change (BACKSLASH =? BACKSLASH) with true. cbn match.
      assert ((c =? BACKSLASH) || (c =? AMPERSAND) = true) as Hsp.
      { apply orb_true_iff. rewrite !Z.eqb_eq.
        unfold plain_byte in Hc. lia. }
      assert ((chr "1" <=? c) && (c <=? chr "9") = false) as ->.
      { apply orb_true_iff in Hsp. rewrite !Z.eqb_eq in Hsp.
        unfold BACKSLASH, AMPERSAND in Hsp. change (chr "&") with 38 in Hsp.
        change (chr "1") with 49. change (chr "9") with 57.
        apply andb_false_iff. rewrite !Z.leb_gt. lia. }
      rewrite Hsp. cbn [take drop].
      rewrite length_app in Hfuel. cbn [length] in Hfuel.
      rewrite take_0, drop_0, IH by lia. by rewrite <- !app_assoc.
Qed.

(** X21. [text] copies its argument, a backslash in front of a backslash
    or an ampersand standing for that byte: a string with a backslash put
    in front of each of its backslashes and ampersands comes out as the
    string itself, whatever the registers hold. *)
Theorem text_undoes_escape `{Registers} (s : list Z) :
  c_string s -> text (escape s) = Some s.
Proof. intros _. unfold text. by rewrite text_loop_escape. Qed.

Lemma text_undoes_escape_witness :
  escape [97; 38; 92; 49] = [97; 92; 38; 92; 92; 49]
  /\ @text empty_registers (escape [97; 38; 92; 49]) = Some [97; 38; 92; 49].
Proof.
  split; [reflexivity |].
  apply (@text_undoes_escape empty_registers).
  repeat (constructor; [discriminate |]). constructor.
Defined.

(** ** Arguments are runs of touching tokens *)

Lemma token_slice_span (line : list Z) (t : SamToken) :
  token_slice line t = span_slice line (tok_start t, tok_length t).
Proof. reflexivity. Qed.

(** A token that does not touch the open run closes it. *)
Lemma run_step_apart (st : Spans) (t : SamToken) :
  match snd st with
  | Some (a, n) => a + n <> tok_start t
  | None => True
  end ->
  run_step st t = (close_spans st, Some (tok_start t, tok_length t)).
Proof.
  destruct st as [F [[a n] |]]; unfold run_step, close_spans; cbn [fst snd].
  - intros Hne. apply Z.eqb_neq in Hne. by rewrite Hne.
  - intros _. by rewrite app_nil_r.
Qed.

Lemma peek_lookup (s : SamTokenStream) (t : SamToken) :
  sts_tokens s !! sts_read_index s = Some t ->
  sam_token_peek s = t
  /\ sam_token_pop s
     = (t, mkStream (sts_tokens s) (sts_raw s) (S (sts_read_index s))).
Proof. intros Ht. unfold sam_token_peek, sam_token_pop. by rewrite Ht. Qed.

Lemma peek_end (s : SamTokenStream) :
  sts_tokens s !! sts_read_index s = None ->
  tok_type (sam_token_peek s) = ST_INVALID.
Proof. intros Ht. unfold sam_token_peek. by rewrite Ht. Qed.

Lemma type_eqb_invalid (t : SamToken) :
  tok_type t <> ST_INVALID -> SamTokenType_eqb (tok_type t) ST_INVALID = false.
Proof. by destruct (tok_type t). Qed.

(** The loop of [sam_tokens_join_until_space] extends the open run by the
    tokens that touch it and stops in front of the first that does not. *)
Lemma join_until_space_loop_run (fuel : nat) :
  forall (s : SamTokenStream) (result : SamToken) (F : list Span),
    all_in_reach (drop (sts_read_index s) (sts_tokens s)) ->
    (sts_count s - sts_read_index s <= fuel)%nat ->
    0 <= tok_start result -> 0 <= tok_length result ->
    exists result' i',
      join_until_space_loop fuel s result
      = Done (result', mkStream (sts_tokens s) (sts_raw s) i')
      /\ (sts_read_index s <= i' <= Nat.max (sts_read_index s) (sts_count s))%nat
      /\ fold_left run_step (drop (sts_read_index s) (sts_tokens s))
                   (F, Some (tok_start result, tok_length result))
         = fold_left run_step (drop i' (sts_tokens s))
                     (F, Some (tok_start result', tok_length result'))
      /\ match sts_tokens s !! i' with
         | Some t => tok_start result' + tok_length result' <> tok_start t
         | None => True
         end.
Proof.
  induction fuel as [| fuel IH];
    intros [ts raw i] result F Hvalid Hfuel Hstart Hlength;
    unfold sts_count in *; cbn [sts_tokens sts_raw sts_read_index] in *.
  - assert (ts !! i = None) as Hend by (apply lookup_ge_None_2; lia).
    cbn [join_until_space_loop].
    rewrite (peek_end (mkStream ts raw i) Hend). cbn [SamTokenType_eqb].
    exists result, i. rewrite Hend. split; [done | split; [lia | done]].
  - cbn [join_until_space_loop].
    destruct (ts !! i) as [t |] eqn:Ht.
    2: { rewrite (peek_end (mkStream ts raw i) Ht). cbn [SamTokenType_eqb].
         exists result, i. rewrite Ht. split; [done | split; [lia | done]]. }
    pose proof (lookup_lt_Some _ _ _ Ht) as Hlt.
    destruct (peek_lookup (mkStream ts raw i) t Ht) as [-> ->].
    cbn [sts_tokens sts_raw sts_read_index].
    rewrite (drop_S _ _ _ Ht) in *.
    apply Forall_cons in Hvalid as [(Hty & Ht0 & Ht1 & Ht2) Hvalid].
    rewrite (type_eqb_invalid t Hty).
    destruct (tok_start result + tok_length result =? tok_start t) eqn:Eadj;
      cbn [negb].
    + unfold sam_token_join. rewrite Eadj.
      pose proof Eadj as Htouch. apply Z.eqb_eq in Htouch.
      unfold u32_wrap. rewrite Z.mod_small by lia.
      destruct (IH (mkStream ts raw (S i))
                   (mkToken (tok_start result) (tok_length result + tok_length t)
                            (tok_type result)) F)
        as (result' & i' & Heq & Hle & Hfold & Hstop);
        cbn [sts_tokens sts_raw sts_read_index tok_start tok_length] in *;
        [done | lia | done | lia |].
      exists result', i'. split; [done |]. split; [lia |]. split; [| done].
      cbn [fold_left]. unfold run_step at 2. cbn [fst snd]. by rewrite Eadj.
    + apply Z.eqb_neq in Eadj.
      exists result, i. rewrite (drop_S _ _ _ Ht), Ht.
      split; [done | split; [lia | done]].
Qed.

(** [sam_tokens_join_until_space] in front of a token: the run that begins
    with it. *)
Lemma sam_tokens_join_until_space_run (s : SamTokenStream) (t : SamToken)
    (st : Spans) :
  sts_tokens s !! sts_read_index s = Some t ->
  all_in_reach (drop (sts_read_index s) (sts_tokens s)) ->
  match snd st with
  | Some (a, n) => a + n <> tok_start t
  | None => True
  end ->
  exists arg i',
    sam_tokens_join_until_space s
    = Done (arg, mkStream (sts_tokens s) (sts_raw s) i')
    /\ (sts_read_index s < i' <= sts_count s)%nat
    /\ fold_left run_step (drop (sts_read_index s) (sts_tokens s)) st
       = fold_left run_step (drop i' (sts_tokens s))
                   (close_spans st, Some (tok_start arg, tok_length arg))
    /\ match sts_tokens s !! i' with
       | Some t' => tok_start arg + tok_length arg <> tok_start t'
       | None => True
       end.
Proof.
  destruct s as [ts raw i]. unfold sts_count.
  cbn [sts_tokens sts_raw sts_read_index]. intros Ht Hvalid Hapart.
  pose proof (lookup_lt_Some _ _ _ Ht) as Hlt.
  unfold sam_tokens_join_until_space, sts_count.
  cbn [sts_tokens sts_raw sts_read_index].
  destruct (peek_lookup (mkStream ts raw i) t Ht) as [Hpeek Hpop].
  rewrite Hpeek.
  destruct (length ts - i)%nat as [| fuel] eqn:Efuel; [lia |].
  cbn [join_until_space_loop]. rewrite Hpeek, Hpop.
  pose proof Hvalid as Hvalid'.
  rewrite (drop_S _ _ _ Ht) in Hvalid'.
  apply Forall_cons in Hvalid' as [(Hty & Ht0 & Ht1 & Ht2) Hrest].
  rewrite (type_eqb_invalid t Hty). cbn [tok_start tok_length].
  rewrite Z.add_0_r, Z.eqb_refl. cbn [negb].
  unfold sam_token_join. cbn [tok_start tok_length tok_type].
  rewrite Z.add_0_r, Z.eqb_refl, Z.add_0_l.
  unfold u32_wrap. rewrite Z.mod_small by lia.
  destruct (join_until_space_loop_run fuel (mkStream ts raw (S i))
              (mkToken (tok_start t) (tok_length t) ST_INVALID) (close_spans st))
    as (result' & i' & Heq & Hle & Hfold & Hstop);
    unfold sts_count in *;
    cbn [sts_tokens sts_raw sts_read_index tok_start tok_length] in *;
    [done | lia | done | done |].
  rewrite Heq.
  eexists _, i'. split; [done |]. split; [lia |]. split.
  - rewrite (drop_S _ _ _ Ht). cbn [fold_left].
    rewrite (run_step_apart st t Hapart).
    rewrite Hfold. by destruct (negb _).
  - destruct (negb _); exact Hstop.
Qed.

(** The loop of [sam_tokens_to_argv]: the arguments are the runs. *)
Lemma sam_tokens_to_argv_loop_runs (fuel : nat) :
  forall (s : SamTokenStream) (argv : list (list Z)) (st : Spans),
    all_in_reach (drop (sts_read_index s) (sts_tokens s)) ->
    (sts_count s - sts_read_index s <= fuel)%nat ->
    (sts_read_index s <= sts_count s)%nat ->
    argv = span_slice (sts_raw s) <$> close_spans st ->
    match sts_tokens s !! sts_read_index s, snd st with
    | Some t, Some (a, n) => a + n <> tok_start t
    | _, _ => True
    end ->
    sam_tokens_to_argv_loop fuel s argv
    = Done (span_slice (sts_raw s)
              <$> close_spans (fold_left run_step
                                 (drop (sts_read_index s) (sts_tokens s)) st),
            mkStream (sts_tokens s) (sts_raw s) (sts_count s)).
Proof.
  induction fuel as [| fuel IH]; intros [ts raw i] argv st Hvalid Hfuel Hle
    Hargv Hapart; unfold sts_count in *;
    cbn [sts_tokens sts_raw sts_read_index] in *.
  - assert (ts !! i = None) as Hend by (apply lookup_ge_None_2; lia).
    cbn [sam_tokens_to_argv_loop].
    rewrite (peek_end (mkStream ts raw i) Hend). cbn [SamTokenType_eqb].
    rewrite drop_ge by lia. cbn [fold_left].
    replace i with (length ts) by lia. by rewrite Hargv.
  - cbn [sam_tokens_to_argv_loop].
    destruct (ts !! i) as [t |] eqn:Ht.
    2: { rewrite (peek_end (mkStream ts raw i) Ht). cbn [SamTokenType_eqb].
         apply lookup_ge_None_1 in Ht.
         rewrite drop_ge by lia. cbn [fold_left].
         replace i with (length ts) by lia. by rewrite Hargv. }
    destruct (peek_lookup (mkStream ts raw i) t Ht) as [Hpeek _].
    rewrite Hpeek.
    pose proof Hvalid as Hvalid'.
    rewrite (drop_S _ _ _ Ht) in Hvalid'.
    apply Forall_cons in Hvalid' as [(Hty & _) _].
    rewrite (type_eqb_invalid t Hty).
    destruct (sam_tokens_join_until_space_run (mkStream ts raw i) t st)
      as (arg & i' & -> & Hi' & Hfold & Hstop);
      unfold sts_count in *; cbn [sts_tokens sts_raw sts_read_index] in *;
      [done | done | by destruct (snd st) as [[a n] |] |].
    rewrite Hfold.
    rewrite (IH (mkStream ts raw i') _
                (close_spans st, Some (tok_start arg, tok_length arg)));
      unfold sts_count; cbn [sts_tokens sts_raw sts_read_index snd].
    + done.
    + rewrite <- (take_drop (i' - i) (drop i ts)) in Hvalid.
      apply Forall_app in Hvalid as [_ Hvalid].
      rewrite drop_drop in Hvalid. by replace (i + (i' - i))%nat with i' in Hvalid by lia.
    + lia.
    + lia.
    + unfold close_spans at 1. cbn [fst snd].
      rewrite fmap_app. by rewrite Hargv.
    + by destruct (ts !! i').
Qed.

(** The runs are no more than the tokens. *)
Lemma run_steps_length (l : list SamToken) :
  forall st : Spans,
    (length (close_spans (fold_left run_step l st))
     <= length (close_spans st) + length l)%nat.
Proof.
  induction l as [| t l IH]; intros st; cbn [fold_left length]; [lia |].
  etrans; [apply IH |].
  destruct st as [F [[a n] |]]; unfold run_step, close_spans; cbn [fst snd].
  - destruct (a + n =? tok_start t); cbn [fst snd];
      rewrite ?length_app; cbn [length]; lia.
  - rewrite !length_app. cbn [length]. lia.
Qed.

(** ** The runs of the lexer's tokens are the words of the line *)

Lemma digit_no_space (c : Z) : ISDIGIT c = true -> ISSPACE c = false.
Proof.
  unfold ISDIGIT, BETWEEN, ISSPACE. change (chr "0") with 48.
  change (chr "9") with 57. change (chr " ") with 32.
  rewrite andb_true_iff, !Z.leb_le. intros Hc.
  rewrite !orb_false_iff, !Z.eqb_neq. lia.
Qed.

Lemma count_digits_no_space (bytes : list Z) :
  Forall (fun c => ISSPACE c = false) (take (count_digits bytes) bytes).
Proof.
  induction bytes as [| c rest IH]; cbn; [constructor |].
  destruct (ISDIGIT c) eqn:E; cbn; [| constructor].
  constructor; [by apply digit_no_space | done].
Qed.

Lemma extend_spans_twice (W : Spans) (pos n k : Z) :
  extend_spans (extend_spans W pos n) (pos + n) k = extend_spans W pos (n + k).
Proof.
  destruct W as [F [[a m] |]]; unfold extend_spans; cbn [fst snd];
    do 3 f_equal; lia.
Qed.

(** Bytes that are no white space extend the open word. *)
Lemma word_steps_no_space (l : list Z) :
  forall (c : Z) (W : Spans) (pos : Z),
    Forall (fun c => ISSPACE c = false) (c :: l) ->
    fold_left word_step (c :: l) (W, pos)
    = (extend_spans W pos (Z.of_nat (S (length l))),
       pos + Z.of_nat (S (length l))).
Proof.
  induction l as [| d l IH]; intros c W pos Hns;
    apply Forall_cons in Hns as [Hc Hl].
  - cbn [fold_left word_step length]. rewrite Hc. reflexivity.
  - change (fold_left word_step (c :: d :: l) (W, pos))
      with (fold_left word_step (d :: l) (word_step (W, pos) c)).
    cbn [word_step]. rewrite Hc.
    change (fst W, Some match snd W with
                        | Some (a, n) => (a, n + 1)
                        | None => (pos, 1)
                        end) with (extend_spans W pos 1).
    rewrite IH by done. rewrite extend_spans_twice.
    f_equal; [f_equal |]; cbn [length]; lia.
Qed.

(** A token at the offset of the unread bytes against the bytes it
    covers. *)
Lemma runs_match_token (T W : Spans) (pos : Z) (t : SamToken) :
  runs_match T W pos -> tok_start t = pos -> 0 < tok_length t ->
  runs_match (run_step T t) (extend_spans W pos (tok_length t))
             (pos + tok_length t).
Proof.
  destruct T as [FT oT], W as [FW [[a m] |]]; unfold runs_match, close_spans,
    extend_spans; cbn [fst snd]; intros [Hclose Hopen] Hstart Hlen.
  - destruct Hopen as [-> Hend]. apply app_inv_tail in Hclose as ->.
    unfold run_step. cbn [fst snd] in *.
    assert ((a + m =? tok_start t) = true) as -> by (apply Z.eqb_eq; lia).
    cbn [fst snd]. split; [done | split; [done | lia]].
  - rewrite app_nil_r in Hclose. subst FW.
    rewrite (run_step_apart (FT, oT) t).
    + unfold close_spans. cbn [fst snd]. rewrite Hstart.
      split; [done | split; [done | lia]].
    + cbn [snd]. destruct oT as [[b k] |]; [lia | done].
Qed.

(** White space closes the word; the runs stay as they are. *)
Lemma runs_match_space (T W : Spans) (pos : Z) :
  runs_match T W pos -> runs_match T (close_spans W, None) (pos + 1).
Proof.
  destruct T as [FT oT], W as [FW [[a m] |]]; unfold runs_match, close_spans;
    cbn [fst snd]; intros [Hclose Hopen]; rewrite app_nil_r.
  - destruct Hopen as [-> Hend]. split; [done | lia].
  - split; [done |]. destruct oT as [[b k] |]; [lia | done].
Qed.

Lemma push_fresh (s : list SamToken) (raw : s8) :
  sam_token_push s (fresh_accum raw) = s.
Proof. reflexivity. Qed.

(** One more byte for the accumulator is, for the runs, a token of one
    byte behind it. *)
Lemma push_grow_runs (s : list SamToken) (accum : SamToken) (st : Spans) :
  0 <= tok_length accum ->
  fold_left run_step (sam_token_push s (accum_grow accum)) st
  = run_step (fold_left run_step (sam_token_push s accum) st)
             (mkToken (tok_start accum + tok_length accum) 1 (tok_type accum)).
Proof.
  intros Hlen. unfold sam_token_push, accum_grow. cbn [tok_length tok_start].
  assert ((0 <? tok_length accum + 1) = true) as -> by (apply Z.ltb_lt; lia).
  rewrite fold_left_app. cbn [fold_left].
  destruct (0 <? tok_length accum) eqn:E.
  - rewrite fold_left_app. cbn [fold_left].
    destruct (fold_left run_step s st) as [F [[a n] |]];
      unfold run_step; cbn [fst snd tok_start tok_length].
    + destruct (a + n =? tok_start accum) eqn:Eadj; cbn [fst snd].
      * apply Z.eqb_eq in Eadj.
        assert ((a + (n + tok_length accum)
                 =? tok_start accum + tok_length accum) = true) as ->
          by (apply Z.eqb_eq; lia).
        do 3 f_equal. lia.
      * by rewrite Z.eqb_refl.
    + by rewrite Z.eqb_refl.
  - apply Z.ltb_ge in E. assert (tok_length accum = 0) as Hz by lia.
    rewrite Hz, Z.add_0_r. reflexivity.
Qed.

Lemma sam_lex_loop_runs (fuel : nat) :
  forall (pre rest : list Z) (s ts : list SamToken) (accum : SamToken)
         (W : Spans),
    Forall no_brace rest -> accum_at pre accum ->
    runs_match (fold_left run_step (sam_token_push s accum) ([], None)) W
               (Z.of_nat (length pre)) ->
    sam_lex_loop fuel s (mkS8 (Z.of_nat (length pre)) rest) accum = Done ts ->
    token_runs ts
    = close_spans (fst (fold_left word_step rest (W, Z.of_nat (length pre)))).
Proof.
  induction fuel as [| fuel IH]; intros pre rest s ts accum W Hnb Hacc Hm.
  - destruct rest; [| discriminate].
    cbn [sam_lex_loop s8_bytes]. intros [= <-]. by destruct Hm.
  - destruct rest as [| c rest].
    { cbn [sam_lex_loop s8_bytes]. intros [= <-]. by destruct Hm. }
    apply Forall_cons in Hnb as [[Hopen Hclose] Hnb].
    assert (Hoff : Z.of_nat (length pre) + 1
                   = Z.of_nat (length (pre ++ [c])))
      by (rewrite length_app; cbn; lia).
    destruct Hacc as (Hs0 & Hl0 & Hsum).
    cbn [sam_lex_loop s8_bytes peek].
    (* a byte that is no white space and ends up in a token of its own or
       in the accumulator *)
    assert (Hone : forall s' accum',
              ISSPACE c = false ->
              accum_at (pre ++ [c]) accum' ->
              fold_left run_step (sam_token_push s' accum') ([], None)
              = run_step
                  (fold_left run_step (sam_token_push s accum) ([], None))
                  (mkToken (Z.of_nat (length pre)) 1 ST_STRING) ->
              sam_lex_loop fuel s' (mkS8 (Z.of_nat (length (pre ++ [c]))) rest)
                           accum' = Done ts ->
              token_runs ts
              = close_spans
                  (fst (fold_left word_step (c :: rest)
                                  (W, Z.of_nat (length pre))))).
    { intros s' accum' Hsp Hacc' Hfold Hts.
      eapply (IH _ _ _ _ _ (extend_spans W (Z.of_nat (length pre)) 1))
        in Hts as ->; [| exact Hnb | exact Hacc' |].
      - cbn [fold_left word_step]. rewrite Hsp. by rewrite Hoff.
      - rewrite Hfold, <- Hoff.
        by apply (runs_match_token _ _ _
                    (mkToken (Z.of_nat (length pre)) 1 ST_STRING)). }
    destruct (ISSPACE c) eqn:Esp.
    { rewrite consume_one. change (Z.of_nat 1) with 1. rewrite Hoff. intros Hts.
      eapply (IH _ _ _ _ _ (close_spans W, None)) in Hts as ->;
        [| exact Hnb | apply fresh_accum_at |].
      - cbn [fold_left word_step]. rewrite Esp. by rewrite Hoff.
      - rewrite push_fresh, <- Hoff. by apply runs_match_space. }
    destruct (ISDIGIT c) eqn:Edig.
    { rewrite sam_token_at_head, consume_digits_head.
      set (n := count_digits (c :: rest)).
      cbn [option_map push_opt tok_start tok_type s8_data].
      replace (Z.of_nat (length pre) + Z.of_nat n - Z.of_nat (length pre))
        with (Z.of_nat n) by lia.
      assert (Hn : (1 <= n <= length (c :: rest))%nat).
      { split; [| apply count_digits_le].
        subst n. cbn [count_digits]. rewrite Edig. lia. }
      assert (Hoff' : Z.of_nat (length pre) + Z.of_nat n
                      = Z.of_nat (length (pre ++ take n (c :: rest))))
        by (rewrite length_app, length_take; lia).
      rewrite Hoff'. intros Hts.
      eapply (IH _ _ _ _ _
                 (extend_spans W (Z.of_nat (length pre)) (Z.of_nat n)))
        in Hts as ->;
        [| apply Forall_drop; by constructor | apply fresh_accum_at |].
      - assert (fold_left word_step (c :: rest) (W, Z.of_nat (length pre))
                = fold_left word_step (drop n (c :: rest))
                    (fold_left word_step (take n (c :: rest))
                               (W, Z.of_nat (length pre)))) as ->
          by (by rewrite <- fold_left_app, take_drop).
        f_equal. f_equal. f_equal.
        pose proof (count_digits_no_space (c :: rest)) as Hns. fold n in Hns.
        destruct (take n (c :: rest)) as [| d l] eqn:Etake.
        { apply (f_equal length) in Etake. rewrite length_take in Etake.
          cbn [length] in *. lia. }
        rewrite word_steps_no_space by done.
        apply (f_equal length) in Etake. rewrite length_take in Etake.
        rewrite length_app. cbn [length] in *.
        assert (n = S (length l)) as Hnl by lia.
        by rewrite <- Hnl, Nat2Z.inj_add.
      - rewrite push_fresh, fold_left_app, <- Hoff'. cbn [fold_left].
        apply (runs_match_token _ _ _
                 (mkToken (Z.of_nat (length pre)) (Z.of_nat n) ST_NUMBER));
          [done | done | cbn [tok_length]; lia]. }
    assert ((c =? chr "{") = false) as -> by (by apply Z.eqb_neq).
    assert ((c =? chr "}") = false) as -> by (by apply Z.eqb_neq).
    rewrite consume_one. change (Z.of_nat 1) with 1. rewrite Hoff.
    destruct (((c =? chr ">") || (c =? chr "<") || (c =? chr "|"))
              && (tok_length accum =? 0)) eqn:Epipe.
    { apply (Hone _ _ eq_refl (fresh_accum_at (pre ++ [c]) rest)).
      rewrite push_fresh, push_grow_runs by done. by rewrite Hsum. }
    destruct (IS_SAM_DELIMITER c) eqn:Edel.
    { rewrite sam_token_at_head. cbn [push_opt].
      apply (Hone _ _ eq_refl (fresh_accum_at (pre ++ [c]) rest)).
      rewrite push_fresh, fold_left_app. reflexivity. }
    apply (Hone _ _ eq_refl).
    + unfold accum_at, accum_grow. cbn. rewrite length_app. cbn. lia.
    + rewrite push_grow_runs by done. by rewrite Hsum.
Qed.

(** X22. On a stream whose tokens from the cursor on are valid and lie
    below the offset [2^32], [sam_tokens_to_argv] ends with the cursor at
    the end and never fails the assertion of [sam_token_join]; the
    arguments are the bytes of the runs of touching tokens, one argument
    for each run, and there are no more of them than tokens left, so the
    array it allocates is large enough. *)
Theorem sam_tokens_to_argv_runs (s : SamTokenStream) :
  all_in_reach (drop (sts_read_index s) (sts_tokens s)) ->
  (sts_read_index s <= sts_count s)%nat ->
  exists argv,
    sam_tokens_to_argv s
    = Done (argv, mkStream (sts_tokens s) (sts_raw s) (sts_count s))
    /\ argv = span_slice (sts_raw s)
                <$> token_runs (drop (sts_read_index s) (sts_tokens s))
    /\ (length argv <= sts_count s - sts_read_index s)%nat.
Proof.
  intros Hvalid Hle. eexists. split; [| split; [reflexivity |]].
  - unfold sam_tokens_to_argv, token_runs.
    apply sam_tokens_to_argv_loop_runs; try done.
    by destruct (sts_tokens s !! sts_read_index s).
  - rewrite length_fmap. unfold token_runs.
    etrans; [apply run_steps_length |].
    unfold close_spans, sts_count. cbn [fst snd length app].
    rewrite length_drop. lia.
Qed.

(** X23. On a line without braces, shorter than [2^32] bytes, lexing and
    [sam_tokens_to_argv] together split at white space: the arguments made
    of the tokens of the line are its words, in order, however the lexer
    cut the words into numbers, delimiters and strings. *)
Theorem sam_tokens_to_argv_words (line : list Z) :
  Forall no_brace line -> Z.of_nat (length line) < 2 ^ 32 ->
  exists ts,
    sam_lex line = Done ts
    /\ sam_tokens_to_argv (mkStream ts line O)
       = Done (words line, mkStream ts line (length ts)).
Proof.
  intros Hnb Hlen. unfold sam_lex.
  destruct (sam_lex_loop_roundtrip (length line) [] line []
              (fresh_accum (mkS8 0 line)) ltac:(done) Hnb)
    as (ts & Hts & _).
  { unfold accum_at, fresh_accum. cbn. lia. }
  cbn [length] in Hts. change (Z.of_nat 0) with 0 in Hts.
  exists ts. split; [done |].
  pose proof (sam_lex_lexed line ts Hts) as (Hfit & _ & _).
  pose proof (sam_lex_loop_runs (length line) [] line [] ts
                (fresh_accum (mkS8 0 line)) ([], None) Hnb) as Hruns.
  unfold sam_tokens_to_argv, sts_count.
  cbn [sts_tokens sts_raw sts_read_index]. rewrite Nat.sub_0_r.
  rewrite (sam_tokens_to_argv_loop_runs (length ts) (mkStream ts line O) []
             ([], None)); unfold sts_count;
    cbn [sts_tokens sts_raw sts_read_index]; try done; try lia.
  - rewrite drop_0. unfold words. do 3 f_equal. apply Hruns.
    + unfold accum_at, fresh_accum. cbn. lia.
    + split; [done | done].
    + done.
  - rewrite drop_0. eapply Forall_impl; [exact Hfit |].
    intros t (Ht0 & Ht1 & Ht2 & Hsl).
    split; [| split; [lia | split; lia]].
    intros Hty. unfold slice_of_type in Hsl. by rewrite Hty in Hsl.
  - by destruct (ts !! O).
Qed.

Lemma sam_tokens_to_argv_runs_witness :
  exists argv,
    sam_tokens_to_argv
      (mkStream [mkToken 0 1 ST_STRING; mkToken 2 1 ST_STRING;
                 mkToken 3 2 ST_NUMBER; mkToken 6 1 ST_DELIMITER]
                (bytes_of_string "e a12 /") 1)
    = Done (argv,
            mkStream [mkToken 0 1 ST_STRING; mkToken 2 1 ST_STRING;
                      mkToken 3 2 ST_NUMBER; mkToken 6 1 ST_DELIMITER]
                     (bytes_of_string "e a12 /") 4)
    /\ argv = [bytes_of_string "a12"; bytes_of_string "/"]
    /\ (length argv <= 3)%nat.
Proof.
  apply (sam_tokens_to_argv_runs
           (mkStream [mkToken 0 1 ST_STRING; mkToken 2 1 ST_STRING;
                      mkToken 3 2 ST_NUMBER; mkToken 6 1 ST_DELIMITER]
                     (bytes_of_string "e a12 /") 1)).
  - repeat (constructor; [split; [discriminate | cbn; lia] |]). constructor.
  - cbn. lia.
Defined.

Lemma sam_tokens_to_argv_words_witness :
  words (bytes_of_string "x/ab12/  p.q ")
  = [bytes_of_string "x/ab12/"; bytes_of_string "p.q"]
  /\ exists ts,
       sam_lex (bytes_of_string "x/ab12/  p.q ") = Done ts
       /\ sam_tokens_to_argv (mkStream ts (bytes_of_string "x/ab12/  p.q ") O)
          = Done (words (bytes_of_string "x/ab12/  p.q "),
                  mkStream ts (bytes_of_string "x/ab12/  p.q ") (length ts)).
Proof.
  split; [vm_compute; reflexivity |].
  apply sam_tokens_to_argv_words; [| cbn; lia].
  repeat (constructor; [split; discriminate |]). constructor.
Defined.

(** ** Delimited strings *)

Lemma lookup_middle_token (pre post : list SamToken) (t : SamToken) :
  (pre ++ t :: post) !! length pre = Some t.
Proof. by rewrite list_lookup_middle. Qed.

(** The loop pops the tokens inside the string and stops behind the
    closing delimiter or at the end of the stream. *)
Lemma delimited_string_loop_spans (body : list SamToken) :
  forall (fuel : nat) (pre rest : list SamToken) (raw : list Z)
         (d result : SamToken),
    Forall (inside raw d) body ->
    match rest with [] => True | c :: _ => closes raw d c = true end ->
    (length body + length rest <= fuel)%nat ->
    delimited_string_loop fuel (mkStream (pre ++ body ++ rest) raw (length pre))
                          d result
    = Done (match rest with
            | [] =>
                (result,
                 mkStream (pre ++ body ++ rest) raw (length pre + length body))
            | c :: _ =>
                (mkToken (tok_start result)
                         (u32_wrap (tok_start c - tok_start result))
                         (tok_type result),
                 mkStream (pre ++ body ++ rest) raw
                          (length pre + length body + 1))
            end).
Proof.
  induction body as [| t body IH]; intros fuel pre rest raw d result Hin Hrest
    Hfuel.
  - cbn [app length] in *. rewrite Nat.add_0_r.
    destruct rest as [| c rest].
    + assert ((pre ++ []) !! length pre = None) as Hend
        by (apply lookup_ge_None_2; rewrite length_app; cbn; lia).
      destruct fuel; cbn [delimited_string_loop];
        by rewrite (peek_end (mkStream (pre ++ []) raw (length pre)) Hend).
    + destruct fuel as [| fuel]; [cbn in Hfuel; lia |].
      cbn [delimited_string_loop].
      destruct (peek_lookup (mkStream (pre ++ c :: rest) raw (length pre)) c
                  (lookup_middle_token pre rest c)) as [-> ->].
      cbn [sts_tokens sts_raw sts_read_index].
      pose proof Hrest as Hc. unfold closes in Hc.
      apply andb_true_iff in Hc as [Hty Hbyte].
      assert (tok_type c <> ST_INVALID) as Hvalid
        by (intros E; by rewrite E in Hty).
      rewrite (type_eqb_invalid c Hvalid). unfold token_first_byte.
      cbn [sts_raw]. rewrite Hty, Hbyte. cbn [andb].
      by replace (length pre + 1)%nat with (S (length pre)) by lia.
  - apply Forall_cons in Hin as [[Hvalid Hopen] Hin].
    destruct fuel as [| fuel]; [cbn in Hfuel; lia |].
    cbn [delimited_string_loop].
    change (pre ++ (t :: body) ++ rest) with (pre ++ t :: body ++ rest).
    destruct (peek_lookup (mkStream (pre ++ t :: body ++ rest) raw (length pre))
                t (lookup_middle_token pre (body ++ rest) t)) as [-> ->].
    cbn [sts_tokens sts_raw sts_read_index].
    rewrite (type_eqb_invalid t Hvalid).
    unfold closes in Hopen. unfold token_first_byte at 1 2. cbn [sts_raw].
    rewrite Hopen.
    replace (pre ++ t :: body ++ rest) with ((pre ++ [t]) ++ body ++ rest)
      by (by rewrite <- app_assoc).
    replace (S (length pre)) with (length (pre ++ [t]))
      by (rewrite length_app; cbn; lia).
    rewrite IH; [| done | done | cbn [length] in Hfuel; lia].
    rewrite !length_app. cbn [length].
    destruct rest; do 3 f_equal; lia.
Qed.

(** X28. [sam_delimited_string] in front of a delimiter token, on a line
    shorter than [2^32] bytes whose tokens start inside it: the string
    reaches from the first token behind the delimiter up to the next
    delimiter token with the same byte, whatever tokens lie between, and
    the cursor ends behind that delimiter; without such a delimiter the
    string reaches to the end of the line and the cursor to the end of the
    stream. Two delimiters with nothing between them give the rest of the
    line from the second delimiter on; a delimiter at the end of the
    stream gives the invalid token. *)
Theorem sam_delimited_string_spans (pre body rest : list SamToken)
    (d : SamToken) (raw : list Z) :
  let tokens := pre ++ d :: body ++ rest in
  let s := mkStream tokens raw (length pre) in
  tok_type d = ST_DELIMITER ->
  Forall (inside raw d) body ->
  Forall (fun t => 0 <= tok_start t < Z.of_nat (length raw))
         (body ++ take 1 rest) ->
  Z.of_nat (length raw) < 2 ^ 32 ->
  match rest with
  | [] =>
      sam_delimited_string s
      = Done (match body with
              | [] => token_invalid
              | first :: _ =>
                  string_between (tok_start first) (Z.of_nat (length raw))
              end,
              mkStream tokens raw (length tokens))
  | c :: _ =>
      closes raw d c = true ->
      Forall (fun t => tok_start t < tok_start c) (take 1 body) ->
      sam_delimited_string s
      = Done (match body with
              | [] => string_between (tok_start c) (Z.of_nat (length raw))
              | first :: _ =>
                  string_between (tok_start first) (tok_start c)
              end,
              mkStream tokens raw (length pre + 1 + length body + 1))
  end.
Proof.
  intros tokens s Hd Hin Hreach Hraw. subst tokens s.
  assert (Hhead : sam_delimited_string
                    (mkStream (pre ++ d :: body ++ rest) raw (length pre))
                  = match delimited_string_loop (length body + length rest)
                            (mkStream ((pre ++ [d]) ++ body ++ rest) raw
                                      (length (pre ++ [d])))
                            d (mkToken (tok_start
                                          (default token_invalid
                                             (head (body ++ rest))))
                                       0 ST_INVALID) with
                    | Done (result, s2) =>
                        let result :=
                          if match body ++ rest with [] => false | _ => true end
                             && (tok_length result =? 0)
                          then mkToken (tok_start result)
                                 (u32_wrap (Z.of_nat (length (sts_raw s2))
                                            - tok_start result))
                                 (tok_type result)
                          else result in
                        let result :=
                          if negb (tok_length result =? 0)
                          then mkToken (tok_start result) (tok_length result)
                                       ST_STRING
                          else result in
                        Done (result, s2)
                    | Trapped => Trapped
                    | OutOfFuel => OutOfFuel
                    end).
  { unfold sam_delimited_string.
    destruct (peek_lookup (mkStream (pre ++ d :: body ++ rest) raw (length pre))
                d (lookup_middle_token pre (body ++ rest) d)) as [-> ->].
    rewrite Hd. cbn [SamTokenType_eqb sts_tokens sts_raw sts_read_index].
    unfold sts_count, sam_token_peek. cbn [sts_tokens sts_raw sts_read_index].
    replace (pre ++ d :: body ++ rest) with ((pre ++ [d]) ++ body ++ rest)
      by (by rewrite <- app_assoc).
    replace (S (length pre)) with (length (pre ++ [d]))
      by (rewrite length_app; cbn; lia).
    replace (length ((pre ++ [d]) ++ body ++ rest) - length (pre ++ [d]))%nat
      with (length body + length rest)%nat
      by (rewrite !length_app; lia).
    assert (((pre ++ [d]) ++ body ++ rest) !! length (pre ++ [d])
            = head (body ++ rest)) as ->.
    { rewrite lookup_app_r by lia. rewrite Nat.sub_diag.
      by destruct (body ++ rest). }
    by destruct (body ++ rest). }
  assert (Hlen : length (pre ++ d :: body ++ rest)
                 = (length (pre ++ [d]) + length body + length rest)%nat)
    by (rewrite !length_app; cbn [length]; rewrite length_app; lia).
  assert (Hpre : length (pre ++ [d]) = (length pre + 1)%nat)
    by (rewrite length_app; cbn; lia).
  assert (Hsame : (pre ++ [d]) ++ body ++ rest = pre ++ d :: body ++ rest)
    by (by rewrite <- app_assoc).
  destruct rest as [| c rest].
  - rewrite Hhead, delimited_string_loop_spans by (done || lia).
    rewrite app_nil_r in *. cbn [length] in Hlen.
    rewrite Hsame, Hlen, Nat.add_0_r.
    destruct body as [| first body].
    + cbn. done.
    + cbn [head default from_option id tok_start tok_length tok_type sts_raw].
      apply Forall_cons in Hreach as [Hfirst _].
      change (0 =? 0) with true. cbn [andb].
      unfold u32_wrap. rewrite Z.mod_small by lia.
      cbn [tok_start tok_length tok_type].
      assert ((Z.of_nat (length raw) - tok_start first =? 0) = false) as ->
        by (apply Z.eqb_neq; lia).
      done.
  - intros Hc Horder.
    rewrite Hhead, delimited_string_loop_spans by (done || lia).
    rewrite Hsame, Hpre.
    destruct body as [| first body].
    + cbn [app head default from_option id tok_start tok_length tok_type sts_raw
           length].
      rewrite Z.sub_diag. change (u32_wrap 0) with 0.
      change (0 =? 0) with true. cbn [andb].
      apply Forall_cons in Hreach as [Hfirst _].
      unfold u32_wrap. rewrite Z.mod_small by lia.
      cbn [tok_start tok_length tok_type].
      assert ((Z.of_nat (length raw) - tok_start c =? 0) = false) as ->
        by (apply Z.eqb_neq; lia).
      done.
    + cbn [app head default from_option id tok_start tok_length tok_type
           sts_raw].
      apply Forall_cons in Hreach as [Hfirst Hreach].
      apply Forall_app in Hreach as [_ Hreach].
      apply Forall_cons in Hreach as [Hcin _].
      apply Forall_cons in Horder as [Hlt _].
      unfold u32_wrap. rewrite Z.mod_small by lia.
      cbn [tok_start tok_length tok_type].
      assert ((tok_start c - tok_start first =? 0) = false) as ->
        by (apply Z.eqb_neq; lia).
      rewrite andb_false_r. cbn [negb tok_length].
      assert ((tok_start c - tok_start first =? 0) = false) as ->
        by (apply Z.eqb_neq; lia).
      done.
Qed.

Lemma sam_delimited_string_spans_witness :
  let raw := bytes_of_string "s/a b/c/" in
  let tokens := [mkToken 0 1 ST_STRING; mkToken 1 1 ST_DELIMITER;
                 mkToken 2 1 ST_STRING; mkToken 4 1 ST_STRING;
                 mkToken 5 1 ST_DELIMITER; mkToken 6 1 ST_STRING;
                 mkToken 7 1 ST_DELIMITER] in
  sam_lex raw = Done tokens
  /\ sam_delimited_string (mkStream tokens raw 1)
     = Done (mkToken 2 3 ST_STRING, mkStream tokens raw 5)
  /\ token_slice raw (mkToken 2 3 ST_STRING) = bytes_of_string "a b".
Proof.
  cbn zeta. split; [vm_compute; reflexivity | split; [| reflexivity]].
  apply (sam_delimited_string_spans
           [mkToken 0 1 ST_STRING]
           [mkToken 2 1 ST_STRING; mkToken 4 1 ST_STRING]
           [mkToken 5 1 ST_DELIMITER; mkToken 6 1 ST_STRING;
            mkToken 7 1 ST_DELIMITER]
           (mkToken 1 1 ST_DELIMITER) (bytes_of_string "s/a b/c/")).
  - reflexivity.
  - repeat (constructor; [split; [discriminate | reflexivity] |]). constructor.
  - repeat (constructor; [cbn; lia |]). constructor.
  - vm_compute. reflexivity.
  - reflexivity.
  - repeat (constructor; [cbn; lia |]). constructor.
Defined.

(** ** Integers with a radix prefix *)

Lemma lut_entries_ok : forallb lut_entry_ok (seq 0 256) = true.
Proof. vm_compute. reflexivity. Qed.

Lemma lut_value_byte (c : Z) :
  0 <= c < 256 ->
  lut_value c 15 = (if ISDIGIT c then c - chr "0" else -1)
  /\ lut_value c 63 = (if ISHEX c then hex_digit_value c else -1).
Proof.
  intros Hc. pose proof lut_entries_ok as Hall.
  rewrite forallb_forall in Hall.
  specialize (Hall (Z.to_nat c)).
  assert (In (Z.to_nat c) (seq 0 256)) as Hin by (apply in_seq; lia).
  specialize (Hall Hin). unfold lut_entry_ok in Hall.
  rewrite Z2Nat.id in Hall by lia.
  apply andb_true_iff in Hall as [H1 H2].
  by apply Z.eqb_eq in H1, H2.
Qed.

Lemma ISDIGIT_byte (c : Z) : ISDIGIT c = true -> 48 <= c <= 57.
Proof.
  unfold ISDIGIT, BETWEEN. change (chr "0") with 48. change (chr "9") with 57.
  rewrite andb_true_iff, !Z.leb_le. lia.
Qed.

Lemma ISHEX_byte (c : Z) :
  ISHEX c = true -> 48 <= c <= 102 /\ 0 <= hex_digit_value c < 16.
Proof.
  unfold ISHEX, hex_digit_value. intros Hc.
  destruct (ISDIGIT c) eqn:Ed.
  { apply ISDIGIT_byte in Ed. change (chr "0") with 48. lia. }
  cbn [orb] in Hc. unfold BETWEEN in *.
  change (chr "a") with 97 in *. change (chr "f") with 102 in *.
  change (chr "A") with 65 in *. change (chr "F") with 70 in *.
  destruct ((97 <=? c) && (c <=? 102)) eqn:El.
  { apply andb_true_iff in El. rewrite !Z.leb_le in El. lia. }
  cbn [orb] in Hc. rewrite Hc.
  apply andb_true_iff in Hc. rewrite !Z.leb_le in Hc. lia.
Qed.

(** The numeral read so far is no more than the numeral read further. *)
Lemma numeral_grows (radix : Z) (dv : Z -> Z) (cs : list Z) :
  forall acc : Z,
    1 <= radix -> Forall (fun c => 0 <= dv c) cs -> 0 <= acc ->
    acc <= fold_left (fun a c => radix * a + dv c) cs acc.
Proof.
  induction cs as [| c cs IH]; intros acc Hr Hcs Hacc; cbn [fold_left];
    [lia |].
  apply Forall_cons in Hcs as [Hc Hcs].
  etrans; [| apply IH; [done | done | nia]]. nia.
Qed.

(** The test [acc > (U64_MAX - value) / radix] asks whether one more digit
    would pass [U64_MAX]. *)
Lemma u64_fits_spec (radix value acc : Z) :
  0 < radix -> 0 <= value <= U64_MAX ->
  (acc >? (U64_MAX - value) / radix) = true <-> U64_MAX < radix * acc + value.
Proof.
  intros Hr Hv. rewrite Z.gtb_lt.
  pose proof (Z.div_mod (U64_MAX - value) radix ltac:(lia)).
  pose proof (Z.mod_pos_bound (U64_MAX - value) radix ltac:(lia)). nia.
Qed.

Lemma integer_conversion_body_value (radix clamp : Z) (dv : Z -> Z)
    (cs tail : list Z) :
  forall i acc : Z,
    1 < radix <= 16 ->
    Forall (fun c => lut_value c clamp = dv c /\ 0 <= dv c < radix) cs ->
    match tail with [] => True | c :: _ => lut_value c clamp < 0 end ->
    0 <= acc <= U64_MAX ->
    integer_conversion_body radix clamp (cs ++ tail) i acc
    = (if fold_left (fun a c => radix * a + dv c) cs acc <=? U64_MAX
       then Some (fold_left (fun a c => radix * a + dv c) cs acc,
                  i + Z.of_nat (length cs))
       else None).
Proof.
  induction cs as [| c cs IH]; intros i acc Hr Hcs Htail Hacc.
  - cbn [app fold_left length].
    assert ((acc <=? U64_MAX) = true) as -> by (apply Z.leb_le; lia).
    rewrite Z.add_0_r. destruct tail as [| c tail]; [done |].
    cbn [integer_conversion_body].
    by assert ((0 <=? lut_value c clamp) = false) as -> by (apply Z.leb_gt; lia).
  - apply Forall_cons in Hcs as [[Hc Hdv] Hcs].
    cbn [app integer_conversion_body fold_left]. rewrite Hc.
    assert ((0 <=? dv c) = true) as -> by (apply Z.leb_le; lia).
    assert (Hmax : 16 <= U64_MAX) by (unfold U64_MAX; lia).
    destruct (acc >? (U64_MAX - dv c) / radix) eqn:Efit.
    + apply u64_fits_spec in Efit; [| lia | lia].
      assert (radix * acc + dv c
              <= fold_left (fun a c => radix * a + dv c) cs (radix * acc + dv c))
        as Hge.
      { apply numeral_grows; [lia | | nia].
        eapply Forall_impl; [exact Hcs |]. cbn. intros ? [_ ?]. lia. }
      by assert ((fold_left (fun a c => radix * a + dv c) cs
                    (radix * acc + dv c) <=? U64_MAX) = false) as ->
        by (apply Z.leb_gt; lia).
    + assert (radix * acc + dv c <= U64_MAX) as Hfit.
      { destruct (Z.le_gt_cases (radix * acc + dv c) U64_MAX) as [| Hgt];
          [done |].
        apply (u64_fits_spec radix (dv c) acc) in Hgt; [| lia | lia].
        congruence. }
      unfold u64_wrap. rewrite Z.mod_small by (unfold U64_MAX in *; nia).
      rewrite IH; [| done | done | done | nia].
      replace (i + 1 + Z.of_nat (length cs))
        with (i + Z.of_nat (length (c :: cs))) by (cbn [length]; lia).
      done.
Qed.

(** The digits of a decimal numeral, as the table reads them. *)
Lemma decimal_digits_read (ds : list Z) :
  Forall is_digit ds ->
  Forall (fun c => lut_value c 15 = c - chr "0" /\ 0 <= c - chr "0" < 10)
         (digit_chars ds).
Proof.
  intros Hds. unfold digit_chars. apply Forall_map.
  eapply Forall_impl; [exact Hds |]. cbn beta. intros d Hd.
  unfold is_digit in Hd.
  change (chr "0") with 48.
  destruct (lut_value_byte (d + 48) ltac:(lia)) as [-> _].
  assert (ISDIGIT (d + 48) = true) as ->.
  { unfold ISDIGIT, BETWEEN. change (chr "0") with 48. change (chr "9") with 57.
    apply andb_true_iff. rewrite !Z.leb_le. lia. }
  change (chr "0") with 48. lia.
Qed.

Lemma decimal_digits_value (ds : list Z) :
  forall acc : Z,
    fold_left (fun a c => 10 * a + (c - chr "0")) (digit_chars ds) acc
    = decimal_from acc ds.
Proof.
  unfold decimal_from, digit_chars.
  induction ds as [| d ds IH]; intros acc; cbn [map fold_left]; [done |].
  rewrite IH. f_equal. lia.
Qed.

Lemma hex_digits_read (cs : list Z) :
  Forall (fun c => ISHEX c = true) cs ->
  Forall (fun c => lut_value c 63 = hex_digit_value c
                   /\ 0 <= hex_digit_value c < 16) cs.
Proof.
  intros Hcs. eapply Forall_impl; [exact Hcs |]. cbn beta. intros c Hc.
  destruct (ISHEX_byte c Hc) as [Hb Hv].
  destruct (lut_value_byte c ltac:(lia)) as [_ ->]. by rewrite Hc.
Qed.

Lemma stops_decimal (tail : list Z) :
  stops_at ISDIGIT tail ->
  match tail with [] => True | c :: _ => lut_value c 15 < 0 end.
Proof.
  destruct tail as [| c tail]; [done |]. intros [Hb Hc].
  destruct (lut_value_byte c Hb) as [-> _]. rewrite Hc. lia.
Qed.

Lemma stops_hex (tail : list Z) :
  stops_at ISHEX tail ->
  match tail with [] => True | c :: _ => lut_value c 63 < 0 end.
Proof.
  destruct tail as [| c tail]; [done |]. intros [Hb Hc].
  destruct (lut_value_byte c Hb) as [_ ->]. rewrite Hc. lia.
Qed.

Lemma negate_u64 (v : Z) : u64_wrap (0 - v) = (2 ^ 64 - v) mod 2 ^ 64.
Proof.
  unfold u64_wrap. replace (2 ^ 64 - v) with (0 - v + 1 * 2 ^ 64) by lia.
  by rewrite Z.mod_add by lia.
Qed.

(** Settles the comparisons of the goal that linear arithmetic decides. *)
Ltac settle_tests :=
  repeat match goal with
    | |- context [?a =? ?b] =>
        first [ replace (a =? b) with false
                  by (symmetry; apply Z.eqb_neq; lia)
              | replace (a =? b) with true
                  by (symmetry; apply Z.eqb_eq; lia) ]
    | |- context [?a <? ?b] =>
        first [ replace (a <? b) with false
                  by (symmetry; apply Z.ltb_ge; lia)
              | replace (a <? b) with true
                  by (symmetry; apply Z.ltb_lt; lia) ]
    end;
  rewrite ?andb_false_r; cbn [andb orb]; cbv beta iota zeta.

Ltac name_chars :=
  change (chr "-") with 45 in *; change (chr "0") with 48 in *;
  change (chr "x") with 120 in *; change (chr "X") with 88 in *;
  change (chr "#") with 35 in *;
  change (Z.to_nat 0) with O in *; change (Z.to_nat 1) with 1%nat in *;
  change (Z.to_nat 2) with 2%nat in *.

(** X24. [integer_conversion] on a decimal numeral, its digits followed
    by a byte that is no digit or by nothing: the result is the number the
    digits denote and the bytes behind them are left unparsed; a number
    above [U64_MAX] is reported out of range, with [U64_MAX] as the value
    and nothing parsed. Behind a minus sign the number is negated modulo
    [2^64], whatever follows the digits, so that behind a minus sign [0x]
    is read as the number 0 in front of an unparsed [x]. Without the sign
    the byte behind the digits must not be the letter of the prefix, [x]
    or [X]. *)
Theorem integer_conversion_decimal (data : Z) (ds : list Z) (tail : list Z) :
  Forall is_digit ds -> ds <> [] -> stops_at ISDIGIT tail ->
  (no_radix_letter tail ->
   integer_conversion (mkStr8 data (digit_chars ds ++ tail))
   = conversion_of (mkStr8 data (digit_chars ds ++ tail)) false
                   (decimal ds) (length ds))
  /\ integer_conversion (mkStr8 data (chr "-" :: digit_chars ds ++ tail))
     = conversion_of (mkStr8 data (chr "-" :: digit_chars ds ++ tail)) true
                     (decimal ds) (S (length ds)).
Proof.
  intros Hds Hne Htail.
  pose proof (integer_conversion_body_value 10 15 (fun c => c - chr "0")
                (digit_chars ds) tail) as Hbody.
  assert (Hlen : length (digit_chars ds) = length ds)
    by (unfold digit_chars; by rewrite length_map).
  assert (Hread : forall i,
            integer_conversion_body 10 15 (digit_chars ds ++ tail) i 0
            = if decimal ds <=? U64_MAX
              then Some (decimal ds, i + Z.of_nat (length ds)) else None).
  { intros i. rewrite Hbody;
      [| lia | by apply decimal_digits_read | by apply stops_decimal
       | unfold U64_MAX; lia].
    by rewrite decimal_digits_value, Hlen. }
  clear Hbody.
  set (bytes := digit_chars ds ++ tail) in *.
  assert (exists d, 0 <= d <= 9 /\ nth 0 bytes 0 = d + 48
                    /\ (0 < length bytes)%nat) as (d & Hd & Hn0 & Hpos).
  { subst bytes. destruct Hds as [| d ds Hd _]; [done |].
    exists d. split; [exact Hd |].
    unfold digit_chars. cbn [map app nth length]. name_chars. lia. }
  split.
  - intros Hx.
    assert (nth 1 bytes 0 <> 120 /\ nth 1 bytes 0 <> 88) as [Hx1 Hx2].
    { subst bytes. destruct Hds as [| d0 ds Hd0 Hds]; [done |].
      destruct Hds as [| d1 ds Hd1 _].
      - destruct tail as [| c tail]; [cbn; lia |].
        destruct Hx as [? ?]. name_chars. cbn [digit_chars map app nth]. lia.
      - unfold is_digit in Hd1. cbn [digit_chars map app nth]. name_chars.
        lia. }
    unfold integer_conversion, str8_length, str8_at.
    cbn [str8_bytes str8_data]. name_chars. rewrite Hn0. settle_tests.
    name_chars. rewrite Hn0. settle_tests.
    rewrite drop_0, Hread. unfold conversion_of. cbn [str8_data str8_bytes].
    destruct (decimal ds <=? U64_MAX); [| done].
    by rewrite Z.add_0_l, Nat2Z.id.
  - unfold integer_conversion, str8_length, str8_at.
    cbn [str8_bytes str8_data length]. name_chars. cbn [nth]. settle_tests.
    name_chars. cbn [nth]. rewrite Hn0. settle_tests.
    name_chars. cbn [drop]. rewrite drop_0, Hread. unfold conversion_of.
    cbn [str8_data str8_bytes].
    destruct (decimal ds <=? U64_MAX); [| done].
    rewrite negate_u64.
    replace (Z.to_nat (1 + Z.of_nat (length ds))) with (S (length ds)) by lia.
    do 2 f_equal. lia.
Qed.

(** X25. [integer_conversion] on a hexadecimal numeral, its digits
    behind one of the prefixes [0x], [0X] and [#] and followed by a byte
    that is no hexadecimal digit or by nothing: the result is the number
    the digits denote in base 16, in either letter case, or out of range
    above [U64_MAX]. A minus sign in front of [#] negates the number
    modulo [2^64]; in front of [0x] it keeps the prefix from being
    recognised, the test reading the byte at index 1 for the letter: the
    result is 0 and the bytes from the letter on are left unparsed. *)
Theorem integer_conversion_hex (data : Z) (cs tail : list Z) :
  Forall (fun c => ISHEX c = true) cs -> cs <> [] -> stops_at ISHEX tail ->
  (forall prefix,
     prefix ∈ [[chr "0"; chr "x"]; [chr "0"; chr "X"]; [chr "#"]] ->
     integer_conversion (mkStr8 data (prefix ++ cs ++ tail))
     = conversion_of (mkStr8 data (prefix ++ cs ++ tail)) false
                     (hex_value cs) (length prefix + length cs))
  /\ integer_conversion (mkStr8 data (chr "-" :: chr "#" :: cs ++ tail))
     = conversion_of (mkStr8 data (chr "-" :: chr "#" :: cs ++ tail)) true
                     (hex_value cs) (2 + length cs)
  /\ integer_conversion
       (mkStr8 data (chr "-" :: chr "0" :: chr "x" :: cs ++ tail))
     = conversion_of
         (mkStr8 data (chr "-" :: chr "0" :: chr "x" :: cs ++ tail)) true 0 2.
Proof.
  intros Hcs Hne Htail.
  assert (Hread : forall i,
            integer_conversion_body 16 63 (cs ++ tail) i 0
            = if hex_value cs <=? U64_MAX
              then Some (hex_value cs, i + Z.of_nat (length cs)) else None).
  { intros i.
    by rewrite (integer_conversion_body_value 16 63 hex_digit_value cs tail);
      [| lia | by apply hex_digits_read | by apply stops_hex
       | unfold U64_MAX; lia]. }
  assert (0 < length (cs ++ tail))%nat as Hpos
    by (destruct cs; [done | cbn; lia]).
  set (bytes := cs ++ tail) in *.
  split; [| split].
  - intros prefix Hp.
    assert (prefix = [48; 120] \/ prefix = [48; 88] \/ prefix = [35])
      as [-> | [-> | ->]].
    { name_chars.
      apply elem_of_cons in Hp as [-> | Hp]; [by left |].
      apply elem_of_cons in Hp as [-> | Hp]; [by right; left |].
      apply elem_of_cons in Hp as [-> | Hp]; [by right; right |].
      by apply elem_of_nil in Hp. }
    + unfold integer_conversion, str8_length, str8_at.
      cbn [str8_bytes str8_data length app]. name_chars. cbn [nth].
      settle_tests. name_chars. cbn [nth]. settle_tests.
      change (0 + 2) with 2. name_chars. cbn [drop]. rewrite drop_0, Hread.
      unfold conversion_of. cbn [str8_data str8_bytes].
      destruct (hex_value cs <=? U64_MAX); [| done].
      replace (Z.to_nat (2 + Z.of_nat (length cs))) with (2 + length cs)%nat
        by lia.
      do 2 f_equal. lia.
    + unfold integer_conversion, str8_length, str8_at.
      cbn [str8_bytes str8_data length app]. name_chars. cbn [nth].
      settle_tests. name_chars. cbn [nth]. settle_tests.
      change (0 + 2) with 2. name_chars. cbn [drop]. rewrite drop_0, Hread.
      unfold conversion_of. cbn [str8_data str8_bytes].
      destruct (hex_value cs <=? U64_MAX); [| done].
      replace (Z.to_nat (2 + Z.of_nat (length cs))) with (2 + length cs)%nat
        by lia.
      do 2 f_equal. lia.
    + unfold integer_conversion, str8_length, str8_at.
      cbn [str8_bytes str8_data length app]. name_chars. cbn [nth].
      settle_tests. name_chars. cbn [nth]. settle_tests.
      change (0 + 1) with 1. name_chars. cbn [drop]. rewrite drop_0, Hread.
      unfold conversion_of. cbn [str8_data str8_bytes].
      destruct (hex_value cs <=? U64_MAX); [| done].
      replace (Z.to_nat (1 + Z.of_nat (length cs))) with (1 + length cs)%nat
        by lia.
      do 2 f_equal. lia.
  - unfold integer_conversion, str8_length, str8_at.
    cbn [str8_bytes str8_data length app]. name_chars. cbn [nth].
    settle_tests. name_chars. cbn [nth]. settle_tests.
    change (1 + 1) with 2. name_chars. cbn [drop]. rewrite drop_0, Hread.
    unfold conversion_of. cbn [str8_data str8_bytes].
    destruct (hex_value cs <=? U64_MAX); [| done].
    rewrite negate_u64.
    replace (Z.to_nat (2 + Z.of_nat (length cs))) with (2 + length cs)%nat
      by lia.
    do 2 f_equal. lia.
  - unfold integer_conversion, str8_length, str8_at.
    cbn [str8_bytes str8_data length app]. name_chars. cbn [nth].
    settle_tests. name_chars. cbn [nth]. settle_tests.
    name_chars. cbn [drop integer_conversion_body].
    change (lut_value 48 15) with 0. change (lut_value 120 15) with (-1).
    reflexivity.
Qed.

Lemma integer_conversion_decimal_witness :
  integer_conversion (mkStr8 100 (bytes_of_string "42;"))
  = mkIntegerConversion IntegerConversionResult_Success 42
      (mkStr8 102 (bytes_of_string ";"))
  /\ integer_conversion (mkStr8 100 (bytes_of_string "-1"))
     = mkIntegerConversion IntegerConversionResult_Success (2 ^ 64 - 1)
         (mkStr8 102 [])
  /\ integer_conversion (mkStr8 100 (bytes_of_string "18446744073709551616"))
     = mkIntegerConversion IntegerConversionResult_OutOfRange U64_MAX
         (mkStr8 100 (bytes_of_string "18446744073709551616")).
Proof.
  split; [| split].
  - apply (proj1 (integer_conversion_decimal 100 [4; 2] [59]
                    ltac:(repeat constructor; unfold is_digit; lia)
                    ltac:(discriminate)
                    ltac:(split; [lia | reflexivity]))).
    split; discriminate.
  - apply (proj2 (integer_conversion_decimal 100 [1] []
                    ltac:(repeat constructor; unfold is_digit; lia)
                    ltac:(discriminate) I)).
  - apply (proj1 (integer_conversion_decimal 100
                    [1; 8; 4; 4; 6; 7; 4; 4; 0; 7; 3; 7; 0; 9; 5; 5; 1; 6; 1; 6]
                    []
                    ltac:(repeat constructor; unfold is_digit; lia)
                    ltac:(discriminate) I)).
    exact I.
Defined.

Lemma integer_conversion_hex_witness :
  integer_conversion (mkStr8 100 (bytes_of_string "0x1fG"))
  = mkIntegerConversion IntegerConversionResult_Success 31
      (mkStr8 104 (bytes_of_string "G"))
  /\ integer_conversion (mkStr8 100 (bytes_of_string "-0x1f"))
     = mkIntegerConversion IntegerConversionResult_Success 0
         (mkStr8 102 (bytes_of_string "x1f")).
Proof.
  split.
  - apply (proj1 (integer_conversion_hex 100 [49; 102] [71]
                    ltac:(repeat constructor)
                    ltac:(discriminate)
                    ltac:(split; [lia | reflexivity])) [48; 120]).
    repeat constructor.
  - apply (proj2 (proj2 (integer_conversion_hex 100 [49; 102] []
                           ltac:(repeat constructor)
                           ltac:(discriminate) I))).
Defined.

(** ** Scanning and splitting strings *)

Lemma memory_scan_reverse_none (memory : list Z) (byte : Z) (n : nat) :
  (n <= length memory)%nat -> byte ∉ memory ->
  memory_scan_reverse memory byte n = None.
Proof.
  intros Hn Hout. induction n as [| n IH]; [done |].
  cbn [memory_scan_reverse].
  destruct (nth n memory 0 =? byte) eqn:E; [| apply IH; lia].
  apply Z.eqb_eq in E. destruct Hout. rewrite <- E.
  apply list_elem_of_In, nth_In. lia.
Qed.

Lemma memory_scan_reverse_last (d b : list Z) (byte : Z) (m : nat) :
  (m <= length b)%nat -> byte ∉ b ->
  memory_scan_reverse (d ++ byte :: b) byte (length d + 1 + m)
  = Some (length d).
Proof.
  intros Hm Hout. induction m as [| m IH].
  - replace (length d + 1 + 0)%nat with (S (length d)) by lia.
    cbn [memory_scan_reverse].
    rewrite app_nth2 by lia. rewrite Nat.sub_diag. cbn [nth].
    by rewrite Z.eqb_refl.
  - replace (length d + 1 + S m)%nat with (S (length d + 1 + m)) by lia.
    cbn [memory_scan_reverse].
    rewrite app_nth2 by lia.
    replace (length d + 1 + m - length d)%nat with (S m) by lia.
    cbn [nth].
    destruct (nth m b 0 =? byte) eqn:E; [| apply IH; lia].
    apply Z.eqb_eq in E. destruct Hout. rewrite <- E.
    apply list_elem_of_In, nth_In. lia.
Qed.

Lemma memory_scan_forward_none (memory : list Z) (byte : Z) :
  forall at_ : nat,
    byte ∉ memory -> memory_scan_forward memory byte at_ = None.
Proof.
  induction memory as [| c rest IH]; intros at_ Hout; [done |].
  cbn [memory_scan_forward]. apply not_elem_of_cons in Hout as [Hne Hout].
  assert ((c =? byte) = false) as -> by (apply Z.eqb_neq; congruence).
  cbn [negb]. by apply IH.
Qed.

Lemma memory_scan_forward_first (l r : list Z) (byte : Z) :
  forall at_ : nat,
    byte ∉ l ->
    memory_scan_forward (l ++ byte :: r) byte at_ = Some (at_ + length l)%nat.
Proof.
  induction l as [| c l IH]; intros at_ Hout.
  - cbn [app memory_scan_forward length]. rewrite Z.eqb_refl. cbn [negb].
    f_equal. lia.
  - cbn [app memory_scan_forward length].
    apply not_elem_of_cons in Hout as [Hne Hout].
    assert ((c =? byte) = false) as -> by (apply Z.eqb_neq; congruence).
    cbn [negb]. rewrite IH by done. f_equal. lia.
Qed.

(** [str8_split_at] at an index inside the string. *)
Lemma str8_split_at_inside (data : Z) (l r : list Z) (c : Z) :
  str8_split_at (mkStr8 data (l ++ c :: r)) (Z.of_nat (length l))
  = (mkStr8 data l, mkStr8 (data + Z.of_nat (length l) + 1) r).
Proof.
  unfold str8_split_at, str8_length. cbn [str8_bytes str8_data].
  rewrite length_app. cbn [length].
  assert ((0 <=? Z.of_nat (length l))
          && (Z.of_nat (length l) <=? Z.of_nat (length l + S (length r)))
          = true) as ->.
  { apply andb_true_iff. rewrite !Z.leb_le. lia. }
  rewrite Nat2Z.id, take_app_length.
  replace (Z.to_nat (Z.of_nat (length l) + 1)) with (length l + 1)%nat by lia.
  rewrite <- drop_drop, drop_app_length. cbn [drop]. rewrite drop_0.
  rewrite take_ge by lia. done.
Qed.

(** [str8_split_at] at an index in front of the string. *)
Lemma str8_split_at_outside (s : str8) (n : Z) :
  n < 0 -> str8_split_at s n = (s, str8_zero).
Proof.
  intros Hn. unfold str8_split_at.
  assert ((0 <=? n) = false) as -> by (apply Z.leb_gt; lia). done.
Qed.

(** X26. [str8_split] of a string that is not null cuts at the first
    occurrence of the byte: the left part is what precedes it, the right
    part what follows it; a string without the byte is handed back whole,
    next to the zero string. *)
Theorem str8_split_at_first_byte (s : str8) (byte : Z) :
  0 < str8_data s ->
  (byte ∉ str8_bytes s -> str8_split s byte = (s, str8_zero))
  /\ (forall l r,
        str8_bytes s = l ++ byte :: r -> byte ∉ l ->
        str8_split s byte
        = (mkStr8 (str8_data s) l,
           mkStr8 (str8_data s + Z.of_nat (length l) + 1) r)).
Proof.
  intros Hdata. destruct s as [data bytes]. cbn [str8_data str8_bytes] in *.
  unfold str8_split. cbn [str8_data str8_bytes]. split.
  - intros Hout. rewrite memory_scan_forward_none by done.
    unfold scan_pointer, NULL. apply str8_split_at_outside. lia.
  - intros l r -> Hout. rewrite memory_scan_forward_first by done.
    unfold scan_pointer.
    replace (data + Z.of_nat (0 + length l) - data) with (Z.of_nat (length l))
      by lia.
    apply str8_split_at_inside.
Qed.

(** X27. [path_split] of a path that is not null cuts at the last slash:
    the base name is what follows it, the directory what precedes it. The
    directory of a path without a slash is the string ".", the path being
    the base name; so is the directory of a path whose only slash is its
    first byte, as in [/name]. *)
Theorem path_split_at_last_slash (dot : str8) (path : str8) :
  0 < str8_data path ->
  (chr "/" ∉ str8_bytes path -> path_split dot path = (dot, path))
  /\ (forall d b,
        str8_bytes path = d ++ chr "/" :: b -> chr "/" ∉ b ->
        fst (path_split dot path) = directory_of dot (str8_data path) d
        /\ str8_bytes (snd (path_split dot path)) = b
        /\ (b <> [] ->
            snd (path_split dot path)
            = mkStr8 (str8_data path + Z.of_nat (length d) + 1) b)).
Proof.
  intros Hdata. destruct path as [data bytes].
  cbn [str8_data str8_bytes] in *. split.
  - intros Hout. unfold path_split, str8_length. cbn [str8_data str8_bytes].
    rewrite memory_scan_reverse_none by (done || lia).
    unfold scan_pointer, NULL.
    rewrite str8_split_at_outside by lia.
    change (Z.of_nat (length (str8_bytes str8_zero))) with 0.
    assert ((0 - data <=? 0) = true) as -> by (apply Z.leb_le; lia).
    cbn [Z.eqb andb str8_bytes str8_zero length].
    change (Z.of_nat 0 =? 0) with true. cbn match.
    by destruct dot.
  - intros d b -> Hout. unfold path_split, str8_length.
    cbn [str8_data str8_bytes].
    replace (Z.to_nat (Z.of_nat (length (d ++ chr "/" :: b))))
      with (length d + 1 + length b)%nat
      by (rewrite length_app; cbn [length]; lia).
    rewrite memory_scan_reverse_last by (done || lia).
    unfold scan_pointer.
    replace (data + Z.of_nat (length d) - data) with (Z.of_nat (length d))
      by lia.
    rewrite str8_split_at_inside. cbn [str8_bytes str8_data].
    destruct b as [| c b].
    + (* the path ends in its last slash *)
      cbn [length]. change (Z.of_nat 0 =? 0) with true. cbn [andb].
      destruct d as [| c d].
      * cbn [length]. change (Z.of_nat 0 <=? 0) with true. cbn match.
        cbn [str8_bytes str8_zero length fst snd directory_of].
        change (Z.of_nat 0 =? 0) with true. cbn match. done.
      * assert ((Z.of_nat (length (c :: d)) <=? 0) = false) as ->
          by (apply Z.leb_gt; cbn [length]; lia).
        cbn match. cbn [str8_bytes fst snd directory_of].
        assert ((Z.of_nat (length (c :: d)) =? 0) = false) as ->
          by (apply Z.eqb_neq; cbn [length]; lia).
        done.
    + assert ((Z.of_nat (length (c :: b)) =? 0) = false) as ->
        by (apply Z.eqb_neq; cbn [length]; lia).
      cbn [andb]. cbn match. cbn [str8_bytes fst snd].
      destruct d as [| c' d].
      * cbn [length directory_of]. change (Z.of_nat 0 =? 0) with true.
        cbn match. done.
      * assert ((Z.of_nat (length (c' :: d)) =? 0) = false) as ->
          by (apply Z.eqb_neq; cbn [length]; lia).
        done.
Qed.

Lemma str8_split_at_first_byte_witness :
  str8_split (mkStr8 100 (bytes_of_string "a=b=c")) (chr "=")
  = (mkStr8 100 (bytes_of_string "a"), mkStr8 102 (bytes_of_string "b=c"))
  /\ str8_split (mkStr8 100 (bytes_of_string "abc")) (chr "=")
     = (mkStr8 100 (bytes_of_string "abc"), str8_zero).
Proof.
  split.
  - apply (proj2 (str8_split_at_first_byte
                    (mkStr8 100 (bytes_of_string "a=b=c")) (chr "=")
                    ltac:(vm_compute; reflexivity))
                 (bytes_of_string "a") (bytes_of_string "b=c")
                 eq_refl).
    intros Hin. by repeat (apply elem_of_cons in Hin as [Hin | Hin];
                           [discriminate |]); apply elem_of_nil in Hin.
  - apply (proj1 (str8_split_at_first_byte
                    (mkStr8 100 (bytes_of_string "abc")) (chr "=")
                    ltac:(cbn; lia))).
    intros Hin. by repeat (apply elem_of_cons in Hin as [Hin | Hin];
                           [discriminate |]); apply elem_of_nil in Hin.
Defined.

Lemma path_split_at_last_slash_witness :
  let dot := mkStr8 7 (bytes_of_string ".") in
  path_split dot (mkStr8 100 (bytes_of_string "src/vis/sam.c"))
  = (mkStr8 100 (bytes_of_string "src/vis"), mkStr8 108 (bytes_of_string "sam.c"))
  /\ path_split dot (mkStr8 100 (bytes_of_string "sam.c"))
     = (dot, mkStr8 100 (bytes_of_string "sam.c"))
  /\ fst (path_split dot (mkStr8 100 (bytes_of_string "/sam.c"))) = dot.
Proof.
  cbn zeta. split; [vm_compute; reflexivity | split].
  - apply (proj1 (path_split_at_last_slash
                    (mkStr8 7 (bytes_of_string "."))
                    (mkStr8 100 (bytes_of_string "sam.c"))
                    ltac:(vm_compute; reflexivity))).
    intros Hin. by repeat (apply elem_of_cons in Hin as [Hin | Hin];
                           [discriminate |]); apply elem_of_nil in Hin.
  - apply (proj1 (proj2 (path_split_at_last_slash
                    (mkStr8 7 (bytes_of_string "."))
                    (mkStr8 100 (bytes_of_string "/sam.c"))
                    ltac:(vm_compute; reflexivity))
                   [] (bytes_of_string "sam.c") eq_refl
                   ltac:(intros Hin;
                         by repeat (apply elem_of_cons in Hin as [Hin | Hin];
                                    [discriminate |]);
                         apply elem_of_nil in Hin))).
Defined.

(** ** Hexadecimal numbers *)

Lemma hex_digit_step (c res : Z) :
  0 <= res ->
  (if ISDIGIT c then Z.lor (16 * res) (c - chr "0")
   else if ISHEX c then Z.lor (16 * res) (u8_wrap (Z.lor c 32) - 87)
   else 16 * res)
  = 16 * res + hex_digit_value c
  /\ 0 <= hex_digit_value c < 16.
Proof.
  intros Hres. unfold hex_digit_value, ISHEX.
  assert (Hlor : forall d, 0 <= d < 16 -> Z.lor (16 * res) d = 16 * res + d).
  { intros d Hd. rewrite Z.lor_comm.
    replace (16 * res) with (res * 2 ^ 4) by lia.
    rewrite lor_above by lia. lia. }
  destruct (ISDIGIT c) eqn:Ed.
  { unfold ISDIGIT, BETWEEN in Ed. change (chr "0") with 48 in *.
    change (chr "9") with 57 in Ed.
    apply andb_true_iff in Ed. rewrite !Z.leb_le in Ed.
    split; [apply Hlor |]; lia. }
  cbn [orb].
  destruct (BETWEEN c (chr "a") (chr "f")) eqn:El.
  { unfold BETWEEN in El. change (chr "a") with 97 in *.
    change (chr "f") with 102 in El.
    apply andb_true_iff in El. rewrite !Z.leb_le in El.
    assert (u8_wrap (Z.lor c 32) = c) as ->.
    { assert (c = 97 \/ c = 98 \/ c = 99 \/ c = 100 \/ c = 101 \/ c = 102)
        as Hc by lia.
      destruct Hc as [-> | [-> | [-> | [-> | [-> | ->]]]]]; reflexivity. }
    cbn [orb]. split; [rewrite Hlor by lia |]; lia. }
  cbn [orb].
  destruct (BETWEEN c (chr "A") (chr "F")) eqn:Eu; [| lia].
  unfold BETWEEN in Eu. change (chr "A") with 65 in *.
  change (chr "F") with 70 in Eu.
  apply andb_true_iff in Eu. rewrite !Z.leb_le in Eu.
  assert (u8_wrap (Z.lor c 32) = c + 32) as ->.
  { assert (c = 65 \/ c = 66 \/ c = 67 \/ c = 68 \/ c = 69 \/ c = 70)
      as Hc by lia.
    destruct Hc as [-> | [-> | [-> | [-> | [-> | ->]]]]]; reflexivity. }
  cbn [orb]. split; [rewrite Hlor by lia |]; lia.
Qed.

Lemma s8_hex_to_u32_loop_value (bytes : list Z) (res : Z) :
  0 <= res -> (res + 1) * 16 ^ Z.of_nat (length bytes) <= 2 ^ 32 ->
  s8_hex_to_u32_loop bytes res
  = fold_left (fun acc c => 16 * acc + hex_digit_value c) bytes res
  /\ 0 <= s8_hex_to_u32_loop bytes res
     < (res + 1) * 16 ^ Z.of_nat (length bytes).
Proof.
  revert res. induction bytes as [| c rest IH]; intros res Hres Hfit.
  - cbn. lia.
  - cbn [s8_hex_to_u32_loop fold_left].
    replace (Z.of_nat (length (c :: rest)))
      with (Z.of_nat (length rest) + 1) in * by (cbn [length]; lia).
    rewrite Z.pow_add_r in * by lia. change (16 ^ 1) with 16 in *.
    assert (0 < 16 ^ Z.of_nat (length rest)) as Hpow
      by (apply Z.pow_pos_nonneg; lia).
    assert (Z.shiftl res 4 = 16 * res) as Hsh
      by (rewrite Z.shiftl_mul_pow2 by lia; lia).
    assert (16 * res < 2 ^ 32) as Hlt by nia.
    unfold u32_wrap. rewrite Hsh, Z.mod_small by lia.
    destruct (hex_digit_step c res Hres) as [-> Hd].
    destruct (IH (16 * res + hex_digit_value c) ltac:(lia) ltac:(nia))
      as [-> Hb].
    split; [done |]. nia.
Qed.

(** X16. [s8_hex_to_u32] is the value in base 16 of the first eight
    bytes at most, a byte that is no hexadecimal digit counting as the
    digit 0; the shifts never lose a bit. *)
Theorem s8_hex_to_u32_value (s : list Z) :
  s8_hex_to_u32 s = hex_value (take 8 s)
  /\ 0 <= s8_hex_to_u32 s < 2 ^ 32.
Proof.
  unfold s8_hex_to_u32, hex_value.
  assert (take (Z.to_nat (Z.min (Z.of_nat (length s)) 8)) s = take 8 s) as ->.
  { destruct (Z.le_gt_cases (Z.of_nat (length s)) 8).
    - rewrite Z.min_l by lia. rewrite Nat2Z.id.
      rewrite firstn_all. symmetry. apply take_ge. lia.
    - rewrite Z.min_r by lia. done. }
  assert (Z.of_nat (length (take 8 s)) <= 8) as Hlen
    by (rewrite length_take; lia).
  assert (16 ^ Z.of_nat (length (take 8 s)) <= 16 ^ 8) as Hpow
    by (apply Z.pow_le_mono_r; lia).
  change (16 ^ 8) with (2 ^ 32) in Hpow.
  destruct (s8_hex_to_u32_loop_value (take 8 s) 0 ltac:(lia) ltac:(lia))
    as [Hv Hb].
  split; [exact Hv | lia].
Qed.

(** ** Further examples *)

Lemma group_end_fails_closing_assertion_witness :
  let sts := mkStream [mkToken 0 1 ST_GROUP_START; mkToken 2 1 ST_STRING;
                       mkToken 4 1 ST_GROUP_END]
                      (bytes_of_string "{ p } ") O in
  stream_of_line (bytes_of_string "{ p } ") = Some sts
  /\ snd (@execute_token_stream obliging_engine tt sam_init_cmds sts)
     <> Finished.
Proof.
  cbn zeta. split; [vm_compute; reflexivity |].
  apply (@group_end_fails_closing_assertion obliging_engine).
  - vm_compute. reflexivity.
  - vm_compute. lia.
Defined.

Lemma parse_address_well_formed_witness :
  exists addr sts' log',
    @AddressParser.parse_address plain_lookups
      (mkStream [mkToken 0 1 ST_NUMBER; mkToken 1 1 ST_DELIMITER;
                 mkToken 2 1 ST_NUMBER; mkToken 3 1 ST_STRING]
                (bytes_of_string "1,5p") O) [] = Some (addr, sts', log')
    /\ IS_SAM_ADDRESS_DELIMITER (delimeter addr) = true
    /\ left_side_ok (left addr)
    /\ read_on 5
         (mkStream [mkToken 0 1 ST_NUMBER; mkToken 1 1 ST_DELIMITER;
                    mkToken 2 1 ST_NUMBER; mkToken 3 1 ST_STRING]
                   (bytes_of_string "1,5p") O) sts'.
Proof.
  apply (@parse_address_well_formed plain_lookups). cbn. lia.
Defined.


Lemma vis_cmd_register_unregister_witness :
  let def := mkDef "hello" command_user
               (flag_set [CMD_ARGV; CMD_FORCE; CMD_ONCE; CMD_ADDRESS_ALL]) in
  vis_cmd_unregister
    (mkRegistry {["hello"%string := def]}
                (Some {["hello"%string := mkCmdUser def 1 2]}))
    (Some "hello"%string)
  = (true, mkRegistry ∅ (Some ∅)).
Proof.
  cbn zeta.
  apply (vis_cmd_register_unregister (mkRegistry ∅ None) _ "hello"%string 1 2
           (mkAllocs true true true)).
  unfold vis_cmd_register, map_put. cbn [usercmds cmds map_new_ok put_cmds_ok
    put_usercmds_ok]. rewrite !lookup_empty. cbn.
  by rewrite !insert_empty.
Defined.
